From Stdlib Require Import ZArith QArith Lia.
From Stdlib Require Import Strings.Byte.
From stdpp Require Import base option list sorting.

(** * A shallow embedding of the generic skip list engine (skiplist.go, element.go)

    The engine is pointer code: nodes reference each other through forward
    arrays ([levels]) and two backward references ([prev], [prevTopLevel]),
    and the list header is itself an [elementHeader].  The embedding keeps
    that shape: elements live in an arena ([heap]) and are addressed by their
    index, a Go pointer is an [option ptr] ([None] is [nil]), every operation
    passes the state explicitly and returns a [result], whose [Panic] case is
    a Go run-time panic.

    Idealisations, all of them on the side of the code:
    - Go's [int] counters ([length], slice lengths) are unbounded here: both
      are bounded by the number of allocated nodes, which never reaches 2^63;
    - [float64] is idealised as [Q]; [DefaultProbability] (1/e) is a rational
      approximation.  No theorem below depends on its value;
    - allocation never fails. *)


(** ** Results of a call *)

Inductive panic :=
  | NilDeref          (* nil pointer dereference *)
  | IndexOutOfRange   (* slice index or slice bound out of range *)
  | PanicKeyNotFound  (* panic(fmt.Errorf("skiplist: cannot find key ...")) *)
  | PanicLevel        (* panic(fmt.Errorf("skiplist: level must be larger than 0 ...")) *)
  | Dangling.         (* an address outside the arena: no Go pointer is one *)

Inductive result (A : Type) :=
  | Ok (a : A)
  | Panic (p : panic)
  | OutOfFuel.
Arguments Ok {A} a.
Arguments Panic {A} p.
Arguments OutOfFuel {A}.

#[global] Instance result_ret : MRet result := λ A a, Ok a.
#[global] Instance result_bind : MBind result := λ A B f m,
  match m with
  | Ok a => f a
  | Panic p => Panic p
  | OutOfFuel => OutOfFuel
  end.
#[global] Instance result_fmap : FMap result := λ A B f m,
  match m with
  | Ok a => Ok (f a)
  | Panic p => Panic p
  | OutOfFuel => OutOfFuel
  end.

(** ** Pointers and slices *)

Abbreviation ptr := nat (only parsing).

(** [*elementHeader]: the header of the list or the header embedded in an
    element ([&list.elementHeader], [&elem.elementHeader]). *)
Inductive href :=
  | HList
  | HElem (p : ptr).

#[global] Instance href_eq_dec : EqDecision href.
Proof. solve_decision. Defined.

(** [elementHeader]: the slice [levels], with the part of its backing array
    beyond [len(levels)] kept in [spare] ([cap(levels)] is the length of
    both). *)
Record elementHeader := mkHeader {
  levels : list (option ptr);
  spare : list (option ptr)
}.

(** [s[i]] *)
Definition index {A} (l : list A) (i : nat) : result A :=
  match l !! i with
  | Some x => Ok x
  | None => Panic IndexOutOfRange
  end.

(** [s[i] = x] *)
Definition store_index {A} (l : list A) (i : nat) (x : A) : result (list A) :=
  if decide (i < length l) then Ok (<[i := x]> l) else Panic IndexOutOfRange.

(** [h.levels = h.levels[:n]], legal up to the capacity. *)
Definition reslice (h : elementHeader) (n : nat) : result elementHeader :=
  let arr := levels h ++ spare h in
  if decide (n ≤ length arr) then Ok (mkHeader (take n arr) (drop n arr))
  else Panic IndexOutOfRange.

(** [for i := from; i < from+n; i++ { body }] *)
Fixpoint for_range {St : Type} (from n : nat) (body : nat → St → result St) (s : St)
    : result St :=
  match n with
  | 0 => Ok s
  | S n => s ← body from s; for_range (S from) n body s
  end.

(** ** Constants *)

Definition DefaultMaxLevel : nat := 18.
Definition DefaultProbability : Q := 36787944117 # 100000000000.

(** [probabilityTable]: entry [i-1] is [probability^(i-1)], for [i] from 1 to
    [MaxLevel]. *)
Definition probabilityTable (probability : Q) (MaxLevel : nat) : list Q :=
  map (λ i, Qpower probability (Z.of_nat (i - 1))) (seq 1 MaxLevel).

Definition Qltb (a b : Q) : bool := negb (Qle_bool b a).

(** A value as a Go [int] (64 bits, two's complement) keeps it. *)
Definition int64 (z : Z) : Z := ((z + 2 ^ 63) mod 2 ^ 64 - 2 ^ 63)%Z.

(** comparable.go: [Reverse(comparable)]; the negation is the one of Go's
    [int], which maps the least [int] to itself. *)
Definition Reverse {K} (comparable : K → K → Z) : K → K → Z :=
  λ lhs rhs, int64 (- comparable lhs rhs).

Definition NumberComparator (lk rk : Z) : Z :=
  if (lk >? rk)%Z then 1%Z else if (lk <? rk)%Z then (-1)%Z else 0%Z.

Section Engine.

Context {K V : Type}.

(** ** Data model *)

Record Element := mkElement {
  ehdr : elementHeader;          (* embedded elementHeader *)
  Value : V;
  key : K;
  prev : option ptr;             (* previous adjacent element *)
  prevTopLevel : option ptr;     (* previous element pointing to this one at its top level *)
  list_ : option nat             (* the list containing this element *)
}.

Record SkipList := mkSkipList {
  lhdr : elementHeader;          (* embedded elementHeader *)
  probTable : list Q;
  comparable : K → K → Z;
  randSeq : nat → Z;             (* the values Int63() is going to return *)
  randPos : nat;                 (* how many of them were drawn *)
  maxLevel : nat;
  length_ : Z;
  back : option ptr
}.

(** The arena of elements, the list, and the address of the list (what an
    element's [list] field is compared with). *)
Record state := mkState {
  heap : list Element;
  sl : SkipList;
  this : nat
}.

Definition set_heap (st : state) (h : list Element) : state :=
  mkState h (sl st) (this st).
Definition set_sl (st : state) (l : SkipList) : state :=
  mkState (heap st) l (this st).

Definition set_ehdr (h : elementHeader) (e : Element) : Element :=
  mkElement h (Value e) (key e) (prev e) (prevTopLevel e) (list_ e).
Definition set_Value (v : V) (e : Element) : Element :=
  mkElement (ehdr e) v (key e) (prev e) (prevTopLevel e) (list_ e).
Definition set_prev (p : option ptr) (e : Element) : Element :=
  mkElement (ehdr e) (Value e) (key e) p (prevTopLevel e) (list_ e).
Definition set_prevTopLevel (p : option ptr) (e : Element) : Element :=
  mkElement (ehdr e) (Value e) (key e) (prev e) p (list_ e).

Definition set_lhdr (h : elementHeader) (l : SkipList) : SkipList :=
  mkSkipList h (probTable l) (comparable l) (randSeq l) (randPos l)
             (maxLevel l) (length_ l) (back l).
Definition set_length (n : Z) (l : SkipList) : SkipList :=
  mkSkipList (lhdr l) (probTable l) (comparable l) (randSeq l) (randPos l)
             (maxLevel l) n (back l).
Definition set_back (b : option ptr) (l : SkipList) : SkipList :=
  mkSkipList (lhdr l) (probTable l) (comparable l) (randSeq l) (randPos l)
             (maxLevel l) (length_ l) b.
Definition set_randPos (n : nat) (l : SkipList) : SkipList :=
  mkSkipList (lhdr l) (probTable l) (comparable l) (randSeq l) n
             (maxLevel l) (length_ l) (back l).
Definition set_levelling (t : list Q) (m : nat) (l : SkipList) : SkipList :=
  mkSkipList (lhdr l) t (comparable l) (randSeq l) (randPos l)
             m (length_ l) (back l).

(** ** Memory access *)

(** [*p] for a non-nil [p] *)
Definition deref (st : state) (p : ptr) : result Element :=
  match heap st !! p with
  | Some e => Ok e
  | None => Panic Dangling
  end.

(** [*p] *)
Definition load (st : state) (p : option ptr) : result (ptr * Element) :=
  match p with
  | None => Panic NilDeref
  | Some q => e ← deref st q; Ok (q, e)
  end.

(** [p.field = ...] *)
Definition update (st : state) (p : ptr) (f : Element → Element) : result state :=
  e ← deref st p; Ok (set_heap st (<[p := f e]> (heap st))).

(** [*h] for an [*elementHeader] *)
Definition header (st : state) (h : href) : result elementHeader :=
  match h with
  | HList => Ok (lhdr (sl st))
  | HElem p => e ← deref st p; Ok (ehdr e)
  end.

Definition set_header (st : state) (h : href) (eh : elementHeader) : result state :=
  match h with
  | HList => Ok (set_sl st (set_lhdr eh (sl st)))
  | HElem p => update st p (set_ehdr eh)
  end.

(** [h.levels[i]] *)
Definition levels_at (st : state) (h : href) (i : nat) : result (option ptr) :=
  eh ← header st h; index (levels eh) i.

(** [h.levels[i] = v] *)
Definition set_levels_at (st : state) (h : href) (i : nat) (v : option ptr)
    : result state :=
  eh ← header st h;
  l ← store_index (levels eh) i v;
  set_header st h (mkHeader l (spare eh)).

(** [h.levels[i]] through a possibly nil [*elementHeader] *)
Definition href_load (h : option href) : result href :=
  match h with
  | None => Panic NilDeref
  | Some h => Ok h
  end.

(** [header.Element()]: the element a header is embedded in; the cast maps
    nil to nil.  The engine never applies it to the header of the list. *)
Definition href_Element (h : option href) : option ptr :=
  match h with
  | Some (HElem p) => Some p
  | _ => None
  end.

(** ** element.go *)

Definition newElement (st : state) (level : nat) (k : K) (value : V) : ptr * state :=
  let e := mkElement (mkHeader (replicate level None) []) value k None None
                     (Some (this st)) in
  (length (heap st), set_heap st (heap st ++ [e])).

Definition Level (e : Element) : nat := length (levels (ehdr e)).

(** [elem.Next()] *)
Definition Next (e : Element) : option ptr :=
  match levels (ehdr e) with
  | [] => None
  | n :: _ => n
  end.

(** [elem.Prev()] *)
Definition Prev (e : Element) : option ptr := prev e.

(** [elem.NextLevel(level)], [level] being a Go int *)
Definition NextLevel (e : Element) (level : Z) : option ptr :=
  if decide (level < 0 ∨ Z.of_nat (Level e) ≤ level)%Z then None
  else default None (levels (ehdr e) !! Z.to_nat level).

(** [elem.reset()] *)
Definition reset (e : Element) : Element :=
  mkElement (mkHeader [] (levels (ehdr e) ++ spare (ehdr e)))
            (Value e) (key e) None None None.

(** ** skiplist.go *)

(** [New(comparable)], with the random source made explicit. *)
Definition New (cmp : K → K → Z) (rnd : nat → Z) : SkipList :=
  mkSkipList (mkHeader (replicate DefaultMaxLevel None) [])
             (probabilityTable DefaultProbability DefaultMaxLevel)
             cmp rnd 0 DefaultMaxLevel 0 None.

Definition Init (st : state) : state :=
  let l := sl st in
  set_sl st (set_lhdr (mkHeader (replicate (length (levels (lhdr l))) None) [])
                      (set_length 0 (set_back None l))).

Definition Front (st : state) : result (option ptr) :=
  index (levels (lhdr (sl st))) 0.

Definition Back (st : state) : option ptr := back (sl st).

Definition Len (st : state) : Z := length_ (sl st).

Definition MaxLevel (st : state) : nat := maxLevel (sl st).

(** [list.compare(key, rhs)] *)
Definition compare (st : state) (k : K) (rhs : option ptr) : result Z :=
  '(_, e) ← load st rhs; Ok (comparable (sl st) k (key e)).

(** [list.rand.Int63()]: a value in [0, 2^63) *)
Definition Int63 (st : state) : Z * state :=
  let l := sl st in
  ((randSeq l (randPos l) mod 2 ^ 63)%Z, set_sl st (set_randPos (S (randPos l)) l)).

(** The loop of [randLevel]; [fuel] bounds the number of iterations. *)
Fixpoint randLevel_loop (fuel : nat) (l : SkipList) (r : Q) (level : nat) : result nat :=
  if level <? maxLevel l then
    p ← index (probTable l) level;
    if Qltb r p then
      match fuel with
      | 0 => OutOfFuel
      | S fuel => randLevel_loop fuel l r (S level)
      end
    else Ok level
  else Ok level.

Definition randLevel (st : state) : result (nat * state) :=
  let '(z, st) := Int63 st in
  let r := (z # 2 ^ 63)%Q in
  level ← randLevel_loop (maxLevel (sl st)) (sl st) r 1;
  Ok (level, st).

(** *** Set *)

(** What the search of [Set] ends with: the element holding the key, or the
    headers preceding the insertion point at every level. *)
Inductive found :=
  | Hit (next : ptr)
  | Miss (prevElemHeaders : list (option href)).

(** The inner loop of the search,
    [for next := prevHeader.levels[i]; next != nil; next = prevHeader.levels[i]].
    [inl next]: the key was found at [next]; [inr]: the loop ended, by its
    condition or by [break]. *)
Fixpoint Set_advance (fuel : nat) (st : state) (k : K) (i : nat) (prevHeader : href)
    (prevElemHeaders : list (option href))
    : result (ptr + href * list (option href)) :=
  match fuel with
  | 0 => OutOfFuel
  | S fuel =>
    next ← levels_at st prevHeader i;
    match next with
    | None => Ok (inr (prevHeader, prevElemHeaders))
    | Some nx =>
      comp ← compare st k next;
      if (comp <=? 0)%Z then
        if (comp =? 0)%Z then Ok (inl nx)
        else Ok (inr (prevHeader, prevElemHeaders))
      else
        prevElemHeaders ← store_index prevElemHeaders i (Some (HElem nx));
        Set_advance fuel st k i (HElem nx) prevElemHeaders
    end
  end.

(** [for i--; i >= 0 && prevHeader.levels[i] == topLevel; i-- {
       prevElemHeaders[i] = prevHeader }].
    The counter is [n = i + 1], taken after the initial [i--]; the result is
    the counter the loop leaves. *)
Fixpoint Set_skip (st : state) (prevHeader : href) (topLevel : option ptr) (n : nat)
    (prevElemHeaders : list (option href)) : result (nat * list (option href)) :=
  match n with
  | 0 => Ok (0, prevElemHeaders)
  | S i =>
    x ← levels_at st prevHeader i;
    if decide (x = topLevel) then
      prevElemHeaders ← store_index prevElemHeaders i (Some prevHeader);
      Set_skip st prevHeader topLevel i prevElemHeaders
    else Ok (S i, prevElemHeaders)
  end.

(** [for i := max - 1; i >= 0; { ... }], with the counter [n = i + 1]. *)
Fixpoint Set_search (fuel : nat) (st : state) (k : K) (n : nat) (prevHeader : href)
    (prevElemHeaders : list (option href)) : result found :=
  match n with
  | 0 => Ok (Miss prevElemHeaders)
  | S i =>
    match fuel with
    | 0 => OutOfFuel
    | S fuel =>
      prevElemHeaders ← store_index prevElemHeaders i (Some prevHeader);
      r ← Set_advance (S (length (heap st))) st k i prevHeader prevElemHeaders;
      match r with
      | inl next => Ok (Hit next)
      | inr (prevHeader, prevElemHeaders) =>
        topLevel ← levels_at st prevHeader i;
        '(n, prevElemHeaders) ← Set_skip st prevHeader topLevel i prevElemHeaders;
        Set_search fuel st k n prevHeader prevElemHeaders
      end
    end
  end.

(** [for i := 0; i < level; i++ {
       elem.levels[i] = prevElemHeaders[i].levels[i]
       prevElemHeaders[i].levels[i] = elem }] *)
Definition Set_splice (elem : ptr) (prevElemHeaders : list (option href)) (i : nat)
    (st : state) : result state :=
  ph ← index prevElemHeaders i;
  h ← href_load ph;
  nx ← levels_at st h i;
  st ← set_levels_at st (HElem elem) i nx;
  ph ← index prevElemHeaders i;
  h ← href_load ph;
  set_levels_at st h i (Some elem).

(** [for i := level - 1; i >= 0; i-- {
       if elem.levels[i] != nil { largestLevel = i + 1; break } }],
    with the counter [n = i + 1]. *)
Fixpoint Set_largestLevel (st : state) (elem : ptr) (n : nat) : result nat :=
  match n with
  | 0 => Ok 0
  | S i =>
    x ← levels_at st (HElem elem) i;
    match x with
    | Some _ => Ok (S i)
    | None => Set_largestLevel st elem i
    end
  end.

(** [for i := 0; i < largestLevel; {
       next := elem.levels[i]
       nextLevel := next.Level()
       if nextLevel <= level { next.prevTopLevel = elem }
       i = nextLevel }] *)
Fixpoint Set_adjust (fuel : nat) (elem : ptr) (level largestLevel i : nat) (st : state)
    : result state :=
  if i <? largestLevel then
    match fuel with
    | 0 => OutOfFuel
    | S fuel =>
      next ← levels_at st (HElem elem) i;
      '(nx, ne) ← load st next;
      let nextLevel := Level ne in
      st ← (if nextLevel <=? level
            then update st nx (set_prevTopLevel (Some elem)) else Ok st);
      Set_adjust fuel elem level largestLevel nextLevel st
    end
  else Ok st.

Definition Set' (k : K) (value : V) (st : state) : result (ptr * state) :=
  if (length_ (sl st) =? 0)%Z then
    (* Happy path for empty list. *)
    '(level, st) ← randLevel st;
    let '(elem, st) := newElement st level k value in
    st ← for_range 0 level (λ i st, set_levels_at st HList i (Some elem)) st;
    let st := set_sl st (set_back (Some elem) (sl st)) in
    let st := set_sl st (set_length (length_ (sl st) + 1) (sl st)) in
    Ok (elem, st)
  else
    (* Find out previous elements on every possible levels. *)
    let max := length (levels (lhdr (sl st))) in
    r ← Set_search (S max) st k max HList (replicate max None);
    match r with
    | Hit elem =>
      st ← update st elem (set_Value value);
      Ok (elem, st)
    | Miss prevElemHeaders =>
      (* Create a new element. *)
      '(level, st) ← randLevel st;
      let '(elem, st) := newElement st level k value in
      (* Set up prev element. *)
      p0 ← index prevElemHeaders 0;
      st ← (if decide (p0 ≠ Some HList)
            then update st elem (set_prev (href_Element p0)) else Ok st);
      (* Set up prevTopLevel. *)
      pt ← match level with
           | 0 => Panic IndexOutOfRange
           | S l => index prevElemHeaders l
           end;
      st ← (if decide (pt ≠ Some HList)
            then update st elem (set_prevTopLevel (href_Element pt)) else Ok st);
      (* Set up levels. *)
      st ← for_range 0 level (Set_splice elem prevElemHeaders) st;
      (* Find out the largest level with next element. *)
      largestLevel ← Set_largestLevel st elem level;
      (* Adjust prev and prevTopLevel of next elements. *)
      next ← levels_at st (HElem elem) 0;
      st ← match next with
           | Some nx => update st nx (set_prev (Some elem))
           | None => Ok st
           end;
      st ← Set_adjust (S level) elem level largestLevel 0 st;
      (* If the elem is the last element, set it as back. *)
      e ← deref st elem;
      let st := if decide (Next e = None)
                then set_sl st (set_back (Some elem) (sl st)) else st in
      let st := set_sl st (set_length (length_ (sl st) + 1) (sl st)) in
      Ok (elem, st)
    end.

(** *** findNext, FindNext, Find, Get *)

(** The inner loop of [findNext]; the result carries the current [elem].
    [inl]: the function returns [elem]; [inr]: the loop ended. *)
Fixpoint findNext_advance (fuel : nat) (st : state) (k : K) (i : nat)
    (prevHeader : href) (elem : option ptr)
    : result (option ptr + href * option ptr) :=
  match fuel with
  | 0 => OutOfFuel
  | S fuel =>
    next ← levels_at st prevHeader i;
    match next with
    | None => Ok (inr (prevHeader, elem))
    | Some nx =>
      comp ← compare st k next;
      if (comp <=? 0)%Z then
        if (comp =? 0)%Z then Ok (inl next)
        else Ok (inr (prevHeader, next))
      else findNext_advance fuel st k i (HElem nx) elem
    end
  end.

(** [for i--; i >= 0 && prevHeader.levels[i] == topLevel; i-- {}] *)
Fixpoint findNext_skip (st : state) (prevHeader : href) (topLevel : option ptr)
    (n : nat) : result nat :=
  match n with
  | 0 => Ok 0
  | S i =>
    x ← levels_at st prevHeader i;
    if decide (x = topLevel) then findNext_skip st prevHeader topLevel i
    else Ok (S i)
  end.

(** [for i >= 0 { ... }], with the counter [n = i + 1]. *)
Fixpoint findNext_loop (fuel : nat) (st : state) (k : K) (n : nat)
    (prevHeader : href) (elem : option ptr) : result (option ptr) :=
  match n with
  | 0 => Ok elem
  | S i =>
    match fuel with
    | 0 => OutOfFuel
    | S fuel =>
      r ← findNext_advance (S (length (heap st))) st k i prevHeader elem;
      match r with
      | inl elem => Ok elem
      | inr (prevHeader, elem) =>
        topLevel ← levels_at st prevHeader i;
        n ← findNext_skip st prevHeader topLevel i;
        findNext_loop fuel st k n prevHeader elem
      end
    end
  end.

Definition findNext (start : option ptr) (k : K) (st : state) : result (option ptr) :=
  if (length_ (sl st) =? 0)%Z then Ok None
  else
    c1 ← match start with
         | None => front ← Front st; c ← compare st k front; Ok (c <=? 0)%Z
         | Some _ => Ok false
         end;
    if c1 : bool then Front st
    else
      c2 ← match start with
           | Some _ => c ← compare st k start; Ok (c <=? 0)%Z
           | None => Ok false
           end;
      if c2 : bool then Ok start
      else
        c ← compare st k (Back st);
        if (c >? 0)%Z then Ok None
        else
          let prevHeader := match start with
                            | None => HList
                            | Some s => HElem s
                            end in
          eh ← header st prevHeader;
          let n := length (levels eh) in
          findNext_loop (S n) st k n prevHeader None.

Definition FindNext (start : option ptr) (k : K) (st : state) : result (option ptr) :=
  findNext start k st.

Definition Find (k : K) (st : state) : result (option ptr) :=
  FindNext None k st.

Definition Get (k : K) (st : state) : result (option ptr) :=
  firstElem ← findNext None k st;
  match firstElem with
  | None => Ok None
  | Some _ =>
    c ← compare st k firstElem;
    if (c =? 0)%Z then Ok firstElem else Ok None
  end.

(** [GetValue]: the value is meaningful when the flag is [true]. *)
Definition GetValue (k : K) (st : state) : result (option V) :=
  element ← Get k st;
  match element with
  | None => Ok None
  | Some p => e ← deref st p; Ok (Some (Value e))
  end.

Definition MustGetValue (k : K) (st : state) : result V :=
  element ← Get k st;
  match element with
  | None => Panic PanicKeyNotFound
  | Some p => e ← deref st p; Ok (Value e)
  end.

(** *** RemoveElement, Remove, RemoveFront, RemoveBack *)

(** [for ; max < prevLevel && max < level; max++ { prevElems[max] = prev }] *)
Fixpoint Remove_fill (fuel : nat) (prevLevel level : nat) (prev : option ptr)
    (max : nat) (prevElems : list (option ptr)) : result (nat * list (option ptr)) :=
  if (max <? prevLevel) && (max <? level) then
    match fuel with
    | 0 => OutOfFuel
    | S fuel =>
      prevElems ← store_index prevElems max prev;
      Remove_fill fuel prevLevel level prev (S max) prevElems
    end
  else Ok (max, prevElems).

(** [for prev = prev.prevTopLevel; prev != nil && prev.Level() == prevLevel;
         prev = prev.prevTopLevel {}], entered with [prev.prevTopLevel]. *)
Fixpoint Remove_climb (fuel : nat) (st : state) (prevLevel : nat) (prev : option ptr)
    : result (option ptr) :=
  match prev with
  | None => Ok None
  | Some p =>
    e ← deref st p;
    if Level e =? prevLevel then
      match fuel with
      | 0 => OutOfFuel
      | S fuel => Remove_climb fuel st prevLevel (prevTopLevel e)
      end
    else Ok prev
  end.

(** [for prev != nil && max < level { ... }] *)
Fixpoint Remove_prevs (fuel : nat) (st : state) (level : nat) (prev : option ptr)
    (max : nat) (prevElems : list (option ptr)) : result (nat * list (option ptr)) :=
  match prev with
  | None => Ok (max, prevElems)
  | Some p =>
    if max <? level then
      match fuel with
      | 0 => OutOfFuel
      | S fuel =>
        e ← deref st p;
        let prevLevel := Level e in
        '(max, prevElems) ← Remove_fill (S level) prevLevel level prev max prevElems;
        prev ← Remove_climb (S (length (heap st))) st prevLevel (prevTopLevel e);
        Remove_prevs fuel st level prev max prevElems
      end
    else Ok (max, prevElems)
  end.

(** [for i := 0; i < max; i++ { prevElems[i].levels[i] = elem.levels[i] }] *)
Definition Remove_unlink (elem : ptr) (prevElems : list (option ptr)) (i : nat)
    (st : state) : result state :=
  v ← levels_at st (HElem elem) i;
  pe ← index prevElems i;
  '(p, _) ← load st pe;
  set_levels_at st (HElem p) i v.

(** [for i := max; i < level; i++ { list.levels[i] = elem.levels[i] }] *)
Definition Remove_unlink_head (elem : ptr) (i : nat) (st : state) : result state :=
  v ← levels_at st (HElem elem) i;
  set_levels_at st HList i v.

(** [for i := 0; i < level; {
       next := elem.levels[i]
       if next == nil || next.prevTopLevel != elem { break }
       i = next.Level()
       next.prevTopLevel = prevElems[i-1] }] *)
Fixpoint Remove_adjust (fuel : nat) (elem : ptr) (level : nat)
    (prevElems : list (option ptr)) (i : nat) (st : state) : result state :=
  if i <? level then
    match fuel with
    | 0 => OutOfFuel
    | S fuel =>
      next ← levels_at st (HElem elem) i;
      match next with
      | None => Ok st
      | Some nx =>
        ne ← deref st nx;
        if decide (prevTopLevel ne ≠ Some elem) then Ok st
        else
          let i := Level ne in
          pe ← match i with
               | 0 => Panic IndexOutOfRange
               | S j => index prevElems j
               end;
          st ← update st nx (set_prevTopLevel pe);
          Remove_adjust fuel elem level prevElems i st
      end
    end
  else Ok st.

Definition RemoveElement (elem : option ptr) (st : state) : result state :=
  match elem with
  | None => Ok st
  | Some x =>
    e ← deref st x;
    if decide (list_ e ≠ Some (this st)) then Ok st
    else
      let level := Level e in
      (* Find out all previous elements. *)
      '(max, prevElems) ←
        Remove_prevs (S level) st level (prev e) 0 (replicate level None);
      (* Adjust prev elements which point to elem directly. *)
      st ← for_range 0 max (Remove_unlink x prevElems) st;
      st ← for_range max (level - max) (Remove_unlink_head x) st;
      (* Adjust prev and prevTopLevel of next elements. *)
      e ← deref st x;
      st ← match Next e with
           | Some nx => update st nx (set_prev (prev e))
           | None => Ok st
           end;
      st ← Remove_adjust (S level) x level prevElems 0 st;
      (* Adjust list.Back() if necessary. *)
      e ← deref st x;
      let st := if decide (back (sl st) = Some x)
                then set_sl st (set_back (prev e) (sl st)) else st in
      let st := set_sl st (set_length (length_ (sl st) - 1) (sl st)) in
      update st x reset
  end.

Definition Remove (k : K) (st : state) : result (option ptr * state) :=
  elem ← Get k st;
  match elem with
  | None => Ok (None, st)
  | Some _ => st ← RemoveElement elem st; Ok (elem, st)
  end.

Definition RemoveFront (st : state) : result (option ptr * state) :=
  if (length_ (sl st) =? 0)%Z then Ok (None, st)
  else
    front ← Front st;
    st ← RemoveElement front st;
    Ok (front, st).

Definition RemoveBack (st : state) : result (option ptr * state) :=
  if (length_ (sl st) =? 0)%Z then Ok (None, st)
  else
    let back := back (sl st) in
    st ← RemoveElement back st;
    Ok (back, st).

(** *** SetMaxLevel *)

(** [for i := old - 1; i >= level; i-- {
       if list.levels[i] != nil { level = i; break } }],
    with the counter [n = i + 1]; the result is the value [level] has after
    the loop. *)
Fixpoint SetMaxLevel_scan (lv : list (option ptr)) (level n : nat) : result nat :=
  match n with
  | 0 => Ok level
  | S i =>
    if level <=? i then
      x ← index lv i;
      match x with
      | Some _ => Ok i
      | None => SetMaxLevel_scan lv level i
      end
    else Ok level
  end.

Definition SetMaxLevel (level : Z) (st : state) : result (Z * state) :=
  if (level <=? 0)%Z then Panic PanicLevel
  else
    let level := Z.to_nat level in
    let l := set_levelling (probabilityTable DefaultProbability level) level (sl st) in
    let st := set_sl st l in
    let old := length (levels (lhdr l)) in
    if level =? old then Ok (Z.of_nat old, st)
    else if level <? old then
      level ← SetMaxLevel_scan (levels (lhdr l)) level old;
      h ← reslice (lhdr l) level;
      Ok (Z.of_nat old, set_sl st (set_lhdr h l))
    else if level <=? length (levels (lhdr l) ++ spare (lhdr l)) then
      h ← reslice (lhdr l) level;
      Ok (Z.of_nat old, set_sl st (set_lhdr h l))
    else
      (* levels := make([]*Element, level); copy(levels, list.levels) *)
      let lv := levels (lhdr l) ++ replicate (level - old) None in
      Ok (Z.of_nat old, set_sl st (set_lhdr (mkHeader lv []) l)).

End Engine.

(** * More of the engine: the accessors of element.go, and the comparators *)

(** ** Machine integers *)

(** A value as a Go [uint64] keeps it. *)
Definition uint64 (z : Z) : Z := (z mod 2 ^ 64)%Z.

(** [x << s] on [uint64]: the bits shifted beyond bit 63 are lost. *)
Definition shl64 (x s : Z) : Z :=
  if (s <? 64)%Z then uint64 (Z.shiftl x s) else 0%Z.

(** ** The comparators of byte strings *)

(** [bytesScore(data)]: the first 8 bytes of [data] as a big-endian
    [uint64].  The index [i] stays below [l], which is at most
    [len(data)]. *)
Definition bytesScore (data : list byte) : Z :=
  let l := length data in
  let l := if 8 <? l then 8 else l in
  fold_left
    (λ score i,
       let shift := uint64 (64 - 8 - Z.of_nat i * 8) in
       Z.lor score (shl64 (uint64 (Z.of_N (Byte.to_N (nth i data "000"%byte)))) shift))
    (seq 0 l) 0%Z.

Definition BytesComparator (lk rk : list byte) : Z :=
  let lhs := bytesScore lk in
  let rhs := bytesScore rk in
  if (lhs >? rhs)%Z then 1%Z else if (lhs <? rhs)%Z then (-1)%Z else 0%Z.

Section Accessors.

Context {K V : Type}.
Implicit Types (st : @state K V) (e : @Element K V).

(** ** element.go *)

(** [for prev != nil { if level < len(prev.levels) { return prev };
       prev = prev.prevTopLevel }; return prev] *)
Fixpoint PrevLevel_loop (fuel : nat) st (level : nat) (prev : option ptr)
    : result (option ptr) :=
  match prev with
  | None => Ok None
  | Some p =>
    e ← deref st p;
    if level <? Level e then Ok prev
    else
      match fuel with
      | 0 => OutOfFuel
      | S fuel => PrevLevel_loop fuel st level (prevTopLevel e)
      end
  end.

(** [elem.PrevLevel(level)], [level] being a Go int *)
Definition PrevLevel st (elem : option ptr) (level : Z) : result (option ptr) :=
  '(_, e) ← load st elem;
  if decide (level < 0 ∨ Z.of_nat (Level e) ≤ level)%Z then Ok None
  else if (level =? 0)%Z then Ok (prev e)
  else if (level =? Z.of_nat (Level e) - 1)%Z then Ok (prevTopLevel e)
  else PrevLevel_loop (length (heap st)) st (Z.to_nat level) (prev e).

(** [copy(dst[at:], src)] as a new value of [dst]: as many elements as
    both hold. *)
Definition copy_at {A} (dst : list A) (at_ : nat) (src : list A) : list A :=
  take at_ dst ++ take (length dst - at_) src ++ drop (at_ + length src) dst.

(** [for bp := 1; bp < len(levels); bp *= 2 { copy(levels[bp:], levels[:bp]) }] *)
Fixpoint resetLevels_loop (fuel : nat) (levels : list (option ptr)) (bp : nat)
    : result (list (option ptr)) :=
  if bp <? length levels then
    match fuel with
    | 0 => OutOfFuel
    | S fuel => resetLevels_loop fuel (copy_at levels bp (take bp levels)) (bp * 2)
    end
  else Ok levels.

(** [resetLevels(levels)] *)
Definition resetLevels (levels : list (option ptr)) : result (list (option ptr)) :=
  levels ← store_index levels 0 None;
  resetLevels_loop (length levels) levels 1.

(** ** skiplist.go *)

(** [list.SetRandSource(source)]: the values that [source] is going to
    give replace those of the former one. *)
Definition SetRandSource (source : nat → Z) st : state :=
  let l := sl st in
  set_sl st (mkSkipList (lhdr l) (probTable l) (comparable l) source 0
                        (maxLevel l) (length_ l) (back l)).

End Accessors.

(** * Specification-level definitions *)

(** The laws a comparator has to obey: a total order up to the keys it
    declares equal. *)
Record Comparator {K} (cmp : K → K → Z) : Prop := {
  cmp_anti : ∀ a b, Z.sgn (cmp b a) = (- Z.sgn (cmp a b))%Z;
  cmp_trans : ∀ a b c, (cmp a b ≤ 0)%Z → (cmp b c ≤ 0)%Z → (cmp a c ≤ 0)%Z
}.

Section Spec.

Context {K V : Type}.
Implicit Types (st : @state K V) (e : @Element K V).

(** ** The abstract view of a list: its nodes in level-0 order *)

Record anode := mkA { aptr : ptr; alvl : nat; akey : K }.

(** The first node of [l] that has a level above [i]: what a forward
    pointer of level [i] references when [l] is what follows. *)
Fixpoint nxt (i : nat) (l : list anode) : option ptr :=
  match l with
  | [] => None
  | a :: l => if i <? alvl a then Some (aptr a) else nxt i l
  end.

(** The last node of [l] whose level is at least [L]. *)
Fixpoint lastge (L : nat) (l : list anode) : option ptr :=
  match l with
  | [] => None
  | a :: l =>
    match lastge L l with
    | Some p => Some p
    | None => if L <=? alvl a then Some (aptr a) else None
    end
  end.

(** The header preceding the end of [pre] at level [i]: the last node of
    [pre] with a level above [i], or the header of the list. *)
Definition predh (i : nat) (pre : list anode) : href :=
  match lastge (S i) pre with
  | Some p => HElem p
  | None => HList
  end.

Definition hlen st : nat := length (levels (lhdr (sl st))).

(** Every node of [ns] is allocated, owned by the list, and has the level
    and the key [ns] gives it. *)
Definition base st (ns : list anode) : Prop :=
  ∀ a, a ∈ ns →
    ∃ e, heap st !! aptr a = Some e ∧ Level e = alvl a ∧ key e = akey a
         ∧ list_ e = Some (this st).

(** The forward pointers of level [i] are those of [ns]. *)
Definition fwd st (i : nat) (ns : list anode) : Prop :=
  (i < hlen st → levels (lhdr (sl st)) !! i = Some (nxt i ns)) ∧
  ∀ pre a post e, ns = pre ++ a :: post → heap st !! aptr a = Some e →
    i < alvl a → levels (ehdr e) !! i = Some (nxt i post).

(** [prev] is the level-0 predecessor. *)
Definition bprev st (ns : list anode) : Prop :=
  ∀ pre a post e, ns = pre ++ a :: post → heap st !! aptr a = Some e →
    prev e = aptr <$> last pre.

(** [prevTopLevel] is the nearest predecessor that is at least as high. *)
Definition btop st (ns : list anode) : Prop :=
  ∀ pre a post e, ns = pre ++ a :: post → heap st !! aptr a = Some e →
    prevTopLevel e = lastge (alvl a) pre.

(** The same two, restricted to the nodes that satisfy [P]: what holds
    while an insertion or a removal is under way. *)
Definition bprev_on (P : anode → Prop) st (ns : list anode) : Prop :=
  ∀ pre a post e, ns = pre ++ a :: post → heap st !! aptr a = Some e →
    P a → prev e = aptr <$> last pre.

Definition btop_on (P : anode → Prop) st (ns : list anode) : Prop :=
  ∀ pre a post e, ns = pre ++ a :: post → heap st !! aptr a = Some e →
    P a → prevTopLevel e = lastge (alvl a) pre.

(** The elements the list owns are the nodes of [ns]. *)
Definition owned st (ns : list anode) : Prop :=
  ∀ p e, heap st !! p = Some e → list_ e = Some (this st) → p ∈ aptr <$> ns.

(** What a step leaves alone in an element: its level, key, value and owner,
    and, as the parameters say, its forward pointers of the levels in [fl],
    its [prev] and its [prevTopLevel]. *)
Definition keeps (fl : nat → Prop) (fp ft : bool) e e' : Prop :=
  Level e' = Level e ∧ key e' = key e ∧ list_ e' = list_ e
  ∧ Value e' = Value e
  ∧ (∀ i, fl i → levels (ehdr e') !! i = levels (ehdr e) !! i)
  ∧ (fp → prev e' = prev e)
  ∧ (ft → prevTopLevel e' = prevTopLevel e).

(** What a step leaves alone in a state: no element is allocated, every
    element keeps what [keeps] says, and the list keeps everything but the
    forward pointers of its header at the levels outside [fl]. *)
Definition frame (fl : nat → Prop) (fp ft : bool) st st' : Prop :=
  this st' = this st
  ∧ Forall2 (keeps fl fp ft) (heap st) (heap st')
  ∧ ∃ lv, sl st' = set_lhdr (mkHeader lv (spare (lhdr (sl st)))) (sl st)
          ∧ length lv = hlen st
          ∧ (∀ i, fl i → lv !! i = levels (lhdr (sl st)) !! i).

Definition all_levels : nat → Prop := λ _, True.
Definition no_level : nat → Prop := λ _, False.

Definition key_lt st (a b : anode) : Prop :=
  (comparable (sl st) (akey a) (akey b) < 0)%Z.

(** The representation invariant: [st] holds exactly the nodes [ns]. *)
Record WF st (ns : list anode) : Prop := {
  wf_nodup : NoDup (aptr <$> ns);
  wf_sorted : StronglySorted (key_lt st) ns;
  wf_lvl : ∀ a, a ∈ ns → 1 ≤ alvl a ≤ hlen st;
  wf_base : base st ns;
  wf_fwd : ∀ i, fwd st i ns;
  wf_prev : bprev st ns;
  wf_top : btop st ns;
  wf_owned : ∀ p e, heap st !! p = Some e → list_ e = Some (this st) →
             p ∈ aptr <$> ns;
  wf_back : back (sl st) = aptr <$> last ns;
  wf_len : length_ (sl st) = Z.of_nat (length ns);
  wf_max : 1 ≤ maxLevel (sl st) ≤ hlen st;
  wf_prob : length (probTable (sl st)) = maxLevel (sl st)
}.

(** The nodes whose key is below [k], and the others. *)
Definition below st (k : K) (a : anode) : Prop :=
  (0 < comparable (sl st) k (akey a))%Z.
Definition notbelow st (k : K) (a : anode) : Prop :=
  (comparable (sl st) k (akey a) ≤ 0)%Z.

(** A position in the list: the header of the list, or a node, with its
    level, the nodes up to and including it, and the nodes after it. *)
Inductive at_pos st (ns : list anode)
    : href → nat → list anode → list anode → Prop :=
  | at_head : at_pos st ns HList (hlen st) [] ns
  | at_node l0 a l : ns = l0 ++ a :: l →
      at_pos st ns (HElem (aptr a)) (alvl a) (l0 ++ [a]) l.

(** [st'] is [st] with one more element allocated. *)
Definition allocated st st' e : Prop :=
  heap st' = heap st ++ [e] ∧ this st' = this st ∧ lhdr (sl st') = lhdr (sl st).

(** A node of [post] whose [prevTopLevel] does not depend on a node of
    level [L] standing right before [post]: a node at least as high stands
    between them, or the node is higher than [L]. *)
Definition shadowed (L : nat) (post : list anode) (a : anode) : Prop :=
  ∀ m l, post = m ++ a :: l → lastge (alvl a) m ≠ None ∨ L < alvl a.

(** The forward pointers of level [i], as the positions see them. *)
Definition fwd_at st (i : nat) (ns : list anode) : Prop :=
  ∀ h L before after, at_pos st ns h L before after → i < L →
    levels_at st h i = Ok (nxt i after).

(** ** The list as its callers see it *)

(** The level-0 chain: the elements met from [p] by [Next]. *)
Fixpoint chain_from (fuel : nat) st (p : option ptr) : list ptr :=
  match fuel, p with
  | S fuel, Some q =>
    q :: match heap st !! q with
         | Some e => chain_from fuel st (Next e)
         | None => []
         end
  | _, _ => []
  end.

(** The level-0 chain from the header of the list. *)
Definition chain st : list ptr :=
  chain_from (length (heap st)) st (default None (levels (lhdr (sl st)) !! 0)).

Definition level_at st (p : ptr) : nat :=
  match heap st !! p with
  | Some e => Level e
  | None => 0
  end.

(** The last element of [l] that has at least [L] levels. *)
Definition nearest_ge st (L : nat) (l : list ptr) : option ptr :=
  last (filter (λ q, L ≤ level_at st q) l).

(** The key [k] is at most the key of [p], equal to it, above it. *)
Definition key_le st (k : K) (p : ptr) : Prop :=
  ∃ e, heap st !! p = Some e ∧ (comparable (sl st) k (key e) ≤ 0)%Z.
Definition key_eq st (k : K) (p : ptr) : Prop :=
  ∃ e, heap st !! p = Some e ∧ comparable (sl st) k (key e) = 0%Z.
Definition key_gt st (k : K) (p : ptr) : Prop :=
  ∃ e, heap st !! p = Some e ∧ (0 < comparable (sl st) k (key e))%Z.

(** The key of [p] is below the key of [q]. *)
Definition node_lt st (p q : ptr) : Prop :=
  ∃ e1 e2, heap st !! p = Some e1 ∧ heap st !! q = Some e2
           ∧ (comparable (sl st) (key e1) (key e2) < 0)%Z.

(** ** Sequences of operations *)

Inductive op :=
  | OSet (k : K) (value : V)
  | ORemove (k : K)
  | ORemoveFront
  | ORemoveBack
  | ORemoveElement (elem : option ptr)
  | OSetMaxLevel (level : Z).

Definition exec (o : op) st : result state :=
  match o with
  | OSet k value => snd <$> Set' k value st
  | ORemove k => snd <$> Remove k st
  | ORemoveFront => snd <$> RemoveFront st
  | ORemoveBack => snd <$> RemoveBack st
  | ORemoveElement elem => RemoveElement elem st
  | OSetMaxLevel level => snd <$> SetMaxLevel level st
  end.

Fixpoint run (os : list op) st : result state :=
  match os with
  | [] => Ok st
  | o :: os => st ← exec o st; run os st
  end.

(** The keys of the level-0 chain, in its order. *)
Definition keys st : list K := omap (λ p, key <$> heap st !! p) (chain st).

(** Modelled from the spec: the set of the keys inserted and not removed,
    as a list in ascending order.  [spec_insert] adds a key that the set
    does not hold, [spec_delete] takes a key out. *)
Definition spec_insert (cmp : K → K → Z) (k : K) (m : list K) : list K :=
  if existsb (λ k', (cmp k k' =? 0)%Z) m then m
  else filter (λ k', (0 < cmp k k')%Z) m ++ k :: filter (λ k', (cmp k k' < 0)%Z) m.

Definition spec_delete (cmp : K → K → Z) (k : K) (m : list K) : list K :=
  filter (λ k', cmp k k' ≠ 0%Z) m.

(** Modelled from the spec: what an operation does to the set of keys.
    [RemoveFront] and [RemoveBack] take out the least and the greatest
    key, [RemoveElement] the key of an element of the list. *)
Definition spec_step (cmp : K → K → Z) (o : op) st (m : list K) : list K :=
  match o with
  | OSet k _ => spec_insert cmp k m
  | ORemove k => spec_delete cmp k m
  | ORemoveFront => tail m
  | ORemoveBack => take (length m - 1) m
  | ORemoveElement (Some p) =>
    match heap st !! p with
    | Some e => if decide (list_ e = Some (this st))
                then spec_delete cmp (key e) m else m
    | None => m
    end
  | ORemoveElement None => m
  | OSetMaxLevel _ => m
  end.

(** The set of keys after the operations [os], which start in [st] with
    the set [m]. *)
Fixpoint spec_keys (cmp : K → K → Z) (os : list op) st (m : list K) : list K :=
  match os with
  | [] => m
  | o :: os =>
    match exec o st with
    | Ok st' => spec_keys cmp os st' (spec_step cmp o st m)
    | _ => m
    end
  end.

(** The operations that insert and remove. *)
Definition plain (o : op) : bool :=
  match o with
  | OSetMaxLevel _ => false
  | _ => true
  end.

(** A list just made by [New], with the identity [id], in a memory [h] that
    holds elements of other lists only. *)
Definition fresh (cmp : K → K → Z) (rnd : nat → Z) (h : list (@Element K V))
    (id : nat) : @state K V :=
  mkState h (New cmp rnd) id.

Definition foreign (id : nat) (h : list (@Element K V)) : Prop :=
  Forall (λ e, list_ e ≠ Some id) h.

(** What every operation keeps, whatever the state it starts from. *)
Definition sizes_ok st : Prop :=
  1 ≤ maxLevel (sl st) ≤ hlen st
  ∧ length (probTable (sl st)) = maxLevel (sl st)
  ∧ ∀ p e, heap st !! p = Some e → list_ e = Some (this st) → 1 ≤ Level e.

(** What a step may do to the elements of the list: an element the list
    owns after the step was owned before, with the same level, or is new,
    with a level between 1 and [maxLevel]. *)
Definition grows st st' : Prop :=
  this st' = this st ∧ hlen st' = hlen st
  ∧ maxLevel (sl st') = maxLevel (sl st)
  ∧ probTable (sl st') = probTable (sl st)
  ∧ comparable (sl st') = comparable (sl st)
  ∧ length (heap st) ≤ length (heap st')
  ∧ ∀ p e', heap st' !! p = Some e' → list_ e' = Some (this st) →
      (∃ e, heap st !! p = Some e ∧ list_ e = Some (this st) ∧ Level e = Level e')
      ∨ (heap st !! p = None ∧ 1 ≤ Level e' ≤ maxLevel (sl st)).

(** What [RemoveElement] leaves alone: no element, an element of another
    list, or an element that was removed. *)
Definition dead st (elem : option ptr) : Prop :=
  match elem with
  | None => True
  | Some p => ∃ e, heap st !! p = Some e ∧ list_ e ≠ Some (this st)
  end.

(** [r] is the element of [l] with the smallest key that is at least [k],
    or nothing when every key of [l] is below [k]. *)
Definition ceiling st (k : K) (l : list ptr) (r : option ptr) : Prop :=
  match r with
  | Some p => p ∈ l ∧ key_le st k p
              ∧ ∀ q, q ∈ l → key_le st k q → q = p ∨ node_lt st p q
  | None => ∀ q, q ∈ l → key_gt st k q
  end.

(** [st] with the value of the element [p] replaced, nothing else. *)
Definition with_value st (p : ptr) (value : V) : state :=
  match heap st !! p with
  | Some e => set_heap st (<[p := set_Value value e]> (heap st))
  | None => st
  end.

End Spec.

(** ** Example lists, with integers as keys and values *)

(** Random draws that give the levels 3, 1, 2, 1 and then 1. *)
Definition ex_rnd (i : nat) : Z :=
  nth i [2 ^ 60; 2 ^ 62; 2 ^ 61; 2 ^ 62]%Z (2 ^ 62)%Z.

Definition ex_fresh : @state Z Z := fresh NumberComparator ex_rnd [] 0.

(** The state after [os], from the empty list. *)
Definition ex_after (os : list (@op Z Z)) : @state Z Z :=
  match run os ex_fresh with
  | Ok st => st
  | _ => ex_fresh
  end.

Definition ex_ops : list (@op Z Z) :=
  [OSet 20 200; OSet 10 100; OSet 40 400; OSet 30 300]%Z.

(** An element of the list with the identity 7, and a list beside it. *)
Definition ex_other : @Element Z Z :=
  mkElement (mkHeader [None] []) 0%Z 5%Z None None (Some 7).
Definition ex_fresh_other : @state Z Z := fresh NumberComparator ex_rnd [ex_other] 0.

(** Insertions, removals and changes of the maximum level. *)
Definition ex_resized : list (@op Z Z) :=
  [OSet 20 200; OSetMaxLevel 1; OSet 10 100; OSetMaxLevel 40; ORemove 10]%Z.

(** Insertions and removals. *)
Definition ex_mixed : list (@op Z Z) :=
  ex_ops ++ [ORemove 20%Z; OSet 25%Z 250%Z; ORemoveElement (Some 0)].

(** * More of the view of the callers *)

Section Spec1.

Context {K V : Type}.
Implicit Types (st : @state K V) (e : @Element K V).

(** The elements met from [p] by [Prev]. *)
Fixpoint rchain_from (fuel : nat) st (p : option ptr) : list ptr :=
  match fuel, p with
  | S fuel, Some q =>
    q :: match heap st !! q with
         | Some e => rchain_from fuel st (Prev e)
         | None => []
         end
  | _, _ => []
  end.

(** The elements met from [Back] by [Prev]. *)
Definition rchain st : list ptr := rchain_from (length (heap st)) st (Back st).

(** The first element of [l] that has more than [L] levels. *)
Definition first_above st (L : nat) (l : list ptr) : option ptr :=
  head (filter (λ q, L < level_at st q) l).

(** What a step leaves alone, whatever the state it starts from: the
    spare capacity of the header, and the key and the value of every
    element but [x]. *)
Definition steady (x : option ptr) st st' : Prop :=
  spare (lhdr (sl st')) = spare (lhdr (sl st))
  ∧ ∀ p e, x ≠ Some p → heap st !! p = Some e →
      ∃ e', heap st' !! p = Some e' ∧ key e' = key e ∧ Value e' = Value e.


(** ** The list as an ordered map *)

(** The key and the value that the element [p] holds. *)
Definition entry st (p : ptr) : option (K * V) :=
  (λ e, (key e, Value e)) <$> heap st !! p.

Definition entries_of st (l : list ptr) : list (K * V) := omap (entry st) l.

(** The keys and values of the level-0 chain, in its order. *)
Definition entries st : list (K * V) := entries_of st (chain st).

(** An ordered map as an association list in ascending order of the keys.
    [spec_put] replaces the value bound to a key that compares equal, and
    keeps the key that is there; else it adds the binding at the place of
    the key. *)
Definition spec_put (cmp : K → K → Z) (k : K) (v : V) (m : list (K * V))
    : list (K * V) :=
  if existsb (λ kv, (cmp k kv.1 =? 0)%Z) m
  then (λ kv, if (cmp k kv.1 =? 0)%Z then (kv.1, v) else kv) <$> m
  else filter (λ kv, (0 < cmp k kv.1)%Z) m
       ++ (k, v) :: filter (λ kv, (cmp k kv.1 < 0)%Z) m.

Definition spec_remove (cmp : K → K → Z) (k : K) (m : list (K * V)) : list (K * V) :=
  filter (λ kv, cmp k kv.1 ≠ 0%Z) m.

Definition spec_get (cmp : K → K → Z) (k : K) (m : list (K * V)) : option V :=
  snd <$> List.find (λ kv, (cmp k kv.1 =? 0)%Z) m.

(** What an operation does to the map. *)
Definition spec_map_step (cmp : K → K → Z) (o : op) st (m : list (K * V))
    : list (K * V) :=
  match o with
  | OSet k v => spec_put cmp k v m
  | ORemove k => spec_remove cmp k m
  | ORemoveFront => tail m
  | ORemoveBack => take (length m - 1) m
  | ORemoveElement (Some p) =>
    match heap st !! p with
    | Some e => if decide (list_ e = Some (this st))
                then spec_remove cmp (key e) m else m
    | None => m
    end
  | ORemoveElement None => m
  | OSetMaxLevel _ => m
  end.

(** The map after the operations [os], which start in [st] with the
    map [m]. *)
Fixpoint spec_map (cmp : K → K → Z) (os : list op) st (m : list (K * V))
    : list (K * V) :=
  match os with
  | [] => m
  | o :: os =>
    match exec o st with
    | Ok st' => spec_map cmp os st' (spec_map_step cmp o st m)
    | _ => m
    end
  end.


(** ** Changes of the maximum level that cut no level in use *)

(** [SetMaxLevel] with a level that no element of the list exceeds;
    every other operation. *)
Definition resize_ok (o : @op K V) st : bool :=
  match o with
  | OSetMaxLevel level =>
    forallb (λ p, (Z.of_nat (level_at st p) <=? level)%Z) (chain st)
  | _ => true
  end.

(** The operations [os], started in [st], never ask [SetMaxLevel] for a
    level below the number of levels of an element that the list holds
    then. *)
Fixpoint resizes_ok (os : list (@op K V)) st : bool :=
  match os with
  | [] => true
  | o :: os =>
    resize_ok o st && match exec o st with
                      | Ok st' => resizes_ok os st'
                      | _ => true
                      end
  end.

End Spec1.

(** ** Byte strings as keys *)

(** The first 8 bytes of [data], with zero bytes after a shorter one. *)
Definition pad8 (data : list byte) : list byte :=
  take 8 (data ++ replicate 8 "000"%byte).

(** The comparison of two strings of the same length, byte by byte. *)
Fixpoint lex_compare (a b : list byte) : Z :=
  match a, b with
  | x :: a, y :: b =>
    if (Byte.to_N x <? Byte.to_N y)%N then (-1)%Z
    else if (Byte.to_N y <? Byte.to_N x)%N then 1%Z
    else lex_compare a b
  | _, _ => 0%Z
  end.

(** The number that [l] is in base 256, the first byte being the most
    significant one. *)
Fixpoint big_endian (l : list byte) : Z :=
  match l with
  | [] => 0%Z
  | x :: l => (Z.of_N (Byte.to_N x) * 256 ^ Z.of_nat (length l) + big_endian l)%Z
  end.

(** ** More example lists *)

(** The keys 10, 20, 30 and 40 with the levels 1, 2, 1 and 3. *)
Definition ex_tall : list (@op Z Z) :=
  [OSet 40 400; OSet 10 100; OSet 20 200; OSet 30 300]%Z.

(** Whether a call returned. *)
Definition returned {A} (r : result A) : bool :=
  match r with
  | Ok _ => true
  | _ => false
  end.

(** The list of [ex_ops] under the reversed comparator. *)
Definition ex_reversed : @state Z Z :=
  match run ex_ops (fresh (Reverse NumberComparator) ex_rnd [] 0) with
  | Ok st => st
  | _ => ex_fresh
  end.

(** Random draws that give every new element 3 levels. *)
Definition ex_rnd3 (i : nat) : Z := (2 ^ 60)%Z.

(** A list on which [SetMaxLevel] cut a level in use: the key 20 gets 3
    levels, [SetMaxLevel(1)] cuts the header below them, and the key 30,
    with 3 levels again, is added and removed after the header has grown
    again. *)
Definition ex_cut : list (@op Z Z) :=
  [OSet 20 200; OSetMaxLevel 1; OSetMaxLevel 128; OSet 30 300; OSet 40 400;
   ORemove 30]%Z.

Definition ex_cut_state : @state Z Z :=
  match run ex_cut (fresh NumberComparator ex_rnd3 [] 0) with
  | Ok st => st
  | _ => ex_fresh
  end.

(** The list of [ex_ops], with changes of the maximum level that cut no
    level in use: to 3 when the elements have 3 and 1 levels, then to 40. *)
Definition ex_resized_ok : list (@op Z Z) :=
  [OSet 20 200; OSet 10 100; OSetMaxLevel 3; OSet 40 400; OSetMaxLevel 40;
   OSet 30 300]%Z.

(** The list of [ex_tall], with such changes of the maximum level. *)
Definition ex_tall_ok : list (@op Z Z) :=
  [OSet 40 400; OSetMaxLevel 3; OSet 10 100; OSet 20 200; OSetMaxLevel 20;
   OSet 30 300]%Z.

(** * Unfolding the loops one iteration at a time *)

Arguments Set_advance : simpl never.
Arguments Set_skip : simpl never.
Arguments Set_search : simpl never.
Arguments Set_adjust : simpl never.
Arguments Set_largestLevel : simpl never.
Arguments findNext_advance : simpl never.
Arguments findNext_skip : simpl never.
Arguments findNext_loop : simpl never.
Arguments Remove_fill : simpl never.
Arguments Remove_climb : simpl never.
Arguments Remove_prevs : simpl never.
Arguments Remove_adjust : simpl never.
Arguments for_range : simpl never.
Arguments randLevel_loop : simpl never.
Arguments SetMaxLevel_scan : simpl never.

Tactic Notation "rsimpl" :=
  cbn [mbind result_bind mret result_ret fmap result_fmap].
Tactic Notation "rsimpl" "in" hyp(H) :=
  cbn [mbind result_bind mret result_ret fmap result_fmap] in H.

Section Unfold.

Context {K V : Type}.
Implicit Types (st : @state K V).

Lemma for_range_0 {St} from (body : nat → St → result St) s :
  for_range from 0 body s = Ok s.
Proof. reflexivity. Qed.

Lemma for_range_S {St} from n (body : nat → St → result St) s :
  for_range from (S n) body s = (s ← body from s; for_range (S from) n body s).
Proof. reflexivity. Qed.

Lemma Set_advance_S fuel st k i prevHeader prevElemHeaders :
  Set_advance (S fuel) st k i prevHeader prevElemHeaders =
    (next ← levels_at st prevHeader i;
     match next with
     | None => Ok (inr (prevHeader, prevElemHeaders))
     | Some nx =>
       comp ← compare st k next;
       if (comp <=? 0)%Z then
         if (comp =? 0)%Z then Ok (inl nx)
         else Ok (inr (prevHeader, prevElemHeaders))
       else
         prevElemHeaders ← store_index prevElemHeaders i (Some (HElem nx));
         Set_advance fuel st k i (HElem nx) prevElemHeaders
     end).
Proof. reflexivity. Qed.

Lemma Set_skip_0 st prevHeader topLevel prevElemHeaders :
  Set_skip st prevHeader topLevel 0 prevElemHeaders = Ok (0, prevElemHeaders).
Proof. reflexivity. Qed.

Lemma Set_skip_S st prevHeader topLevel i prevElemHeaders :
  Set_skip st prevHeader topLevel (S i) prevElemHeaders =
    (x ← levels_at st prevHeader i;
     if decide (x = topLevel) then
       prevElemHeaders ← store_index prevElemHeaders i (Some prevHeader);
       Set_skip st prevHeader topLevel i prevElemHeaders
     else Ok (S i, prevElemHeaders)).
Proof. reflexivity. Qed.

Lemma Set_search_0 fuel st k prevHeader prevElemHeaders :
  Set_search fuel st k 0 prevHeader prevElemHeaders = Ok (Miss prevElemHeaders).
Proof. by destruct fuel. Qed.

Lemma Set_search_S fuel st k i prevHeader prevElemHeaders :
  Set_search (S fuel) st k (S i) prevHeader prevElemHeaders =
    (prevElemHeaders ← store_index prevElemHeaders i (Some prevHeader);
     r ← Set_advance (S (length (heap st))) st k i prevHeader prevElemHeaders;
     match r with
     | inl next => Ok (Hit next)
     | inr (prevHeader, prevElemHeaders) =>
       topLevel ← levels_at st prevHeader i;
       '(n, prevElemHeaders) ← Set_skip st prevHeader topLevel i prevElemHeaders;
       Set_search fuel st k n prevHeader prevElemHeaders
     end).
Proof. reflexivity. Qed.

Lemma Set_largestLevel_S st elem i :
  Set_largestLevel st elem (S i) =
    (x ← levels_at st (HElem elem) i;
     match x with
     | Some _ => Ok (S i)
     | None => Set_largestLevel st elem i
     end).
Proof. reflexivity. Qed.

Lemma Set_adjust_eq fuel elem level largestLevel i st :
  Set_adjust fuel elem level largestLevel i st =
    if i <? largestLevel then
      match fuel with
      | 0 => OutOfFuel
      | S fuel =>
        next ← levels_at st (HElem elem) i;
        '(nx, ne) ← load st next;
        let nextLevel := Level ne in
        st ← (if nextLevel <=? level
              then update st nx (set_prevTopLevel (Some elem)) else Ok st);
        Set_adjust fuel elem level largestLevel nextLevel st
      end
    else Ok st.
Proof. by destruct fuel. Qed.

Lemma findNext_advance_S fuel st k i prevHeader elem :
  findNext_advance (S fuel) st k i prevHeader elem =
    (next ← levels_at st prevHeader i;
     match next with
     | None => Ok (inr (prevHeader, elem))
     | Some nx =>
       comp ← compare st k next;
       if (comp <=? 0)%Z then
         if (comp =? 0)%Z then Ok (inl next)
         else Ok (inr (prevHeader, next))
       else findNext_advance fuel st k i (HElem nx) elem
     end).
Proof. reflexivity. Qed.

Lemma findNext_skip_S st prevHeader topLevel i :
  findNext_skip st prevHeader topLevel (S i) =
    (x ← levels_at st prevHeader i;
     if decide (x = topLevel) then findNext_skip st prevHeader topLevel i
     else Ok (S i)).
Proof. reflexivity. Qed.

Lemma findNext_loop_0 fuel st k prevHeader elem :
  findNext_loop fuel st k 0 prevHeader elem = Ok elem.
Proof. by destruct fuel. Qed.

Lemma findNext_loop_S fuel st k i prevHeader elem :
  findNext_loop (S fuel) st k (S i) prevHeader elem =
    (r ← findNext_advance (S (length (heap st))) st k i prevHeader elem;
     match r with
     | inl elem => Ok elem
     | inr (prevHeader, elem) =>
       topLevel ← levels_at st prevHeader i;
       n ← findNext_skip st prevHeader topLevel i;
       findNext_loop fuel st k n prevHeader elem
     end).
Proof. reflexivity. Qed.

Lemma Remove_fill_eq fuel prevLevel level prev max prevElems :
  Remove_fill fuel prevLevel level prev max prevElems =
    if (max <? prevLevel) && (max <? level) then
      match fuel with
      | 0 => OutOfFuel
      | S fuel =>
        prevElems ← store_index prevElems max prev;
        Remove_fill fuel prevLevel level prev (S max) prevElems
      end
    else Ok (max, prevElems).
Proof. by destruct fuel. Qed.

Lemma Remove_climb_eq fuel st prevLevel prev :
  Remove_climb fuel st prevLevel prev =
    match prev with
    | None => Ok None
    | Some p =>
      e ← deref st p;
      if Level e =? prevLevel then
        match fuel with
        | 0 => OutOfFuel
        | S fuel => Remove_climb fuel st prevLevel (prevTopLevel e)
        end
      else Ok prev
    end.
Proof. by destruct fuel. Qed.

Lemma Remove_prevs_eq fuel st level prev max prevElems :
  Remove_prevs fuel st level prev max prevElems =
    match prev with
    | None => Ok (max, prevElems)
    | Some p =>
      if max <? level then
        match fuel with
        | 0 => OutOfFuel
        | S fuel =>
          e ← deref st p;
          let prevLevel := Level e in
          '(max, prevElems) ← Remove_fill (S level) prevLevel level prev max prevElems;
          prev ← Remove_climb (S (length (heap st))) st prevLevel (prevTopLevel e);
          Remove_prevs fuel st level prev max prevElems
        end
      else Ok (max, prevElems)
    end.
Proof. by destruct fuel. Qed.

Lemma Remove_adjust_eq fuel elem level prevElems i st :
  Remove_adjust fuel elem level prevElems i st =
    if i <? level then
      match fuel with
      | 0 => OutOfFuel
      | S fuel =>
        next ← levels_at st (HElem elem) i;
        match next with
        | None => Ok st
        | Some nx =>
          ne ← deref st nx;
          if decide (prevTopLevel ne ≠ Some elem) then Ok st
          else
            let i := Level ne in
            pe ← match i with
                 | 0 => Panic IndexOutOfRange
                 | S j => index prevElems j
                 end;
            st ← update st nx (set_prevTopLevel pe);
            Remove_adjust fuel elem level prevElems i st
        end
      end
    else Ok st.
Proof. by destruct fuel. Qed.

Lemma randLevel_loop_eq fuel (l : @SkipList K) r level :
  randLevel_loop fuel l r level =
    if level <? maxLevel l then
      p ← index (probTable l) level;
      if Qltb r p then
        match fuel with
        | 0 => OutOfFuel
        | S fuel => randLevel_loop fuel l r (S level)
        end
      else Ok level
    else Ok level.
Proof. by destruct fuel. Qed.

Lemma SetMaxLevel_scan_S lv level i :
  SetMaxLevel_scan lv level (S i) =
    if level <=? i then
      x ← index lv i;
      match x with
      | Some _ => Ok i
      | None => SetMaxLevel_scan lv level i
      end
    else Ok level.
Proof. reflexivity. Qed.

End Unfold.

(** * Lists of abstract nodes *)

Section Lists.

Context {K : Type}.
Implicit Types (l pre post : list (@anode K)) (a b : @anode K).

Lemma nxt_app i l1 l2 :
  nxt i (l1 ++ l2) = match nxt i l1 with Some p => Some p | None => nxt i l2 end.
Proof.
  induction l1 as [|a l1 IH]; simpl; [done|].
  destruct (i <? alvl a); [done|apply IH].
Qed.

Lemma nxt_None i l : nxt i l = None ↔ Forall (λ a, alvl a ≤ i) l.
Proof.
  induction l as [|a l IH]; simpl.
  - split; [constructor|done].
  - destruct (Nat.ltb_spec i (alvl a)) as [Hlt|Hge].
    + split; [done|]. intros H. inversion H; subst. lia.
    + rewrite IH. split; intros H.
      * constructor; [lia|done].
      * by inversion H.
Qed.

Lemma nxt_Some i l p :
  nxt i l = Some p →
  ∃ l1 a l2, l = l1 ++ a :: l2 ∧ aptr a = p ∧ i < alvl a
             ∧ Forall (λ b, alvl b ≤ i) l1.
Proof.
  induction l as [|a l IH]; simpl; [done|].
  destruct (Nat.ltb_spec i (alvl a)) as [Hlt|Hge].
  - intros [= <-]. exists [], a, l. by repeat split.
  - intros (l1 & b & l2 & -> & ? & ? & ?)%IH.
    exists (a :: l1), b, l2. repeat split; [done..|]. by constructor.
Qed.

Lemma nxt_first i l1 a l2 :
  Forall (λ b, alvl b ≤ i) l1 → i < alvl a →
  nxt i (l1 ++ a :: l2) = Some (aptr a).
Proof.
  intros H1 Ha. rewrite nxt_app.
  apply nxt_None in H1 as ->. simpl.
  by apply Nat.ltb_lt in Ha as ->.
Qed.

Lemma nxt_skip i l1 l2 :
  Forall (λ b, alvl b ≤ i) l1 → nxt i (l1 ++ l2) = nxt i l2.
Proof. intros H1. rewrite nxt_app. by apply nxt_None in H1 as ->. Qed.

Lemma nxt_elem_of i l p : nxt i l = Some p → p ∈ aptr <$> l.
Proof.
  intros (l1 & a & l2 & -> & <- & _)%nxt_Some.
  rewrite fmap_app, fmap_cons. apply elem_of_app. right. by left.
Qed.

Lemma lastge_app L l1 l2 :
  lastge L (l1 ++ l2)
  = match lastge L l2 with Some p => Some p | None => lastge L l1 end.
Proof.
  induction l1 as [|a l1 IH]; simpl.
  - by destruct (lastge L l2).
  - rewrite IH. by destruct (lastge L l2).
Qed.

Lemma lastge_None L l : lastge L l = None ↔ Forall (λ a, alvl a < L) l.
Proof.
  induction l as [|a l IH]; simpl.
  - split; [constructor|done].
  - destruct (lastge L l) eqn:E.
    + split; [done|]. intros H. inversion H; subst.
      by apply IH in H3.
    + destruct (Nat.leb_spec L (alvl a)) as [Hle|Hgt].
      * split; [done|]. intros H. inversion H; subst. lia.
      * split; [|done]. intros _. constructor; [lia|]. by apply IH.
Qed.

Lemma lastge_Some L l p :
  lastge L l = Some p →
  ∃ l1 a l2, l = l1 ++ a :: l2 ∧ aptr a = p ∧ L ≤ alvl a
             ∧ Forall (λ b, alvl b < L) l2.
Proof.
  induction l as [|a l IH]; simpl; [done|].
  destruct (lastge L l) as [q|] eqn:E.
  - intros [= <-]. destruct (IH eq_refl) as (l1 & b & l2 & -> & ? & ? & ?).
    by exists (a :: l1), b, l2.
  - destruct (Nat.leb_spec L (alvl a)) as [Hle|Hgt]; [|done].
    intros [= <-]. exists [], a, l. repeat split; [done|].
    by apply lastge_None.
Qed.

Lemma lastge_last L l1 a l2 :
  L ≤ alvl a → Forall (λ b, alvl b < L) l2 →
  lastge L (l1 ++ a :: l2) = Some (aptr a).
Proof.
  intros Ha H2. rewrite lastge_app. simpl.
  apply lastge_None in H2 as ->.
  by apply Nat.leb_le in Ha as ->.
Qed.

Lemma lastge_skip L l1 l2 :
  Forall (λ b, alvl b < L) l2 → lastge L (l1 ++ l2) = lastge L l1.
Proof. intros H2. rewrite lastge_app. by apply lastge_None in H2 as ->. Qed.

Lemma lastge_elem_of L l p : lastge L l = Some p → p ∈ aptr <$> l.
Proof.
  intros (l1 & a & l2 & -> & <- & _)%lastge_Some.
  rewrite fmap_app, fmap_cons. apply elem_of_app. right. by left.
Qed.

Lemma lastge_one l :
  Forall (λ a, 1 ≤ alvl a) l → lastge 1 l = aptr <$> last l.
Proof.
  induction l as [|a l IH] using rev_ind; [done|].
  intros [H1 H2]%Forall_app. inversion H2; subst.
  rewrite last_snoc. simpl.
  apply (lastge_last 1 l a []); [done|constructor].
Qed.

Lemma predh_app i l1 l2 :
  predh i (l1 ++ l2)
  = match lastge (S i) l2 with Some p => HElem p | None => predh i l1 end.
Proof. unfold predh. rewrite lastge_app. by destruct (lastge (S i) l2). Qed.

Lemma predh_skip i l1 l2 :
  Forall (λ b, alvl b ≤ i) l2 → predh i (l1 ++ l2) = predh i l1.
Proof.
  intros H. unfold predh. rewrite lastge_skip; [done|].
  eapply Forall_impl; [done|]. simpl. lia.
Qed.

(** Where a node of [pre ++ x :: post] lies. *)
Lemma app_cons_eq_cases pre x post l1 a l2 :
  pre ++ x :: post = l1 ++ a :: l2 →
  (∃ m, pre = l1 ++ a :: m ∧ l2 = m ++ x :: post)
  ∨ (l1 = pre ∧ a = x ∧ l2 = post)
  ∨ (∃ m, post = m ++ a :: l2 ∧ l1 = pre ++ x :: m).
Proof.
  intros [(m & -> & Hm)|(m & -> & Hm)]%app_eq_inv.
  - destruct m as [|y m]; simpl in Hm.
    + inversion Hm; subst. right. left. by rewrite app_nil_r.
    + inversion Hm; subst. left. by exists m.
  - destruct m as [|y m]; simpl in Hm.
    + inversion Hm; subst. right. left. by rewrite app_nil_r.
    + inversion Hm; subst. right. right. by exists m.
Qed.

Lemma app_eq_cases pre post l1 a l2 :
  pre ++ post = l1 ++ a :: l2 →
  (∃ m, pre = l1 ++ a :: m ∧ l2 = m ++ post)
  ∨ (∃ m, post = m ++ a :: l2 ∧ l1 = pre ++ m).
Proof.
  intros [(m & -> & Hm)|(m & -> & Hm)]%app_eq_inv.
  - destruct m as [|y m]; simpl in Hm.
    + subst. right. exists []. by rewrite !app_nil_r.
    + inversion Hm; subst. left. by exists m.
  - right. by exists m.
Qed.

(** With distinct addresses, an address fixes the position. *)
Lemma nodup_split_eq l1 a l2 l1' a' l2' :
  NoDup (aptr <$> (l1 ++ a :: l2)) →
  l1 ++ a :: l2 = l1' ++ a' :: l2' → aptr a = aptr a' →
  l1 = l1' ∧ a = a' ∧ l2 = l2'.
Proof.
  intros Hnd Heq Hp.
  destruct (app_cons_eq_cases _ _ _ _ _ _ Heq) as
    [(m & -> & ->)|[(-> & -> & ->)|(m & -> & ->)]]; [|done|].
  - exfalso. rewrite <-app_assoc in Hnd. simpl in Hnd.
    rewrite fmap_app, fmap_cons, fmap_app, fmap_cons in Hnd.
    apply NoDup_app in Hnd as (_ & _ & Hnd).
    apply NoDup_cons in Hnd as [Hnd _]. apply Hnd.
    rewrite Hp. apply elem_of_app. right. by left.
  - exfalso.
    rewrite fmap_app, fmap_cons, fmap_app, fmap_cons in Hnd.
    apply NoDup_app in Hnd as (_ & _ & Hnd).
    apply NoDup_cons in Hnd as [Hnd _]. apply Hnd.
    rewrite Hp. apply elem_of_app. right. by left.
Qed.

Lemma nodup_app_disjoint l1 l2 p :
  NoDup (aptr <$> (l1 ++ l2)) → p ∈ aptr <$> l1 → p ∈ aptr <$> l2 → False.
Proof.
  rewrite fmap_app. intros (_ & H & _)%NoDup_app ??. by eapply H.
Qed.

End Lists.

(** * Reading the memory of a well-formed list *)

Section Memory.

Context {K V : Type}.
Implicit Types (st : @state K V) (e : @Element K V) (ns : list (@anode K)).

Lemma index_Some {A} (l : list A) i x : l !! i = Some x → index l i = Ok x.
Proof. unfold index. by intros ->. Qed.

Lemma store_index_Ok {A} (l : list A) i x :
  i < length l → store_index l i x = Ok (<[i := x]> l).
Proof. unfold store_index. intros H. by rewrite decide_True. Qed.

Lemma deref_Some st p e : heap st !! p = Some e → deref st p = Ok e.
Proof. unfold deref. by intros ->. Qed.

Lemma update_Some st p f e :
  heap st !! p = Some e →
  update st p f = Ok (set_heap st (<[p := f e]> (heap st))).
Proof. unfold update. intros H. by rewrite (deref_Some _ _ _ H). Qed.

Lemma at_pos_app st ns h L before after :
  at_pos st ns h L before after → ns = before ++ after.
Proof. intros [|l0 a l ->]; [done|]. by rewrite <-app_assoc. Qed.

Lemma at_pos_predh st ns h L before after j :
  at_pos st ns h L before after → j < L → predh j before = h.
Proof.
  intros [|l0 a l ->] Hj; [done|]. unfold predh.
  rewrite (lastge_last (S j) l0 a []); [done|lia|constructor].
Qed.

Lemma base_lookup st ns a :
  base st ns → a ∈ ns →
  ∃ e, heap st !! aptr a = Some e ∧ Level e = alvl a ∧ key e = akey a
       ∧ list_ e = Some (this st).
Proof. intros H. apply H. Qed.

Lemma base_app_l st l1 l2 : base st (l1 ++ l2) → base st l1.
Proof. intros H a Ha. apply H, elem_of_app. by left. Qed.

Lemma base_app_r st l1 l2 : base st (l1 ++ l2) → base st l2.
Proof. intros H a Ha. apply H, elem_of_app. by right. Qed.

Lemma levels_at_pos st ns h L before after i :
  base st ns → fwd st i ns → at_pos st ns h L before after → i < L →
  levels_at st h i = Ok (nxt i after).
Proof.
  intros Hb [Hh Hn] Hp Hi. destruct Hp as [|l0 a l ->]; unfold levels_at; simpl.
  - by rewrite (index_Some _ _ _ (Hh Hi)).
  - destruct (Hb a) as (e & He & _).
    { apply elem_of_app. right. by left. }
    rewrite (deref_Some _ _ _ He). simpl.
    by rewrite (index_Some _ _ _ (Hn _ _ _ _ eq_refl He Hi)).
Qed.

Lemma compare_node st ns a k :
  base st ns → a ∈ ns →
  compare st k (Some (aptr a)) = Ok (comparable (sl st) k (akey a)).
Proof.
  intros Hb Ha. destruct (Hb a Ha) as (e & He & _ & Hk & _).
  unfold compare, load. rewrite (deref_Some _ _ _ He). simpl. by rewrite Hk.
Qed.

(** Two nodes of a list with the same address are the same node. *)
Lemma nodup_ptr_eq ns a b :
  NoDup (aptr <$> ns) → a ∈ ns → b ∈ ns → aptr a = aptr b → a = b.
Proof.
  intros Hnd (l1 & l2 & ->)%list_elem_of_split
         (l1' & l2' & Heq)%list_elem_of_split Hp.
  by destruct (nodup_split_eq _ _ _ _ _ _ Hnd Heq Hp) as (_ & ? & _).
Qed.

End Memory.

(** * Keys *)

Section Keys.

Context {K : Type} (cmp : K → K → Z) (Hcmp : Comparator cmp).

Lemma cmp_lt_gt a b : (cmp a b < 0)%Z ↔ (0 < cmp b a)%Z.
Proof. pose proof (cmp_anti _ Hcmp a b). lia. Qed.

Lemma cmp_eq_sym a b : cmp a b = 0%Z → cmp b a = 0%Z.
Proof. pose proof (cmp_anti _ Hcmp a b). lia. Qed.

Lemma cmp_refl a : cmp a a = 0%Z.
Proof. pose proof (cmp_anti _ Hcmp a a). lia. Qed.

Lemma cmp_lt_le_trans a b c : (cmp a b < 0)%Z → (cmp b c ≤ 0)%Z → (cmp a c < 0)%Z.
Proof.
  intros Hab Hbc. destruct (Z.lt_ge_cases (cmp a c) 0) as [|Hac]; [done|].
  assert (cmp c a ≤ 0)%Z as Hca by (pose proof (cmp_anti _ Hcmp a c); lia).
  pose proof (cmp_trans _ Hcmp b c a Hbc Hca).
  pose proof (cmp_anti _ Hcmp a b). lia.
Qed.

Lemma cmp_le_lt_trans a b c : (cmp a b ≤ 0)%Z → (cmp b c < 0)%Z → (cmp a c < 0)%Z.
Proof.
  intros Hab Hbc. destruct (Z.lt_ge_cases (cmp a c) 0) as [|Hac]; [done|].
  assert (cmp c a ≤ 0)%Z as Hca by (pose proof (cmp_anti _ Hcmp a c); lia).
  pose proof (cmp_trans _ Hcmp c a b Hca Hab).
  pose proof (cmp_anti _ Hcmp b c). lia.
Qed.

Lemma cmp_lt_trans a b c : (cmp a b < 0)%Z → (cmp b c < 0)%Z → (cmp a c < 0)%Z.
Proof. intros ??. eapply cmp_lt_le_trans; [done|lia]. Qed.

End Keys.

(** * The searches of [Set] and [findNext] *)

Section Search.

Context {K V : Type}.
Implicit Types (e : @Element K V) (a b c d : @anode K).
Variables (st : @state K V) (ns : list (@anode K)) (k : K).
Hypothesis Hcmp : Comparator (comparable (sl st)).
Hypothesis Hbase : base st ns.
Hypothesis Hfwd : ∀ i, fwd st i ns.
Hypothesis Hnd : NoDup (aptr <$> ns).
Hypothesis Hsorted : StronglySorted (key_lt st) ns.
Hypothesis Hlvl : ∀ a, a ∈ ns → 1 ≤ alvl a.

Local Abbreviation cmp := (comparable (sl st)).

(** Levels [j] whose pointer out of a position is the pointer of level [n]
    hold no node of the stretch [s] that level [n] jumps over. *)
Lemma same_nxt_bound s r j n :
  NoDup (aptr <$> (s ++ r)) → Forall (λ a, alvl a ≤ n) s →
  nxt j (s ++ r) = nxt n (s ++ r) → Forall (λ a, alvl a ≤ j) s.
Proof.
  intros Hn Hs Heq. apply nxt_None.
  destruct (nxt j s) as [p|] eqn:E; [exfalso|done].
  rewrite nxt_app, E, (nxt_skip n s r Hs) in Heq.
  eapply (nodup_app_disjoint s r p Hn).
  - by eapply nxt_elem_of.
  - eapply nxt_elem_of. by rewrite <-Heq.
Qed.

(** In the part of the list that is not below [k], only the first node can
    hold [k]. *)
Lemma eq_is_head post c :
  StronglySorted (key_lt st) post → Forall (notbelow st k) post →
  c ∈ post → cmp k (akey c) = 0%Z → ∃ post', post = c :: post'.
Proof.
  intros Hs Hnb Hc Hk. destruct post as [|d post']; [by apply elem_of_nil in Hc|].
  apply elem_of_cons in Hc as [->|Hc]; [by eexists|exfalso].
  apply StronglySorted_inv in Hs as [_ Hd].
  rewrite Forall_forall in Hd. specialize (Hd c Hc). unfold key_lt in Hd.
  apply Forall_cons in Hnb as [Hkd _]. unfold notbelow in Hkd.
  pose proof (cmp_le_lt_trans _ Hcmp _ _ _ Hkd Hd). lia.
Qed.

Lemma Set_advance_spec i fuel : ∀ h L before lq post prevs,
  at_pos st ns h L before (lq ++ post) → i < L →
  Forall (below st k) lq → Forall (notbelow st k) post →
  length lq < fuel → i < length prevs → prevs !! i = Some (Some h) →
  ∃ lq1 lq2 h' L',
    lq = lq1 ++ lq2 ∧ at_pos st ns h' L' (before ++ lq1) (lq2 ++ post) ∧ i < L'
    ∧ Forall (λ a, alvl a ≤ i) lq2
    ∧ h' = match lastge (S i) lq with Some p => HElem p | None => h end
    ∧ ((∃ c, c ∈ post ∧ nxt i post = Some (aptr c) ∧ cmp k (akey c) = 0%Z
           ∧ Set_advance fuel st k i h prevs = Ok (inl (aptr c)))
       ∨ ((nxt i post = None
           ∨ ∃ c, c ∈ post ∧ nxt i post = Some (aptr c) ∧ (cmp k (akey c) < 0)%Z)
          ∧ Set_advance fuel st k i h prevs
            = Ok (inr (h', <[i := Some h']> prevs)))).
Proof.
  induction fuel as [|fuel IH]; intros h L before lq post prevs Hp Hi Hlq Hpost
    Hfuel Hlen Hprev; [lia|].
  pose proof (at_pos_app _ _ _ _ _ _ Hp) as Hns.
  rewrite Set_advance_S, (levels_at_pos _ _ _ _ _ _ _ Hbase (Hfwd i) Hp Hi). rsimpl.
  rewrite nxt_app. destruct (nxt i lq) as [p|] eqn:E.
  - (* a node below [k]: advance *)
    apply nxt_Some in E as (l1 & b & l2 & -> & <- & Hb & Hl1).
    assert (b ∈ ns) as Hbn.
    { rewrite Hns. apply elem_of_app. right. apply elem_of_app. left.
      apply elem_of_app. right. by left. }
    rewrite (compare_node _ _ _ _ Hbase Hbn). simpl.
    assert (below st k b) as Hkb.
    { rewrite Forall_forall in Hlq. apply Hlq, elem_of_app. right. by left. }
    unfold below in Hkb.
    assert ((cmp k (akey b) <=? 0)%Z = false) as -> by lia.
    rewrite store_index_Ok by done. simpl.
    assert (at_pos st ns (HElem (aptr b)) (alvl b) ((before ++ l1) ++ [b])
                   (l2 ++ post)) as Hp'.
    { apply at_node. rewrite Hns, <-!app_assoc. done. }
    apply Forall_app in Hlq as [_ Hlq]. apply Forall_cons in Hlq as [_ Hlq].
    rewrite length_app in Hfuel. simpl in Hfuel.
    destruct (IH _ _ _ l2 post (<[i := Some (HElem (aptr b))]> prevs) Hp' Hb Hlq
                Hpost) as (lq1 & lq2 & h' & L' & -> & Hp'' & Hi' & Hlq2 & Hh' & Hr).
    { lia. } { by rewrite length_insert. } { by apply list_lookup_insert_eq. }
    exists (l1 ++ b :: lq1), lq2, h', L'. split_and!.
    + by rewrite <-app_assoc.
    + by rewrite <-!app_assoc in Hp''.
    + done.
    + done.
    + rewrite Hh', (lastge_app _ l1 (b :: lq1 ++ lq2)). cbn [lastge].
      destruct (lastge (S i) (lq1 ++ lq2)); [done|].
      by apply Nat.leb_le in Hb as ->.
    + rewrite list_insert_insert_eq in Hr. done.
  - (* no node below [k] at this level: the loop ends here *)
    apply nxt_None in E.
    assert (match lastge (S i) lq with Some p => HElem p | None => h end = h) as Hh.
    { assert (lastge (S i) lq = None) as ->; [|done].
      apply lastge_None. eapply Forall_impl; [done|]. simpl. lia. }
    exists [], lq, h, L. rewrite app_nil_r, Hh. split_and!; [done..|].
    rewrite (list_insert_id _ _ _ Hprev).
    destruct (nxt i post) as [p|] eqn:E'; [|right; by split; [left|]].
    destruct (nxt_Some _ _ _ E') as (l1 & c & l2 & -> & <- & Hc & Hl1).
    assert (c ∈ l1 ++ c :: l2) as Hcp by (apply elem_of_app; right; by left).
    assert (c ∈ ns) as Hcn.
    { rewrite Hns. apply elem_of_app. right. by apply elem_of_app; right. }
    rewrite (compare_node _ _ _ _ Hbase Hcn). simpl.
    assert (notbelow st k c) as Hkc by (rewrite Forall_forall in Hpost; by apply Hpost).
    unfold notbelow in Hkc.
    assert ((cmp k (akey c) <=? 0)%Z = true) as -> by lia.
    destruct (Z.eqb_spec (cmp k (akey c)) 0) as [Heq|Hne].
    + left. by exists c.
    + right. split; [|done]. right. exists c. split_and!; [done..|lia].
Qed.

Lemma Set_skip_spec h L before after topLevel : ∀ n prevs,
  at_pos st ns h L before after → n ≤ L → n ≤ length prevs →
  ∃ n' prevs',
    Set_skip st h topLevel n prevs = Ok (n', prevs') ∧ n' ≤ n
    ∧ length prevs' = length prevs
    ∧ (∀ j, n' ≤ j < n → nxt j after = topLevel ∧ prevs' !! j = Some (Some h))
    ∧ (∀ j, j < n' ∨ n ≤ j → prevs' !! j = prevs !! j).
Proof.
  intros n. induction n as [|i IH]; intros prevs Hp Hn Hlen.
  - exists 0, prevs. split_and!; [done..|intros; lia|done].
  - rewrite Set_skip_S, (levels_at_pos _ _ _ _ _ _ _ Hbase (Hfwd i) Hp) by lia. rsimpl.
    destruct (decide (nxt i after = topLevel)) as [Heq|Hne].
    + rewrite store_index_Ok by lia. simpl.
      destruct (IH (<[i := Some h]> prevs) Hp) as (n' & prevs' & -> & Hn' & Hl & Hin & Hout).
      { lia. } { rewrite length_insert. lia. }
      exists n', prevs'. split_and!; [done|lia|by rewrite Hl, length_insert|..].
      * intros j Hj. destruct (decide (j = i)) as [->|Hji].
        -- split; [done|]. rewrite Hout by lia. apply list_lookup_insert_eq. lia.
        -- apply Hin. lia.
      * intros j Hj. rewrite Hout by lia. apply list_lookup_insert_ne. lia.
    + exists (S i), prevs. split_and!; [done..|intros; lia|done].
Qed.

Lemma nodes_bounded : length ns ≤ length (heap st).
Proof.
  rewrite <-(length_fmap aptr ns), <-(length_seq (length (heap st)) 0).
  apply submseteq_length, NoDup_submseteq; [done|].
  intros p (a & -> & Ha)%list_elem_of_fmap.
  destruct (Hbase a Ha) as (e & He & _).
  apply elem_of_seq. apply lookup_lt_Some in He. lia.
Qed.

Lemma Set_search_spec max pre post :
  ns = pre ++ post → Forall (below st k) pre → Forall (notbelow st k) post →
  ∀ fuel n h L before lq prevs,
    at_pos st ns h L before (lq ++ post) → pre = before ++ lq →
    n ≤ L → n < fuel → Forall (λ a, alvl a ≤ n) lq →
    length prevs = max → n ≤ max →
    (∀ j, n ≤ j < max → prevs !! j = Some (Some (predh j pre))) →
    (∀ d post', post = d :: post' → cmp k (akey d) = 0%Z → alvl d ≤ n) →
    ∃ r, Set_search fuel st k n h prevs = Ok r ∧
      match r with
      | Hit p => ∃ d post', post = d :: post' ∧ cmp k (akey d) = 0%Z ∧ p = aptr d
      | Miss prevs' =>
        length prevs' = max
        ∧ (∀ j, j < max → prevs' !! j = Some (Some (predh j pre)))
        ∧ Forall (λ a, (cmp k (akey a) < 0)%Z) post
      end.
Proof.
  intros Hns Hpre Hpost.
  assert (StronglySorted (key_lt st) post) as Hspost.
  { rewrite Hns in Hsorted. by apply StronglySorted_app in Hsorted as (_ & _ & ?). }
  induction fuel as [|fuel IH]; intros n h L before lq prevs Hp Hbl HnL Hfuel Hlq
    Hlen Hmax Hprevs Hhit; [lia|].
  destruct n as [|i].
  - (* all levels are done *)
    rewrite Set_search_0.
    eexists. split; [done|]. split_and!; [done|intros; apply Hprevs; lia|].
    apply Forall_forall. intros c Hc.
    assert (notbelow st k c) as Hkc by (rewrite Forall_forall in Hpost; by apply Hpost).
    unfold notbelow in Hkc.
    destruct (Z.eq_dec (cmp k (akey c)) 0%Z) as [Heq|]; [exfalso|lia].
    destruct (eq_is_head _ _ Hspost Hpost Hc Heq) as [post' ->].
    specialize (Hhit _ _ eq_refl Heq).
    assert (1 ≤ alvl c); [|lia].
    apply Hlvl. rewrite Hns. apply elem_of_app. right. by left.
  - rewrite Set_search_S, store_index_Ok by lia. rsimpl.
    assert (Forall (below st k) lq) as Hlqb.
    { rewrite Hbl in Hpre. by apply Forall_app in Hpre as [_ ?]. }
    assert (length lq < S (length (heap st))) as Hlqf.
    { pose proof nodes_bounded as Hb. rewrite Hns, Hbl, !length_app in Hb. lia. }
    destruct (Set_advance_spec i _ h L before lq post (<[i := Some h]> prevs)
                Hp ltac:(lia) Hlqb Hpost Hlqf)
      as (lq1 & lq2 & h' & L' & Hlq12 & Hp' & Hi' & Hlq2 & Hh' & Hr).
    { rewrite length_insert. lia. } { apply list_lookup_insert_eq. lia. }
    rewrite list_insert_insert_eq in Hr.
    destruct Hr as [(c & Hc & Hnc & Hkc & ->)|[Hmiss ->]]; rsimpl.
    { (* the key is there *)
      eexists. split; [done|]. simpl.
      destruct (eq_is_head _ _ Hspost Hpost Hc Hkc) as [post' ->].
      by exists c, post'. }
    assert (predh i pre = h') as Hpi.
    { rewrite Hbl, predh_app, Hh'. destruct (lastge (S i) lq); [done|].
      eapply at_pos_predh; [done|lia]. }
    rewrite (levels_at_pos _ _ _ _ _ _ _ Hbase (Hfwd i) Hp' Hi'). rsimpl.
    destruct (Set_skip_spec h' L' _ _ (nxt i (lq2 ++ post)) i
                (<[i := Some h']> prevs) Hp')
      as (n' & prevs' & -> & Hn' & Hl' & Hin & Hout).
    { lia. } { rewrite length_insert. lia. }
    rsimpl.
    assert (NoDup (aptr <$> (lq2 ++ post))) as Hnd2.
    { rewrite (at_pos_app _ _ _ _ _ _ Hp'), fmap_app in Hnd.
      by apply NoDup_app in Hnd as (_ & _ & ?). }
    assert (∀ j, n' ≤ j < i → Forall (λ a, alvl a ≤ j) lq2) as Hskip.
    { intros j Hj. eapply (same_nxt_bound lq2 post j i); [done..|].
      by apply Hin. }
    assert (Forall (λ a, alvl a ≤ n') lq2) as Hlq2'.
    { destruct (decide (n' = i)) as [->|]; [done|]. apply Hskip. lia. }
    apply (IH n' h' L' (before ++ lq1) lq2 prevs' Hp').
    + by rewrite <-app_assoc, <-Hlq12.
    + lia.
    + lia.
    + done.
    + by rewrite Hl', length_insert.
    + lia.
    + intros j Hj. destruct (decide (j < i)) as [Hji|Hji].
      * destruct (Hin j ltac:(lia)) as [_ ->]. do 2 f_equal.
        rewrite Hbl, Hlq12, app_assoc, predh_skip by (apply Hskip; lia).
        symmetry. eapply at_pos_predh; [done|lia].
      * rewrite Hout by lia. destruct (decide (j = i)) as [->|].
        -- rewrite list_lookup_insert_eq by lia. by rewrite Hpi.
        -- rewrite list_lookup_insert_ne by lia. apply Hprevs. lia.
    + intros d post' -> Hkd.
      assert (alvl d ≤ i) as Hdi.
      { destruct (decide (i < alvl d)) as [Hlt|]; [exfalso|lia].
        simpl in Hmiss. apply Nat.ltb_lt in Hlt. rewrite Hlt in Hmiss.
        destruct Hmiss as [|(c & Hc & [= Hcd] & Hkc)]; [done|].
        assert (c = d); [|subst; lia].
        rewrite Hns in Hnd. eapply (nodup_ptr_eq (pre ++ d :: post'));
          [done| |apply elem_of_app; right; by left|done].
        by apply elem_of_app; right. }
      destruct (decide (n' = i)) as [->|]; [done|].
      assert (Forall (λ a, alvl a ≤ n') (lq2 ++ [d])) as Hall.
      { eapply (same_nxt_bound (lq2 ++ [d]) post' n' i).
        - by rewrite <-app_assoc.
        - apply Forall_app. split; [done|]. by constructor.
        - rewrite <-app_assoc. simpl. apply Hin. lia. }
      apply Forall_app in Hall as [_ Hall]. by apply Forall_cons in Hall as [? _].
Qed.

Lemma findNext_advance_spec i fuel : ∀ h L before lq post elem,
  at_pos st ns h L before (lq ++ post) → i < L →
  Forall (below st k) lq → Forall (notbelow st k) post →
  length lq < fuel →
  ∃ lq1 lq2 h' L',
    lq = lq1 ++ lq2 ∧ at_pos st ns h' L' (before ++ lq1) (lq2 ++ post) ∧ i < L'
    ∧ Forall (λ a, alvl a ≤ i) lq2
    ∧ ((∃ c, c ∈ post ∧ nxt i post = Some (aptr c) ∧ cmp k (akey c) = 0%Z
           ∧ findNext_advance fuel st k i h elem = Ok (inl (Some (aptr c))))
       ∨ (nxt i post = None
          ∧ findNext_advance fuel st k i h elem = Ok (inr (h', elem)))
       ∨ (∃ c, c ∈ post ∧ nxt i post = Some (aptr c)
          ∧ findNext_advance fuel st k i h elem = Ok (inr (h', Some (aptr c))))).
Proof.
  induction fuel as [|fuel IH]; intros h L before lq post elem Hp Hi Hlq Hpost
    Hfuel; [lia|].
  pose proof (at_pos_app _ _ _ _ _ _ Hp) as Hns.
  rewrite findNext_advance_S, (levels_at_pos _ _ _ _ _ _ _ Hbase (Hfwd i) Hp Hi).
  rsimpl. rewrite nxt_app. destruct (nxt i lq) as [p|] eqn:E.
  - apply nxt_Some in E as (l1 & b & l2 & -> & <- & Hb & Hl1).
    assert (b ∈ ns) as Hbn.
    { rewrite Hns. apply elem_of_app. right. apply elem_of_app. left.
      apply elem_of_app. right. by left. }
    rewrite (compare_node _ _ _ _ Hbase Hbn). rsimpl.
    assert (below st k b) as Hkb.
    { rewrite Forall_forall in Hlq. apply Hlq, elem_of_app. right. by left. }
    unfold below in Hkb.
    assert ((cmp k (akey b) <=? 0)%Z = false) as -> by lia.
    assert (at_pos st ns (HElem (aptr b)) (alvl b) ((before ++ l1) ++ [b])
                   (l2 ++ post)) as Hp'.
    { apply at_node. rewrite Hns, <-!app_assoc. done. }
    apply Forall_app in Hlq as [_ Hlq]. apply Forall_cons in Hlq as [_ Hlq].
    rewrite length_app in Hfuel. simpl in Hfuel.
    destruct (IH _ _ _ l2 post elem Hp' Hb Hlq Hpost)
      as (lq1 & lq2 & h' & L' & -> & Hp'' & Hi' & Hlq2 & Hr); [lia|].
    exists (l1 ++ b :: lq1), lq2, h', L'. split_and!; [|  |done..].
    + by rewrite <-app_assoc.
    + by rewrite <-!app_assoc in Hp''.
  - apply nxt_None in E.
    exists [], lq, h, L. rewrite app_nil_r. split_and!; [done..|].
    destruct (nxt i post) as [p|] eqn:E'; [|right; left; by split].
    destruct (nxt_Some _ _ _ E') as (l1 & c & l2 & -> & <- & Hc & Hl1).
    assert (c ∈ l1 ++ c :: l2) as Hcp by (apply elem_of_app; right; by left).
    assert (c ∈ ns) as Hcn.
    { rewrite Hns. apply elem_of_app. right. by apply elem_of_app; right. }
    rewrite (compare_node _ _ _ _ Hbase Hcn). rsimpl.
    assert (notbelow st k c) as Hkc by (rewrite Forall_forall in Hpost; by apply Hpost).
    unfold notbelow in Hkc.
    assert ((cmp k (akey c) <=? 0)%Z = true) as -> by lia.
    destruct (Z.eqb_spec (cmp k (akey c)) 0) as [Heq|Hne].
    + left. by exists c.
    + right. right. by exists c.
Qed.

Lemma findNext_skip_spec h L before after topLevel : ∀ n,
  at_pos st ns h L before after → n ≤ L →
  ∃ n', findNext_skip st h topLevel n = Ok n' ∧ n' ≤ n
        ∧ (∀ j, n' ≤ j < n → nxt j after = topLevel).
Proof.
  intros n. induction n as [|i IH]; intros Hp Hn.
  - exists 0. split_and!; [done..|intros; lia].
  - rewrite findNext_skip_S, (levels_at_pos _ _ _ _ _ _ _ Hbase (Hfwd i) Hp) by lia.
    rsimpl. destruct (decide (nxt i after = topLevel)) as [Heq|Hne].
    + destruct (IH Hp) as (n' & -> & Hn' & Hin); [lia|].
      exists n'. split_and!; [done|lia|].
      intros j Hj. destruct (decide (j = i)) as [->|Hji]; [done|]. apply Hin. lia.
    + exists (S i). split_and!; [done..|intros; lia].
Qed.

Lemma nxt_0_head l :
  Forall (λ a, 1 ≤ alvl a) l → nxt 0 l = aptr <$> head l.
Proof.
  destruct l as [|a l]; [done|]. intros [Ha _]%Forall_cons. simpl.
  by apply Nat.ltb_lt in Ha as ->.
Qed.

Lemma findNext_loop_spec post :
  Forall (notbelow st k) post → post ≠ [] →
  ∀ fuel n h L before lq elem,
    at_pos st ns h L before (lq ++ post) → n ≤ L → n < fuel →
    Forall (below st k) lq →
    (n = 0 → elem = aptr <$> head post) →
    findNext_loop fuel st k n h elem = Ok (aptr <$> head post).
Proof.
  intros Hpost Hne.
  induction fuel as [|fuel IH]; intros n h L before lq elem Hp HnL Hfuel Hlqb
    Helem; [lia|].
  pose proof (at_pos_app _ _ _ _ _ _ Hp) as Hns.
  assert (StronglySorted (key_lt st) post) as Hspost.
  { rewrite Hns, app_assoc in Hsorted.
    by apply StronglySorted_app in Hsorted as (_ & _ & ?). }
  assert (Forall (λ a, 1 ≤ alvl a) (lq ++ post)) as Hl1.
  { apply Forall_forall. intros a Ha. apply Hlvl. rewrite Hns.
    by apply elem_of_app; right. }
  destruct n as [|i].
  - rewrite findNext_loop_0. f_equal. by apply Helem.
  - rewrite findNext_loop_S.
    assert (length lq < S (length (heap st))) as Hlqf.
    { pose proof nodes_bounded as Hb. rewrite Hns, !length_app in Hb. lia. }
    destruct (findNext_advance_spec i _ h L before lq post elem
                Hp ltac:(lia) Hlqb Hpost Hlqf)
      as (lq1 & lq2 & h' & L' & Hlq12 & Hp' & Hi' & Hlq2 & Hr).
    destruct Hr as [(c & Hc & Hnc & Hkc & ->)|Hr]; rsimpl.
    { destruct (eq_is_head _ _ Hspost Hpost Hc Hkc) as [post' ->]. done. }
    assert (∃ elem', findNext_advance (S (length (heap st))) st k i h elem
                     = Ok (inr (h', elem'))
                     ∧ (nxt i post = None ∨ elem' = nxt i post)) as (elem' & -> & He').
    { destruct Hr as [[Hn ->]|(c & _ & Hn & ->)]; eexists; (split; [done|]).
      - by left.
      - by right. }
    rsimpl. rewrite (levels_at_pos _ _ _ _ _ _ _ Hbase (Hfwd i) Hp' Hi'). rsimpl.
    destruct (findNext_skip_spec h' L' _ _ (nxt i (lq2 ++ post)) i Hp')
      as (n' & -> & Hn' & Hin); [lia|].
    rsimpl.
    assert (NoDup (aptr <$> (lq2 ++ post))) as Hnd2.
    { rewrite (at_pos_app _ _ _ _ _ _ Hp'), fmap_app in Hnd.
      by apply NoDup_app in Hnd as (_ & _ & ?). }
    assert (Forall (λ a, alvl a ≤ n') lq2) as Hlq2'.
    { destruct (decide (n' = i)) as [->|]; [done|].
      eapply (same_nxt_bound lq2 post n' i); [done..|]. apply Hin. lia. }
    apply (IH n' h' L' (before ++ lq1) lq2 elem' Hp'); [lia|lia| |].
    + rewrite Hlq12 in Hlqb. by apply Forall_app in Hlqb as [_ ?].
    + intros ->.
      assert (lq2 = []) as ->.
      { destruct lq2 as [|a lq2]; [done|exfalso].
        apply Forall_cons in Hlq2' as [Ha _].
        apply Forall_app in Hl1 as [Hl1 _]. rewrite Hlq12 in Hl1.
        apply Forall_app in Hl1 as [_ Hl1]. apply Forall_cons in Hl1 as [? _]. lia. }
      simpl in *.
      assert (nxt i post = aptr <$> head post) as Hih.
      { apply Forall_app in Hl1 as [_ Hl1].
        destruct (decide (i = 0)) as [->|]; [by apply nxt_0_head|].
        rewrite <-(Hin 0) by lia. by apply nxt_0_head. }
      destruct He' as [Hn| ->]; [|done].
      rewrite Hn in Hih. destruct post; [done|discriminate].
Qed.

End Search.

(** * Lookups in a well-formed list *)

Section Lookup.

Context {K V : Type}.
Implicit Types (e : @Element K V) (a b c d : @anode K).
Variables (st : @state K V) (ns : list (@anode K)).
Hypothesis Hcmp : Comparator (comparable (sl st)).
Hypothesis Hwf : WF st ns.

Local Abbreviation cmp := (comparable (sl st)).

Lemma key_split k :
  ∃ pre post, ns = pre ++ post ∧ Forall (below st k) pre
              ∧ Forall (notbelow st k) post.
Proof.
  pose proof (wf_sorted _ _ Hwf) as Hs. clear Hwf.
  induction ns as [|a l IH]; [by exists [], []|].
  apply StronglySorted_inv in Hs as [Hs Ha].
  destruct (Z.lt_ge_cases 0 (cmp k (akey a))) as [Hlt|Hge].
  - destruct (IH Hs) as (pre & post & -> & Hpre & Hpost).
    exists (a :: pre), post. split_and!; [done| |done]. by constructor.
  - exists [], (a :: l). split_and!; [done|constructor|].
    constructor; [unfold notbelow; lia|].
    eapply Forall_impl; [done|]. intros b Hab. unfold key_lt in Hab.
    unfold notbelow.
    assert (cmp k (akey b) < 0)%Z; [|lia].
    eapply cmp_le_lt_trans; [done| |done]. lia.
Qed.

Lemma wf_lvl1 : Forall (λ a, 1 ≤ alvl a) ns.
Proof. apply Forall_forall. intros a Ha. by apply (wf_lvl _ _ Hwf). Qed.

Lemma wf_hlen : 0 < hlen st.
Proof. pose proof (wf_max _ _ Hwf). lia. Qed.

Lemma Front_spec : Front st = Ok (aptr <$> head ns).
Proof.
  unfold Front. destruct (wf_fwd _ _ Hwf 0) as [Hh _].
  rewrite (index_Some _ _ _ (Hh wf_hlen)). f_equal. apply nxt_0_head, wf_lvl1.
Qed.

Lemma Back_spec : Back st = aptr <$> last ns.
Proof. apply (wf_back _ _ Hwf). Qed.

Lemma Len_spec : Len st = Z.of_nat (length ns).
Proof. apply (wf_len _ _ Hwf). Qed.

Lemma findNext_spec k pre post (start : option anode) :
  ns = pre ++ post → Forall (below st k) pre → Forall (notbelow st k) post →
  (∀ a, start = Some a → a ∈ ns) →
  findNext (aptr <$> start) k st
  = Ok (match start with
        | Some a => if decide (cmp k (akey a) ≤ 0)%Z then Some (aptr a)
                    else aptr <$> head post
        | None => aptr <$> head post
        end).
Proof.
  intros Hns Hpre Hpost Hstart. unfold findNext.
  pose proof (wf_len _ _ Hwf) as Hlen.
  destruct (Z.eqb_spec (length_ (sl st)) 0) as [H0|H0].
  { assert (ns = []) as Hnil by (apply length_zero_iff_nil; lia).
    rewrite Hnil in Hstart.
    destruct start as [a|]; [by specialize (Hstart a eq_refl); apply elem_of_nil in Hstart|].
    rewrite Hnil in Hns. symmetry in Hns. by apply app_eq_nil in Hns as [_ ->]. }
  assert (ns ≠ []) as Hne by (intros ->; simpl in Hlen; lia).
  pose proof (wf_base _ _ Hwf) as Hbase.
  assert (∀ b, last ns = Some b → b ∈ ns) as Hlast.
  { intros b [l' ->]%last_Some. apply elem_of_app. right. by left. }
  assert (∀ s n h before lq elem,
    at_pos st ns h n before (lq ++ post) → 0 < n → Forall (below st k) lq →
    s = aptr <$> last ns →
    (c ← compare st k s;
     if (c >? 0)%Z then Ok None
     else findNext_loop (S n) st k n h elem)
    = Ok (aptr <$> head post)) as Hloop.
  { intros s n h before lq elem Hp Hn Hlqb ->.
    destruct (last ns) as [b|] eqn:Eb; [|by apply last_None in Eb].
    pose proof (Hlast _ eq_refl) as Hbn.
    simpl. rewrite (compare_node _ _ _ _ Hbase Hbn). rsimpl.
    destruct (Z.gtb_spec (cmp k (akey b)) 0) as [Hgt|Hle].
    - (* beyond the back *)
      destruct post as [|d post' _] using rev_ind; [done|exfalso].
      rewrite Hns, app_assoc, last_snoc in Eb. injection Eb as ->.
      apply Forall_app in Hpost as [_ Hpost]. apply Forall_cons in Hpost as [Hb _].
      unfold notbelow in Hb. lia.
    - assert (post ≠ []) as Hpne.
      { intros ->. rewrite app_nil_r in Hns. subst pre.
        rewrite Forall_forall in Hpre. specialize (Hpre b Hbn).
        unfold below in Hpre. lia. }
      eapply (findNext_loop_spec st ns k Hcmp Hbase (wf_fwd _ _ Hwf)
                (wf_nodup _ _ Hwf) (wf_sorted _ _ Hwf)); try done; try lia.
      intros a Ha. by apply (wf_lvl _ _ Hwf). }
  destruct start as [a|]; simpl.
  - (* from a node *)
    specialize (Hstart a eq_refl).
    rewrite (compare_node _ _ _ _ Hbase Hstart). rsimpl.
    destruct (Z.leb_spec (cmp k (akey a)) 0) as [Hle|Hgt].
    { by rewrite decide_True. }
    rewrite decide_False by lia.
    destruct (Hbase a Hstart) as (e & He & HL & _).
    unfold header. rewrite (deref_Some _ _ _ He). rsimpl.
    fold (Level e). rewrite HL.
    (* [a] is below [k], so it lies in [pre] *)
    destruct (list_elem_of_split _ _ Hstart) as (l0 & l & Hsplit).
    rewrite Hsplit in Hns.
    destruct (app_eq_cases _ _ _ _ _ (eq_sym Hns)) as [(m & -> & ->)|(m & -> & ->)].
    + eapply (Hloop _ _ _ (l0 ++ [a]) m).
      * by apply at_node.
      * apply (wf_lvl _ _ Hwf _ Hstart).
      * apply Forall_app in Hpre as [_ Hpre]. by apply Forall_cons in Hpre as [_ ?].
      * apply (wf_back _ _ Hwf).
    + exfalso. apply Forall_app in Hpost as [_ Hpost].
      apply Forall_cons in Hpost as [Ha _]. unfold notbelow in Ha. lia.
  - (* from the front *)
    rewrite Front_spec. rsimpl.
    assert (∃ f ns', ns = f :: ns') as (f & ns' & En).
    { clear -Hne. destruct ns; [done|by eexists _, _]. }
    assert (f ∈ ns) as Hf by (rewrite En; by left).
    assert (head ns = Some f) as -> by (by rewrite En). simpl.
    rewrite (compare_node _ _ _ _ Hbase Hf). rsimpl.
    destruct (Z.leb_spec (cmp k (akey f)) 0) as [Hle|Hgt].
    + destruct pre as [|a' pre'].
      * simpl in Hns. by rewrite <-Hns, En.
      * exfalso. rewrite En in Hns. injection Hns as <- _.
        apply Forall_cons in Hpre as [Ha _]. unfold below in Ha. lia.
    + eapply (Hloop _ _ _ [] pre).
      * rewrite <-Hns. apply at_head.
      * apply wf_hlen.
      * done.
      * apply (wf_back _ _ Hwf).
Qed.

End Lookup.

(** * What the writes leave alone *)

Section Frame.

Context {K V : Type}.
Implicit Types (st : @state K V) (e : @Element K V) (ns : list (@anode K)).

Lemma keeps_refl fl fp ft e : keeps fl fp ft e e.
Proof. by repeat split. Qed.

Lemma keeps_trans fl fp ft e1 e2 e3 :
  keeps fl fp ft e1 e2 → keeps fl fp ft e2 e3 → keeps fl fp ft e1 e3.
Proof.
  intros (?&?&?&?&Hl&Hp&Ht) (?&?&?&?&Hl'&Hp'&Ht').
  repeat split; try congruence.
  - intros i Hx. rewrite Hl', Hl; done.
  - intros Hx. rewrite Hp', Hp; done.
  - intros Hx. rewrite Ht', Ht; done.
Qed.

Lemma keeps_weaken (fl fl' : nat → Prop) (fp fp' ft ft' : bool) e e' :
  (∀ i, fl' i → fl i) → (fp' → fp) → (ft' → ft) →
  keeps fl fp ft e e' → keeps fl' fp' ft' e e'.
Proof. intros Hi ?? (?&?&?&?&Hl&Hp&Ht). repeat split; auto. Qed.

Lemma sl_eta (l : @SkipList K) :
  l = set_lhdr (mkHeader (levels (lhdr l)) (spare (lhdr l))) l.
Proof. destruct l as [[??] ???????]. done. Qed.

Lemma frame_refl fl fp ft st : frame fl fp ft st st.
Proof.
  split_and!; [done|apply Forall2_same_length_lookup_2; [done|]|].
  - intros i e e' H1 H2. assert (e = e') as -> by congruence. apply keeps_refl.
  - exists (levels (lhdr (sl st))). split_and!; [apply sl_eta|done..].
Qed.

Lemma frame_trans fl fp ft st1 st2 st3 :
  frame fl fp ft st1 st2 → frame fl fp ft st2 st3 → frame fl fp ft st1 st3.
Proof.
  intros (Ht & Hh & lv & Hs & Hl & Hf) (Ht' & Hh' & lv' & Hs' & Hl' & Hf').
  split_and!; [congruence| |].
  - eapply Forall2_trans; [|done..]. apply keeps_trans.
  - exists lv'. rewrite Hs', Hs. unfold hlen in *. rewrite Hs in Hl'. simpl in *.
    split_and!; [done|congruence|]. intros i Hi. rewrite Hf', Hs by done. simpl.
    by apply Hf.
Qed.

Lemma frame_weaken (fl fl' : nat → Prop) (fp fp' ft ft' : bool) st st' :
  (∀ i, fl' i → fl i) → (fp' → fp) → (ft' → ft) →
  frame fl fp ft st st' → frame fl' fp' ft' st st'.
Proof.
  intros Hi ?? (Ht & Hh & lv & Hs & Hl & Hf). split_and!; [done| |].
  - eapply Forall2_impl; [done|]. intros ??. by apply keeps_weaken.
  - exists lv. split_and!; [done..|]. intros i Hfl. by apply Hf, Hi.
Qed.

Lemma frame_hlen fl fp ft st st' : frame fl fp ft st st' → hlen st' = hlen st.
Proof. intros (_ & _ & lv & Hs & Hl & _). unfold hlen. by rewrite Hs. Qed.

Lemma frame_sl fl fp ft st st' :
  frame fl fp ft st st' →
  comparable (sl st') = comparable (sl st) ∧ probTable (sl st') = probTable (sl st)
  ∧ maxLevel (sl st') = maxLevel (sl st) ∧ length_ (sl st') = length_ (sl st)
  ∧ back (sl st') = back (sl st) ∧ randSeq (sl st') = randSeq (sl st)
  ∧ randPos (sl st') = randPos (sl st)
  ∧ spare (lhdr (sl st')) = spare (lhdr (sl st)).
Proof. intros (_ & _ & lv & Hs & _). by rewrite Hs. Qed.

Lemma frame_heap_length fl fp ft st st' :
  frame fl fp ft st st' → length (heap st') = length (heap st).
Proof. intros (_ & Hh & _). symmetry. by eapply Forall2_length. Qed.

Lemma frame_lookup_r fl fp ft st st' p e' :
  frame fl fp ft st st' → heap st' !! p = Some e' →
  ∃ e, heap st !! p = Some e ∧ keeps fl fp ft e e'.
Proof. intros (_ & Hh & _) H. by eapply Forall2_lookup_r. Qed.

Lemma frame_lookup_l fl fp ft st st' p e :
  frame fl fp ft st st' → heap st !! p = Some e →
  ∃ e', heap st' !! p = Some e' ∧ keeps fl fp ft e e'.
Proof. intros (_ & Hh & _) H. by eapply Forall2_lookup_l. Qed.

(** The writes *)

Lemma lookup_update st p f e q :
  heap st !! p = Some e →
  heap (set_heap st (<[p := f e]> (heap st))) !! q
  = if decide (q = p) then Some (f e) else heap st !! q.
Proof.
  intros H. simpl. destruct (decide (q = p)) as [->|].
  - apply list_lookup_insert_eq. by eapply lookup_lt_Some.
  - by apply list_lookup_insert_ne.
Qed.

Lemma frame_insert fl fp ft st p e e' :
  heap st !! p = Some e → keeps fl fp ft e e' →
  frame fl fp ft st (set_heap st (<[p := e']> (heap st))).
Proof.
  intros He Hk. split_and!; [done| |].
  - simpl. apply Forall2_same_length_lookup_2; [by rewrite length_insert|].
    intros i x y Hx Hy. destruct (decide (i = p)) as [->|].
    + rewrite list_lookup_insert_eq in Hy by (by eapply lookup_lt_Some).
      congruence.
    + rewrite list_lookup_insert_ne in Hy by done.
      assert (x = y) as -> by congruence. apply keeps_refl.
  - exists (levels (lhdr (sl st))). split_and!; [apply sl_eta|done..].
Qed.

Lemma frame_update fl fp ft st p f st' :
  update st p f = Ok st' → (∀ e, keeps fl fp ft e (f e)) → frame fl fp ft st st'.
Proof.
  unfold update, deref. destruct (heap st !! p) as [e|] eqn:E; [|done].
  simpl. intros [= <-] Hk. by eapply frame_insert.
Qed.

Lemma frame_set_levels_at st h i v st' :
  set_levels_at st h i v = Ok st' → frame (λ j, j ≠ i) true true st st'.
Proof.
  unfold set_levels_at, header, store_index. destruct h as [|p]; simpl.
  - destruct (decide _) as [Hi|]; [|done]. simpl. intros [= <-].
    split_and!; [done| |].
    + apply Forall2_same_length_lookup_2; [done|].
      intros j x y Hx Hy. assert (x = y) as -> by (simpl in *; congruence).
      apply keeps_refl.
    + exists (<[i := v]> (levels (lhdr (sl st)))).
      split_and!; [done|by rewrite length_insert|].
      intros j Hj. by apply list_lookup_insert_ne.
  - unfold deref. destruct (heap st !! p) as [e|] eqn:E; [|done]. simpl.
    destruct (decide _) as [Hi|]; [|done]. simpl.
    unfold update. rewrite (deref_Some _ _ _ E). simpl. intros [= <-].
    eapply frame_insert; [done|]. repeat split; try done.
    + unfold Level. simpl. by rewrite length_insert.
    + intros j Hj. simpl. by apply list_lookup_insert_ne.
Qed.

Lemma frame_for_range fl fp ft (body : nat → @state K V → result (@state K V)) to :
  (∀ i st st', i < to → body i st = Ok st' → frame fl fp ft st st') →
  ∀ n from st st', from + n ≤ to →
    for_range from n body st = Ok st' → frame fl fp ft st st'.
Proof.
  intros Hb n. induction n as [|n IH]; intros from st st' Hto.
  - rewrite for_range_0. intros [= <-]. apply frame_refl.
  - rewrite for_range_S. destruct (body from st) as [st1| |] eqn:E; [|done..].
    rsimpl. intros H. eapply frame_trans; [eapply Hb; [|done]; lia|].
    eapply IH; [|done]. lia.
Qed.

(** The invariants that a frame carries over *)

Lemma base_frame fl fp ft st st' ns :
  frame fl fp ft st st' → base st ns → base st' ns.
Proof.
  intros Hf Hb a Ha. destruct (Hb a Ha) as (e & He & ? & ? & ?).
  destruct (frame_lookup_l _ _ _ _ _ _ _ Hf He) as (e' & He' & (?&?&?&_)).
  destruct Hf as (Ht & _). exists e'. split_and!; [done|congruence..].
Qed.

Lemma owned_frame fl fp ft st st' ns :
  frame fl fp ft st st' → owned st ns → owned st' ns.
Proof.
  intros Hf Ho p e' He' Hl.
  destruct (frame_lookup_r _ _ _ _ _ _ _ Hf He') as (e & He & (?&?&?&_)).
  destruct Hf as (Ht & _). apply (Ho p e He). congruence.
Qed.

Lemma fwd_frame (fl : nat → Prop) fp ft st st' i ns :
  frame fl fp ft st st' → fl i → fwd st i ns → fwd st' i ns.
Proof.
  intros Hf Hfl [Hh Hn]. split.
  - rewrite (frame_hlen _ _ _ _ _ Hf). intros Hi.
    destruct Hf as (_ & _ & lv & -> & _ & Hlv). simpl. rewrite Hlv by done.
    by apply Hh.
  - intros pre a post e' Hns He' Hi.
    destruct (frame_lookup_r _ _ _ _ _ _ _ Hf He') as (e & He & (_&_&_&_&Hl&_)).
    rewrite Hl by done. by eapply Hn.
Qed.

Lemma bprev_on_frame P fl ft st st' ns :
  frame fl true ft st st' → bprev_on P st ns → bprev_on P st' ns.
Proof.
  intros Hf Hb pre a post e' Hns He' HP.
  destruct (frame_lookup_r _ _ _ _ _ _ _ Hf He') as (e & He & (_&_&_&_&_&Hp&_)).
  rewrite Hp by done. by eapply Hb.
Qed.

Lemma btop_on_frame P fl fp st st' ns :
  frame fl fp true st st' → btop_on P st ns → btop_on P st' ns.
Proof.
  intros Hf Hb pre a post e' Hns He' HP.
  destruct (frame_lookup_r _ _ _ _ _ _ _ Hf He') as (e & He & (_&_&_&_&_&_&Hp)).
  rewrite Hp by done. by eapply Hb.
Qed.

Lemma bprev_on_all st ns : bprev st ns ↔ bprev_on (λ _, True) st ns.
Proof. split; intros H pre a post e ??; [intros _|]; by eapply H. Qed.

Lemma btop_on_all st ns : btop st ns ↔ btop_on (λ _, True) st ns.
Proof. split; intros H pre a post e ??; [intros _|]; by eapply H. Qed.

Lemma bprev_on_impl (P Q : @anode K → Prop) st ns :
  (∀ a, a ∈ ns → Q a → P a) → bprev_on P st ns → bprev_on Q st ns.
Proof.
  intros HPQ H pre a post e Hns ??. eapply H; [done..|]. apply HPQ; [|done].
  rewrite Hns. apply elem_of_app. right. by left.
Qed.

Lemma btop_on_impl (P Q : @anode K → Prop) st ns :
  (∀ a, a ∈ ns → Q a → P a) → btop_on P st ns → btop_on Q st ns.
Proof.
  intros HPQ H pre a post e Hns ??. eapply H; [done..|]. apply HPQ; [|done].
  rewrite Hns. apply elem_of_app. right. by left.
Qed.

(** A well-formed list stays so when nothing the invariant reads changes. *)
Lemma WF_frame st st' ns :
  frame all_levels true true st st' → WF st ns → WF st' ns.
Proof.
  intros Hf Hwf.
  destruct (frame_sl _ _ _ _ _ Hf) as (Hc & Hpt & Hm & Hl & Hbk & _).
  pose proof (frame_hlen _ _ _ _ _ Hf) as Hh.
  destruct Hwf. split; rewrite ?Hh, ?Hl, ?Hbk, ?Hm, ?Hpt; try done.
  - unfold key_lt in *. by rewrite Hc.
  - by eapply base_frame.
  - intros i. by eapply fwd_frame.
  - apply bprev_on_all. eapply bprev_on_frame; [done|]. by apply bprev_on_all.
  - apply btop_on_all. eapply btop_on_frame; [done|]. by apply btop_on_all.
  - by eapply owned_frame.
Qed.

End Frame.

(** * Writing forward pointers *)

Section Writes.

Context {K V : Type}.
Implicit Types (st : @state K V) (e : @Element K V).
Implicit Types (ns pre post l : list (@anode K)) (a b c d xa : @anode K).

Lemma fwd_fwd_at st i ns : base st ns → fwd st i ns → fwd_at st i ns.
Proof. intros Hb Hf h L before after Hp Hi. by eapply levels_at_pos. Qed.

Lemma fwd_at_fwd st i ns : fwd_at st i ns → fwd st i ns.
Proof.
  intros Hf. split.
  - intros Hi. specialize (Hf _ _ _ _ (at_head st ns) Hi).
    unfold levels_at, index in Hf. simpl in Hf.
    destruct (levels (lhdr (sl st)) !! i); by inversion Hf.
  - intros pre a post e Hns He Hi.
    specialize (Hf _ _ _ _ (at_node st ns pre a post Hns) Hi).
    unfold levels_at, index in Hf. simpl in Hf.
    rewrite (deref_Some _ _ _ He) in Hf. simpl in Hf.
    destruct (levels (ehdr e) !! i); by inversion Hf.
Qed.

Lemma header_pos st ns h L before after :
  base st ns → at_pos st ns h L before after →
  ∃ hd, header st h = Ok hd ∧ length (levels hd) = L.
Proof.
  intros Hb [|l0 a l ->]; simpl; [by eexists|].
  destruct (Hb a) as (e & He & HL & _).
  { apply elem_of_app. right. by left. }
  rewrite (deref_Some _ _ _ He). by eexists.
Qed.

Lemma levels_at_frame (fl : nat → Prop) fp ft st st' h i :
  frame fl fp ft st st' → fl i → levels_at st' h i = levels_at st h i.
Proof.
  intros Hf Hi. unfold levels_at, header. destruct h as [|p]; rsimpl.
  - destruct Hf as (_ & _ & lv & -> & _ & Hlv). unfold index. simpl.
    by rewrite Hlv.
  - unfold deref. destruct (heap st !! p) as [e|] eqn:E.
    + destruct (frame_lookup_l _ _ _ _ _ _ _ Hf E) as (e' & -> & (_&_&_&_&Hl&_)).
      rsimpl. unfold index. by rewrite Hl.
    + apply lookup_ge_None in E. rewrite <-(frame_heap_length _ _ _ _ _ Hf) in E.
      apply lookup_ge_None in E. by rewrite E.
Qed.

Lemma fwd_at_frame (fl : nat → Prop) fp ft st st' i ns :
  frame fl fp ft st st' → fl i → fwd_at st i ns → fwd_at st' i ns.
Proof.
  intros Hf Hi H h L before after Hp HL.
  rewrite (levels_at_frame _ _ _ _ _ _ _ Hf Hi). apply (H h L before after); [|done].
  destruct Hp as [|l0 a l Hns]; [|by apply at_node].
  rewrite (frame_hlen _ _ _ _ _ Hf). apply at_head.
Qed.

Lemma at_pos_frame (fl : nat → Prop) fp ft st st' ns h L before after :
  frame fl fp ft st st' → at_pos st ns h L before after →
  at_pos st' ns h L before after.
Proof.
  intros Hf [|l0 a l Hns]; [|by apply at_node].
  rewrite <-(frame_hlen _ _ _ _ _ Hf). apply at_head.
Qed.

(** States with the same memory: the invariants read nothing else. *)
Lemma base_same st st' ns :
  heap st' = heap st → this st' = this st → base st ns → base st' ns.
Proof. intros Hh Ht Hb a Ha. rewrite Hh, Ht. by apply Hb. Qed.

Lemma owned_same st st' ns :
  heap st' = heap st → this st' = this st → owned st ns → owned st' ns.
Proof. intros Hh Ht Ho p e. rewrite Hh, Ht. apply Ho. Qed.

Lemma bprev_same st st' ns : heap st' = heap st → bprev st ns → bprev st' ns.
Proof. intros Hh Hb pre a post e. rewrite Hh. apply Hb. Qed.

Lemma btop_same st st' ns : heap st' = heap st → btop st ns → btop st' ns.
Proof. intros Hh Hb pre a post e. rewrite Hh. apply Hb. Qed.

Lemma fwd_at_same st st' i ns :
  heap st' = heap st → lhdr (sl st') = lhdr (sl st) →
  fwd_at st i ns → fwd_at st' i ns.
Proof.
  intros Hh Hl Hf h L before after Hp HL.
  assert (levels_at st' h i = levels_at st h i) as ->.
  { unfold levels_at, header, deref. destruct h; by rewrite ?Hl, ?Hh. }
  apply (Hf h L before after); [|done].
  destruct Hp as [|l0 a l Hns]; [|by apply at_node].
  unfold hlen. rewrite Hl. apply at_head.
Qed.

(** Putting the invariant together, for a state with the memory of [st]. *)
Lemma WF_intro st stf ns :
  heap stf = heap st → this stf = this st → lhdr (sl stf) = lhdr (sl st) →
  NoDup (aptr <$> ns) → StronglySorted (key_lt stf) ns →
  (∀ a, a ∈ ns → 1 ≤ alvl a ≤ hlen st) →
  base st ns → (∀ i, fwd_at st i ns) → bprev st ns → btop st ns → owned st ns →
  back (sl stf) = aptr <$> last ns →
  length_ (sl stf) = Z.of_nat (length ns) →
  1 ≤ maxLevel (sl stf) ≤ hlen st →
  length (probTable (sl stf)) = maxLevel (sl stf) →
  WF stf ns.
Proof.
  intros Hh Ht Hl ????????????.
  assert (hlen stf = hlen st) as Hhl by (unfold hlen; by rewrite Hl).
  split; rewrite ?Hhl; try done.
  - by eapply base_same.
  - intros i. apply fwd_at_fwd. by eapply fwd_at_same.
  - by eapply bprev_same.
  - by eapply btop_same.
  - by eapply owned_same.
Qed.

(** [h.levels[i] = v] at a header that has a level [i]. *)
Lemma set_levels_at_ok st h hd i v :
  header st h = Ok hd → i < length (levels hd) →
  ∃ st', set_levels_at st h i v = Ok st'
         ∧ frame (λ j, j ≠ i) true true st st'
         ∧ levels_at st' h i = Ok v
         ∧ ∀ h', h' ≠ h → levels_at st' h' i = levels_at st h' i.
Proof.
  intros Hh Hi.
  assert (∃ st', set_levels_at st h i v = Ok st') as [st' Hs].
  { unfold set_levels_at. rewrite Hh. rsimpl. rewrite store_index_Ok by done.
    rsimpl. destruct h as [|p]; simpl; [by eexists|].
    simpl in Hh. unfold update. destruct (deref st p); [by eexists|done..]. }
  exists st'. split_and!; [done|by eapply frame_set_levels_at|..].
  - unfold set_levels_at in Hs. rewrite Hh in Hs. rsimpl in Hs.
    rewrite store_index_Ok in Hs by done. rsimpl in Hs.
    destruct h as [|p]; simpl in Hs.
    + injection Hs as <-. injection Hh as <-. unfold levels_at, index. simpl.
      by rewrite list_lookup_insert_eq.
    + simpl in Hh. unfold update in Hs.
      destruct (deref st p) as [e| |] eqn:E; [|done..]. rsimpl in Hs. rsimpl in Hh.
      injection Hh as <-. injection Hs as <-.
      unfold deref in E. destruct (heap st !! p) as [e0|] eqn:E0; [|done].
      unfold levels_at, header, deref. simpl.
      apply lookup_lt_Some in E0.
      rewrite list_lookup_insert_eq by done. simpl.
      unfold index. by rewrite list_lookup_insert_eq.
  - intros h' Hne. unfold set_levels_at in Hs. rewrite Hh in Hs. rsimpl in Hs.
    rewrite store_index_Ok in Hs by done. rsimpl in Hs.
    destruct h as [|p]; simpl in Hs.
    + injection Hs as <-. destruct h' as [|q]; [done|]. done.
    + unfold update in Hs. destruct (deref st p) as [e| |] eqn:E; [|done..].
      rsimpl in Hs. injection Hs as <-.
      destruct h' as [|q]; [done|]. unfold levels_at, header, deref. simpl.
      rewrite list_lookup_insert_ne by congruence. done.
Qed.

(** Where the predecessor of level [i] stands. *)
Lemma predh_pos st pre post i :
  i < hlen st →
  ∃ L before lq,
    at_pos st (pre ++ post) (predh i pre) L before (lq ++ post) ∧ i < L
    ∧ pre = before ++ lq ∧ Forall (λ a, alvl a ≤ i) lq.
Proof.
  intros Hi. unfold predh. destruct (lastge (S i) pre) as [p|] eqn:E.
  - apply lastge_Some in E as (l1 & b & l2 & -> & <- & Hb & Hl2).
    exists (alvl b), (l1 ++ [b]), l2. split_and!.
    + apply at_node. by rewrite <-app_assoc.
    + lia.
    + by rewrite <-app_assoc.
    + eapply Forall_impl; [done|]. simpl. lia.
  - apply lastge_None in E. exists (hlen st), [], pre. split_and!; [|done..|].
    + apply at_head.
    + eapply Forall_impl; [done|]. simpl. lia.
Qed.

Lemma predh_not_in st pre post i p :
  NoDup (aptr <$> (pre ++ post)) → p ∈ aptr <$> post → predh i pre ≠ HElem p.
Proof.
  intros Hnd Hp. unfold predh. destruct (lastge (S i) pre) as [q|] eqn:E; [|done].
  intros [= ->]. apply lastge_elem_of in E.
  by eapply (nodup_app_disjoint pre post).
Qed.

Lemma lastge_nxt_Some i l p : lastge (S i) l = Some p → nxt i l ≠ None.
Proof.
  intros H Hn. apply nxt_None in Hn.
  assert (lastge (S i) l = None); [|congruence].
  apply lastge_None. eapply Forall_impl; [done|]. simpl. lia.
Qed.

Lemma nxt_app_Some i l1 l2 l3 : nxt i l1 ≠ None → nxt i (l1 ++ l2) = nxt i (l1 ++ l3).
Proof. intros H. rewrite !nxt_app. by destruct (nxt i l1). Qed.

Lemma base_insert_drop st pre xa post :
  base st (pre ++ xa :: post) → base st (pre ++ post).
Proof.
  intros H a [Ha|Ha]%elem_of_app; apply H, elem_of_app; [by left|].
  right. by right.
Qed.

Lemma ptr_not_in_l pre xa post a :
  NoDup (aptr <$> (pre ++ xa :: post)) → a ∈ pre → aptr a ≠ aptr xa.
Proof.
  intros Hnd Ha Heq. eapply (nodup_app_disjoint pre (xa :: post) (aptr a) Hnd).
  - by apply list_elem_of_fmap_2.
  - rewrite Heq. simpl. by left.
Qed.

Lemma ptr_not_in_r pre xa post a :
  NoDup (aptr <$> (pre ++ xa :: post)) → a ∈ post → aptr a ≠ aptr xa.
Proof.
  intros Hnd Ha Heq. rewrite fmap_app, fmap_cons in Hnd.
  apply NoDup_app in Hnd as (_ & _ & Hnd). apply NoDup_cons in Hnd as [Hnd _].
  apply Hnd. rewrite <-Heq. by apply list_elem_of_fmap_2.
Qed.

(** One level of the insertion: [xa] is linked between [pre] and [post]. *)
Lemma splice_level st pre xa post i prevs :
  NoDup (aptr <$> (pre ++ xa :: post)) →
  base st (pre ++ xa :: post) →
  fwd_at st i (pre ++ post) →
  i < alvl xa → alvl xa ≤ hlen st →
  prevs !! i = Some (Some (predh i pre)) →
  ∃ st', Set_splice (aptr xa) prevs i st = Ok st'
         ∧ fwd_at st' i (pre ++ xa :: post)
         ∧ frame (λ j, j ≠ i) true true st st'.
Proof.
  intros Hnd Hb Hf Hi Hx Hprev.
  pose proof (base_insert_drop _ _ _ _ Hb) as Hb0.
  destruct (predh_pos st pre post i) as (L & before & lq & Hp & HL & Hpre & Hlq);
    [lia|].
  unfold Set_splice. rewrite (index_Some _ _ _ Hprev). rsimpl. simpl.
  rewrite (Hf _ _ _ _ Hp HL), (nxt_skip _ _ _ Hlq). rsimpl.
  (* the first write *)
  destruct (Hb xa) as (ex & Hex & HLx & _).
  { apply elem_of_app. right. by left. }
  destruct (set_levels_at_ok st (HElem (aptr xa)) (ehdr ex) i (nxt i post))
    as (st1 & -> & Hfr1 & Hget1 & Hoth1).
  { simpl. by rewrite (deref_Some _ _ _ Hex). } { fold (Level ex). lia. }
  rsimpl.
  (* the second write *)
  destruct (header_pos st1 (pre ++ post) _ _ _ _
              (base_frame _ _ _ _ _ _ Hfr1 Hb0) (at_pos_frame _ _ _ _ _ _ _ _ _ _ Hfr1 Hp))
    as (hd & Hhd & HhdL).
  destruct (set_levels_at_ok st1 (predh i pre) hd i (Some (aptr xa)) Hhd)
    as (st2 & -> & Hfr2 & Hget2 & Hoth2); [lia|].
  exists st2. split_and!; [done| |].
  2:{ eapply frame_trans; done. }
  assert (predh i pre ≠ HElem (aptr xa)) as Hhx.
  { eapply (predh_not_in st pre (xa :: post)); [done|]. simpl. by left. }
  intros h' L' before' after' Hp' HL'.
  inversion Hp' as [|l0 a l Hns']; subst h' L' before' after'.
  - (* the header of the list *)
    destruct (decide (predh i pre = HList)) as [Hh|Hh].
    + rewrite Hh in Hget2. rewrite Hget2. f_equal.
      unfold predh in Hh. destruct (lastge (S i) pre) eqn:E; [done|].
      apply lastge_None in E. symmetry. apply nxt_first; [|done].
      eapply Forall_impl; [done|]. simpl. lia.
    + rewrite Hoth2, Hoth1 by done.
      rewrite (Hf _ _ _ _ (at_head st _)) by lia. f_equal.
      apply nxt_app_Some. unfold predh in Hh.
      destruct (lastge (S i) pre) eqn:E; [|done]. by eapply lastge_nxt_Some.
  - destruct (app_cons_eq_cases _ _ _ _ _ _ Hns') as
      [(m & -> & ->)|[(-> & -> & ->)|(m & -> & ->)]].
    + (* a node before the new one *)
      assert (aptr a ≠ aptr xa) as Hax.
      { eapply ptr_not_in_l; [done|]. apply elem_of_app. right. by left. }
      assert (lastge (S i) (l0 ++ a :: m)
              = match lastge (S i) m with Some q => Some q | None => Some (aptr a) end)
        as Hlast.
      { rewrite lastge_app. cbn [lastge]. destruct (lastge (S i) m); [done|].
        by apply Nat.leb_le in HL' as ->. }
      destruct (decide (predh i (l0 ++ a :: m) = HElem (aptr a))) as [Hh|Hh].
      * rewrite Hh in Hget2. rewrite Hget2. f_equal. symmetry.
        apply nxt_first; [|done].
        unfold predh in Hh. rewrite Hlast in Hh.
        destruct (lastge (S i) m) as [q|] eqn:E.
        -- exfalso. injection Hh as ->. apply lastge_elem_of in E.
           rewrite <-app_assoc in Hnd. simpl in Hnd.
           rewrite fmap_app, fmap_cons in Hnd.
           apply NoDup_app in Hnd as (_ & _ & Hnd).
           apply NoDup_cons in Hnd as [Hnd _]. apply Hnd.
           rewrite fmap_app. apply elem_of_app. by left.
        -- apply lastge_None in E. eapply Forall_impl; [done|]. simpl. lia.
      * rewrite Hoth2, Hoth1 by congruence.
        rewrite (Hf _ (alvl a) (l0 ++ [a]) (m ++ post)); [|apply at_node|done].
        2:{ by rewrite <-app_assoc. }
        f_equal. apply nxt_app_Some.
        unfold predh in Hh. rewrite Hlast in Hh.
        destruct (lastge (S i) m) as [q|] eqn:E; [|done]. by eapply lastge_nxt_Some.
    + (* the new node *)
      by rewrite Hoth2, Hget1 by done.
    + (* a node after the new one *)
      assert (aptr a ≠ aptr xa) as Hax.
      { eapply ptr_not_in_r; [done|]. apply elem_of_app. right. by left. }
      assert (predh i pre ≠ HElem (aptr a)) as Hha.
      { eapply (predh_not_in st pre (xa :: m ++ a :: l)); [done|].
        simpl. right. rewrite fmap_app. apply elem_of_app. right. by left. }
      rewrite Hoth2, Hoth1 by congruence.
      apply (Hf _ (alvl a) ((pre ++ m) ++ [a]) l); [|done].
      apply at_node. by rewrite <-app_assoc.
Qed.

Lemma nxt_insert_high i l1 xa l2 :
  alvl xa ≤ i → nxt i (l1 ++ xa :: l2) = nxt i (l1 ++ l2).
Proof.
  intros H. rewrite !nxt_app. simpl.
  by apply Nat.ltb_ge in H as ->.
Qed.

(** Above its level, a node is invisible to the forward pointers. *)
Lemma fwd_at_insert_high st pre xa post i :
  alvl xa ≤ i → fwd_at st i (pre ++ post) → fwd_at st i (pre ++ xa :: post).
Proof.
  intros Hx Hf h' L' before' after' Hp' HL'.
  inversion Hp' as [|l0 a l Hns']; subst h' L' before' after'.
  - rewrite (Hf _ _ _ _ (at_head st _) HL'). f_equal. symmetry.
    by apply nxt_insert_high.
  - destruct (app_cons_eq_cases _ _ _ _ _ _ Hns') as
      [(m & -> & ->)|[(-> & -> & ->)|(m & -> & ->)]].
    + rewrite (Hf _ (alvl a) (l0 ++ [a]) (m ++ post)); [|apply at_node|done].
      2:{ by rewrite <-app_assoc. }
      f_equal. symmetry. by apply nxt_insert_high.
    + lia.
    + apply (Hf _ (alvl a) ((pre ++ m) ++ [a]) l); [|done].
      apply at_node. by rewrite <-app_assoc.
Qed.

Lemma fwd_at_remove_high st pre xa post i :
  alvl xa ≤ i → fwd_at st i (pre ++ xa :: post) → fwd_at st i (pre ++ post).
Proof.
  intros Hx Hf h' L' before' after' Hp' HL'.
  inversion Hp' as [|l0 a l Hns']; subst h' L' before' after'.
  - rewrite (Hf _ _ _ _ (at_head st _) HL'). f_equal.
    by apply nxt_insert_high.
  - destruct (app_eq_cases _ _ _ _ _ Hns') as [(m & -> & ->)|(m & -> & ->)].
    + rewrite (Hf _ (alvl a) (l0 ++ [a]) (m ++ xa :: post)); [|apply at_node|done].
      2:{ by rewrite <-app_assoc. }
      f_equal. by apply nxt_insert_high.
    + apply (Hf _ (alvl a) ((pre ++ xa :: m) ++ [a]) l); [|done].
      apply at_node. by rewrite <-app_assoc.
Qed.

(** The loop that links the new node at its levels. *)
Lemma splice_loop pre xa post prevs : ∀ n j st,
  j + n = alvl xa →
  NoDup (aptr <$> (pre ++ xa :: post)) →
  base st (pre ++ xa :: post) →
  alvl xa ≤ hlen st →
  (∀ i, i < alvl xa → prevs !! i = Some (Some (predh i pre))) →
  (∀ i, i < j → fwd_at st i (pre ++ xa :: post)) →
  (∀ i, j ≤ i → fwd_at st i (pre ++ post)) →
  ∃ st', for_range j n (Set_splice (aptr xa) prevs) st = Ok st'
         ∧ (∀ i, fwd_at st' i (pre ++ xa :: post))
         ∧ frame no_level true true st st'.
Proof.
  induction n as [|n IH]; intros j st Hjn Hnd Hb Hx Hprevs Hlow Hhigh.
  - exists st. rewrite for_range_0. split_and!; [done| |apply frame_refl].
    intros i. destruct (decide (i < j)) as [Hi|Hi]; [by apply Hlow|].
    apply fwd_at_insert_high; [lia|]. apply Hhigh. lia.
  - rewrite for_range_S.
    destruct (splice_level st pre xa post j prevs Hnd Hb)
      as (st1 & -> & Hf1 & Hfr1); [apply Hhigh; lia|lia|lia|apply Hprevs; lia|].
    rsimpl.
    destruct (IH (S j) st1) as (st2 & -> & Hf2 & Hfr2); try done.
    + lia.
    + by eapply base_frame.
    + by rewrite (frame_hlen _ _ _ _ _ Hfr1).
    + intros i Hi. destruct (decide (i = j)) as [->|]; [done|].
      eapply fwd_at_frame; [done| |apply Hlow; lia]. done.
    + intros i Hi. eapply fwd_at_frame; [done| |apply Hhigh; lia]. simpl. lia.
    + exists st2. split_and!; [done..|].
      eapply frame_trans; [|done]. eapply frame_weaken; [| | |done]; [|done..].
      by intros ? [].
Qed.

(** One level of the removal: [xa] is unlinked from between [pre] and
    [post]; its own pointers stay. *)
Lemma unlink_write st pre xa post i :
  NoDup (aptr <$> (pre ++ xa :: post)) →
  base st (pre ++ xa :: post) →
  fwd_at st i (pre ++ xa :: post) →
  i < alvl xa → i < hlen st →
  ∃ st', set_levels_at st (predh i pre) i (nxt i post) = Ok st'
         ∧ fwd_at st' i (pre ++ post)
         ∧ frame (λ j, j ≠ i) true true st st'
         ∧ levels_at st' (HElem (aptr xa)) i = Ok (nxt i post).
Proof.
  intros Hnd Hb Hf Hi Hx.
  destruct (predh_pos st pre (xa :: post) i) as (L & before & lq & Hp & HL & Hpre & Hlq);
    [lia|].
  destruct (header_pos st _ _ _ _ _ Hb Hp) as (hd & Hhd & HhdL).
  destruct (set_levels_at_ok st (predh i pre) hd i (nxt i post) Hhd)
    as (st' & -> & Hfr & Hget & Hoth); [lia|].
  assert (predh i pre ≠ HElem (aptr xa)) as Hhx.
  { eapply (predh_not_in st pre (xa :: post)); [done|]. simpl. by left. }
  exists st'. split_and!; [done| |done|].
  2:{ rewrite Hoth by done. apply (Hf _ (alvl xa) (pre ++ [xa]) post); [|done].
      by apply at_node. }
  intros h' L' before' after' Hp' HL'.
  inversion Hp' as [|l0 a l Hns']; subst h' L' before' after'.
  - destruct (decide (predh i pre = HList)) as [Hh|Hh].
    + rewrite Hh in Hget. rewrite Hget. f_equal. symmetry. apply nxt_skip.
      unfold predh in Hh. destruct (lastge (S i) pre) eqn:E; [done|].
      apply lastge_None in E. eapply Forall_impl; [done|]. simpl. lia.
    + rewrite Hoth by done.
      rewrite (Hf _ _ _ _ (at_head st _)) by lia. f_equal.
      apply nxt_app_Some. unfold predh in Hh.
      destruct (lastge (S i) pre) eqn:E; [|done]. by eapply lastge_nxt_Some.
  - destruct (app_eq_cases _ _ _ _ _ Hns') as [(m & -> & ->)|(m & -> & ->)].
    + assert (lastge (S i) (l0 ++ a :: m)
              = match lastge (S i) m with Some q => Some q | None => Some (aptr a) end)
        as Hlast.
      { rewrite lastge_app. cbn [lastge]. destruct (lastge (S i) m); [done|].
        by apply Nat.leb_le in HL' as ->. }
      destruct (decide (predh i (l0 ++ a :: m) = HElem (aptr a))) as [Hh|Hh].
      * rewrite Hh in Hget. rewrite Hget. f_equal. symmetry. apply nxt_skip.
        unfold predh in Hh. rewrite Hlast in Hh.
        destruct (lastge (S i) m) as [q|] eqn:E.
        -- exfalso. injection Hh as ->. apply lastge_elem_of in E.
           rewrite <-app_assoc in Hnd. simpl in Hnd.
           rewrite fmap_app, fmap_cons in Hnd.
           apply NoDup_app in Hnd as (_ & _ & Hnd).
           apply NoDup_cons in Hnd as [Hnd _]. apply Hnd.
           rewrite fmap_app. apply elem_of_app. by left.
        -- apply lastge_None in E. eapply Forall_impl; [done|]. simpl. lia.
      * rewrite Hoth by congruence.
        rewrite (Hf _ (alvl a) (l0 ++ [a]) (m ++ xa :: post)); [|apply at_node|done].
        2:{ by rewrite <-app_assoc. }
        f_equal. apply nxt_app_Some.
        unfold predh in Hh. rewrite Hlast in Hh.
        destruct (lastge (S i) m) as [q|] eqn:E; [|done]. by eapply lastge_nxt_Some.
    + assert (predh i pre ≠ HElem (aptr a)) as Hha.
      { eapply (predh_not_in st pre (xa :: m ++ a :: l)); [done|].
        simpl. right. rewrite fmap_app. apply elem_of_app. right. by left. }
      rewrite Hoth by congruence.
      apply (Hf _ (alvl a) ((pre ++ xa :: m) ++ [a]) l); [|done].
      apply at_node. by rewrite <-app_assoc.
Qed.

End Writes.

(** * Allocation and the backward pointers *)

Section Backward.

Context {K V : Type}.
Implicit Types (st : @state K V) (e : @Element K V).
Implicit Types (ns pre post l m : list (@anode K)) (a b c d xa : @anode K).

Lemma allocated_old st st' ex p :
  allocated st st' ex → p < length (heap st) → heap st' !! p = heap st !! p.
Proof. intros (-> & _) Hp. by apply lookup_app_l. Qed.

Lemma allocated_new st st' ex :
  allocated st st' ex → heap st' !! length (heap st) = Some ex.
Proof. intros (-> & _). by rewrite list_lookup_middle. Qed.

Lemma allocated_lookup st st' ex p e :
  allocated st st' ex → heap st' !! p = Some e →
  heap st !! p = Some e ∨ (p = length (heap st) ∧ e = ex).
Proof.
  intros Ha He. destruct (decide (p < length (heap st))) as [Hp|Hp].
  - left. by rewrite <-(allocated_old _ _ _ _ Ha Hp).
  - right. destruct Ha as (Hh & _). rewrite Hh in He.
    apply lookup_lt_Some in He as Hlt. rewrite length_app in Hlt. simpl in Hlt.
    assert (p = length (heap st)) as -> by lia. split; [done|].
    rewrite list_lookup_middle in He by done. by injection He.
Qed.

Lemma base_allocated st st' ex l : allocated st st' ex → base st l → base st' l.
Proof.
  intros Ha Hb a Hin. destruct (Hb a Hin) as (e & He & ? & ? & ?).
  exists e. rewrite (allocated_old _ _ _ _ Ha) by (by eapply lookup_lt_Some).
  destruct Ha as (_ & -> & _). done.
Qed.

Lemma levels_at_allocated st st' ex h i v :
  allocated st st' ex → levels_at st h i = Ok v → levels_at st' h i = Ok v.
Proof.
  intros Ha. unfold levels_at, header. destruct h as [|p]; rsimpl.
  - destruct Ha as (_ & _ & ->). done.
  - unfold deref. destruct (heap st !! p) as [e|] eqn:E; [|done].
    rewrite (allocated_old _ _ _ _ Ha) by (by eapply lookup_lt_Some).
    by rewrite E.
Qed.

Lemma hlen_allocated st st' ex : allocated st st' ex → hlen st' = hlen st.
Proof. intros (_ & _ & H). unfold hlen. by rewrite H. Qed.

Lemma fwd_at_allocated st st' ex i l :
  allocated st st' ex → fwd_at st i l → fwd_at st' i l.
Proof.
  intros Ha Hf h L before after Hp HL.
  eapply levels_at_allocated; [done|]. apply (Hf h L before after); [|done].
  destruct Hp as [|l0 a l1 Hns]; [|by apply at_node].
  rewrite (hlen_allocated _ _ _ Ha). apply at_head.
Qed.

Lemma bprev_on_allocated P st st' ex l :
  allocated st st' ex → base st l → bprev_on P st l → bprev_on P st' l.
Proof.
  intros Ha Hb H pre a post e Hl He HP. eapply H; [done| |done].
  destruct (Hb a) as (e0 & He0 & _).
  { rewrite Hl. apply elem_of_app. right. by left. }
  rewrite (allocated_old _ _ _ _ Ha) in He by (by eapply lookup_lt_Some). done.
Qed.

Lemma btop_on_allocated P st st' ex l :
  allocated st st' ex → base st l → btop_on P st l → btop_on P st' l.
Proof.
  intros Ha Hb H pre a post e Hl He HP. eapply H; [done| |done].
  destruct (Hb a) as (e0 & He0 & _).
  { rewrite Hl. apply elem_of_app. right. by left. }
  rewrite (allocated_old _ _ _ _ Ha) in He by (by eapply lookup_lt_Some). done.
Qed.

Lemma owned_allocated st st' ex pre xa post :
  allocated st st' ex → aptr xa = length (heap st) →
  owned st (pre ++ post) → owned st' (pre ++ xa :: post).
Proof.
  intros Ha Hx Ho p e He Hl.
  destruct (allocated_lookup _ _ _ _ _ Ha He) as [He0|[-> ->]].
  - destruct Ha as (_ & Ht & _). rewrite Ht in Hl.
    specialize (Ho p e He0 Hl). rewrite fmap_app in Ho.
    rewrite fmap_app, fmap_cons.
    apply elem_of_app in Ho as [?|?]; apply elem_of_app; [by left|right; by right].
  - rewrite fmap_app, fmap_cons, <-Hx. apply elem_of_app. right. by left.
Qed.

(** The new node is not one of the old ones. *)
Lemma fresh_nodup st pre xa post :
  base st (pre ++ post) → NoDup (aptr <$> (pre ++ post)) →
  aptr xa = length (heap st) → NoDup (aptr <$> (pre ++ xa :: post)).
Proof.
  intros Hb Hnd Hx.
  assert (aptr xa ∉ aptr <$> (pre ++ post)) as Hfresh.
  { intros (a & Heq & Ha)%list_elem_of_fmap. destruct (Hb a Ha) as (e & He & _).
    apply lookup_lt_Some in He. lia. }
  rewrite fmap_app in Hnd, Hfresh. rewrite fmap_app, fmap_cons.
  apply NoDup_app in Hnd as (H1 & H2 & H3).
  apply NoDup_app. split_and!; [done| |].
  - intros p Hp [->|Hq]%elem_of_cons; [|by eapply H2].
    apply Hfresh, elem_of_app. by left.
  - apply NoDup_cons. split; [|done]. intros Hq. apply Hfresh, elem_of_app. by right.
Qed.

Lemma last_cons_snoc {A} (k1 k2 : list A) y z :
  last (k1 ++ y :: k2 ++ [z]) = Some z.
Proof. rewrite last_app_cons. apply (last_snoc z (y :: k2)). Qed.

Lemma last_app_snoc {A} (k1 k2 : list A) z : last (k1 ++ k2 ++ [z]) = Some z.
Proof. by rewrite app_assoc, last_snoc. Qed.

(** Inserting a node into the list: which backward pointers stay right. *)
Lemma bprev_on_insert st pre xa post :
  NoDup (aptr <$> (pre ++ xa :: post)) →
  bprev st (pre ++ post) →
  (∀ e, heap st !! aptr xa = Some e → prev e = aptr <$> last pre) →
  bprev_on (λ a, head post ≠ Some a) st (pre ++ xa :: post).
Proof.
  intros Hnd Hb Hx l1 a l2 e Hns He Hhd.
  destruct (app_cons_eq_cases _ _ _ _ _ _ Hns) as
    [(m & -> & ->)|[(-> & -> & ->)|(m & -> & ->)]].
  - eapply (Hb l1 a (m ++ post)); [|done]. by rewrite <-app_assoc.
  - by apply Hx.
  - destruct m as [|c m _] using rev_ind; [done|].
    rewrite (Hb (pre ++ m ++ [c]) a l2 e); [|by rewrite <-!app_assoc|done].
    by rewrite last_app_snoc, last_cons_snoc.
Qed.

Lemma btop_on_insert st pre xa post :
  NoDup (aptr <$> (pre ++ xa :: post)) →
  btop st (pre ++ post) →
  (∀ e, heap st !! aptr xa = Some e → prevTopLevel e = lastge (alvl xa) pre) →
  btop_on (shadowed (alvl xa) post) st (pre ++ xa :: post).
Proof.
  intros Hnd Hb Hx l1 a l2 e Hns He Hsh.
  destruct (app_cons_eq_cases _ _ _ _ _ _ Hns) as
    [(m & -> & ->)|[(-> & -> & ->)|(m & -> & ->)]].
  - eapply (Hb l1 a (m ++ post)); [|done]. by rewrite <-app_assoc.
  - by apply Hx.
  - rewrite (Hb (pre ++ m) a l2 e); [|by rewrite <-!app_assoc|done].
    rewrite !lastge_app. cbn [lastge].
    destruct (Hsh m l2 eq_refl) as [Hm|Hlt].
    + destruct (lastge (alvl a) m) eqn:E; [done|congruence].
    + destruct (lastge (alvl a) m); [done|].
      by apply Nat.leb_gt in Hlt as ->.
Qed.

(** Redirecting the backward pointer of one node. *)
Lemma bprev_on_update (P Q : @anode K → Prop) st ns l1 c l2 e v :
  NoDup (aptr <$> ns) → ns = l1 ++ c :: l2 → heap st !! aptr c = Some e →
  v = aptr <$> last l1 → (∀ a, Q a → aptr a = aptr c ∨ P a) → bprev_on P st ns →
  bprev_on Q (set_heap st (<[aptr c := set_prev v e]> (heap st))) ns.
Proof.
  intros Hnd Hns He Hv HQ Hb l1' a l2' e' Hns' He' Ha.
  rewrite (lookup_update st (aptr c) (set_prev v) e _ He) in He'.
  destruct (decide (aptr a = aptr c)) as [Hp|Hp].
  - injection He' as <-. simpl. rewrite Hv.
    rewrite Hns in Hnd, Hns'.
    by destruct (nodup_split_eq _ _ _ _ _ _ Hnd Hns' (eq_sym Hp)) as (-> & _).
  - destruct (HQ a Ha) as [?|HP]; [done|]. by eapply Hb.
Qed.

Lemma btop_on_update (P Q : @anode K → Prop) st ns l1 c l2 e v :
  NoDup (aptr <$> ns) → ns = l1 ++ c :: l2 → heap st !! aptr c = Some e →
  v = lastge (alvl c) l1 → (∀ a, Q a → aptr a = aptr c ∨ P a) → btop_on P st ns →
  btop_on Q (set_heap st (<[aptr c := set_prevTopLevel v e]> (heap st))) ns.
Proof.
  intros Hnd Hns He Hv HQ Hb l1' a l2' e' Hns' He' Ha.
  rewrite (lookup_update st (aptr c) (set_prevTopLevel v) e _ He) in He'.
  destruct (decide (aptr a = aptr c)) as [Hp|Hp].
  - injection He' as <-. simpl. rewrite Hv.
    rewrite Hns in Hnd, Hns'.
    by destruct (nodup_split_eq _ _ _ _ _ _ Hnd Hns' (eq_sym Hp)) as (-> & -> & _).
  - destruct (HQ a Ha) as [?|HP]; [done|]. by eapply Hb.
Qed.

Lemma keeps_set_prev v e : keeps all_levels false true e (set_prev v e).
Proof. by repeat split. Qed.

Lemma keeps_set_prevTopLevel v e : keeps all_levels true false e (set_prevTopLevel v e).
Proof. by repeat split. Qed.

(** [next.prev = elem] after the insertion of [xa]. *)
Lemma insert_prev st pre xa post :
  NoDup (aptr <$> (pre ++ xa :: post)) →
  base st (pre ++ xa :: post) →
  bprev_on (λ a, head post ≠ Some a) st (pre ++ xa :: post) →
  ∃ st', match aptr <$> head post with
         | Some nx => update st nx (set_prev (Some (aptr xa)))
         | None => Ok st
         end = Ok st'
         ∧ bprev st' (pre ++ xa :: post)
         ∧ frame all_levels false true st st'.
Proof.
  intros Hnd Hb Hp. destruct post as [|c post']; simpl.
  - exists st. split_and!; [done| |apply frame_refl].
    apply bprev_on_all. eapply bprev_on_impl; [|done]. done.
  - destruct (Hb c) as (e & He & _).
    { apply elem_of_app. right. right. by left. }
    rewrite (update_Some _ _ _ _ He). eexists. split_and!; [done| |].
    + apply bprev_on_all.
      eapply (bprev_on_update _ _ st _ (pre ++ [xa]) c post'); try done.
      * by rewrite <-app_assoc.
      * by rewrite last_snoc.
      * intros a _. destruct (decide (aptr a = aptr c)) as [|]; [by left|right].
        simpl. congruence.
    + eapply frame_insert; [done|]. apply keeps_set_prev.
Qed.

Lemma nxt_mono i j l : i ≤ j → nxt j l ≠ None → nxt i l ≠ None.
Proof.
  intros Hij Hj Hi. apply Hj. apply nxt_None. apply nxt_None in Hi.
  eapply Forall_impl; [done|]. simpl. lia.
Qed.

Lemma Set_largestLevel_spec st x post : ∀ n,
  (∀ i, i < n → levels_at st (HElem x) i = Ok (nxt i post)) →
  ∃ lg, Set_largestLevel st x n = Ok lg ∧ lg ≤ n
        ∧ (∀ i, lg ≤ i < n → nxt i post = None)
        ∧ (∀ i, i < lg → nxt i post ≠ None).
Proof.
  induction n as [|n IH]; intros Hx.
  - exists 0. split_and!; [done..|intros; lia|intros; lia].
  - rewrite Set_largestLevel_S, Hx by lia. rsimpl.
    destruct (nxt n post) as [p|] eqn:E.
    + exists (S n). split_and!; [done..|intros; lia|].
      intros i Hi. apply (nxt_mono i n); [lia|]. by rewrite E.
    + destruct IH as (lg & -> & Hm & Hnone & Hsome); [intros; apply Hx; lia|].
      exists lg. split_and!; [done|lia| |done].
      intros i Hi. destruct (decide (i = n)) as [->|]; [done|]. apply Hnone. lia.
Qed.

(** A node of [post] above level [i] is the first such node or stands
    behind it. *)
Lemma above_first_or_shadowed L post m c l i a :
  NoDup (aptr <$> post) → post = m ++ c :: l → Forall (λ b, alvl b ≤ i) m →
  i < alvl a → alvl a ≤ alvl c → aptr a = aptr c ∨ shadowed L post a.
Proof.
  intros Hnd Hpost Hm Hia Hac.
  destruct (decide (aptr a = aptr c)) as [|Hne]; [by left|right].
  intros m' l' Hpost'. left. rewrite Hpost in Hpost'.
  destruct (app_cons_eq_cases _ _ _ _ _ _ Hpost') as
    [(m2 & -> & ->)|[(-> & -> & ->)|(m2 & -> & ->)]]; [|done|].
  - apply Forall_app in Hm as [_ Hm]. apply Forall_cons in Hm as [Ha _]. lia.
  - rewrite lastge_app. cbn [lastge]. destruct (lastge (alvl a) m2); [done|].
    by apply Nat.leb_le in Hac as ->.
Qed.

(** The loop of [Set] that repoints [prevTopLevel] of the successors. *)
Lemma Set_adjust_spec pre xa post largest :
  NoDup (aptr <$> (pre ++ xa :: post)) →
  largest ≤ alvl xa →
  (∀ i, largest ≤ i < alvl xa → nxt i post = None) →
  (∀ i, i < largest → nxt i post ≠ None) →
  ∀ fuel i st,
    largest - i < fuel →
    base st (pre ++ xa :: post) →
    (∀ j, j < alvl xa → levels_at st (HElem (aptr xa)) j = Ok (nxt j post)) →
    btop_on (λ a, alvl a ≤ i ∨ shadowed (alvl xa) post a) st (pre ++ xa :: post) →
    ∃ st', Set_adjust fuel (aptr xa) (alvl xa) largest i st = Ok st'
           ∧ btop st' (pre ++ xa :: post)
           ∧ frame all_levels true false st st'.
Proof.
  intros Hnd Hlarge Hnone Hsome.
  assert (NoDup (aptr <$> post)) as Hndp.
  { rewrite fmap_app, fmap_cons in Hnd. apply NoDup_app in Hnd as (_ & _ & Hnd).
    by apply NoDup_cons in Hnd as [_ ?]. }
  induction fuel as [|fuel IH]; intros i st Hfuel Hb Hx Ht; [lia|].
  rewrite Set_adjust_eq. destruct (Nat.ltb_spec i largest) as [Hi|Hi].
  - rewrite Hx by lia. rsimpl.
    destruct (nxt i post) as [p|] eqn:E; [|by apply Hsome in E].
    apply nxt_Some in E as (m & c & l & Hpost & <- & Hc & Hm).
    destruct (Hb c) as (ec & Hec & HLc & _).
    { rewrite Hpost. apply elem_of_app. right. right. apply elem_of_app. right. by left. }
    unfold load. rewrite (deref_Some _ _ _ Hec). rsimpl. rewrite HLc.
    assert (∀ a, alvl a ≤ alvl c ∨ shadowed (alvl xa) post a →
                 aptr a = aptr c ∨ alvl a ≤ i ∨ shadowed (alvl xa) post a) as HQ.
    { intros a [Ha|Ha]; [|by right; right].
      destruct (decide (alvl a ≤ i)); [right; by left|].
      destruct (above_first_or_shadowed (alvl xa) post m c l i a Hndp Hpost Hm)
        as [?|Hs]; [lia|done|by left|right; by right]. }
    destruct (Nat.leb_spec (alvl c) (alvl xa)) as [Hle|Hgt].
    + rewrite (update_Some _ _ _ _ Hec). rsimpl.
      set (st1 := set_heap st _).
      assert (frame all_levels true false st st1) as Hfr.
      { eapply frame_insert; [done|]. apply keeps_set_prevTopLevel. }
      destruct (IH (alvl c) st1) as (st' & -> & Ht' & Hfr'); [lia| | | |].
      * by eapply base_frame.
      * intros j Hj. rewrite (levels_at_frame _ _ _ _ _ _ _ Hfr); [by apply Hx|done].
      * eapply (btop_on_update _ _ st _ (pre ++ xa :: m) c l ec _ Hnd _ Hec _ HQ Ht).
        Unshelve.
        -- rewrite Hpost. by rewrite <-app_assoc.
        -- rewrite lastge_app. cbn [lastge].
           assert (lastge (alvl c) m = None) as ->.
           { apply lastge_None. eapply Forall_impl; [done|]. simpl. lia. }
           by apply Nat.leb_le in Hle as ->.
      * exists st'. split_and!; [done..|]. by eapply frame_trans.
    + rsimpl. destruct (IH (alvl c) st) as (st' & -> & Ht' & Hfr'); [lia|done..| |].
      * eapply btop_on_impl; [|done]. intros a _ Ha. simpl.
        destruct (HQ a Ha) as [Hp|?]; [|done]. right. intros m' l' Hpost'. right.
        rewrite Hpost in Hpost', Hndp.
        destruct (nodup_split_eq _ _ _ _ _ _ Hndp Hpost' (eq_sym Hp)) as (_ & -> & _).
        lia.
      * by exists st'.
  - exists st. split_and!; [done| |apply frame_refl].
    apply btop_on_all. eapply btop_on_impl; [|done]. intros a _ _. simpl.
    destruct (decide (alvl a ≤ i)) as [|Hgt]; [by left|right].
    intros m l Hpost. destruct (decide (alvl xa < alvl a)); [by right|exfalso].
    assert (nxt i post = None) as Hn by (apply Hnone; lia).
    apply nxt_None in Hn. rewrite Hpost in Hn.
    apply Forall_app in Hn as [_ Hn]. apply Forall_cons in Hn as [? _]. lia.
Qed.

End Backward.

(** * Set *)

Section SetSpec.

Context {K V : Type}.
Implicit Types (st : @state K V) (e : @Element K V).
Implicit Types (ns pre post l m : list (@anode K)) (a b c d xa : @anode K).

Lemma randLevel_loop_spec (sk : @SkipList K) r :
  length (probTable sk) = maxLevel sk →
  ∀ fuel level, maxLevel sk - level ≤ fuel →
    ∃ lv, randLevel_loop fuel sk r level = Ok lv ∧ level ≤ lv
          ∧ lv ≤ Nat.max level (maxLevel sk).
Proof.
  intros Hlen. induction fuel as [|fuel IH]; intros level Hfuel;
    rewrite randLevel_loop_eq.
  - destruct (Nat.ltb_spec level (maxLevel sk)); [lia|].
    exists level. split_and!; [done|lia..].
  - destruct (Nat.ltb_spec level (maxLevel sk)) as [Hlt|Hge].
    + destruct (lookup_lt_is_Some_2 (probTable sk) level) as [p Hp]; [lia|].
      rewrite (index_Some _ _ _ Hp). rsimpl. destruct (Qltb r p).
      * destruct (IH (S level)) as (lv & -> & ? & ?); [lia|].
        exists lv. split_and!; [done|lia..].
      * exists level. split_and!; [done|lia..].
    + exists level. split_and!; [done|lia..].
Qed.

Lemma randLevel_spec st :
  1 ≤ maxLevel (sl st) → length (probTable (sl st)) = maxLevel (sl st) →
  ∃ level,
    randLevel st
    = Ok (level, set_sl st (set_randPos (S (randPos (sl st))) (sl st)))
    ∧ 1 ≤ level ≤ maxLevel (sl st).
Proof.
  intros Hm Hp. unfold randLevel, Int63. cbn [sl set_sl set_randPos maxLevel].
  destruct (randLevel_loop_spec
              (set_randPos (S (randPos (sl st))) (sl st))
              (randSeq (sl st) (randPos (sl st)) `mod` 2 ^ 63 # 2 ^ 63) Hp
              (maxLevel (sl st)) 1) as (lv & Hlv & H1 & H2); [simpl; lia|].
  simpl in H2. rewrite Hlv. rsimpl. exists lv. split; [done|lia].
Qed.

Lemma set_levels_at_list st i v :
  i < hlen st →
  set_levels_at st HList i v
  = Ok (set_sl st (set_lhdr (mkHeader (<[i := v]> (levels (lhdr (sl st))))
                                      (spare (lhdr (sl st)))) (sl st))).
Proof.
  intros Hi. unfold set_levels_at. cbn [header]. rsimpl.
  by rewrite store_index_Ok by done.
Qed.

(** The loop of the empty list: the new node becomes the head of its levels. *)
Lemma fast_loop v : ∀ n j st,
  j + n ≤ hlen st →
  ∃ lv, for_range j n (λ i st, set_levels_at st HList i v) st
        = Ok (set_sl st (set_lhdr (mkHeader lv (spare (lhdr (sl st)))) (sl st)))
        ∧ length lv = hlen st
        ∧ ∀ i, lv !! i = if decide (j ≤ i < j + n) then Some v
                         else levels (lhdr (sl st)) !! i.
Proof.
  induction n as [|n IH]; intros j st Hj.
  - rewrite for_range_0. exists (levels (lhdr (sl st))). split_and!; [|done|].
    + f_equal. destruct st as [h s t]. unfold set_sl. simpl. f_equal. apply sl_eta.
    + intros i. rewrite decide_False by lia. done.
  - rewrite for_range_S, set_levels_at_list by lia. rsimpl.
    match goal with |- context [for_range _ _ _ ?s] => set (st1 := s) end.
    destruct (IH (S j) st1) as (lv & -> & Hlen & Hlv).
    { unfold hlen, st1. simpl. rewrite length_insert. unfold hlen in Hj. lia. }
    exists lv. split_and!; [done| |].
    + rewrite Hlen. unfold hlen, st1. simpl. by rewrite length_insert.
    + intros i. rewrite Hlv. unfold st1. simpl.
      destruct (decide (i = j)) as [->|].
      * rewrite decide_False, decide_True by lia.
        apply list_lookup_insert_eq. unfold hlen in Hj. lia.
      * rewrite list_lookup_insert_ne by lia.
        repeat case_decide; try lia; done.
Qed.

Lemma wf_sorted_insert st pre xa post (k : K) :
  Comparator (comparable (sl st)) →
  StronglySorted (key_lt st) (pre ++ post) → akey xa = k →
  Forall (below st k) pre →
  Forall (λ a, (comparable (sl st) k (akey a) < 0)%Z) post →
  StronglySorted (key_lt st) (pre ++ xa :: post).
Proof.
  intros Hcmp Hs Hk Hpre Hpost.
  apply StronglySorted_app in Hs as (Hpp & Hs1 & Hs2).
  apply StronglySorted_app. split_and!; [|done|].
  - intros a c Ha [->|Hc]%elem_of_cons; [|by apply Hpp].
    rewrite Forall_forall in Hpre. specialize (Hpre a Ha).
    unfold below in Hpre. unfold key_lt. rewrite Hk.
    by apply (cmp_lt_gt _ Hcmp).
  - constructor; [done|]. eapply Forall_impl; [done|].
    intros c Hc. unfold key_lt. by rewrite Hk.
Qed.

Lemma cond_update_new st (h : list (@Element K V)) ex f (cond : Prop)
    `{!Decision cond} :
  (¬ cond → f ex = ex) →
  (if decide cond then update (set_heap st (h ++ [ex])) (length h) f
   else Ok (set_heap st (h ++ [ex])))
  = Ok (set_heap st (h ++ [f ex])).
Proof.
  intros Hf. destruct (decide cond) as [_|Hc].
  - unfold update, deref. simpl. rewrite list_lookup_middle by done. rsimpl.
    unfold set_heap. simpl. f_equal. f_equal.
    rewrite insert_app_r_alt by done. by rewrite Nat.sub_diag.
  - by rewrite Hf.
Qed.

Lemma href_Element_predh i pre : href_Element (Some (predh i pre)) = lastge (S i) pre.
Proof. unfold predh. by destruct (lastge (S i) pre). Qed.

Lemma Set_miss st ns pre post (k : K) (value : V) :
  Comparator (comparable (sl st)) → WF st ns → ns ≠ [] →
  ns = pre ++ post → Forall (below st k) pre →
  Forall (λ a, (comparable (sl st) k (akey a) < 0)%Z) post →
  ∃ level st',
    Set' k value st = Ok (length (heap st), st')
    ∧ 1 ≤ level ≤ maxLevel (sl st)
    ∧ WF st' (pre ++ mkA (length (heap st)) level k :: post)
    ∧ ∃ e, heap st' !! length (heap st) = Some e ∧ Value e = value.
Proof.
  intros Hcmp Hwf Hne Hns Hpre Hpost.
  pose proof (wf_len _ _ Hwf) as Hlen.
  pose proof (wf_max _ _ Hwf) as Hmax.
  pose proof (wf_base _ _ Hwf) as Hbase.
  assert (Forall (notbelow st k) post) as Hpostnb.
  { eapply Forall_impl; [done|]. intros a Ha. unfold notbelow. simpl in Ha. lia. }
  unfold Set'.
  destruct (Z.eqb_spec (length_ (sl st)) 0) as [H0|_].
  { destruct ns; [done|]. simpl in Hlen. lia. }
  (* the search *)
  fold (hlen st).
  destruct (Set_search_spec st ns k Hcmp Hbase (wf_fwd _ _ Hwf) (wf_nodup _ _ Hwf)
              (wf_sorted _ _ Hwf) (λ a Ha, proj1 (wf_lvl _ _ Hwf a Ha))
              (hlen st) pre post Hns Hpre Hpostnb
              (S (hlen st)) (hlen st) HList (hlen st) [] pre
              (replicate (hlen st) None))
    as (r & -> & Hr); try done.
  { rewrite <-Hns. apply at_head. }
  { lia. }
  { apply Forall_forall. intros a Ha. apply (wf_lvl _ _ Hwf).
    rewrite Hns. apply elem_of_app. by left. }
  { by rewrite length_replicate. }
  { intros; lia. }
  { intros d post' -> _. apply (wf_lvl _ _ Hwf). rewrite Hns.
    apply elem_of_app. right. by left. }
  rsimpl. destruct r as [p|prevs].
  { exfalso. destruct Hr as (d & post' & -> & Hd & _).
    apply Forall_cons in Hpost as [? _]. lia. }
  destruct Hr as (Hplen & Hprevs & _).
  (* the level *)
  destruct (randLevel_spec st) as (level & -> & Hlevel); [lia|apply (wf_prob _ _ Hwf)|].
  rsimpl. cbn [newElement heap set_sl set_heap sl this].
  set (st1 := set_sl st (set_randPos (S (randPos (sl st))) (sl st))).
  set (x := length (heap st)).
  set (xa := mkA x level k).
  (* prev and prevTopLevel of the new node *)
  rewrite (index_Some _ _ _ (Hprevs 0 ltac:(lia))). rsimpl.
  rewrite cond_update_new.
  2:{ intros Hc. destruct (decide (predh 0 pre = HList)) as [->|]; [done|].
      exfalso. apply Hc. congruence. }
  rsimpl.
  assert (match level with
          | 0 => Panic IndexOutOfRange
          | S l => index prevs l
          end = Ok (Some (predh (level - 1) pre))) as ->.
  { destruct level as [|l1]; [lia|]. simpl. rewrite Nat.sub_0_r.
    apply index_Some, Hprevs. lia. }
  rsimpl. rewrite cond_update_new.
  2:{ intros Hc. destruct (decide (predh (level - 1) pre = HList)) as [->|]; [done|].
      exfalso. apply Hc. congruence. }
  rsimpl.
  rewrite !href_Element_predh. replace (S (level - 1)) with level by lia.
  assert (Forall (λ a, 1 ≤ alvl a) pre) as Hpre1.
  { apply Forall_forall. intros a Ha. apply (wf_lvl _ _ Hwf). rewrite Hns.
    apply elem_of_app. by left. }
  rewrite (lastge_one _ Hpre1).
  set (ex := set_prevTopLevel _ (set_prev _ _)). set (st4 := set_heap st1 _).
  assert (allocated st st4 ex) as Halloc.
  { unfold allocated, st4, st1. simpl. done. }
  assert (heap st4 !! aptr xa = Some ex) as Hxlook.
  { apply (allocated_new _ _ _ Halloc). }
  rewrite Hns in Hbase.
  pose proof (fresh_nodup st pre xa post Hbase
                ltac:(rewrite <-Hns; apply (wf_nodup _ _ Hwf)) eq_refl) as Hnd'.
  assert (base st4 (pre ++ xa :: post)) as Hb4.
  { intros a [Ha|[->|Ha]%elem_of_cons]%elem_of_app.
    - apply (base_allocated _ _ _ _ Halloc Hbase). apply elem_of_app. by left.
    - exists ex. split_and!; [done|..]; try done.
      unfold Level. simpl. by rewrite length_replicate.
    - apply (base_allocated _ _ _ _ Halloc Hbase). apply elem_of_app. by right. }
  assert (hlen st4 = hlen st) as Hh4 by done.
  assert (∀ i, fwd_at st4 i (pre ++ post)) as Hf4.
  { intros i. eapply fwd_at_allocated; [done|]. apply fwd_fwd_at; [done|].
    rewrite <-Hns. apply (wf_fwd _ _ Hwf). }
  assert (bprev_on (λ a, head post ≠ Some a) st4 (pre ++ xa :: post)) as Hp4.
  { apply bprev_on_insert; [done| |].
    - apply bprev_on_all. eapply bprev_on_allocated; [done..|].
      apply bprev_on_all. rewrite <-Hns. apply (wf_prev _ _ Hwf).
    - intros e He. rewrite Hxlook in He. by injection He as <-. }
  assert (btop_on (shadowed level post) st4 (pre ++ xa :: post)) as Ht4.
  { apply (btop_on_insert st4 pre xa post); [done| |].
    - apply btop_on_all. eapply btop_on_allocated; [done..|].
      apply btop_on_all. rewrite <-Hns. apply (wf_top _ _ Hwf).
    - intros e He. rewrite Hxlook in He. by injection He as <-. }
  assert (owned st4 (pre ++ xa :: post)) as Ho4.
  { eapply owned_allocated; [done..|]. rewrite <-Hns. exact (wf_owned _ _ Hwf). }
  (* the forward pointers *)
  destruct (splice_loop pre xa post prevs level 0 st4) as (st5 & Hs5 & Hf5 & Hfr5);
    try done.
  { simpl. lia. }
  { intros i Hi. apply Hprevs. simpl in Hi. lia. }
  { intros; lia. }
  change (aptr xa) with x in Hs5. rewrite Hs5. rsimpl.
  assert (∀ j, j < alvl xa → levels_at st5 (HElem (aptr xa)) j = Ok (nxt j post))
    as Hx5.
  { intros j Hj. apply (Hf5 j _ (alvl xa) (pre ++ [xa]) post); [|done].
    by apply at_node. }
  destruct (Set_largestLevel_spec st5 x post level Hx5)
    as (largest & -> & Hlg & Hnone & Hsome).
  rsimpl. change (aptr xa) with x in Hx5. rewrite (Hx5 0) by (simpl; lia). rsimpl.
  assert (Forall (λ a, 1 ≤ alvl a) post) as Hpost1.
  { apply Forall_forall. intros a Ha. apply (wf_lvl _ _ Hwf). rewrite Hns.
    apply elem_of_app. by right. }
  rewrite (nxt_0_head _ Hpost1).
  (* the backward pointers *)
  pose proof (base_frame _ _ _ _ _ _ Hfr5 Hb4) as Hb5.
  destruct (insert_prev st5 pre xa post Hnd' Hb5) as (st6 & Hs6 & Hp6 & Hfr6).
  { eapply bprev_on_frame; done. }
  change (aptr xa) with x in Hs6. rewrite Hs6. rsimpl.
  pose proof (base_frame _ _ _ _ _ _ Hfr6 Hb5) as Hb6.
  destruct (Set_adjust_spec pre xa post largest Hnd' Hlg Hnone Hsome
              (S level) 0 st6) as (st7 & Hs7 & Ht7 & Hfr7); [lia|done| | |].
  { intros j Hj. rewrite (levels_at_frame _ _ _ _ _ _ _ Hfr6); [by apply Hx5|done]. }
  { eapply btop_on_impl; [|eapply btop_on_frame; [done|]; eapply btop_on_frame; done].
    intros a Ha [Ha0|?]; [|done]. exfalso.
    assert (1 ≤ alvl a); [|lia].
    apply elem_of_app in Ha as [Ha|[->|Ha]%elem_of_cons].
    - rewrite Forall_forall in Hpre1. by apply Hpre1.
    - simpl. lia.
    - rewrite Forall_forall in Hpost1. by apply Hpost1. }
  change (aptr xa) with x in Hs7. change (alvl xa) with level in Hs7.
  rewrite Hs7. rsimpl.
  pose proof (base_frame _ _ _ _ _ _ Hfr7 Hb6) as Hb7.
  destruct (Hb7 xa) as (e7 & He7 & HL7 & Hk7 & Ho7).
  { apply elem_of_app. right. by left. }
  change (aptr xa) with x in He7. rewrite (deref_Some _ _ _ He7). rsimpl.
  (* the final state *)
  assert (∀ i, fwd_at st7 i (pre ++ xa :: post)) as Hf7.
  { intros i. eapply fwd_at_frame; [exact Hfr7|done|].
    eapply fwd_at_frame; [exact Hfr6|done|]. apply Hf5. }
  assert (Next e7 = aptr <$> head post) as Hnext.
  { assert (levels_at st7 (HElem x) 0 = Ok (nxt 0 post)) as H0.
    { exact (Hf7 0 (HElem (aptr xa)) (alvl xa) (pre ++ [xa]) post
                 (at_node _ _ pre xa post eq_refl) ltac:(simpl; lia)). }
    unfold levels_at, header in H0. rewrite (deref_Some _ _ _ He7) in H0.
    rsimpl in H0. unfold index in H0.
    rewrite <-(nxt_0_head _ Hpost1). unfold Next.
    destruct (levels (ehdr e7)) as [|n0 ?] eqn:E7; simpl in H0; [done|].
    by injection H0. }
  assert (frame no_level false false st4 st7) as Hfr47.
  { eapply frame_trans; [|eapply frame_trans].
    - eapply frame_weaken; [| | |exact Hfr5]; [|done..]. by intros ? [].
    - eapply frame_weaken; [| | |exact Hfr6]; [|done..]. by intros ? [].
    - eapply frame_weaken; [| | |exact Hfr7]; [|done..]. by intros ? []. }
  destruct (frame_sl _ _ _ _ _ Hfr47) as (Hc7 & Hpt7 & Hm7 & Hl7 & Hbk7 & _).
  pose proof (frame_hlen _ _ _ _ _ Hfr47) as Hh7.
  destruct (frame_lookup_l _ _ _ _ _ _ _ Hfr47 Hxlook) as (e7' & He7' & (_&_&_&Hv7&_)).
  destruct Hfr47 as (Hthis7 & _).
  exists level. eexists. split_and!; [done|lia|lia| |].
  - eapply (WF_intro st7).
    + by destruct (decide (Next e7 = None)).
    + by destruct (decide (Next e7 = None)).
    + by destruct (decide (Next e7 = None)).
    + done.
    + assert (∀ stf : @state K V, comparable (sl stf) = comparable (sl st) →
                StronglySorted (key_lt stf) (pre ++ xa :: post)) as Hsort.
      { intros stf Hc. unfold key_lt. rewrite Hc.
        apply (wf_sorted_insert st pre xa post k Hcmp); try done.
        rewrite <-Hns. apply (wf_sorted _ _ Hwf). }
      apply Hsort. by destruct (decide (Next e7 = None)).
    + intros a Ha. rewrite Hh7, Hh4.
      apply elem_of_app in Ha as [Ha|[->|Ha]%elem_of_cons].
      * apply (wf_lvl _ _ Hwf). rewrite Hns. apply elem_of_app. by left.
      * simpl. lia.
      * apply (wf_lvl _ _ Hwf). rewrite Hns. apply elem_of_app. by right.
    + done.
    + done.
    + apply bprev_on_all. eapply bprev_on_frame; [done|]. by apply bprev_on_all.
    + done.
    + eapply owned_frame; [done|]. eapply owned_frame; [done|].
      eapply owned_frame; done.
    + rewrite Hnext. destruct post as [|c post'] eqn:Ep; simpl.
      * by rewrite last_snoc.
      * rewrite Hbk7. simpl. rewrite (wf_back _ _ Hwf), Hns.
        by rewrite !last_app_cons, last_cons_cons.
    + assert (length_ (sl st7) = Z.of_nat (length ns)) as Hl.
      { rewrite Hl7. simpl. apply (wf_len _ _ Hwf). }
      destruct (decide (Next e7 = None)); simpl; rewrite Hl, Hns, !length_app;
        simpl; lia.
    + assert (maxLevel (sl st7) = maxLevel (sl st)) as Hm by (by rewrite Hm7).
      rewrite Hh7, Hh4. destruct (decide (Next e7 = None)); simpl; rewrite Hm; lia.
    + assert (maxLevel (sl st7) = maxLevel (sl st)) as Hm by (by rewrite Hm7).
      assert (probTable (sl st7) = probTable (sl st)) as Hp by (by rewrite Hpt7).
      destruct (decide (Next e7 = None)); simpl; rewrite Hm, Hp;
        apply (wf_prob _ _ Hwf).
  - exists e7'. split; [|by rewrite Hv7].
    by destruct (decide (Next e7 = None)).
Qed.

(** Replacing the value of an element changes nothing the invariant reads. *)
Lemma set_Value_lookup st p e (v : V) q e' :
  heap st !! p = Some e →
  heap (set_heap st (<[p := set_Value v e]> (heap st))) !! q = Some e' →
  ∃ e0, heap st !! q = Some e0 ∧ ehdr e' = ehdr e0 ∧ key e' = key e0
        ∧ prev e' = prev e0 ∧ prevTopLevel e' = prevTopLevel e0
        ∧ list_ e' = list_ e0.
Proof.
  intros He. rewrite (lookup_update st p (set_Value v) e q He).
  destruct (decide (q = p)) as [->|].
  - intros [= <-]. by exists e.
  - intros Hq. by exists e'.
Qed.

Lemma WF_set_Value st ns p e (v : V) :
  WF st ns → heap st !! p = Some e →
  WF (set_heap st (<[p := set_Value v e]> (heap st))) ns.
Proof.
  intros Hwf He.
  destruct Hwf as [Hnd Hso Hlv Hbase Hfwd Hprev Htop Hown Hbk Hlen Hmx Hpb].
  split; try done.
  - intros a Ha. destruct (Hbase a Ha) as (e0 & He0 & HL & Hk & Ho).
    rewrite (lookup_update st p (set_Value v) e _ He).
    destruct (decide (aptr a = p)) as [Hp|]; [|by exists e0].
    exists (set_Value v e). rewrite Hp in He0.
    assert (e0 = e) as -> by congruence. done.
  - intros i. destruct (Hfwd i) as [Hh Hn]. split; [done|].
    intros pre a post e' Hns He' Hi.
    destruct (set_Value_lookup _ _ _ _ _ _ He He') as (e0 & He0 & -> & _).
    by eapply Hn.
  - intros pre a post e' Hns He'.
    destruct (set_Value_lookup _ _ _ _ _ _ He He') as (e0 & He0 & _ & _ & -> & _).
    by eapply Hprev.
  - intros pre a post e' Hns He'.
    destruct (set_Value_lookup _ _ _ _ _ _ He He') as (e0 & He0 & _ & _ & _ & -> & _).
    by eapply Htop.
  - intros q e' He' Hl.
    destruct (set_Value_lookup _ _ _ _ _ _ He He') as (e0 & He0 & _ & _ & _ & _ & Ho).
    apply (Hown q e0 He0). by rewrite <-Ho.
Qed.

Lemma Set_hit st ns pre d post (k : K) (value : V) :
  Comparator (comparable (sl st)) → WF st ns →
  ns = pre ++ d :: post → Forall (below st k) pre →
  Forall (notbelow st k) (d :: post) → comparable (sl st) k (akey d) = 0%Z →
  ∃ e, heap st !! aptr d = Some e
       ∧ Set' k value st
         = Ok (aptr d, set_heap st (<[aptr d := set_Value value e]> (heap st))).
Proof.
  intros Hcmp Hwf Hns Hpre Hpost Hkd.
  pose proof (wf_len _ _ Hwf) as Hlen.
  pose proof (wf_base _ _ Hwf) as Hbase.
  unfold Set'.
  destruct (Z.eqb_spec (length_ (sl st)) 0) as [H0|_].
  { rewrite Hns, length_app in Hlen. simpl in Hlen. lia. }
  fold (hlen st).
  destruct (Set_search_spec st ns k Hcmp Hbase (wf_fwd _ _ Hwf) (wf_nodup _ _ Hwf)
              (wf_sorted _ _ Hwf) (λ a Ha, proj1 (wf_lvl _ _ Hwf a Ha))
              (hlen st) pre (d :: post) Hns Hpre Hpost
              (S (hlen st)) (hlen st) HList (hlen st) [] pre
              (replicate (hlen st) None))
    as (r & -> & Hr); try done.
  { rewrite <-Hns. apply at_head. }
  { lia. }
  { apply Forall_forall. intros a Ha. apply (wf_lvl _ _ Hwf).
    rewrite Hns. apply elem_of_app. by left. }
  { by rewrite length_replicate. }
  { intros; lia. }
  { intros d' post' [= <- <-] _. apply (wf_lvl _ _ Hwf). rewrite Hns.
    apply elem_of_app. right. by left. }
  rsimpl. destruct r as [p|prevs].
  - destruct Hr as (d' & post' & [= <- <-] & _ & ->).
    destruct (Hbase d) as (e & He & _).
    { rewrite Hns. apply elem_of_app. right. by left. }
    exists e. split; [done|]. by rewrite (update_Some _ _ _ _ He).
  - exfalso. destruct Hr as (_ & _ & Hlt).
    apply Forall_cons in Hlt as [? _]. lia.
Qed.

Lemma Set_fast st (k : K) (value : V) :
  WF st [] →
  ∃ level st',
    Set' k value st = Ok (length (heap st), st')
    ∧ 1 ≤ level ≤ maxLevel (sl st)
    ∧ WF st' [mkA (length (heap st)) level k]
    ∧ ∃ e, heap st' !! length (heap st) = Some e ∧ Value e = value.
Proof.
  intros Hwf.
  pose proof (wf_len _ _ Hwf) as Hlen. simpl in Hlen.
  pose proof (wf_max _ _ Hwf) as Hmax.
  unfold Set'. rewrite Hlen. simpl (0 =? 0)%Z. cbv iota.
  destruct (randLevel_spec st) as (level & -> & Hlevel); [lia|apply (wf_prob _ _ Hwf)|].
  rsimpl. cbn [newElement heap set_sl set_heap sl this].
  set (st1 := set_sl st (set_randPos (S (randPos (sl st))) (sl st))).
  set (x := length (heap st)).
  set (xa := mkA x level k).
  set (ex := mkElement _ _ _ _ _ _). set (st2 := set_heap st1 _).
  assert (allocated st st2 ex) as Halloc.
  { unfold allocated, st2, st1. simpl. done. }
  destruct (fast_loop (Some x) level 0 st2) as (lv & -> & Hlvlen & Hlv).
  { change (hlen st2) with (hlen st). lia. }
  rsimpl. cbn [heap set_sl set_heap sl this set_lhdr set_back set_length lhdr
               length_ back maxLevel probTable comparable].
  set (st3 := set_sl st2 (set_lhdr (mkHeader lv (spare (lhdr (sl st2)))) (sl st2))).
  assert (heap st3 !! aptr xa = Some ex) as Hxlook.
  { apply (allocated_new _ _ _ Halloc). }
  exists level. eexists. split_and!; [done|lia|lia| |].
  - eapply (WF_intro st3); try done.
    + simpl. apply NoDup_singleton.
    + repeat constructor.
    + intros a ->%list_elem_of_singleton. simpl.
      change (hlen st3) with (length lv). rewrite Hlvlen.
      change (hlen st2) with (hlen st). lia.
    + intros a ->%list_elem_of_singleton. exists ex. split_and!; try done.
      unfold Level. simpl. by rewrite length_replicate.
    + intros i h L before after Hp HL.
      inversion Hp as [|l0 a l Hl]; subst h L before after.
      * unfold levels_at, header, index. rsimpl. simpl. rewrite Hlv.
        change (hlen st3) with (length lv) in HL. rewrite Hlvlen in HL.
        change (hlen st2) with (hlen st) in HL.
        destruct (wf_fwd _ _ Hwf i) as [Hh _]. specialize (Hh HL). simpl in Hh.
        destruct (decide (0 ≤ i < 0 + level)) as [Hi|Hi].
        -- assert ((i <? level) = true) as -> by (apply Nat.ltb_lt; lia). done.
        -- assert ((i <? level) = false) as -> by (apply Nat.ltb_ge; lia).
           change (levels (lhdr (sl st2))) with (levels (lhdr (sl st))).
           by rewrite Hh.
      * destruct l0 as [|? [|]]; try done. injection Hl as <- <-.
        unfold levels_at, header. cbn [aptr alvl] in HL |- *.
        change (aptr xa) with x in Hxlook.
        rewrite (deref_Some _ _ _ Hxlook). rsimpl.
        unfold index. simpl.
        by rewrite lookup_replicate_2 by done.
    + intros pre a post e Hl He. destruct pre as [|? [|]]; try done.
      injection Hl as <- <-. change (aptr xa) with x in Hxlook.
      cbn [aptr] in He. rewrite Hxlook in He. by injection He as <-.
    + intros pre a post e Hl He. destruct pre as [|? [|]]; try done.
      injection Hl as <- <-. change (aptr xa) with x in Hxlook.
      cbn [aptr] in He. rewrite Hxlook in He. by injection He as <-.
    + apply (owned_same st2); [done..|].
      apply (owned_allocated st st2 ex [] xa []); [done..|].
      exact (wf_owned _ _ Hwf).
    + simpl. rewrite Hlen. done.
    + change (hlen st3) with (length lv). rewrite Hlvlen.
      change (hlen st2) with (hlen st). simpl. lia.
    + simpl. apply (wf_prob _ _ Hwf).
  - exists ex. split; [|done]. exact Hxlook.
Qed.

(** What [Set] does to a well-formed list. *)
Lemma Set_spec st ns (k : K) (value : V) :
  Comparator (comparable (sl st)) → WF st ns →
  ∃ p st' ns',
    Set' k value st = Ok (p, st') ∧ WF st' ns'
    ∧ (∃ e, heap st' !! p = Some e ∧ Value e = value
            ∧ comparable (sl st) k (key e) = 0%Z)
    ∧ ((∃ d e, d ∈ ns ∧ comparable (sl st) k (akey d) = 0%Z ∧ p = aptr d
               ∧ ns' = ns ∧ heap st !! p = Some e
               ∧ st' = set_heap st (<[p := set_Value value e]> (heap st)))
       ∨ ((∀ a, a ∈ ns → comparable (sl st) k (akey a) ≠ 0%Z)
          ∧ p = length (heap st)
          ∧ ∃ pre post level,
              ns = pre ++ post ∧ ns' = pre ++ mkA p level k :: post
              ∧ 1 ≤ level ≤ maxLevel (sl st)
              ∧ Forall (below st k) pre
              ∧ Forall (λ a, (comparable (sl st) k (akey a) < 0)%Z) post)).
Proof.
  intros Hcmp Hwf.
  destruct (key_split st ns Hcmp Hwf k) as (pre & post & Hns & Hpre & Hpost).
  assert ((∃ d post', post = d :: post' ∧ comparable (sl st) k (akey d) = 0%Z)
          ∨ Forall (λ a, (comparable (sl st) k (akey a) < 0)%Z) post) as [Hhit|Hmiss].
  { destruct post as [|d post']; [right; constructor|].
    destruct (Z.eq_dec (comparable (sl st) k (akey d)) 0%Z) as [Hd|Hd].
    - left. by exists d, post'.
    - right. apply Forall_forall. intros c Hc.
      assert (notbelow st k c) as Hkc by (rewrite Forall_forall in Hpost; by apply Hpost).
      unfold notbelow in Hkc.
      destruct (Z.eq_dec (comparable (sl st) k (akey c)) 0%Z) as [Heq|]; [exfalso|lia].
      assert (StronglySorted (key_lt st) (d :: post')) as Hs.
      { pose proof (wf_sorted _ _ Hwf) as Hs. rewrite Hns in Hs.
        by apply StronglySorted_app in Hs as (_ & _ & ?). }
      destruct (eq_is_head st k Hcmp _ _ Hs Hpost Hc Heq) as [? [= -> _]]. done. }
  - (* the key is there *)
    destruct Hhit as (d & post' & -> & Hd).
    destruct (Set_hit st ns pre d post' k value Hcmp Hwf Hns Hpre Hpost Hd)
      as (e & He & ->).
    exists (aptr d), (set_heap st (<[aptr d := set_Value value e]> (heap st))), ns.
    assert (d ∈ ns) as Hdn by (rewrite Hns; apply elem_of_app; right; by left).
    split_and!; [done|by apply WF_set_Value| |].
    + exists (set_Value value e). split_and!; [|done|].
      * rewrite (lookup_update st (aptr d) (set_Value value) e _ He).
        by rewrite decide_True.
      * destruct (wf_base _ _ Hwf d Hdn) as (e0 & He0 & _ & Hk & _).
        assert (e0 = e) as -> by congruence. simpl. by rewrite Hk.
    + left. by exists d, e.
  - (* the key is new *)
    assert (∀ a, a ∈ ns → comparable (sl st) k (akey a) ≠ 0%Z) as Hnew.
    { intros a Ha. rewrite Hns in Ha. apply elem_of_app in Ha as [Ha|Ha].
      - rewrite Forall_forall in Hpre. specialize (Hpre a Ha). unfold below in Hpre. lia.
      - rewrite Forall_forall in Hmiss. specialize (Hmiss a Ha). simpl in Hmiss. lia. }
    assert (∃ level st',
      Set' k value st = Ok (length (heap st), st')
      ∧ 1 ≤ level ≤ maxLevel (sl st)
      ∧ WF st' (pre ++ mkA (length (heap st)) level k :: post)
      ∧ ∃ e, heap st' !! length (heap st) = Some e ∧ Value e = value)
      as (level & st' & HS & Hlevel & Hwf' & e & He & Hv).
    { destruct ns as [|a0 ns0] eqn:En.
      - symmetry in Hns. apply app_eq_nil in Hns as [-> ->]. by apply Set_fast.
      - rewrite <-En in *. apply (Set_miss st ns); try done. by rewrite En. }
    exists (length (heap st)), st', (pre ++ mkA (length (heap st)) level k :: post).
    split_and!; [done..| |].
    + exists e. split_and!; [done..|].
      destruct (wf_base _ _ Hwf' (mkA (length (heap st)) level k)) as (e0 & He0 & _ & Hk & _).
      { apply elem_of_app. right. by left. }
      simpl in He0, Hk. assert (e0 = e) as -> by congruence. rewrite Hk.
      apply (cmp_refl _ Hcmp).
    + right. split_and!; [done..|]. by exists pre, post, level.
Qed.

End SetSpec.

(** * [RemoveElement] *)

Section Removal.

Context {K V : Type}.
Implicit Types (st : @state K V) (e : @Element K V).
Implicit Types (ns pre post l m : list (@anode K)) (a b c d xa : @anode K).

Lemma lastge_mono i j l : i ≤ j → lastge i l = None → lastge j l = None.
Proof.
  intros Hij Hi. apply lastge_None. apply lastge_None in Hi.
  eapply Forall_impl; [done|]. simpl. lia.
Qed.

(** The inner loop that records one predecessor at the levels it covers. *)
Lemma Remove_fill_spec prevLevel level prev : ∀ fuel max prevElems,
  Nat.min prevLevel level - max ≤ fuel → length prevElems = level →
  ∃ pe, Remove_fill fuel prevLevel level prev max prevElems
          = Ok (Nat.max max (Nat.min prevLevel level), pe)
        ∧ length pe = level
        ∧ (∀ i, max ≤ i < Nat.min prevLevel level → pe !! i = Some prev)
        ∧ (∀ i, ¬ (max ≤ i < Nat.min prevLevel level) → pe !! i = prevElems !! i).
Proof.
  induction fuel as [|fuel IH]; intros max prevElems Hfuel Hlen;
    rewrite Remove_fill_eq.
  - destruct (Nat.ltb_spec max prevLevel), (Nat.ltb_spec max level); simpl; try lia.
    all: exists prevElems; split_and!; [f_equal; f_equal; lia|done|intros; lia|done].
  - destruct (Nat.ltb_spec max prevLevel), (Nat.ltb_spec max level); simpl.
    2-4: exists prevElems; split_and!; [f_equal; f_equal; lia|done|intros; lia|done].
    rewrite store_index_Ok by lia. rsimpl.
    destruct (IH (S max) (<[max := prev]> prevElems)) as (pe & -> & Hl & Hin & Hout).
    { lia. } { by rewrite length_insert. }
    exists pe. split_and!; [f_equal; f_equal; lia|done| |].
    + intros i Hi. destruct (decide (i = max)) as [->|Hne].
      * rewrite Hout by lia. apply list_lookup_insert_eq. lia.
      * apply Hin. lia.
    + intros i Hi. rewrite Hout by lia. apply list_lookup_insert_ne. lia.
Qed.

Section Walk.

Variables (st : @state K V) (pre post : list (@anode K)) (xa : @anode K).
Hypothesis Hwf : WF st (pre ++ xa :: post).

(** The climb along [prevTopLevel] to the next higher predecessor. *)
Lemma Remove_climb_spec pl : ∀ fuel l' rest,
  pre = l' ++ rest → Forall (λ a, alvl a ≤ pl) rest → length l' ≤ fuel →
  Remove_climb fuel st pl (lastge pl l') = Ok (lastge (S pl) pre).
Proof.
  induction fuel as [|fuel IH]; intros l' rest Hpre Hrest Hfuel;
    rewrite Remove_climb_eq.
  - destruct l'; [|simpl in Hfuel; lia]. simpl. f_equal. symmetry.
    apply lastge_None. rewrite Hpre. simpl.
    eapply Forall_impl; [done|]. simpl. lia.
  - destruct (lastge pl l') as [q|] eqn:E.
    + apply lastge_Some in E as (l1 & d & l2 & -> & <- & Hd & Hl2).
      destruct (wf_base _ _ Hwf d) as (ed & Hed & HLd & _).
      { rewrite Hpre. rewrite <-!app_assoc. apply elem_of_app. right. by left. }
      rewrite (deref_Some _ _ _ Hed). rsimpl. rewrite HLd.
      destruct (Nat.eqb_spec (alvl d) pl) as [Heq|Hne].
      * rewrite (wf_top _ _ Hwf l1 d (l2 ++ rest ++ xa :: post) ed); [|..|done].
        2:{ rewrite Hpre. by rewrite <-!app_assoc. }
        rewrite Heq. apply (IH l1 (d :: l2 ++ rest)).
        -- rewrite Hpre. by rewrite <-!app_assoc.
        -- constructor; [lia|]. apply Forall_app. split; [|done].
           eapply Forall_impl; [done|]. simpl. lia.
        -- rewrite length_app in Hfuel. simpl in Hfuel. lia.
      * f_equal. symmetry. rewrite Hpre, <-app_assoc. simpl.
        apply lastge_last; [lia|]. apply Forall_app. split.
        -- eapply Forall_impl; [done|]. simpl. lia.
        -- eapply Forall_impl; [done|]. simpl. lia.
    + f_equal. symmetry. apply lastge_None. rewrite Hpre.
      apply lastge_None in E. apply Forall_app. split.
      * eapply Forall_impl; [done|]. simpl. lia.
      * eapply Forall_impl; [done|]. simpl. lia.
Qed.

Lemma pre_bounded : length pre ≤ length (heap st).
Proof.
  pose proof (nodes_bounded st _ (wf_base _ _ Hwf) (wf_nodup _ _ Hwf)) as H.
  rewrite length_app in H. lia.
Qed.

(** The walk that finds the predecessor of the node at each of its levels. *)
Lemma Remove_prevs_spec level : ∀ fuel max prevElems cur,
  level - max ≤ fuel → max ≤ level → length prevElems = level →
  cur = lastge (S max) pre ∨ level ≤ max →
  (∀ i, i < max → i < level →
        prevElems !! i = Some (lastge (S i) pre) ∧ lastge (S i) pre ≠ None) →
  (∀ i, max ≤ i < level → prevElems !! i = Some None) →
  ∃ max' pe,
    Remove_prevs fuel st level cur max prevElems = Ok (max', pe)
    ∧ max' ≤ level ∧ length pe = level
    ∧ (∀ i, i < level → pe !! i = Some (lastge (S i) pre))
    ∧ (∀ i, i < max' → i < level → lastge (S i) pre ≠ None)
    ∧ (∀ i, max' ≤ i < level → lastge (S i) pre = None).
Proof.
  induction fuel as [|fuel IH];
    intros max prevElems cur Hfuel Hmax Hlen Hcur Hlow Hhigh;
    rewrite Remove_prevs_eq.
  - exists max, prevElems.
    assert (Remove_prevs_done :
      match cur with
      | Some _ => if max <? level then @OutOfFuel (nat * list (option nat))
                  else Ok (max, prevElems)
      | None => Ok (max, prevElems)
      end = Ok (max, prevElems)).
    { destruct cur; [|done]. destruct (Nat.ltb_spec max level); [lia|done]. }
    split_and!; [done|done|done| |intros; by apply Hlow|intros; lia].
    intros i Hi. apply Hlow; lia.
  - destruct cur as [p|].
    2:{ exists max, prevElems. split_and!; [done..| |intros; by apply Hlow|].
        - intros i Hi. destruct (decide (i < max)) as [|Hge]; [by apply Hlow|].
          rewrite Hhigh by lia. f_equal. symmetry.
          destruct Hcur as [Hcur|]; [|lia].
          apply (lastge_mono (S max)); [lia|done].
        - intros i Hi. destruct Hcur as [Hcur|]; [|lia].
          apply (lastge_mono (S max)); [lia|done]. }
    destruct (Nat.ltb_spec max level) as [Hlt|Hge].
    2:{ exists max, prevElems. split_and!; [done..| |intros; by apply Hlow|intros; lia].
        intros i Hi. apply Hlow; lia. }
    destruct Hcur as [Hcur|]; [|lia]. symmetry in Hcur.
    apply lastge_Some in Hcur as (l1 & c & l2 & Hpre & <- & Hc & Hl2).
    destruct (wf_base _ _ Hwf c) as (ec & Hec & HLc & _).
    { rewrite Hpre. rewrite <-!app_assoc. apply elem_of_app. right. by left. }
    rewrite (deref_Some _ _ _ Hec). rsimpl. cbv zeta. rewrite HLc.
    destruct (Remove_fill_spec (alvl c) level (Some (aptr c)) (S level) max prevElems)
      as (pe1 & -> & Hl1 & Hin & Hout); [lia|done|]. rsimpl.
    rewrite (wf_top _ _ Hwf l1 c (l2 ++ xa :: post) ec); [|..|done].
    2:{ rewrite Hpre. by rewrite <-!app_assoc. }
    rewrite (Remove_climb_spec (alvl c) _ l1 (c :: l2)); [|done|..].
    2:{ constructor; [lia|]. eapply Forall_impl; [done|]. simpl. lia. }
    2:{ pose proof pre_bounded as Hb. rewrite Hpre, length_app in Hb. lia. }
    rsimpl.
    apply IH.
    + lia.
    + lia.
    + done.
    + destruct (decide (alvl c < level)) as [Hcl|Hcl]; [left|right; lia].
      f_equal. lia.
    + intros i Hi Hil. destruct (decide (i < max)) as [Him|Him].
      * rewrite Hout by lia. by apply Hlow.
      * assert (lastge (S i) pre = Some (aptr c)) as ->.
        { rewrite Hpre. apply lastge_last; [lia|].
          eapply Forall_impl; [done|]. simpl. lia. }
        split; [|done]. apply Hin. lia.
    + intros i Hi. rewrite Hout by lia. apply Hhigh. lia.
Qed.

End Walk.


(** The two loops that unlink the node: at every level of the node the
    write goes to the predecessor of that level. *)
Lemma unlink_loop (body : nat → @state K V → result (@state K V)) pre xa post lo hi :
  NoDup (aptr <$> (pre ++ xa :: post)) →
  (∀ i st, lo ≤ i < hi → base st (pre ++ xa :: post) →
     levels_at st (HElem (aptr xa)) i = Ok (nxt i post) →
     body i st = set_levels_at st (predh i pre) i (nxt i post)) →
  hi ≤ alvl xa →
  ∀ n j st,
    j + n = hi → lo ≤ j →
    base st (pre ++ xa :: post) → alvl xa ≤ hlen st →
    (∀ i, i < alvl xa → levels_at st (HElem (aptr xa)) i = Ok (nxt i post)) →
    (∀ i, i < j → fwd_at st i (pre ++ post)) →
    (∀ i, j ≤ i → fwd_at st i (pre ++ xa :: post)) →
    ∃ st', for_range j n body st = Ok st'
           ∧ (∀ i, i < alvl xa → levels_at st' (HElem (aptr xa)) i = Ok (nxt i post))
           ∧ (∀ i, i < hi → fwd_at st' i (pre ++ post))
           ∧ (∀ i, hi ≤ i → fwd_at st' i (pre ++ xa :: post))
           ∧ frame no_level true true st st'.
Proof.
  intros Hnd Hbody Hhi.
  induction n as [|n IH]; intros j st Hjn Hlo Hb Hx Hown Hlow Hhigh.
  - exists st. rewrite for_range_0. split_and!; [done|done| | |apply frame_refl].
    + intros i Hi. apply Hlow. lia.
    + intros i Hi. apply Hhigh. lia.
  - rewrite for_range_S. rewrite Hbody; [|lia|done|apply Hown; lia].
    destruct (unlink_write st pre xa post j Hnd Hb) as (st1 & -> & Hf1 & Hfr1 & Hx1);
      [apply Hhigh; lia|lia|lia|].
    rsimpl.
    destruct (IH (S j) st1) as (st2 & -> & Hown2 & Hlow2 & Hhigh2 & Hfr2).
    + lia.
    + lia.
    + by eapply base_frame.
    + by rewrite (frame_hlen _ _ _ _ _ Hfr1).
    + intros i Hi. destruct (decide (i = j)) as [->|Hne]; [done|].
      rewrite (levels_at_frame _ _ _ _ _ _ _ Hfr1); [by apply Hown|done].
    + intros i Hi. destruct (decide (i = j)) as [->|Hne]; [done|].
      eapply fwd_at_frame; [done| |apply Hlow; lia]. done.
    + intros i Hi. eapply fwd_at_frame; [done| |apply Hhigh; lia]. simpl. lia.
    + exists st2. split_and!; [done..|].
      eapply frame_trans; [|done]. eapply frame_weaken; [| | |done]; [|done..].
      by intros ? [].
Qed.

(** Removing a node from the list: which backward pointers stay right. *)
Lemma bprev_on_remove st pre xa post :
  bprev st (pre ++ xa :: post) →
  bprev_on (λ a, head post ≠ Some a) st (pre ++ post).
Proof.
  intros Hb l1 a l2 e Hns He Hhd.
  destruct (app_eq_cases _ _ _ _ _ Hns) as [(m & -> & ->)|(m & -> & ->)].
  - eapply (Hb l1 a (m ++ xa :: post)); [|done]. by rewrite <-app_assoc.
  - destruct m as [|c m _] using rev_ind; [done|].
    rewrite (Hb (pre ++ xa :: m ++ [c]) a l2 e); [| |done].
    2:{ rewrite <-!app_assoc. simpl. by rewrite <-!app_assoc. }
    by rewrite last_app_snoc, last_cons_snoc.
Qed.

Lemma btop_on_remove st pre xa post :
  btop st (pre ++ xa :: post) →
  btop_on (shadowed (alvl xa) post) st (pre ++ post).
Proof.
  intros Hb l1 a l2 e Hns He Hsh.
  destruct (app_eq_cases _ _ _ _ _ Hns) as [(m & -> & ->)|(m & -> & ->)].
  - eapply (Hb l1 a (m ++ xa :: post)); [|done]. by rewrite <-app_assoc.
  - rewrite (Hb (pre ++ xa :: m) a l2 e); [|by rewrite <-!app_assoc|done].
    rewrite !lastge_app. cbn [lastge].
    destruct (Hsh m l2 eq_refl) as [Hm|Hlt].
    + destruct (lastge (alvl a) m) eqn:E; [done|congruence].
    + destruct (lastge (alvl a) m); [done|].
      by apply Nat.leb_gt in Hlt as ->.
Qed.

(** A write to one element leaves the others as they are. *)
Lemma btop_on_update_other (P Q : @anode K → Prop) st ns p e (f : @Element K V → @Element K V) :
  heap st !! p = Some e → (∀ a, a ∈ ns → Q a → aptr a ≠ p ∧ P a) →
  btop_on P st ns →
  btop_on Q (set_heap st (<[p := f e]> (heap st))) ns.
Proof.
  intros He HQ Hb l1 a l2 e' Hns He' Ha.
  rewrite (lookup_update st p f e _ He) in He'.
  destruct (HQ a) as [Hne HP]; [|done|].
  { rewrite Hns. apply elem_of_app. right. by left. }
  rewrite decide_False in He' by done. by eapply Hb.
Qed.

(** [next.prev = elem.prev] *)
Lemma remove_prev st pre xa post v :
  NoDup (aptr <$> (pre ++ xa :: post)) →
  base st (pre ++ xa :: post) →
  bprev st (pre ++ xa :: post) →
  v = aptr <$> last pre →
  ∃ st', match aptr <$> head post with
         | Some nx => update st nx (set_prev v)
         | None => Ok st
         end = Ok st'
         ∧ bprev st' (pre ++ post)
         ∧ frame all_levels false true st st'
         ∧ heap st' !! aptr xa = heap st !! aptr xa.
Proof.
  intros Hnd Hb Hp Hv. pose proof (bprev_on_remove _ _ _ _ Hp) as Hp'.
  destruct post as [|c post']; simpl.
  - exists st. split_and!; [done| |apply frame_refl|done].
    apply bprev_on_all. eapply bprev_on_impl; [|done]. done.
  - destruct (Hb c) as (e & He & _).
    { apply elem_of_app. right. right. by left. }
    rewrite (update_Some _ _ _ _ He). eexists. split_and!; [done| | |].
    3:{ rewrite (lookup_update st (aptr c) (set_prev v) e _ He).
        rewrite decide_False; [done|]. intros Heq.
        rewrite fmap_app, !fmap_cons in Hnd. apply NoDup_app in Hnd as (_ & _ & Hnd).
        apply NoDup_cons in Hnd as [Hnd _]. apply Hnd. rewrite Heq. by left. }
    + apply bprev_on_all.
      eapply (bprev_on_update _ _ st _ pre c post'); try done.
      * rewrite fmap_app, fmap_cons in Hnd. rewrite fmap_app.
        apply NoDup_app in Hnd as (H1 & H2 & H3). apply NoDup_cons in H3 as [_ H3].
        apply NoDup_app. split_and!; [done| |done].
        intros q Hq Hq'. apply (H2 q Hq). by right.
      * intros a _. destruct (decide (aptr a = aptr c)) as [|]; [by left|right].
        simpl. congruence.
    + eapply frame_insert; [done|]. apply keeps_set_prev.
Qed.

Lemma nodup_remove pre xa post :
  NoDup (aptr <$> (pre ++ xa :: post)) → NoDup (aptr <$> (pre ++ post)).
Proof.
  intros Hnd. rewrite fmap_app, fmap_cons in Hnd. rewrite fmap_app.
  apply NoDup_app in Hnd as (H1 & H2 & H3). apply NoDup_cons in H3 as [_ H3].
  apply NoDup_app. split_and!; [done| |done].
  intros q Hq Hq'. apply (H2 q Hq). by right.
Qed.

(** The loop of [RemoveElement] that repoints [prevTopLevel] of the
    successors. *)
Lemma Remove_adjust_spec pre xa post prevElems :
  NoDup (aptr <$> (pre ++ xa :: post)) →
  (∀ a, a ∈ pre ++ xa :: post → 1 ≤ alvl a) →
  (∀ i, i < alvl xa → prevElems !! i = Some (lastge (S i) pre)) →
  ∀ fuel i st,
    alvl xa - i < fuel →
    base st (pre ++ xa :: post) →
    (∀ j, j < alvl xa → levels_at st (HElem (aptr xa)) j = Ok (nxt j post)) →
    btop_on (λ a, i < alvl a) st (pre ++ xa :: post) →
    btop_on (λ a, alvl a ≤ i ∨ shadowed (alvl xa) post a) st (pre ++ post) →
    ∃ st', Remove_adjust fuel (aptr xa) (alvl xa) prevElems i st = Ok st'
           ∧ btop st' (pre ++ post)
           ∧ frame all_levels true false st st'.
Proof.
  intros Hnd Hlvl Hpe.
  assert (NoDup (aptr <$> post)) as Hndp.
  { rewrite fmap_app, fmap_cons in Hnd. apply NoDup_app in Hnd as (_ & _ & Hnd).
    by apply NoDup_cons in Hnd as [_ ?]. }
  pose proof (nodup_remove _ _ _ Hnd) as Hnd'.
  (* once no node of [post] above level [i] depends on the node, all is right *)
  assert (∀ i st, (∀ a, a ∈ post → i < alvl a → shadowed (alvl xa) post a) →
    btop_on (λ a, alvl a ≤ i ∨ shadowed (alvl xa) post a) st (pre ++ post) →
    btop st (pre ++ post)) as Hdone.
  { intros i st Hall Ht. apply btop_on_all. eapply btop_on_impl; [|done].
    intros a Ha _. simpl.
    destruct (decide (alvl a ≤ i)) as [|Hgt]; [by left|right].
    apply elem_of_app in Ha as [Hin|Hin]; [|apply Hall; [done|lia]].
    intros m l Hpost. exfalso.
    apply (nodup_app_disjoint pre post (aptr a) Hnd').
    - by apply list_elem_of_fmap_2.
    - apply list_elem_of_fmap_2. rewrite Hpost. apply elem_of_app. right. by left. }
  induction fuel as [|fuel IH]; intros i st Hfuel Hb Hx Hold Ht; [lia|].
  rewrite Remove_adjust_eq. destruct (Nat.ltb_spec i (alvl xa)) as [Hi|Hi].
  - rewrite Hx by lia. rsimpl.
    destruct (nxt i post) as [p|] eqn:E.
    2:{ exists st. split_and!; [done| |apply frame_refl].
        apply (Hdone i st); [|done]. intros a Ha Hia. exfalso.
        apply nxt_None in E. rewrite Forall_forall in E. specialize (E a Ha).
        simpl in E. lia. }
    apply nxt_Some in E as (m & c & l & Hpost & <- & Hc & Hm).
    destruct (Hb c) as (ec & Hec & HLc & _).
    { rewrite Hpost. apply elem_of_app. right. right. apply elem_of_app. right. by left. }
    rewrite (deref_Some _ _ _ Hec). rsimpl.
    assert (lastge (alvl c) m = None) as Hmc.
    { apply lastge_None. eapply Forall_impl; [done|]. simpl. lia. }
    assert (prevTopLevel ec
            = if alvl c <=? alvl xa then Some (aptr xa) else lastge (alvl c) pre)
      as Hptl.
    { rewrite (Hold (pre ++ xa :: m) c l ec); [| |done|done].
      2:{ rewrite Hpost. by rewrite <-app_assoc. }
      rewrite lastge_app. cbn [lastge]. rewrite Hmc.
      by destruct (alvl c <=? alvl xa). }
    assert (∀ a, alvl a ≤ alvl c ∨ shadowed (alvl xa) post a →
                 aptr a = aptr c ∨ alvl a ≤ i ∨ shadowed (alvl xa) post a) as HQ.
    { intros a [Ha|Ha]; [|by right; right].
      destruct (decide (alvl a ≤ i)); [right; by left|].
      destruct (above_first_or_shadowed (alvl xa) post m c l i a Hndp Hpost Hm)
        as [?|Hs]; [lia|done|by left|right; by right]. }
    destruct (Nat.leb_spec (alvl c) (alvl xa)) as [Hle|Hgt].
    + rewrite Hptl. rewrite decide_False by (by intros ?).
      cbv zeta. rewrite HLc.
      assert (match alvl c with
              | 0 => Panic IndexOutOfRange
              | S j => index prevElems j
              end = Ok (lastge (alvl c) pre)) as ->.
      { destruct (alvl c) as [|j] eqn:Ej; [lia|]. apply index_Some, Hpe. lia. }
      rsimpl. rewrite (update_Some _ _ _ _ Hec). rsimpl.
      set (st1 := set_heap st _).
      assert (frame all_levels true false st st1) as Hfr.
      { eapply frame_insert; [done|]. apply keeps_set_prevTopLevel. }
      destruct (IH (alvl c) st1) as (st' & -> & Ht' & Hfr'); [lia| | | | |].
      * by eapply base_frame.
      * intros j' Hj'. rewrite (levels_at_frame _ _ _ _ _ _ _ Hfr); [by apply Hx|done].
      * eapply (btop_on_update_other _ _ st _ (aptr c) ec); [done| |done].
        intros a Ha HQa. split; [|simpl in *; lia].
        intros Hp. simpl in HQa.
        assert (a = c) as ->; [|lia].
        eapply nodup_ptr_eq; [exact Hnd|done| |done].
        rewrite Hpost. apply elem_of_app. right. right.
        apply elem_of_app. right. by left.
      * eapply (btop_on_update _ _ st _ (pre ++ m) c l ec _ Hnd' _ Hec _ HQ Ht).
        Unshelve.
        -- rewrite Hpost. by rewrite <-app_assoc.
        -- by rewrite lastge_app, Hmc.
      * exists st'. split_and!; [done..|]. by eapply frame_trans.
    + rewrite Hptl. rewrite decide_True.
      2:{ intros Heq. apply lastge_elem_of in Heq.
          rewrite fmap_app, fmap_cons in Hnd. apply NoDup_app in Hnd as (_ & Hnd & _).
          apply (Hnd _ Heq). by left. }
      exists st. split_and!; [done| |apply frame_refl].
      apply (Hdone i st); [|done]. intros a Ha Hia.
      intros m' l' Hpost'.
      destruct (decide (alvl xa < alvl a)) as [|Hsmall]; [by right|left].
      rewrite Hpost in Hpost'.
      destruct (app_cons_eq_cases _ _ _ _ _ _ Hpost') as
        [(m2 & -> & ->)|[(-> & -> & ->)|(m2 & -> & ->)]].
      * apply Forall_app in Hm as [_ Hm]. apply Forall_cons in Hm as [Ha' _]. lia.
      * lia.
      * rewrite lastge_app. cbn [lastge]. destruct (lastge (alvl a) m2); [done|].
        rewrite (proj2 (Nat.leb_le (alvl a) (alvl c))) by lia. done.
  - exists st. split_and!; [done| |apply frame_refl].
    apply (Hdone i st); [|done]. intros a Ha Hia m l Hpost. right. lia.
Qed.


(** Invariants of a list read the memory at its nodes only. *)
Lemma base_agree st st' ns :
  (∀ a, a ∈ ns → heap st' !! aptr a = heap st !! aptr a) → this st' = this st →
  base st ns → base st' ns.
Proof. intros Hh Ht Hb a Ha. rewrite Hh, Ht by done. by apply Hb. Qed.

Lemma bprev_agree st st' ns :
  (∀ a, a ∈ ns → heap st' !! aptr a = heap st !! aptr a) →
  bprev st ns → bprev st' ns.
Proof.
  intros Hh Hb l1 a l2 e Hns He. rewrite Hh in He; [by eapply Hb|].
  rewrite Hns. apply elem_of_app. right. by left.
Qed.

Lemma btop_agree st st' ns :
  (∀ a, a ∈ ns → heap st' !! aptr a = heap st !! aptr a) →
  btop st ns → btop st' ns.
Proof.
  intros Hh Hb l1 a l2 e Hns He. rewrite Hh in He; [by eapply Hb|].
  rewrite Hns. apply elem_of_app. right. by left.
Qed.

Lemma fwd_at_agree st st' i ns :
  (∀ a, a ∈ ns → heap st' !! aptr a = heap st !! aptr a) →
  lhdr (sl st') = lhdr (sl st) →
  fwd_at st i ns → fwd_at st' i ns.
Proof.
  intros Hh Hl Hf h L before after Hp HL.
  assert (at_pos st ns h L before after) as Hp0.
  { destruct Hp as [|l0 a l Hns]; [|by apply at_node].
    unfold hlen. rewrite Hl. apply at_head. }
  rewrite <-(Hf h L before after Hp0 HL).
  unfold levels_at, header, deref. destruct Hp as [|l0 a l Hns]; [by rewrite Hl|].
  rewrite Hh; [done|]. rewrite Hns. apply elem_of_app. right. by left.
Qed.

Lemma sorted_remove (R : relation (@anode K)) pre xa post :
  StronglySorted R (pre ++ xa :: post) → StronglySorted R (pre ++ post).
Proof.
  rewrite !StronglySorted_app. intros (H1 & H2 & H3). split_and!; [|done|].
  - intros x1 x2 Hx1 Hx2. apply H1; [done|]. by right.
  - by apply StronglySorted_inv in H3 as [? _].
Qed.

(** [RemoveElement] on a node of a well-formed list takes the node out and
    leaves a well-formed list. *)
Lemma RemoveElement_spec st pre xa post :
  WF st (pre ++ xa :: post) →
  ∃ st' e,
    RemoveElement (Some (aptr xa)) st = Ok st'
    ∧ WF st' (pre ++ post)
    ∧ heap st !! aptr xa = Some e
    ∧ (∃ e', heap st' !! aptr xa = Some e' ∧ list_ e' = None
             ∧ Value e' = Value e ∧ key e' = key e)
    ∧ this st' = this st
    ∧ comparable (sl st') = comparable (sl st)
    ∧ maxLevel (sl st') = maxLevel (sl st)
    ∧ hlen st' = hlen st
    ∧ length (heap st') = length (heap st)
    ∧ (∀ p e0, p ≠ aptr xa → heap st !! p = Some e0 →
         ∃ e1, heap st' !! p = Some e1 ∧ keeps no_level false false e0 e1).
Proof.
  intros Hwf. set (ns := pre ++ xa :: post) in *.
  pose proof (wf_nodup _ _ Hwf) as Hnd.
  assert (xa ∈ ns) as Hxin by (apply elem_of_app; right; by left).
  assert (∀ a, a ∈ ns → 1 ≤ alvl a) as Hlvl1.
  { intros a Ha. by apply (wf_lvl _ _ Hwf). }
  destruct (wf_base _ _ Hwf xa Hxin) as (e & He & HL & Hk & Hl).
  pose proof (wf_prev _ _ Hwf pre xa post e eq_refl He) as Hprev.
  assert (alvl xa ≤ hlen st) as Hxh by (apply (wf_lvl _ _ Hwf xa Hxin)).
  assert (∀ i, fwd_at st i ns) as Hfwd.
  { intros i. apply fwd_fwd_at; [apply (wf_base _ _ Hwf)|apply (wf_fwd _ _ Hwf)]. }
  unfold RemoveElement. rewrite (deref_Some _ _ _ He). rsimpl.
  rewrite decide_False by (by intros ?). cbv zeta. rewrite HL.
  (* the walk *)
  destruct (Remove_prevs_spec st pre post xa Hwf (alvl xa) (S (alvl xa)) 0
              (replicate (alvl xa) None) (prev e))
    as (max & pe & -> & Hmax & Hlen & Hpe & Hsome & Hnone).
  { lia. } { lia. } { by rewrite length_replicate. }
  { left. rewrite Hprev. symmetry. apply lastge_one. apply Forall_forall.
    intros a Ha. apply Hlvl1. apply elem_of_app. by left. }
  { intros; lia. }
  { intros i Hi. apply lookup_replicate_2. lia. }
  rsimpl.
  (* the two unlinking loops *)
  destruct (unlink_loop (Remove_unlink (aptr xa) pe) pre xa post 0 max Hnd)
    with (n := max) (j := 0) (st := st)
    as (st1 & -> & Hx1 & Hlow1 & Hhigh1 & Hfr1).
  { intros i s Hi Hb Hx. unfold Remove_unlink. rewrite Hx. rsimpl.
    rewrite (index_Some _ _ _ (Hpe i ltac:(lia))). rsimpl.
    destruct (lastge (S i) pre) as [q|] eqn:E; [|by destruct (Hsome i); [lia..|]].
    destruct (lastge_Some _ _ _ E) as (l1 & c & l2 & Hpre & Hq & _).
    destruct (Hb c) as (ec & Hec & _).
    { rewrite Hpre, <-app_assoc. apply elem_of_app. right. by left. }
    unfold load. rewrite Hq in Hec. rewrite (deref_Some _ _ _ Hec). rsimpl.
    unfold predh. by rewrite E. }
  { lia. } { lia. } { lia. } { apply (wf_base _ _ Hwf). } { done. }
  { intros i Hi. apply (Hfwd i _ (alvl xa) (pre ++ [xa]) post); [|done].
    by apply at_node. }
  { intros; lia. } { intros i _. apply Hfwd. }
  rsimpl.
  assert (base st1 ns) as Hb1 by (eapply base_frame; [done|apply (wf_base _ _ Hwf)]).
  destruct (unlink_loop (Remove_unlink_head (aptr xa)) pre xa post max (alvl xa) Hnd)
    with (n := alvl xa - max) (j := max) (st := st1)
    as (st2 & -> & Hx2 & Hlow2 & Hhigh2 & Hfr2).
  { intros i s Hi Hb Hx. unfold Remove_unlink_head. rewrite Hx. rsimpl.
    unfold predh. by rewrite (Hnone i) by lia. }
  { lia. } { lia. } { lia. } { done. }
  { by rewrite (frame_hlen _ _ _ _ _ Hfr1). } { done. } { done. } { done. }
  rsimpl.
  assert (frame no_level true true st st2) as Hfr02 by (by eapply frame_trans).
  assert (base st2 ns) as Hb2 by (eapply base_frame; [exact Hfr2|done]).
  assert (∀ i, fwd_at st2 i (pre ++ post)) as Hfwd2.
  { intros i. destruct (decide (i < alvl xa)) as [|Hge]; [by apply Hlow2|].
    apply (fwd_at_remove_high st2 pre xa post i); [lia|]. apply Hhigh2. lia. }
  (* the backward pointer of the next node *)
  destruct (frame_lookup_l _ _ _ _ _ _ _ Hfr02 He) as (e2 & He2 & Hk2).
  rewrite (deref_Some _ _ _ He2). rsimpl.
  assert (Next e2 = aptr <$> head post) as ->.
  { specialize (Hx2 0 ltac:(specialize (Hlvl1 xa Hxin); lia)).
    unfold levels_at, header in Hx2. rewrite (deref_Some _ _ _ He2) in Hx2.
    rsimpl in Hx2. unfold index in Hx2. unfold Next.
    destruct (levels (ehdr e2)) as [|n0 ?]; [done|]. simpl in Hx2.
    injection Hx2 as ->. apply nxt_0_head. apply Forall_forall.
    intros a Ha. apply Hlvl1. apply elem_of_app. right. by right. }
  assert (prev e2 = prev e) as Hprev2 by (by destruct Hk2 as (_&_&_&_&_&->&_)).
  destruct (remove_prev st2 pre xa post (prev e2) Hnd Hb2)
    as (st3 & -> & Hbp3 & Hfr3 & Hsame3).
  { apply bprev_on_all. eapply bprev_on_frame; [done|]. apply bprev_on_all.
    apply (wf_prev _ _ Hwf). }
  { by rewrite Hprev2. }
  rsimpl.
  assert (base st3 ns) as Hb3 by (eapply base_frame; [exact Hfr3|done]).
  assert (btop st3 ns) as Hbt3.
  { apply btop_on_all. eapply btop_on_frame; [done|].
    eapply btop_on_frame; [done|]. apply btop_on_all. apply (wf_top _ _ Hwf). }
  (* the shortcuts of the next nodes *)
  destruct (Remove_adjust_spec pre xa post pe Hnd Hlvl1 Hpe (S (alvl xa)) 0 st3)
    as (st4 & -> & Hbt4 & Hfr4).
  { lia. } { done. }
  { intros j Hj. rewrite (levels_at_frame _ _ _ _ _ _ _ Hfr3); [by apply Hx2|done]. }
  { eapply btop_on_impl; [|apply btop_on_all; done]. done. }
  { eapply btop_on_impl; [|by apply btop_on_remove]. intros a Ha [Hz|?]; [|done].
    simpl. assert (1 ≤ alvl a); [|lia]. apply Hlvl1.
    apply elem_of_app in Ha as [|]; apply elem_of_app; [by left|right; by right]. }
  rsimpl.
  (* the end of the list, its length, and the node itself *)
  assert (heap st3 !! aptr xa = Some e2) as He3 by (by rewrite Hsame3).
  destruct (frame_lookup_l _ _ _ _ _ _ _ Hfr4 He3) as (e4 & He4 & Hk4).
  rewrite (deref_Some _ _ _ He4). rsimpl.
  assert (prev e4 = prev e) as Hprev4.
  { destruct Hk4 as (_&_&_&_&_&->&_); done. }
  assert (frame no_level false false st st4) as Hfr04.
  { eapply frame_trans; [eapply frame_weaken; [| | |exact Hfr02]; done|].
    eapply frame_trans; [eapply frame_weaken; [| | |exact Hfr3]; done|].
    eapply frame_weaken; [| | |exact Hfr4]; done. }
  destruct (frame_sl _ _ _ _ _ Hfr04) as (Hc & Hpt & Hm & Hlg & Hbk & _).
  pose proof (frame_hlen _ _ _ _ _ Hfr04) as Hh.
  destruct Hfr04 as (Hthis & Hheaps & _).
  set (stb := if decide (back (sl st4) = Some (aptr xa))
              then set_sl st4 (set_back (prev e4) (sl st4)) else st4).
  assert (heap stb = heap st4 ∧ this stb = this st4 ∧ lhdr (sl stb) = lhdr (sl st4)
          ∧ comparable (sl stb) = comparable (sl st4)
          ∧ maxLevel (sl stb) = maxLevel (sl st4)
          ∧ probTable (sl stb) = probTable (sl st4)
          ∧ length_ (sl stb) = length_ (sl st4)
          ∧ back (sl stb) = aptr <$> last (pre ++ post))
    as (Hbh & Hbt & Hbl & Hbc & Hbm & Hbp & Hbln & Hbb).
  { assert (back (sl st4) = aptr <$> last ns) as Hbk4.
    { rewrite Hbk. apply (wf_back _ _ Hwf). }
    unfold stb.
    destruct (decide (back (sl st4) = Some (aptr xa))) as [Heq|Hne]; simpl;
      split_and!; try done.
    - rewrite Hbk4 in Heq. unfold ns in Heq.
      destruct post as [|c post' _] using rev_ind.
      + by rewrite app_nil_r, Hprev4, Hprev.
      + exfalso. rewrite last_cons_snoc in Heq. injection Heq as Heq.
        unfold ns in Hnd. rewrite fmap_app, fmap_cons, fmap_app in Hnd.
        apply NoDup_app in Hnd as (_ & _ & Hnd). apply NoDup_cons in Hnd as [Hnd _].
        apply Hnd. apply elem_of_app. right. rewrite <-Heq. by left.
    - rewrite Hbk4 in Hne |- *. unfold ns in Hne |- *.
      destruct post as [|c post' _] using rev_ind.
      + by rewrite last_snoc in Hne.
      + by rewrite last_cons_snoc, last_app_snoc. }
  set (stl := set_sl stb (set_length (length_ (sl stb) - 1) (sl stb))).
  assert (heap stl !! aptr xa = Some e4) as Hel by (simpl; by rewrite Hbh).
  rewrite (update_Some _ _ _ _ Hel).
  set (st' := set_heap stl _).
  assert (∀ p, p ≠ aptr xa → heap st' !! p = heap st4 !! p) as Hother.
  { intros p Hp. unfold st'. rewrite (lookup_update stl (aptr xa) reset e4 _ Hel).
    rewrite decide_False by done. simpl. by rewrite Hbh. }
  assert (∀ a, a ∈ pre ++ post → aptr a ≠ aptr xa) as Hnx.
  { intros a Ha Heq. assert (a = xa) as ->.
    { eapply nodup_ptr_eq; [exact Hnd| |done|done].
      apply elem_of_app in Ha as [|]; apply elem_of_app; [by left|right; by right]. }
    unfold ns in Hnd. rewrite fmap_app, fmap_cons in Hnd.
    apply NoDup_app in Hnd as (_ & Hnd1 & Hnd2). apply NoDup_cons in Hnd2 as [Hnd2 _].
    apply elem_of_app in Ha as [Ha|Ha].
    - apply (Hnd1 (aptr xa)); [by apply list_elem_of_fmap_2|by left].
    - apply Hnd2. by apply list_elem_of_fmap_2. }
  assert (∀ a, a ∈ pre ++ post → heap st' !! aptr a = heap st4 !! aptr a) as Hagree.
  { intros a Ha. apply Hother. by apply Hnx. }
  assert (hlen st' = hlen st) as Hh'.
  { rewrite <-Hh. unfold hlen. simpl. by rewrite Hbl. }
  exists st', e. split_and!; [done| |done|..].
  - split.
    + by eapply nodup_remove.
    + apply (sorted_remove _ pre xa post).
      assert (key_lt st' = key_lt st) as ->; [|apply (wf_sorted _ _ Hwf)].
      unfold key_lt. simpl. by rewrite Hbc, Hc.
    + intros a Ha. rewrite Hh'. apply (wf_lvl _ _ Hwf).
      apply elem_of_app in Ha as [|]; apply elem_of_app; [by left|right; by right].
    + apply (base_agree st4); [done|simpl; by rewrite Hbt|].
      intros a Ha. apply (base_frame _ _ _ _ _ _ Hfr4 Hb3).
      apply elem_of_app in Ha as [|]; apply elem_of_app; [by left|right; by right].
    + intros i. apply fwd_at_fwd. apply (fwd_at_agree st4); [done|simpl; by rewrite Hbl|].
      eapply fwd_at_frame; [exact Hfr4|done|].
      eapply fwd_at_frame; [exact Hfr3|done|]. apply Hfwd2.
    + apply (bprev_agree st4); [done|].
      apply bprev_on_all. eapply bprev_on_frame; [exact Hfr4|]. by apply bprev_on_all.
    + by apply (btop_agree st4).
    + intros p e' He' Hl'. destruct (decide (p = aptr xa)) as [->|Hp].
      * unfold st' in He'. rewrite (lookup_update stl (aptr xa) reset e4 _ Hel) in He'.
        rewrite decide_True in He' by done. by injection He' as <-.
      * rewrite (Hother p Hp) in He'.
        destruct (Forall2_lookup_r _ _ _ _ _ Hheaps He') as (e0 & He0 & (_&_&Hl0&_)).
        assert (p ∈ aptr <$> ns) as Hin.
        { apply (wf_owned _ _ Hwf p e0 He0). rewrite <-Hl0, Hl'. simpl.
          by rewrite Hbt, Hthis. }
        unfold ns in Hin. rewrite fmap_app, fmap_cons in Hin. rewrite fmap_app.
        apply elem_of_app in Hin as [|Hin]; apply elem_of_app; [by left|right].
        by apply elem_of_cons in Hin as [|].
    + simpl. done.
    + simpl. rewrite Hbln, Hlg, (wf_len _ _ Hwf). unfold ns.
      rewrite !length_app. simpl. lia.
    + rewrite Hh'. simpl. rewrite Hbm, Hm. apply (wf_max _ _ Hwf).
    + simpl. rewrite Hbm, Hbp, Hpt, Hm. apply (wf_prob _ _ Hwf).
  - exists (reset e4). split_and!.
    + unfold st'. rewrite (lookup_update stl (aptr xa) reset e4 _ Hel).
      by rewrite decide_True.
    + done.
    + simpl. destruct Hk4 as (_&_&_&->&_). by destruct Hk2 as (_&_&_&->&_).
    + simpl. destruct Hk4 as (_&->&_). by destruct Hk2 as (_&->&_).
  - simpl. by rewrite Hbt.
  - simpl. by rewrite Hbc.
  - simpl. by rewrite Hbm.
  - done.
  - unfold st'. simpl. rewrite length_insert, Hbh. symmetry.
    by eapply Forall2_length.
  - intros p e0 Hp He0. rewrite (Hother p Hp).
    by eapply Forall2_lookup_l.
Qed.

End Removal.

(** * What the operations keep in any state *)

Section Generic.

Context {K V : Type}.
Implicit Types (st : @state K V) (e : @Element K V).

Lemma bind_Ok {A B} (m : result A) (f : A → result B) r :
  (x ← m; f x) = Ok r → ∃ x, m = Ok x ∧ f x = Ok r.
Proof. destruct m as [x| |]; [|done..]. intros H. by exists x. Qed.

Lemma fmap_Ok {A B} (m : result A) (f : A → B) r :
  f <$> m = Ok r → ∃ x, m = Ok x ∧ r = f x.
Proof. destruct m as [x| |]; [|done..]. intros [= <-]. by exists x. Qed.

Lemma grows_refl st : grows st st.
Proof.
  split_and!; try done. intros p e' He' Hl. left. by exists e'.
Qed.

Lemma grows_trans st1 st2 st3 : grows st1 st2 → grows st2 st3 → grows st1 st3.
Proof.
  intros (Ht1 & Hh1 & Hm1 & Hp1 & Hc1 & Hn1 & H1) (Ht2 & Hh2 & Hm2 & Hp2 & Hc2 & Hn2 & H2).
  split_and!; try congruence; [lia|].
  intros p e3 He3 Hl3. rewrite <-Ht1 in Hl3.
  destruct (H2 p e3 He3 Hl3) as [(e2 & He2 & Hl2 & HL2)|[Hnone Hlv]].
  - rewrite Ht1 in Hl2. destruct (H1 p e2 He2 Hl2) as [(e1 & He1 & Hl1 & HL1)|[Hnone Hlv]].
    + left. exists e1. split_and!; [done..|congruence].
    + right. split; [done|]. by rewrite <-HL2.
  - right. rewrite Hm1 in Hlv. split; [|done].
    apply lookup_ge_None. apply lookup_ge_None in Hnone. lia.
Qed.

Lemma frame_grows fl fp ft st st' : frame fl fp ft st st' → grows st st'.
Proof.
  intros Hf. destruct (frame_sl _ _ _ _ _ Hf) as (Hc & Hp & Hm & _).
  pose proof (frame_hlen _ _ _ _ _ Hf) as Hh.
  pose proof (frame_heap_length _ _ _ _ _ Hf) as Hn.
  split_and!; try done; [by destruct Hf|lia|].
  intros p e' He' Hl.
  destruct (frame_lookup_r _ _ _ _ _ _ _ Hf He') as (e & He & (HL & _ & Hl' & _)).
  left. exists e. split_and!; [done|congruence|done].
Qed.

(** A change of the fields of the list that are no sizes. *)
Lemma grows_set_sl st l :
  lhdr l = lhdr (sl st) → maxLevel l = maxLevel (sl st) →
  probTable l = probTable (sl st) → comparable l = comparable (sl st) →
  grows st (set_sl st l).
Proof.
  intros Hl Hm Hp Hc. split_and!; try done.
  - unfold hlen. simpl. by rewrite Hl.
  - intros p e' He' Hlist. left. by exists e'.
Qed.

Lemma grows_alloc st level (k : K) (value : V) :
  1 ≤ level ≤ maxLevel (sl st) →
  grows st (newElement st level k value).2.
Proof.
  intros Hlevel. unfold newElement. cbn [snd]. split_and!; try done.
  - cbn. rewrite length_app. simpl. lia.
  - intros p e' He' Hl. cbn [heap set_heap] in He'. destruct (decide (p < length (heap st))) as [Hp|Hp].
    + rewrite lookup_app_l in He' by done. left. by exists e'.
    + right. split; [apply lookup_ge_None; lia|].
      rewrite lookup_app_r in He' by lia.
      destruct (p - length (heap st)) as [|n]; [|by destruct n].
      injection He' as <-. unfold Level. simpl. by rewrite length_replicate.
Qed.

Lemma grows_reset st x e :
  heap st !! x = Some e → grows st (set_heap st (<[x := reset e]> (heap st))).
Proof.
  intros He. split_and!; try done.
  - simpl. by rewrite length_insert.
  - intros p e' He' Hl. rewrite (lookup_update st x reset e _ He) in He'.
    destruct (decide (p = x)) as [->|]; [by injection He' as <-|].
    left. by exists e'.
Qed.

Lemma grows_update fp ft st p f st' :
  update st p f = Ok st' → (∀ e, keeps no_level fp ft e (f e)) → grows st st'.
Proof. intros H Hk. eapply frame_grows. by eapply frame_update. Qed.

(** The loops of [Set] and of [RemoveElement] write forward and backward
    pointers only. *)
Lemma Set_adjust_frame x level largest : ∀ fuel i st st',
  Set_adjust fuel x level largest i st = Ok st' →
  frame all_levels true false st st'.
Proof.
  induction fuel as [|fuel IH]; intros i st st'; rewrite Set_adjust_eq.
  - destruct (i <? largest); [done|]. intros [= <-]. apply frame_refl.
  - destruct (i <? largest); [|intros [= <-]; apply frame_refl].
    intros H. apply bind_Ok in H as (next & _ & H).
    apply bind_Ok in H as ([nx ne] & _ & H). cbv zeta in H.
    apply bind_Ok in H as (st1 & H1 & H).
    eapply frame_trans; [|by eapply IH].
    destruct (Level ne <=? level).
    + eapply frame_update; [done|]. intros e. apply keeps_set_prevTopLevel.
    + injection H1 as <-. apply frame_refl.
Qed.

Lemma Remove_adjust_frame x level prevElems : ∀ fuel i st st',
  Remove_adjust fuel x level prevElems i st = Ok st' →
  frame all_levels true false st st'.
Proof.
  induction fuel as [|fuel IH]; intros i st st'; rewrite Remove_adjust_eq.
  - destruct (i <? level); [done|]. intros [= <-]. apply frame_refl.
  - destruct (i <? level); [|intros [= <-]; apply frame_refl].
    intros H. apply bind_Ok in H as (next & _ & H).
    destruct next as [nx|]; [|injection H as <-; apply frame_refl].
    apply bind_Ok in H as (ne & _ & H).
    destruct (decide _); [injection H as <-; apply frame_refl|].
    cbv zeta in H. apply bind_Ok in H as (pe & _ & H).
    apply bind_Ok in H as (st1 & H1 & H).
    eapply frame_trans; [|by eapply IH].
    eapply frame_update; [done|]. intros e. apply keeps_set_prevTopLevel.
Qed.

Lemma Set_splice_frame x prevs i st st' :
  Set_splice x prevs i st = Ok st' → frame no_level true true st st'.
Proof.
  unfold Set_splice. intros H.
  apply bind_Ok in H as (ph & _ & H). apply bind_Ok in H as (h & _ & H).
  apply bind_Ok in H as (nx & _ & H). apply bind_Ok in H as (st1 & H1 & H).
  apply bind_Ok in H as (ph' & _ & H). apply bind_Ok in H as (h' & _ & H).
  eapply frame_trans.
  - eapply frame_weaken; [| | |by eapply frame_set_levels_at]; [|done..]. by intros ? [].
  - eapply frame_weaken; [| | |by eapply frame_set_levels_at]; [|done..]. by intros ? [].
Qed.

Lemma Remove_unlink_frame x prevElems i st st' :
  Remove_unlink x prevElems i st = Ok st' → frame no_level true true st st'.
Proof.
  unfold Remove_unlink. intros H.
  apply bind_Ok in H as (v & _ & H). apply bind_Ok in H as (pe & _ & H).
  apply bind_Ok in H as ([p ?] & _ & H).
  eapply frame_weaken; [| | |by eapply frame_set_levels_at]; [|done..]. by intros ? [].
Qed.

Lemma Remove_unlink_head_frame x i st st' :
  Remove_unlink_head x i st = Ok st' → frame no_level true true st st'.
Proof.
  unfold Remove_unlink_head. intros H. apply bind_Ok in H as (v & _ & H).
  eapply frame_weaken; [| | |by eapply frame_set_levels_at]; [|done..]. by intros ? [].
Qed.

Lemma frame_weak fl fp ft st st' :
  frame fl fp ft st st' → frame no_level false false st st'.
Proof. intros H. eapply frame_weaken; [| | |exact H]; [by intros ? []|done..]. Qed.

Lemma frame_cond_update (c : Prop) `{Decision c} fp ft st p f st' :
  (if decide c then update st p f else Ok st) = Ok st' →
  (∀ e, keeps all_levels fp ft e (f e)) → frame no_level false false st st'.
Proof.
  intros H0 Hk. destruct (decide c).
  - eapply frame_weak. by eapply frame_update.
  - injection H0 as <-. apply frame_refl.
Qed.

Lemma grows_set_Value st p (v : V) st' :
  update st p (set_Value v) = Ok st' → grows st st'.
Proof.
  unfold update, deref. destruct (heap st !! p) as [e|] eqn:E; [|done].
  simpl. intros [= <-]. split_and!; try done.
  - simpl. by rewrite length_insert.
  - intros q e' He' Hl. rewrite (lookup_update st p (set_Value v) e _ E) in He'.
    left. destruct (decide (q = p)) as [->|]; [|by exists e'].
    injection He' as <-. by exists e.
Qed.

(** [Set] in any state in which [randLevel] works: the elements of the list
    keep their levels, and the element returned is one that was there or a
    new one with a level between 1 and [maxLevel]. *)
Lemma Set_grows st (k : K) (value : V) p st' :
  1 ≤ maxLevel (sl st) → length (probTable (sl st)) = maxLevel (sl st) →
  Set' k value st = Ok (p, st') →
  grows st st'
  ∧ ((∃ e, heap st !! p = Some e)
     ∨ (p = length (heap st)
        ∧ ∃ e', heap st' !! p = Some e' ∧ 1 ≤ Level e' ≤ maxLevel (sl st)
                ∧ list_ e' = Some (this st))).
Proof.
  intros Hm Hp. unfold Set'.
  destruct (randLevel_spec st Hm Hp) as (level & Hrl & Hlevel).
  set (st1 := set_sl st (set_randPos (S (randPos (sl st))) (sl st))) in *.
  assert (grows st st1) as Hg1 by (by apply grows_set_sl).
  pose proof (grows_alloc st1 level k value Hlevel) as Hg2.
  set (st2 := (newElement st1 level k value).2) in *.
  assert (heap st2 !! length (heap st)
          = Some (mkElement (mkHeader (replicate level None) []) value k None None
                            (Some (this st)))) as Hnew.
  { unfold st2, newElement. cbn. by rewrite lookup_app_r, Nat.sub_diag by done. }
  assert (∀ st7 stf, frame no_level false false st2 st7 →
            heap stf = heap st7 → this stf = this st7 →
            lhdr (sl stf) = lhdr (sl st7) → maxLevel (sl stf) = maxLevel (sl st7) →
            probTable (sl stf) = probTable (sl st7) →
            comparable (sl stf) = comparable (sl st7) →
            grows st stf
            ∧ ((∃ e, heap st !! length (heap st) = Some e)
               ∨ (length (heap st) = length (heap st)
                  ∧ ∃ e', heap stf !! length (heap st) = Some e'
                          ∧ 1 ≤ Level e' ≤ maxLevel (sl st)
                          ∧ list_ e' = Some (this st)))) as Hfin.
  { intros st7 stf Hfr Hh Ht Hl Hml Hpl Hcl. split.
    - eapply grows_trans; [exact Hg1|]. eapply grows_trans; [exact Hg2|].
      eapply grows_trans; [by eapply frame_grows|].
      destruct (frame_grows _ _ _ _ _ Hfr) as (? & ? & ? & ? & ? & ? & ?).
      split_and!; try done.
      + unfold hlen. by rewrite Hl.
      + by rewrite Hh.
      + intros q e' He' Hl'. rewrite Hh in He'. left. by exists e'.
    - right. split; [done|].
      destruct (frame_lookup_l _ _ _ _ _ _ _ Hfr Hnew) as (e' & He' & (HL & _ & Hli & _)).
      exists e'. rewrite Hh. rewrite HL. unfold Level. simpl.
      rewrite length_replicate. split_and!; [done|lia|lia|done]. }
  destruct (length_ (sl st) =? 0)%Z.
  - (* the empty list *)
    rewrite Hrl. rsimpl. unfold newElement. cbv zeta.
    fold (newElement st1 level k value).
    change (set_heap st1 _) with st2.
    intros H. apply bind_Ok in H as (st3 & H3 & H). injection H as <- <-.
    eapply (Hfin st3); try done.
    eapply (frame_for_range _ _ _ _ level); [| |exact H3]; [|lia].
    intros i s s' _ Hs. eapply frame_weak. eapply frame_set_levels_at. exact Hs.
  - intros H. apply bind_Ok in H as (r & _ & H). destruct r as [elem|prevs].
    + apply bind_Ok in H as (st3 & H3 & H). injection H as <- <-. split.
      * by eapply grows_set_Value.
      * left. unfold update in H3. apply bind_Ok in H3 as (e & He & _).
        unfold deref in He. destruct (heap st !! elem); [by eexists|done].
    + rewrite Hrl in H. rsimpl in H. unfold newElement in H. cbv zeta in H.
      fold (newElement st1 level k value) in H.
      change (set_heap st1 _) with st2 in H.
      change (length (heap st1)) with (length (heap st)) in H.
      apply bind_Ok in H as (p0 & _ & H). apply bind_Ok in H as (st3 & H3 & H).
      apply bind_Ok in H as (pt & _ & H). apply bind_Ok in H as (st4 & H4 & H).
      apply bind_Ok in H as (st5 & H5 & H). apply bind_Ok in H as (lg & _ & H).
      apply bind_Ok in H as (next & _ & H). apply bind_Ok in H as (st6 & H6 & H).
      apply bind_Ok in H as (st7 & H7 & H). apply bind_Ok in H as (e & _ & H).
      injection H as <- <-.
      assert (frame no_level false false st2 st7) as Hfr.
      { eapply frame_trans; [eapply (frame_cond_update _ _ _ _ _ _ _ H3)|].
        { intros ?. apply keeps_set_prev. }
        eapply frame_trans; [eapply (frame_cond_update _ _ _ _ _ _ _ H4)|].
        { intros ?. apply keeps_set_prevTopLevel. }
        eapply frame_trans.
        { eapply (frame_for_range _ _ _ _ level); [| |exact H5]; [|lia].
          intros i s s' _ Hs. eapply frame_weak. by eapply Set_splice_frame. }
        eapply frame_trans.
        { instantiate (1 := st6). destruct next as [nx|].
          - eapply frame_weak. eapply frame_update; [done|].
            intros ?. apply keeps_set_prev.
          - injection H6 as <-. apply frame_refl. }
        eapply frame_weak. by eapply Set_adjust_frame. }
      eapply Hfin; [exact Hfr|..]; by destruct (decide (Next e = None)).
Qed.

(** [RemoveElement] in any state. *)
Lemma RemoveElement_grows st elem st' :
  RemoveElement elem st = Ok st' → grows st st'.
Proof.
  unfold RemoveElement. destruct elem as [x|]; [|intros [= <-]; apply grows_refl].
  intros H. apply bind_Ok in H as (e & _ & H).
  destruct (decide _); [injection H as <-; apply grows_refl|].
  cbv zeta in H. apply bind_Ok in H as ([max pe] & _ & H).
  apply bind_Ok in H as (st1 & H1 & H). apply bind_Ok in H as (st2 & H2 & H).
  apply bind_Ok in H as (e2 & _ & H). apply bind_Ok in H as (st3 & H3 & H).
  apply bind_Ok in H as (st4 & H4 & H). apply bind_Ok in H as (e4 & _ & H).
  assert (frame no_level false false st st4) as Hfr.
  { eapply frame_trans.
    { eapply (frame_for_range _ _ _ _ max); [| |exact H1]; [|lia].
      intros i s s' _ Hs. eapply frame_weak. by eapply Remove_unlink_frame. }
    eapply frame_trans.
    { eapply (frame_for_range _ _ _ _ (max + (Level e - max))); [| |exact H2]; [|lia].
      intros i s s' _ Hs. eapply frame_weak. by eapply Remove_unlink_head_frame. }
    eapply frame_trans.
    { instantiate (1 := st3). destruct (Next e2) as [nx|].
      - eapply frame_weak. eapply frame_update; [done|].
        intros ?. apply keeps_set_prev.
      - injection H3 as <-. apply frame_refl. }
    eapply frame_weak. by eapply Remove_adjust_frame. }
  eapply grows_trans; [by eapply frame_grows|].
  match type of H with update ?s _ _ = _ => set (stl := s) in * end.
  assert (grows st4 stl) as Hgl.
  { unfold stl. destruct (decide (back (sl st4) = Some x)).
    - eapply grows_trans; by apply grows_set_sl.
    - by apply grows_set_sl. }
  eapply grows_trans; [exact Hgl|].
  unfold update in H. apply bind_Ok in H as (el & Hel & H). injection H as <-.
  apply (grows_reset stl x el). unfold deref in Hel.
  destruct (heap stl !! x) as [?|]; by simplify_eq.
Qed.

(** The sizes stay right. *)
Lemma sizes_ok_grows st st' : sizes_ok st → grows st st' → sizes_ok st'.
Proof.
  intros (Hm & Hp & Hl) (Ht & Hh & Hm' & Hp' & _ & _ & Hg).
  unfold sizes_ok. rewrite Hh, Hm', Hp'. split_and!; [lia|lia|done|].
  intros p e' He' Hl'. rewrite Ht in Hl'.
  destruct (Hg p e' He' Hl') as [(e & He & Hle & <-)|[_ ?]]; [by eapply Hl|lia].
Qed.

Lemma Remove_grows st (k : K) r st' : Remove k st = Ok (r, st') → grows st st'.
Proof.
  unfold Remove. intros H. apply bind_Ok in H as (elem & _ & H).
  destruct elem as [p|]; [|injection H as <- <-; apply grows_refl].
  apply bind_Ok in H as (s & Hs & H). injection H as <- <-.
  by eapply RemoveElement_grows.
Qed.

Lemma RemoveFront_grows st r st' : RemoveFront st = Ok (r, st') → grows st st'.
Proof.
  unfold RemoveFront. destruct (length_ (sl st) =? 0)%Z;
    [intros [= <- <-]; apply grows_refl|].
  intros H. apply bind_Ok in H as (front & _ & H).
  apply bind_Ok in H as (s & Hs & H). injection H as <- <-.
  by eapply RemoveElement_grows.
Qed.

Lemma RemoveBack_grows st r st' : RemoveBack st = Ok (r, st') → grows st st'.
Proof.
  unfold RemoveBack. destruct (length_ (sl st) =? 0)%Z;
    [intros [= <- <-]; apply grows_refl|].
  cbv zeta. intros H. apply bind_Ok in H as (s & Hs & H). injection H as <- <-.
  by eapply RemoveElement_grows.
Qed.

(** ** SetMaxLevel *)

(** The scan for the highest occupied level that the shrink would cut: it
    answers the index of that level, or [level] when there is none. *)
Lemma SetMaxLevel_scan_spec (lv : list (option ptr)) level : ∀ n,
  n ≤ length lv →
  ∃ r, SetMaxLevel_scan lv level n = Ok r
       ∧ ((r = level ∧ ∀ i, level ≤ i < n → lv !! i = Some None)
          ∨ (level ≤ r < n ∧ (∃ q, lv !! r = Some (Some q))
             ∧ ∀ i, r < i < n → lv !! i = Some None)).
Proof.
  induction n as [|n IH]; intros Hn.
  - exists level. split; [done|]. left. split; [done|]. intros; lia.
  - rewrite SetMaxLevel_scan_S. destruct (Nat.leb_spec level n) as [Hle|Hgt].
    + destruct (lookup_lt_is_Some_2 lv n) as [x Hx]; [lia|].
      rewrite (index_Some _ _ _ Hx). rsimpl. destruct x as [q|].
      * exists n. split; [done|]. right. split_and!; [lia|lia|by exists q|intros; lia].
      * destruct IH as (r & -> & Hr); [lia|]. exists r. split; [done|].
        destruct Hr as [[-> Hr]|(Hr1 & Hr2 & Hr3)]; [left|right].
        -- split; [done|]. intros i Hi.
           destruct (decide (i = n)) as [->|]; [done|]. apply Hr. lia.
        -- split_and!; [lia|lia|done|]. intros i Hi.
           destruct (decide (i = n)) as [->|]; [done|]. apply Hr3. lia.
    + exists level. split; [done|]. left. split; [done|]. intros; lia.
Qed.

Lemma length_probabilityTable p n : length (probabilityTable p n) = n.
Proof. unfold probabilityTable. by rewrite length_map, length_seq. Qed.

(** [SetMaxLevel] with a positive level returns, in any state, and leaves
    a header that has at least [maxLevel] levels. *)
Lemma SetMaxLevel_total st level :
  (0 < level)%Z →
  ∃ st', SetMaxLevel level st = Ok (Z.of_nat (hlen st), st')
         ∧ heap st' = heap st ∧ this st' = this st
         ∧ maxLevel (sl st') = Z.to_nat level
         ∧ length (probTable (sl st')) = Z.to_nat level
         ∧ Z.to_nat level ≤ hlen st'
         ∧ comparable (sl st') = comparable (sl st)
         ∧ length_ (sl st') = length_ (sl st)
         ∧ back (sl st') = back (sl st)
         ∧ (0 < hlen st →
            levels (lhdr (sl st')) !! 0 = levels (lhdr (sl st)) !! 0).
Proof.
  intros Hpos. unfold SetMaxLevel.
  destruct (Z.leb_spec level 0) as [|_]; [lia|]. cbv zeta.
  cbn [sl set_sl lhdr set_levelling].
  fold (hlen st).
  set (n := Z.to_nat level). assert (1 ≤ n) as Hn by lia.
  destruct (Nat.eqb_spec n (hlen st)) as [Heq|Hne].
  { eexists. split; [done|]. unfold hlen in *. cbn.
    split_and!; try done; [apply length_probabilityTable|lia]. }
  destruct (Nat.ltb_spec n (hlen st)) as [Hlt|Hge].
  - destruct (SetMaxLevel_scan_spec (levels (lhdr (sl st))) n (hlen st))
      as (r & -> & Hr); [done|]. rsimpl.
    assert (n ≤ r ≤ hlen st) as Hrn by (destruct Hr as [[-> _]|[? _]]; lia).
    unfold reslice. rewrite decide_True.
    2:{ rewrite length_app. unfold hlen in Hrn. lia. }
    rsimpl. eexists. split; [done|]. unfold hlen in *. cbn.
    split_and!; try done; [apply length_probabilityTable| |].
    + rewrite length_take, length_app. lia.
    + intros H0. rewrite lookup_take_lt by lia. by apply lookup_app_l.
  - destruct (Nat.leb_spec n (length (levels (lhdr (sl st)) ++ spare (lhdr (sl st)))))
      as [Hcap|Hcap].
    + unfold reslice. rewrite decide_True by done. rsimpl.
      eexists. split; [done|]. unfold hlen in *. cbn.
      split_and!; try done; [apply length_probabilityTable| |].
      * rewrite length_take. lia.
      * intros H0. rewrite lookup_take_lt by lia. by apply lookup_app_l.
    + eexists. split; [done|]. unfold hlen in *. cbn.
      split_and!; try done; [apply length_probabilityTable| |].
      * rewrite length_app, length_replicate. lia.
      * intros H0. by apply lookup_app_l.
Qed.

Lemma SetMaxLevel_nonpos st level :
  (level ≤ 0)%Z → SetMaxLevel level st = Panic PanicLevel.
Proof. intros H. unfold SetMaxLevel. by destruct (Z.leb_spec level 0); [|lia]. Qed.

Lemma SetMaxLevel_sizes st level old st' :
  sizes_ok st → SetMaxLevel level st = Ok (old, st') → sizes_ok st'.
Proof.
  intros (_ & _ & Hl) H. destruct (Z.leb_spec level 0) as [Hle|Hpos].
  { by rewrite SetMaxLevel_nonpos in H. }
  destruct (SetMaxLevel_total st level Hpos)
    as (st2 & H2 & Hh & Ht & Hm & Hp & Hlen & _).
  rewrite H2 in H. injection H as _ <-.
  unfold sizes_ok. rewrite Hm, Hp, Hh, Ht. split_and!; [lia|done|done|done].
Qed.

(** ** Sequences of operations *)

Lemma exec_sizes (o : @op K V) st st' :
  sizes_ok st → exec o st = Ok st' → sizes_ok st'.
Proof.
  intros Hs H. destruct o as [k v|k| | |elem|level]; simpl in H.
  - apply fmap_Ok in H as ([p s] & H & ->). simpl.
    destruct Hs as (Hm & Hp & Hl).
    destruct (Set_grows st k v p s) as [Hg _]; [lia|done|done|].
    by eapply sizes_ok_grows.
  - apply fmap_Ok in H as ([r s] & H & ->). eapply sizes_ok_grows; [done|].
    by eapply Remove_grows.
  - apply fmap_Ok in H as ([r s] & H & ->). eapply sizes_ok_grows; [done|].
    by eapply RemoveFront_grows.
  - apply fmap_Ok in H as ([r s] & H & ->). eapply sizes_ok_grows; [done|].
    by eapply RemoveBack_grows.
  - eapply sizes_ok_grows; [done|]. by eapply RemoveElement_grows.
  - apply fmap_Ok in H as ([r s] & H & ->). by eapply SetMaxLevel_sizes.
Qed.

Lemma run_sizes (os : list (@op K V)) : ∀ st st',
  sizes_ok st → run os st = Ok st' → sizes_ok st'.
Proof.
  induction os as [|o os IH]; intros st st' Hs H; simpl in H.
  - by injection H as <-.
  - apply bind_Ok in H as (s & Ho & H). eapply IH; [|done]. by eapply exec_sizes.
Qed.

Lemma fresh_sizes (cmp : K → K → Z) rnd (h : list (@Element K V)) id :
  foreign id h → sizes_ok (fresh cmp rnd h id).
Proof.
  intros Hf. split_and!.
  - cbn. unfold DefaultMaxLevel. lia.
  - unfold hlen. cbn [fresh sl New lhdr levels maxLevel].
    rewrite length_replicate. done.
  - apply length_probabilityTable.
  - intros p e He Hl. exfalso. unfold foreign in Hf. rewrite Forall_forall in Hf.
    apply (Hf e); [|done]. by eapply list_elem_of_lookup_2.
Qed.

End Generic.

(** * The operations on a well-formed list *)

Section View.

Context {K V : Type}.
Implicit Types (e : @Element K V) (a b c d : @anode K).
Variables (st : @state K V) (ns : list (@anode K)).
Hypothesis Hwf : WF st ns.

Lemma Next_spec pre a post e :
  ns = pre ++ a :: post → heap st !! aptr a = Some e →
  Next e = aptr <$> head post.
Proof.
  intros Hns He. destruct (wf_fwd _ _ Hwf 0) as [_ Hn].
  assert (a ∈ ns) as Ha by (rewrite Hns; apply elem_of_app; right; by left).
  pose proof (wf_lvl _ _ Hwf a Ha) as Hl.
  specialize (Hn pre a post e Hns He ltac:(lia)).
  unfold Next. destruct (levels (ehdr e)) as [|n l]; [done|].
  simpl in Hn. injection Hn as ->. apply nxt_0_head. apply Forall_forall.
  intros b Hb. apply (wf_lvl _ _ Hwf). rewrite Hns. apply elem_of_app. right. by right.
Qed.

Lemma chain_from_spec : ∀ fuel l0 l,
  ns = l0 ++ l → length l ≤ fuel →
  chain_from fuel st (aptr <$> head l) = aptr <$> l.
Proof.
  induction fuel as [|fuel IH]; intros l0 l Hns Hfuel.
  - destruct l; [done|simpl in Hfuel; lia].
  - destruct l as [|a l']; [done|]. simpl.
    destruct (wf_base _ _ Hwf a) as (e & He & _).
    { rewrite Hns. apply elem_of_app. right. by left. }
    rewrite He. f_equal. rewrite (Next_spec l0 a l' e Hns He).
    apply (IH (l0 ++ [a])); [by rewrite <-app_assoc|simpl in Hfuel; lia].
Qed.

(** The level-0 chain of a well-formed list is the list of its nodes. *)
Lemma chain_spec : chain st = aptr <$> ns.
Proof.
  unfold chain. destruct (wf_fwd _ _ Hwf 0) as [Hh _].
  rewrite Hh by (pose proof (wf_max _ _ Hwf); lia). simpl.
  rewrite nxt_0_head.
  2:{ apply Forall_forall. intros a Ha. by apply (wf_lvl _ _ Hwf). }
  apply (chain_from_spec _ []); [done|].
  apply (nodes_bounded st ns (wf_base _ _ Hwf) (wf_nodup _ _ Hwf)).
Qed.

Lemma level_at_node a : a ∈ ns → level_at st (aptr a) = alvl a.
Proof.
  intros Ha. destruct (wf_base _ _ Hwf a Ha) as (e & He & HL & _).
  unfold level_at. by rewrite He.
Qed.

Lemma lastge_nearest L pre :
  (∀ a, a ∈ pre → a ∈ ns) → lastge L pre = nearest_ge st L (aptr <$> pre).
Proof.
  unfold nearest_ge. induction pre as [|a l IH] using rev_ind; intros Hin; [done|].
  rewrite lastge_app, fmap_app, filter_app. cbn [lastge fmap list_fmap].
  rewrite filter_cons, filter_nil.
  rewrite level_at_node by (apply Hin, elem_of_app; right; by left).
  destruct (Nat.leb_spec L (alvl a)) as [Hle|Hgt].
  - rewrite decide_True by done. by rewrite last_snoc.
  - rewrite decide_False by lia. rewrite app_nil_r. apply IH.
    intros b Hb. apply Hin, elem_of_app. by left.
Qed.

Lemma node_of_ptr p : p ∈ aptr <$> ns → ∃ pre a post, ns = pre ++ a :: post ∧ aptr a = p.
Proof.
  intros (a & -> & Ha)%list_elem_of_fmap.
  destruct (list_elem_of_split _ _ Ha) as (pre & post & ->). by exists pre, a, post.
Qed.

(** [RemoveElement] answers on every element that is allocated, and the
    list stays well-formed. *)
Lemma RemoveElement_WF elem :
  (∀ p, elem = Some p → p < length (heap st)) →
  ∃ st' ns', RemoveElement elem st = Ok st' ∧ WF st' ns'
             ∧ comparable (sl st') = comparable (sl st).
Proof.
  intros Hp. destruct elem as [p|]; [|by exists st, ns].
  destruct (lookup_lt_is_Some_2 (heap st) p (Hp p eq_refl)) as [e He].
  destruct (decide (list_ e = Some (this st))) as [Ho|Ho].
  - destruct (node_of_ptr p (wf_owned _ _ Hwf p e He Ho)) as (pre & a & post & Hns & <-).
    rewrite Hns in Hwf.
    destruct (RemoveElement_spec st pre a post Hwf) as (st' & ? & H & Hwf' & _ & _ & _ & Hc & _).
    by exists st', (pre ++ post).
  - exists st, ns. split_and!; [|done..].
    unfold RemoveElement. rewrite (deref_Some _ _ _ He). rsimpl.
    by rewrite decide_True.
Qed.

Lemma RemoveFront_spec :
  match ns with
  | [] => RemoveFront st = Ok (None, st)
  | a :: l => ∃ st', RemoveFront st = Ok (Some (aptr a), st') ∧ WF st' l
                     ∧ comparable (sl st') = comparable (sl st)
  end.
Proof.
  unfold RemoveFront. pose proof (wf_len _ _ Hwf) as Hlen.
  destruct (Z.eqb_spec (length_ (sl st)) 0) as [H0|H0].
  - assert (ns = []) as -> by (apply length_zero_iff_nil; lia). done.
  - destruct ns as [|a l] eqn:En; [done|]. rewrite <-En in *.
    assert (Front st = Ok (aptr <$> head ns)) as ->.
    { unfold Front. destruct (wf_fwd _ _ Hwf 0) as [Hh _].
      rewrite (index_Some _ _ _ (Hh ltac:(pose proof (wf_max _ _ Hwf); lia))).
      f_equal. apply nxt_0_head. apply Forall_forall. intros b Hb.
      by apply (wf_lvl _ _ Hwf). }
    rewrite En. cbn [head]. change (aptr <$> Some a) with (Some (aptr a)).
    rsimpl. rewrite En in Hwf.
    destruct (RemoveElement_spec st [] a l Hwf)
      as (st' & ? & -> & Hwf' & _ & _ & _ & Hc & _).
    rsimpl. by exists st'.
Qed.

Lemma RemoveBack_spec :
  match last ns with
  | None => RemoveBack st = Ok (None, st)
  | Some a => ∃ st' l, ns = l ++ [a] ∧ RemoveBack st = Ok (Some (aptr a), st')
                       ∧ WF st' l ∧ comparable (sl st') = comparable (sl st)
  end.
Proof.
  unfold RemoveBack. pose proof (wf_len _ _ Hwf) as Hlen.
  destruct (last ns) as [a|] eqn:El.
  - apply last_Some in El as [l Hns].
    destruct (Z.eqb_spec (length_ (sl st)) 0) as [H0|H0].
    { rewrite Hns, length_app in Hlen. simpl in Hlen. lia. }
    cbv zeta. rewrite (wf_back _ _ Hwf), Hns, last_snoc.
    change (aptr <$> Some a) with (Some (aptr a)).
    rewrite Hns in Hwf.
    destruct (RemoveElement_spec st l a [] Hwf)
      as (st' & ? & -> & Hwf' & _ & _ & _ & Hc & _).
    rsimpl. rewrite app_nil_r in Hwf'. by exists st', l.
  - apply last_None in El. rewrite El in Hlen. simpl in Hlen.
    by destruct (Z.eqb_spec (length_ (sl st)) 0).
Qed.

Section Keyed.

Hypothesis Hcmp : Comparator (comparable (sl st)).
Local Abbreviation cmp := (comparable (sl st)).

Lemma Find_spec k pre post :
  ns = pre ++ post → Forall (below st k) pre → Forall (notbelow st k) post →
  Find k st = Ok (aptr <$> head post).
Proof.
  intros Hns Hpre Hpost. unfold Find, FindNext.
  by apply (findNext_spec st ns Hcmp Hwf k pre post None).
Qed.

Lemma FindNext_spec k pre post a :
  ns = pre ++ post → Forall (below st k) pre → Forall (notbelow st k) post →
  a ∈ ns →
  FindNext (Some (aptr a)) k st
  = Ok (if decide (cmp k (akey a) ≤ 0)%Z then Some (aptr a) else aptr <$> head post).
Proof.
  intros Hns Hpre Hpost Ha. unfold FindNext.
  apply (findNext_spec st ns Hcmp Hwf k pre post (Some a)); try done.
  by intros ? [= <-].
Qed.

Lemma Get_spec k pre post :
  ns = pre ++ post → Forall (below st k) pre → Forall (notbelow st k) post →
  Get k st = Ok (match post with
                 | d :: _ => if decide (cmp k (akey d) = 0%Z) then Some (aptr d)
                             else None
                 | [] => None
                 end).
Proof.
  intros Hns Hpre Hpost. unfold Get.
  assert (findNext None k st = Ok (aptr <$> head post)) as ->.
  { by apply (findNext_spec st ns Hcmp Hwf k pre post None). }
  rsimpl. destruct post as [|d post']; [done|]. cbn [head].
  change (aptr <$> Some d) with (Some (aptr d)). cbv iota.
  rewrite (compare_node st ns d k (wf_base _ _ Hwf)).
  2:{ rewrite Hns. apply elem_of_app. right. by left. }
  rsimpl. destruct (Z.eqb_spec (cmp k (akey d)) 0).
  - by rewrite decide_True.
  - by rewrite decide_False.
Qed.

(** The nodes that compare equal to [k]: at most the first node that is
    not below [k]. *)
Lemma eq_key_head k pre post d :
  ns = pre ++ post → Forall (below st k) pre → Forall (notbelow st k) post →
  d ∈ ns → cmp k (akey d) = 0%Z → ∃ post', post = d :: post'.
Proof.
  intros Hns Hpre Hpost Hd Hk. rewrite Hns in Hd.
  apply elem_of_app in Hd as [Hd|Hd].
  - rewrite Forall_forall in Hpre. specialize (Hpre d Hd). unfold below in Hpre. lia.
  - assert (StronglySorted (key_lt st) post) as Hs.
    { pose proof (wf_sorted _ _ Hwf) as Hs. rewrite Hns in Hs.
      by apply StronglySorted_app in Hs as (_ & _ & ?). }
    by apply (eq_is_head st k Hcmp post d Hs Hpost Hd Hk).
Qed.

Lemma Get_hit k d : d ∈ ns → cmp k (akey d) = 0%Z → Get k st = Ok (Some (aptr d)).
Proof.
  intros Hd Hk. destruct (key_split st ns Hcmp Hwf k) as (pre & post & Hns & Hpre & Hpost).
  destruct (eq_key_head k pre post d Hns Hpre Hpost Hd Hk) as [post' ->].
  rewrite (Get_spec k pre (d :: post')) by done. by rewrite decide_True.
Qed.

Lemma Get_miss k : (∀ a, a ∈ ns → cmp k (akey a) ≠ 0%Z) → Get k st = Ok None.
Proof.
  intros Hno. destruct (key_split st ns Hcmp Hwf k) as (pre & post & Hns & Hpre & Hpost).
  rewrite (Get_spec k pre post) by done. destruct post as [|d post']; [done|].
  rewrite decide_False; [done|]. apply Hno. rewrite Hns. apply elem_of_app. right. by left.
Qed.

Lemma Remove_hit k d :
  d ∈ ns → cmp k (akey d) = 0%Z →
  ∃ st' pre post, ns = pre ++ d :: post ∧ Remove k st = Ok (Some (aptr d), st')
                  ∧ WF st' (pre ++ post)
                  ∧ comparable (sl st') = comparable (sl st).
Proof.
  intros Hd Hk. unfold Remove. rewrite (Get_hit k d Hd Hk). rsimpl.
  destruct (list_elem_of_split _ _ Hd) as (pre & post & Hns).
  pose proof Hwf as Hwf'. rewrite Hns in Hwf'.
  destruct (RemoveElement_spec st pre d post Hwf')
    as (st' & ? & -> & Hwf2 & _ & _ & _ & Hc & _).
  rsimpl. by exists st', pre, post.
Qed.

Lemma Remove_miss k :
  (∀ a, a ∈ ns → cmp k (akey a) ≠ 0%Z) → Remove k st = Ok (None, st).
Proof. intros Hno. unfold Remove. by rewrite (Get_miss k Hno). Qed.

End Keyed.

End View.

Section Runs.

Context {K V : Type}.
Implicit Types (st : @state K V) (ns : list (@anode K)).

Lemma fresh_WF (cmp : K → K → Z) rnd (h : list (@Element K V)) id :
  foreign id h → WF (fresh cmp rnd h id) [].
Proof.
  intros Hf. destruct (fresh_sizes cmp rnd h id Hf) as (Hm & Hp & Ho).
  split; try done.
  - constructor.
  - constructor.
  - intros a Ha. by apply elem_of_nil in Ha.
  - intros a Ha. by apply elem_of_nil in Ha.
  - intros i. split.
    + intros Hi. unfold hlen in Hi.
      cbn [fresh sl New lhdr levels nxt] in Hi |- *.
      rewrite length_replicate in Hi. by apply lookup_replicate_2.
    + intros pre a post e Hns. by destruct pre.
  - intros pre a post e Hns. by destruct pre.
  - intros pre a post e Hns. by destruct pre.
  - intros p e He Hl. exfalso. unfold foreign in Hf. rewrite Forall_forall in Hf.
    apply (Hf e); [|done]. by eapply list_elem_of_lookup_2.
Qed.

(** Every inserting or removing operation answers on a well-formed list,
    and leaves a well-formed list under the same comparator. *)
Lemma exec_WF (o : @op K V) st ns :
  Comparator (comparable (sl st)) → WF st ns → plain o = true →
  (∀ p, o = ORemoveElement (Some p) → p < length (heap st)) →
  ∃ st' ns', exec o st = Ok st' ∧ WF st' ns'
             ∧ comparable (sl st') = comparable (sl st).
Proof.
  intros Hcmp Hwf Hplain Hp. destruct o as [k v|k| | |elem|level]; [..|done]; simpl.
  - destruct (Set_spec st ns k v Hcmp Hwf) as (p & st' & ns' & HS & Hwf' & _).
    rewrite HS. rsimpl. exists st', ns'. split_and!; [done..|].
    destruct (Set_grows st k v p st') as [(_&_&_&_&Hc&_) _]; [..|done|done].
    + apply (wf_max _ _ Hwf).
    + apply (wf_prob _ _ Hwf).
  - destruct (key_split st ns Hcmp Hwf k) as (pre & post & Hns & Hpre & Hpost).
    assert ((∃ d, d ∈ ns ∧ comparable (sl st) k (akey d) = 0%Z)
            ∨ (∀ a, a ∈ ns → comparable (sl st) k (akey a) ≠ 0%Z)) as [(d & Hd & Hk)|Hno].
    { destruct post as [|d post'].
      - right. intros a Ha. rewrite Hns, app_nil_r in Ha.
        rewrite Forall_forall in Hpre. specialize (Hpre a Ha). unfold below in Hpre. lia.
      - destruct (Z.eq_dec (comparable (sl st) k (akey d)) 0%Z) as [Hk|Hk].
        + left. exists d. split; [|done]. rewrite Hns. apply elem_of_app. right. by left.
        + right. intros a Ha Hka.
          destruct (eq_key_head st ns Hwf Hcmp k pre (d :: post') a Hns Hpre Hpost Ha Hka)
            as [? [= -> _]]. done. }
    + destruct (Remove_hit st ns Hwf Hcmp k d Hd Hk) as (st' & pre' & post' & _ & -> & ? & ?).
      rsimpl. by exists st', (pre' ++ post').
    + rewrite (Remove_miss st ns Hwf Hcmp k Hno). rsimpl. by exists st, ns.
  - pose proof (RemoveFront_spec st ns Hwf) as H. destruct ns as [|a l].
    + rewrite H. rsimpl. by exists st, [].
    + destruct H as (st' & -> & ? & ?). rsimpl. by exists st', l.
  - pose proof (RemoveBack_spec st ns Hwf) as H. destruct (last ns) as [a|].
    + destruct H as (st' & l & _ & -> & ? & ?). rsimpl. by exists st', l.
    + rewrite H. rsimpl. by exists st, ns.
  - apply (RemoveElement_WF st ns Hwf). intros p ->. by apply Hp.
Qed.

Lemma exec_WF_Ok (o : @op K V) st ns st' :
  Comparator (comparable (sl st)) → WF st ns → plain o = true →
  exec o st = Ok st' →
  ∃ ns', WF st' ns' ∧ comparable (sl st') = comparable (sl st).
Proof.
  intros Hcmp Hwf Hplain H.
  destruct (exec_WF o st ns Hcmp Hwf Hplain) as (st2 & ns' & H2 & Hwf' & Hc).
  - intros p ->. simpl in H. unfold RemoveElement in H.
    apply bind_Ok in H as (e & He & _). unfold deref in He.
    destruct (heap st !! p) eqn:E; [|done]. by eapply lookup_lt_Some.
  - rewrite H in H2. injection H2 as <-. by exists ns'.
Qed.

Lemma run_WF (os : list (@op K V)) : ∀ st ns st',
  Comparator (comparable (sl st)) → WF st ns → forallb plain os = true →
  run os st = Ok st' →
  ∃ ns', WF st' ns' ∧ comparable (sl st') = comparable (sl st).
Proof.
  induction os as [|o os IH]; intros st ns st' Hcmp Hwf Hpl H; simpl in H.
  - injection H as <-. by exists ns.
  - simpl in Hpl. apply andb_true_iff in Hpl as [Hpo Hpl].
    apply bind_Ok in H as (s & Ho & H).
    destruct (exec_WF_Ok o st ns s Hcmp Hwf Hpo Ho) as (ns1 & Hwf1 & Hc1).
    destruct (IH s ns1 st') as (ns' & Hwf' & Hc'); [by rewrite Hc1|done..|].
    exists ns'. split; [done|]. by rewrite Hc', Hc1.
Qed.

End Runs.

(** * The list as its callers see it *)

Section Reach.

Context {K V : Type}.
Implicit Types (st : @state K V) (ns : list (@anode K)) (e : @Element K V).

(** The states that insertions and removals reach from a new list are
    well-formed. *)
Lemma reach_WF (cmp : K → K → Z) rnd (h : list (@Element K V)) id os st :
  Comparator cmp → foreign id h → forallb plain os = true →
  run os (fresh cmp rnd h id) = Ok st →
  ∃ ns, WF st ns ∧ comparable (sl st) = cmp.
Proof.
  intros Hcmp Hf Hpl Hrun.
  destruct (run_WF os (fresh cmp rnd h id) [] st) as (ns & Hwf & Hc); try done.
  - by apply fresh_WF.
  - by exists ns.
Qed.

Lemma chain_split st ns l1 p l2 :
  WF st ns → chain st = l1 ++ p :: l2 →
  ∃ pre a post, ns = pre ++ a :: post ∧ aptr <$> pre = l1 ∧ aptr a = p
                ∧ aptr <$> post = l2.
Proof.
  intros Hwf Hc. rewrite (chain_spec st ns Hwf) in Hc.
  apply fmap_app_inv in Hc as (pre & rest & -> & Hrest & ->).
  symmetry in Hrest. apply fmap_cons_inv in Hrest as (a & post & -> & -> & ->).
  by exists pre, a, post.
Qed.

Lemma chain_elem st ns p :
  WF st ns → p ∈ chain st → ∃ a, a ∈ ns ∧ aptr a = p.
Proof.
  intros Hwf Hp. rewrite (chain_spec st ns Hwf) in Hp.
  apply list_elem_of_fmap in Hp as (a & -> & Ha). by exists a.
Qed.

Lemma elem_chain st ns a : WF st ns → a ∈ ns → aptr a ∈ chain st.
Proof.
  intros Hwf Ha. rewrite (chain_spec st ns Hwf). by apply list_elem_of_fmap_2.
Qed.

Lemma node_lookup st ns a e :
  WF st ns → a ∈ ns → heap st !! aptr a = Some e →
  key e = akey a ∧ Level e = alvl a ∧ list_ e = Some (this st).
Proof.
  intros Hwf Ha He. destruct (wf_base _ _ Hwf a Ha) as (e0 & He0 & ? & ? & ?).
  by assert (e0 = e) as -> by congruence.
Qed.

Lemma node_lt_sorted st ns :
  WF st ns → StronglySorted (node_lt st) (chain st).
Proof.
  intros Hwf. rewrite (chain_spec st ns Hwf).
  pose proof (wf_sorted _ _ Hwf) as Hs.
  assert (∀ a, a ∈ ns → a ∈ ns) as Hin by done. revert Hs Hin.
  generalize ns at 1 2 4. intros l. induction l as [|a l IH]; intros Hs Hin.
  - constructor.
  - apply StronglySorted_inv in Hs as [Hs Ha]. rewrite fmap_cons. constructor.
    + apply IH; [done|]. intros b Hb. apply Hin. by right.
    + rewrite Forall_fmap. apply Forall_forall. intros b Hb. simpl.
      rewrite Forall_forall in Ha. specialize (Ha b Hb).
      destruct (wf_base _ _ Hwf a) as (ea & Hea & _ & Hka & _); [apply Hin; by left|].
      destruct (wf_base _ _ Hwf b) as (eb & Heb & _ & Hkb & _); [apply Hin; by right|].
      exists ea, eb. split_and!; [done..|]. by rewrite Hka, Hkb.
Qed.

End Reach.

Section Present.

Context {K V : Type}.
Implicit Types (e : @Element K V) (a b c d : @anode K).
Variables (st : @state K V) (ns : list (@anode K)).
Hypothesis Hwf : WF st ns.
Hypothesis Hcmp : Comparator (comparable (sl st)).
Local Abbreviation cmp := (comparable (sl st)).

(** A key is in the list or it is not. *)
Lemma key_found k :
  (∃ d, d ∈ ns ∧ cmp k (akey d) = 0%Z) ∨ (∀ a, a ∈ ns → cmp k (akey a) ≠ 0%Z).
Proof.
  destruct (key_split st ns Hcmp Hwf k) as (pre & post & Hns & Hpre & Hpost).
  destruct post as [|d post'].
  - right. intros a Ha. rewrite Hns, app_nil_r in Ha.
    rewrite Forall_forall in Hpre. specialize (Hpre a Ha). unfold below in Hpre. lia.
  - destruct (Z.eq_dec (cmp k (akey d)) 0%Z) as [Hk|Hk].
    + left. exists d. split; [|done]. rewrite Hns. apply elem_of_app. right. by left.
    + right. intros a Ha Hka.
      destruct (eq_key_head st ns Hwf Hcmp k pre (d :: post') a Hns Hpre Hpost Ha Hka)
        as [? [= -> _]]. done.
Qed.

Lemma key_eq_node k p :
  p ∈ chain st → key_eq st k p → ∃ d, d ∈ ns ∧ aptr d = p ∧ cmp k (akey d) = 0%Z.
Proof.
  intros Hp (e & He & Hk). destruct (chain_elem st ns p Hwf Hp) as (d & Hd & <-).
  destruct (node_lookup st ns d e Hwf Hd He) as (Hkd & _).
  exists d. split_and!; [done..|]. by rewrite <-Hkd.
Qed.

Lemma no_key_eq k :
  (∀ q, q ∈ chain st → ¬ key_eq st k q) → ∀ a, a ∈ ns → cmp k (akey a) ≠ 0%Z.
Proof.
  intros Hno a Ha Hk. apply (Hno (aptr a)); [by eapply elem_chain|].
  destruct (wf_base _ _ Hwf a Ha) as (e & He & _ & Hke & _).
  exists e. split; [done|]. by rewrite Hke.
Qed.

Lemma with_value_eq p e (v : V) :
  heap st !! p = Some e →
  with_value st p v = set_heap st (<[p := set_Value v e]> (heap st)).
Proof. intros He. unfold with_value. by rewrite He. Qed.

(** [Set] on a key that the list holds: the value of its element is
    replaced and nothing else changes. *)
Lemma Set_present k (v : V) d e :
  d ∈ ns → heap st !! aptr d = Some e → cmp k (akey d) = 0%Z →
  Set' k v st = Ok (aptr d, with_value st (aptr d) v)
  ∧ WF (with_value st (aptr d) v) ns
  ∧ heap (with_value st (aptr d) v) = <[aptr d := set_Value v e]> (heap st)
  ∧ sl (with_value st (aptr d) v) = sl st
  ∧ chain (with_value st (aptr d) v) = chain st
  ∧ Len (with_value st (aptr d) v) = Len st
  ∧ Get k (with_value st (aptr d) v) = Ok (Some (aptr d))
  ∧ MustGetValue k (with_value st (aptr d) v) = Ok v.
Proof.
  intros Hd He Hk. rewrite (with_value_eq _ e v He).
  destruct (key_split st ns Hcmp Hwf k) as (pre & post & Hns & Hpre & Hpost).
  destruct (eq_key_head st ns Hwf Hcmp k pre post d Hns Hpre Hpost Hd Hk) as [post' ->].
  destruct (Set_hit st ns pre d post' k v Hcmp Hwf Hns Hpre Hpost Hk) as (e0 & He0 & HS).
  assert (e0 = e) as -> by congruence.
  pose proof (WF_set_Value st ns (aptr d) e v Hwf He) as Hwf'.
  set (st' := set_heap st _) in *.
  assert (Get k st' = Ok (Some (aptr d))) as HG.
  { by apply (Get_hit st' ns Hwf' Hcmp). }
  split_and!; try done.
  - by rewrite (chain_spec st' ns Hwf'), (chain_spec st ns Hwf).
  - unfold MustGetValue. rewrite HG. rsimpl. unfold deref, st'.
    rewrite (lookup_update st (aptr d) (set_Value v) e _ He).
    by rewrite decide_True.
Qed.

(** What [Set] returns is an element of the list that holds the key. *)
Lemma Set_result k (v : V) p st' :
  Set' k v st = Ok (p, st') →
  ∃ ns' d e, WF st' ns' ∧ comparable (sl st') = comparable (sl st)
             ∧ d ∈ ns' ∧ aptr d = p ∧ heap st' !! p = Some e
             ∧ cmp k (akey d) = 0%Z.
Proof.
  intros HS. destruct (Set_spec st ns k v Hcmp Hwf)
    as (p0 & st0 & ns' & HS0 & Hwf' & (e & He & _ & Hke) & Hcase).
  rewrite HS in HS0. injection HS0 as <- <-.
  assert (comparable (sl st') = comparable (sl st)) as Hc.
  { destruct (Set_grows st k v p st') as [(_&_&_&_&Hc&_) _]; [..|done|done].
    - apply (wf_max _ _ Hwf).
    - apply (wf_prob _ _ Hwf). }
  assert (∃ d, d ∈ ns' ∧ aptr d = p) as (d & Hd & Hdp).
  { destruct Hcase as [(d & ? & Hd & _ & -> & -> & _)|(_ & -> & pre & post & lv & _ & -> & _)].
    - by exists d.
    - eexists. split; [apply elem_of_app; right; by left|done]. }
  exists ns', d, e. split_and!; try done.
  rewrite <-Hdp in He. destruct (node_lookup st' ns' d e Hwf' Hd He) as (<- & _). done.
Qed.

End Present.

Section Ceiling.

Context {K V : Type}.
Implicit Types (e : @Element K V) (a b c d : @anode K).
Variables (st : @state K V) (ns : list (@anode K)).
Hypothesis Hwf : WF st ns.
Hypothesis Hcmp : Comparator (comparable (sl st)).
Local Abbreviation cmp := (comparable (sl st)).

Lemma key_le_node k a : a ∈ ns → key_le st k (aptr a) ↔ (cmp k (akey a) ≤ 0)%Z.
Proof.
  intros Ha. destruct (wf_base _ _ Hwf a Ha) as (e & He & _ & Hk & _). split.
  - intros (e0 & He0 & Hle). assert (e0 = e) as -> by congruence. by rewrite <-Hk.
  - intros Hle. exists e. split; [done|]. by rewrite Hk.
Qed.

Lemma key_gt_node k a : a ∈ ns → key_gt st k (aptr a) ↔ (0 < cmp k (akey a))%Z.
Proof.
  intros Ha. destruct (wf_base _ _ Hwf a Ha) as (e & He & _ & Hk & _). split.
  - intros (e0 & He0 & Hle). assert (e0 = e) as -> by congruence. by rewrite <-Hk.
  - intros Hle. exists e. split; [done|]. by rewrite Hk.
Qed.

Lemma node_lt_node a b : a ∈ ns → b ∈ ns → key_lt st a b → node_lt st (aptr a) (aptr b).
Proof.
  intros Ha Hb Hlt.
  destruct (wf_base _ _ Hwf a Ha) as (ea & Hea & _ & Hka & _).
  destruct (wf_base _ _ Hwf b Hb) as (eb & Heb & _ & Hkb & _).
  exists ea, eb. split_and!; [done..|]. by rewrite Hka, Hkb.
Qed.

(** The first node that is not below [k] is the ceiling of [k] in every
    stretch of the list that holds all the nodes not below [k]. *)
Lemma ceiling_head k pre post (l : list (@anode K)) :
  ns = pre ++ post → Forall (below st k) pre → Forall (notbelow st k) post →
  (∀ b, b ∈ l → b ∈ ns) → (∀ b, b ∈ post → b ∈ l) →
  ceiling st k (aptr <$> l) (aptr <$> head post).
Proof.
  intros Hns Hpre Hpost Hl Hpl.
  assert (∀ b, b ∈ pre → b ∈ ns) as Hpn by (intros; rewrite Hns; apply elem_of_app; by left).
  assert (∀ b, b ∈ post → b ∈ ns) as Hqn by (intros; rewrite Hns; apply elem_of_app; by right).
  rewrite Forall_forall in Hpre. rewrite Forall_forall in Hpost.
  destruct post as [|d post']; simpl.
  - intros q (b & -> & Hb)%list_elem_of_fmap. apply key_gt_node; [by apply Hl|].
    specialize (Hl b Hb). rewrite Hns, app_nil_r in Hl. by apply Hpre.
  - assert (d ∈ d :: post') as Hd by (by left). split_and!.
    + apply list_elem_of_fmap_2, Hpl, Hd.
    + apply key_le_node; [by apply Hqn|]. by apply Hpost.
    + intros q (b & -> & Hb)%list_elem_of_fmap Hle.
      apply key_le_node in Hle; [|by apply Hl].
      pose proof (Hl b Hb) as Hbn. rewrite Hns in Hbn.
      apply elem_of_app in Hbn as [Hbp|Hbq].
      { specialize (Hpre b Hbp). unfold below in Hpre. lia. }
      apply elem_of_cons in Hbq as [->|Hbq]; [by left|right].
      apply node_lt_node; [by apply Hqn|apply Hqn; by right|].
      pose proof (wf_sorted _ _ Hwf) as Hs. rewrite Hns in Hs.
      apply StronglySorted_app in Hs as (_ & _ & Hs).
      apply StronglySorted_inv in Hs as [_ Hs]. rewrite Forall_forall in Hs.
      by apply Hs.
Qed.

(** [Find] answers the ceiling of the key. *)
Lemma Find_ceiling k : ∃ r, Find k st = Ok r ∧ ceiling st k (chain st) r.
Proof.
  destruct (key_split st ns Hcmp Hwf k) as (pre & post & Hns & Hpre & Hpost).
  exists (aptr <$> head post). split; [by eapply Find_spec|].
  rewrite (chain_spec st ns Hwf). apply (ceiling_head k pre post ns); try done.
  intros b Hb. rewrite Hns. apply elem_of_app. by right.
Qed.

(** [FindNext] answers the start when its key is not below the key asked
    for, and else the ceiling among the nodes from the start on. *)
Lemma FindNext_ceiling k l0 a l :
  ns = l0 ++ a :: l →
  ∃ r, FindNext (Some (aptr a)) k st = Ok r
       ∧ ceiling st k (aptr <$> a :: l) r
       ∧ ((cmp k (akey a) ≤ 0)%Z → r = Some (aptr a))
       ∧ ((0 < cmp k (akey a))%Z → Find k st = Ok r).
Proof.
  intros Hsplit.
  destruct (key_split st ns Hcmp Hwf k) as (pre & post & Hns & Hpre & Hpost).
  assert (a ∈ ns) as Ha by (rewrite Hsplit; apply elem_of_app; right; by left).
  assert (∀ b, b ∈ a :: l → b ∈ ns) as Hln.
  { intros b Hb. rewrite Hsplit. apply elem_of_app. by right. }
  eexists. split; [by eapply FindNext_spec|].
  destruct (decide (cmp k (akey a) ≤ 0)%Z) as [Hle|Hgt].
  - split_and!; [|done|lia]. unfold ceiling. split_and!.
    + rewrite fmap_cons. by left.
    + by apply key_le_node.
    + intros q (b & -> & Hb)%list_elem_of_fmap _.
      apply elem_of_cons in Hb as [->|Hb]; [by left|right].
      apply node_lt_node; [done|apply Hln; by right|].
      pose proof (wf_sorted _ _ Hwf) as Hs. rewrite Hsplit in Hs.
      apply StronglySorted_app in Hs as (_ & _ & Hs).
      apply StronglySorted_inv in Hs as [_ Hs]. rewrite Forall_forall in Hs.
      by apply Hs.
  - split_and!; [|lia|intros _; by eapply Find_spec].
    apply (ceiling_head k pre post (a :: l)); try done.
    intros b Hb. rewrite Hns in Hsplit.
    destruct (app_eq_cases _ _ _ _ _ Hsplit) as [(m & -> & ->)|(m & -> & ->)].
    + right. apply elem_of_app. by right.
    + exfalso. rewrite Forall_forall in Hpost.
      specialize (Hpost a ltac:(apply elem_of_app; right; by left)).
      unfold notbelow in Hpost. lia.
Qed.

(** [Get] answers the node that holds the key, or nothing. *)
Lemma Get_result k :
  ∃ r, Get k st = Ok r
       ∧ match r with
         | Some p => p ∈ chain st ∧ key_eq st k p
         | None => ∀ q, q ∈ chain st → ¬ key_eq st k q
         end.
Proof.
  destruct (key_found st ns Hwf Hcmp k) as [(d & Hd & Hk)|Hno].
  - exists (Some (aptr d)). split; [by apply (Get_hit st ns Hwf Hcmp)|].
    split; [by eapply elem_chain|].
    destruct (wf_base _ _ Hwf d Hd) as (e & He & _ & Hke & _).
    exists e. split; [done|]. by rewrite Hke.
  - exists None. split; [by apply (Get_miss st ns Hwf Hcmp)|].
    intros q Hq Heq. destruct (key_eq_node st ns Hwf k q Hq Heq) as (d & Hd & _ & Hk).
    by apply (Hno d).
Qed.

End Ceiling.

Section Resize.

Context {K V : Type}.
Implicit Types (st : @state K V) (e : @Element K V).

Lemma dead_noop st elem : dead st elem → RemoveElement elem st = Ok st.
Proof.
  destruct elem as [p|]; [|done]. intros (e & He & Hl).
  unfold RemoveElement. rewrite (deref_Some _ _ _ He). rsimpl.
  by rewrite decide_True.
Qed.

Lemma RemoveElement_dead st elem st' :
  RemoveElement elem st = Ok st' → dead st' elem.
Proof.
  destruct elem as [x|]; [|done]. unfold RemoveElement. intros H.
  apply bind_Ok in H as (e & He & H).
  destruct (decide (list_ e ≠ Some (this st))) as [Hd|Hd].
  { injection H as <-. exists e. split; [|done]. unfold deref in He.
    by destruct (heap st !! x); simplify_eq. }
  cbv zeta in H. apply bind_Ok in H as ([max pe] & _ & H).
  apply bind_Ok in H as (st1 & _ & H). apply bind_Ok in H as (st2 & _ & H).
  apply bind_Ok in H as (e2 & _ & H). apply bind_Ok in H as (st3 & _ & H).
  apply bind_Ok in H as (st4 & _ & H). apply bind_Ok in H as (e4 & _ & H).
  match type of H with update ?s _ _ = _ => set (stl := s) in * end.
  unfold update in H. apply bind_Ok in H as (el & Hel & H). injection H as <-.
  assert (heap stl !! x = Some el) as Hx.
  { unfold deref in Hel. by destruct (heap stl !! x); simplify_eq. }
  exists (reset el). split; [|done].
  rewrite (lookup_update stl x reset el _ Hx). by rewrite decide_True.
Qed.

(** The shrinking branch of [SetMaxLevel]: the header is cut to the length
    that the scan answers. *)
Lemma SetMaxLevel_shrink st level :
  (0 < level)%Z → Z.to_nat level < hlen st →
  ∃ r st', SetMaxLevel_scan (levels (lhdr (sl st))) (Z.to_nat level) (hlen st) = Ok r
           ∧ SetMaxLevel level st = Ok (Z.of_nat (hlen st), st')
           ∧ levels (lhdr (sl st')) = take r (levels (lhdr (sl st)))
           ∧ hlen st' = r ∧ r < hlen st ∧ heap st' = heap st
           ∧ maxLevel (sl st') = Z.to_nat level.
Proof.
  intros Hpos Hlt. unfold SetMaxLevel.
  destruct (Z.leb_spec level 0) as [|_]; [lia|]. cbv zeta.
  cbn [sl set_sl lhdr set_levelling]. fold (hlen st).
  destruct (Nat.eqb_spec (Z.to_nat level) (hlen st)) as [|_]; [lia|].
  destruct (Nat.ltb_spec (Z.to_nat level) (hlen st)) as [_|]; [|lia].
  destruct (SetMaxLevel_scan_spec (levels (lhdr (sl st))) (Z.to_nat level) (hlen st))
    as (r & Hscan & Hr); [done|]. rewrite Hscan. rsimpl.
  assert (r < hlen st) as Hrn by (destruct Hr as [[-> _]|[? _]]; lia).
  unfold reslice. rewrite decide_True.
  2:{ rewrite length_app. unfold hlen in Hrn. lia. }
  rsimpl. eexists r, _. split_and!; [done|done|..]; unfold hlen in *; cbn.
  - rewrite take_app_le by lia. done.
  - rewrite length_take, length_app. lia.
  - done.
  - done.
  - done.
Qed.

(** The growing branch of [SetMaxLevel] within the capacity of the header:
    the slots that come into view are those of the spare capacity, with
    what they hold. *)
Lemma SetMaxLevel_regrow st level :
  hlen st < Z.to_nat level →
  Z.to_nat level ≤ length (levels (lhdr (sl st)) ++ spare (lhdr (sl st))) →
  ∃ st', SetMaxLevel level st = Ok (Z.of_nat (hlen st), st')
         ∧ levels (lhdr (sl st'))
           = levels (lhdr (sl st))
             ++ take (Z.to_nat level - hlen st) (spare (lhdr (sl st)))
         ∧ heap st' = heap st.
Proof.
  intros Hlt Hcap. unfold SetMaxLevel.
  destruct (Z.leb_spec level 0) as [|_]; [lia|]. cbv zeta.
  cbn [sl set_sl lhdr set_levelling]. fold (hlen st).
  destruct (Nat.eqb_spec (Z.to_nat level) (hlen st)) as [|_]; [lia|].
  destruct (Nat.ltb_spec (Z.to_nat level) (hlen st)) as [|_]; [lia|].
  destruct (Nat.leb_spec (Z.to_nat level)
              (length (levels (lhdr (sl st)) ++ spare (lhdr (sl st))))) as [_|]; [|lia].
  unfold reslice. rewrite decide_True by done. rsimpl.
  eexists. split_and!; [done| |done]. cbn.
  rewrite take_app_ge by (unfold hlen in Hlt; lia). done.
Qed.

Lemma key_eq_lookup st (k : K) q :
  key_eq st k q
  ↔ (λ e, comparable (sl st) k (key e)) <$> heap st !! q = Some 0%Z.
Proof.
  unfold key_eq. destruct (heap st !! q) as [e|]; simpl.
  - split; [intros (e0 & [= <-] & ->); done|]. intros [= H]. by exists e.
  - split; [by intros (? & ? & _)|done].
Qed.

End Resize.

Section Ghost.

Context {K V : Type}.
Implicit Types (st : @state K V) (ns pre post l : list (@anode K)) (a b c d : @anode K).

Lemma filter_keys_all (P : K → Prop) `{∀ x, Decision (P x)} l :
  Forall (λ a, P (akey a)) l → filter P (akey <$> l) = akey <$> l.
Proof.
  induction l as [|a l IH]; [done|]. intros [Ha Hl]%Forall_cons.
  rewrite fmap_cons, filter_cons, decide_True by done. f_equal. by apply IH.
Qed.

Lemma filter_keys_none (P : K → Prop) `{∀ x, Decision (P x)} l :
  Forall (λ a, ¬ P (akey a)) l → filter P (akey <$> l) = [].
Proof.
  induction l as [|a l IH]; [done|]. intros [Ha Hl]%Forall_cons.
  rewrite fmap_cons, filter_cons, decide_False by done. by apply IH.
Qed.

Lemma existsb_keys (f : K → bool) l :
  existsb f (akey <$> l) = true ↔ ∃ a, a ∈ l ∧ f (akey a) = true.
Proof.
  induction l as [|a l IH]; simpl.
  - split; [done|]. intros (a & Ha & _). by apply elem_of_nil in Ha.
  - rewrite orb_true_iff, IH. split.
    + intros [Ha|(b & Hb & Hf)]; [exists a; split; [by left|done]|].
      exists b. split; [by right|done].
    + intros (b & Hb & Hf). apply elem_of_cons in Hb as [->|Hb]; [by left|].
      right. by exists b.
Qed.

(** The keys of a well-formed list are those of its nodes. *)
Lemma keys_spec st ns : WF st ns → keys st = akey <$> ns.
Proof.
  intros Hwf. unfold keys. rewrite (chain_spec st ns Hwf).
  assert (∀ a, a ∈ ns → a ∈ ns) as Hin by done. revert Hin.
  generalize ns at 1 3 4. intros l. induction l as [|a l IH]; intros Hin; [done|].
  rewrite !fmap_cons. cbn [omap list_omap].
  destruct (wf_base _ _ Hwf a) as (e & He & _ & Hk & _); [apply Hin; by left|].
  rewrite He. simpl. rewrite Hk. f_equal. apply IH. intros b Hb. apply Hin. by right.
Qed.

Section Step.

Variables (st : @state K V) (ns : list (@anode K)).
Hypothesis Hwf : WF st ns.
Hypothesis Hcmp : Comparator (comparable (sl st)).
Local Abbreviation cmp := (comparable (sl st)).

(** No two nodes hold equal keys. *)
Lemma eq_key_unique k a d :
  a ∈ ns → d ∈ ns → cmp k (akey a) = 0%Z → cmp k (akey d) = 0%Z → a = d.
Proof.
  intros Ha Hd Hka Hkd.
  destruct (key_split st ns Hcmp Hwf k) as (pre & post & Hns & Hpre & Hpost).
  destruct (eq_key_head st ns Hwf Hcmp k pre post a Hns Hpre Hpost Ha Hka) as [pa Epa].
  destruct (eq_key_head st ns Hwf Hcmp k pre post d Hns Hpre Hpost Hd Hkd) as [pd Epd].
  rewrite Epa in Epd. by injection Epd as -> _.
Qed.

Lemma not_in_rest pre d post a :
  ns = pre ++ d :: post → a ∈ pre ++ post → a ≠ d.
Proof.
  intros Hns Ha ->. pose proof (wf_nodup _ _ Hwf) as Hnd. rewrite Hns in Hnd.
  rewrite fmap_app, fmap_cons in Hnd. apply NoDup_app in Hnd as (_ & Hnd1 & Hnd2).
  apply NoDup_cons in Hnd2 as [Hnd2 _]. apply elem_of_app in Ha as [Ha|Ha].
  - apply (Hnd1 (aptr d)); [by apply list_elem_of_fmap_2|by left].
  - apply Hnd2. by apply list_elem_of_fmap_2.
Qed.

Lemma spec_insert_present k d :
  d ∈ ns → cmp k (akey d) = 0%Z → spec_insert cmp k (akey <$> ns) = akey <$> ns.
Proof.
  intros Hd Hk. unfold spec_insert.
  assert (existsb (λ k', (cmp k k' =? 0)%Z) (akey <$> ns) = true) as ->; [|done].
  apply existsb_keys. exists d. split; [done|]. by apply Z.eqb_eq.
Qed.

Lemma spec_insert_absent k pre post p lv :
  ns = pre ++ post → (∀ a, a ∈ ns → cmp k (akey a) ≠ 0%Z) →
  Forall (below st k) pre → Forall (λ a, (cmp k (akey a) < 0)%Z) post →
  spec_insert cmp k (akey <$> ns) = akey <$> (pre ++ mkA p lv k :: post).
Proof.
  intros Hns Hno Hpre Hpost. unfold spec_insert.
  assert (existsb (λ k', (cmp k k' =? 0)%Z) (akey <$> ns) = false) as ->.
  { apply not_true_is_false. intros (a & Ha & Hf)%existsb_keys.
    apply Z.eqb_eq in Hf. by apply (Hno a). }
  rewrite Hns, !fmap_app, fmap_cons, !filter_app. simpl.
  rewrite (filter_keys_all (λ k', (0 < cmp k k')%Z) pre) by done.
  rewrite (filter_keys_none (λ k', (0 < cmp k k')%Z) post).
  2:{ eapply Forall_impl; [done|]. simpl. lia. }
  rewrite (filter_keys_none (λ k', (cmp k k' < 0)%Z) pre).
  2:{ eapply Forall_impl; [done|]. unfold below. simpl. lia. }
  rewrite (filter_keys_all (λ k', (cmp k k' < 0)%Z) post) by done.
  by rewrite app_nil_r.
Qed.

Lemma spec_delete_present k pre d post :
  ns = pre ++ d :: post → cmp k (akey d) = 0%Z →
  spec_delete cmp k (akey <$> ns) = akey <$> (pre ++ post).
Proof.
  intros Hns Hk. unfold spec_delete.
  assert (d ∈ ns) as Hd by (rewrite Hns; apply elem_of_app; right; by left).
  assert (Forall (λ a, cmp k (akey a) ≠ 0%Z) (pre ++ post)) as Hall.
  { apply Forall_forall. intros a Ha Hka.
    apply (not_in_rest pre d post a Hns Ha).
    apply (eq_key_unique k a d); try done.
    rewrite Hns. apply elem_of_app in Ha as [|]; apply elem_of_app; [by left|right; by right]. }
  apply Forall_app in Hall as [Hp Hq].
  rewrite Hns, !fmap_app, fmap_cons, !filter_app, filter_cons.
  rewrite decide_False by (by intros ?).
  by rewrite (filter_keys_all _ pre), (filter_keys_all _ post).
Qed.

Lemma spec_delete_absent k :
  (∀ a, a ∈ ns → cmp k (akey a) ≠ 0%Z) → spec_delete cmp k (akey <$> ns) = akey <$> ns.
Proof. intros Hno. apply filter_keys_all. by apply Forall_forall. Qed.

(** What an inserting or removing operation that returns does to the keys
    of a well-formed list is what the specification says. *)
Lemma exec_keys (o : @op K V) st' :
  plain o = true → exec o st = Ok st' →
  ∃ ns', WF st' ns' ∧ comparable (sl st') = comparable (sl st)
         ∧ akey <$> ns' = spec_step cmp o st (akey <$> ns).
Proof.
  intros Hplain Hex. destruct o as [k v|k| | |elem|level]; [..|done]; simpl in Hex |- *.
  - apply fmap_Ok in Hex as ([p s] & HS & ->). simpl.
    destruct (Set_result st ns Hwf Hcmp k v p s HS) as (_ & _ & _ & _ & Hc & _).
    destruct (Set_spec st ns k v Hcmp Hwf) as (p0 & st0 & ns' & HS0 & Hwf' & _ & Hcase).
    rewrite HS in HS0. injection HS0 as <- <-.
    exists ns'. split_and!; [done..|].
    destruct Hcase as [(d & ? & Hd & Hk & _ & -> & _)
                      |(Hno & -> & pre & post & lv & Hns & -> & _ & Hpre & Hpost)].
    + symmetry. by eapply spec_insert_present.
    + symmetry. by apply spec_insert_absent.
  - apply fmap_Ok in Hex as ([r s] & HR & ->). simpl.
    destruct (key_found st ns Hwf Hcmp k) as [(d & Hd & Hk)|Hno].
    + destruct (Remove_hit st ns Hwf Hcmp k d Hd Hk) as (s' & pre & post & Hns & HR' & ? & ?).
      rewrite HR in HR'. injection HR' as _ <-.
      exists (pre ++ post). split_and!; [done..|]. symmetry.
      by eapply spec_delete_present.
    + rewrite (Remove_miss st ns Hwf Hcmp k Hno) in HR. injection HR as _ <-.
      exists ns. split_and!; [done..|]. symmetry. by apply spec_delete_absent.
  - apply fmap_Ok in Hex as ([r s] & HR & ->). simpl.
    pose proof (RemoveFront_spec st ns Hwf) as H. destruct ns as [|a l] eqn:En.
    + rewrite H in HR. injection HR as _ <-. exists []. by split_and!.
    + destruct H as (s' & HR' & ? & ?). rewrite HR in HR'. injection HR' as _ <-.
      by exists l.
  - apply fmap_Ok in Hex as ([r s] & HR & ->). simpl.
    pose proof (RemoveBack_spec st ns Hwf) as H. destruct (last ns) as [a|] eqn:El.
    + destruct H as (s' & l & Hns & HR' & ? & ?). rewrite HR in HR'. injection HR' as _ <-.
      exists l. split_and!; [done..|]. rewrite Hns, fmap_app, length_app. simpl.
      rewrite take_app_length'; [done|]. rewrite length_fmap. lia.
    + rewrite H in HR. injection HR as _ <-. apply last_None in El.
      exists ns. split_and!; [done..|]. by rewrite El.
  - destruct elem as [p|]; [|injection Hex as <-; by exists ns].
    assert (∃ e, heap st !! p = Some e) as [e He].
    { unfold RemoveElement in Hex. apply bind_Ok in Hex as (e & He & _).
      unfold deref in He. destruct (heap st !! p); [by eexists|done]. }
    rewrite He. destruct (decide (list_ e = Some (this st))) as [Ho|Ho].
    + destruct (node_of_ptr st ns Hwf p (wf_owned _ _ Hwf p e He Ho)) as (pre & xa & post & Hns & <-).
      pose proof Hwf as Hwf0. rewrite Hns in Hwf0.
      destruct (RemoveElement_spec st pre xa post Hwf0)
        as (s' & e0 & HR & Hwf' & He0 & _ & _ & Hc & _).
      rewrite Hex in HR. injection HR as <-.
      assert (xa ∈ ns) as Hx by (rewrite Hns; apply elem_of_app; right; by left).
      destruct (node_lookup st ns xa e Hwf Hx He) as (-> & _).
      exists (pre ++ post). split_and!; [done..|]. symmetry.
      apply (spec_delete_present (akey xa) pre xa post Hns). by apply (cmp_refl _ Hcmp).
    + rewrite (dead_noop st (Some p)) in Hex by (by exists e).
      injection Hex as <-. by exists ns.
Qed.

End Step.

Lemma run_keys (os : list (@op K V)) : ∀ st ns st',
  Comparator (comparable (sl st)) → WF st ns → forallb plain os = true →
  run os st = Ok st' →
  ∃ ns', WF st' ns' ∧ comparable (sl st') = comparable (sl st)
         ∧ akey <$> ns' = spec_keys (comparable (sl st)) os st (akey <$> ns).
Proof.
  induction os as [|o os IH]; intros st ns st' Hcmp Hwf Hpl H; simpl in H |- *.
  - injection H as <-. by exists ns.
  - apply andb_true_iff in Hpl as [Hpo Hpl].
    apply bind_Ok in H as (s & Ho & H). rewrite Ho.
    destruct (exec_keys st ns Hwf Hcmp o s Hpo Ho) as (ns1 & Hwf1 & Hc1 & Hk1).
    destruct (IH s ns1 st') as (ns' & Hwf' & Hc' & Hk'); [by rewrite Hc1|done..|].
    exists ns'. split_and!; [done|by rewrite Hc', Hc1|].
    by rewrite Hk', Hc1, Hk1.
Qed.

End Ghost.

Lemma NumberComparator_laws : Comparator NumberComparator.
Proof.
  split.
  - intros a b. unfold NumberComparator.
    destruct (Z.gtb_spec a b), (Z.ltb_spec a b), (Z.gtb_spec b a), (Z.ltb_spec b a);
      simpl; lia.
  - intros a b c. unfold NumberComparator.
    destruct (Z.gtb_spec a b), (Z.ltb_spec a b), (Z.gtb_spec b c), (Z.ltb_spec b c),
      (Z.gtb_spec a c), (Z.ltb_spec a c); simpl; lia.
Qed.

Lemma foreign_nil {K V} id : foreign id (@nil (@Element K V)).
Proof. constructor. Qed.

(** * The accessors of an element *)

Section Walk.

Context {K V : Type}.
Implicit Types (e : @Element K V) (a b c d : @anode K).
Variables (st : @state K V) (ns : list (@anode K)).
Hypothesis Hwf : WF st ns.

Lemma Prev_spec pre a post e :
  ns = pre ++ a :: post → heap st !! aptr a = Some e →
  Prev e = aptr <$> last pre.
Proof. intros Hns He. by apply (wf_prev _ _ Hwf pre a post e). Qed.

Lemma rchain_from_spec : ∀ fuel l l0,
  ns = l ++ l0 → length l ≤ fuel →
  rchain_from fuel st (aptr <$> last l) = aptr <$> reverse l.
Proof.
  induction fuel as [|fuel IH]; intros l l0 Hns Hfuel.
  - destruct l; [done|simpl in Hfuel; lia].
  - destruct l as [|a l' _] using rev_ind; [done|].
    rewrite last_snoc, reverse_snoc, fmap_cons. simpl.
    destruct (wf_base _ _ Hwf a) as (e & He & _).
    { rewrite Hns, <-app_assoc. apply elem_of_app. right. by left. }
    rewrite He. f_equal. rewrite <-app_assoc in Hns.
    rewrite (Prev_spec l' a l0 e Hns He).
    apply (IH l' ([a] ++ l0)); [done|]. rewrite length_app in Hfuel. simpl in Hfuel. lia.
Qed.

(** Walking back from [Back] visits the nodes in reverse. *)
Lemma rchain_spec : rchain st = reverse (chain st).
Proof.
  unfold rchain, Back. rewrite (wf_back _ _ Hwf), (chain_spec st ns Hwf), <-fmap_reverse.
  apply (rchain_from_spec _ ns []); [by rewrite app_nil_r|].
  apply (nodes_bounded st ns (wf_base _ _ Hwf) (wf_nodup _ _ Hwf)).
Qed.

Lemma nxt_first_above i post :
  (∀ a, a ∈ post → a ∈ ns) → nxt i post = first_above st i (aptr <$> post).
Proof.
  unfold first_above. induction post as [|a l IH]; intros Hin; [done|].
  rewrite fmap_cons, filter_cons. simpl.
  rewrite (level_at_node st ns Hwf) by (apply Hin; by left).
  destruct (Nat.ltb_spec i (alvl a)) as [Hlt|Hge].
  - by rewrite decide_True.
  - rewrite decide_False by lia. apply IH. intros b Hb. apply Hin. by right.
Qed.

Lemma NextLevel_spec pre a post e (level : Z) :
  ns = pre ++ a :: post → heap st !! aptr a = Some e →
  NextLevel e level
  = if decide (0 ≤ level < Z.of_nat (alvl a))%Z
    then first_above st (Z.to_nat level) (aptr <$> post) else None.
Proof.
  intros Hns He.
  assert (a ∈ ns) as Ha by (rewrite Hns; apply elem_of_app; right; by left).
  destruct (node_lookup st ns a e Hwf Ha He) as (_ & HL & _).
  unfold NextLevel. rewrite HL.
  destruct (decide (0 ≤ level < Z.of_nat (alvl a))%Z) as [Hin|Hout].
  - rewrite decide_False by lia.
    destruct (wf_fwd _ _ Hwf (Z.to_nat level)) as [_ Hn].
    rewrite (Hn pre a post e Hns He) by lia. simpl.
    apply nxt_first_above. intros b Hb. rewrite Hns. apply elem_of_app. right. by right.
  - rewrite decide_True by lia. done.
Qed.

(** The loop of [PrevLevel]: from the last node of [l], past nodes that
    have no more than [level] levels. *)
Lemma PrevLevel_loop_spec level : ∀ fuel l l0,
  ns = l ++ l0 → length l ≤ fuel →
  PrevLevel_loop fuel st level (aptr <$> last l) = Ok (lastge (S level) l).
Proof.
  induction fuel as [|fuel IH]; intros l l0 Hns Hfuel.
  - destruct l; [done|simpl in Hfuel; lia].
  - destruct l as [|a l' _] using rev_ind; [done|].
    rewrite last_snoc. simpl.
    assert (a ∈ ns) as Ha.
    { rewrite Hns, <-app_assoc. apply elem_of_app. right. by left. }
    destruct (wf_base _ _ Hwf a Ha) as (e & He & HL & _).
    rewrite (deref_Some _ _ _ He). rsimpl. rewrite HL.
    rewrite <-app_assoc in Hns.
    destruct (Nat.ltb_spec level (alvl a)) as [Hlt|Hge].
    + f_equal. symmetry. apply (lastge_last (S level) l' a []); [lia|constructor].
    + rewrite (wf_top _ _ Hwf l' a l0 e Hns He).
      rewrite (lastge_skip (S level) l' [a]) by (apply Forall_singleton; simpl; lia).
      destruct (lastge (alvl a) l') as [p|] eqn:El.
      * destruct (lastge_Some _ _ _ El) as (l1 & b & l2 & Hl' & <- & Hb & Hl2).
        assert (lastge (S level) l' = lastge (S level) (l1 ++ [b])) as ->.
        { rewrite Hl', cons_middle, app_assoc. apply lastge_skip.
          eapply Forall_impl; [exact Hl2|]. simpl. lia. }
        replace (Some (aptr b)) with (aptr <$> last (l1 ++ [b])) by (by rewrite last_snoc).
        apply (IH (l1 ++ [b]) (l2 ++ a :: l0)).
        -- rewrite Hns, Hl', <-!app_assoc. done.
        -- rewrite Hl', !length_app in Hfuel. rewrite length_app. simpl in *. lia.
      * apply lastge_None in El.
        assert (lastge (S level) l' = None) as ->.
        { apply lastge_None. eapply Forall_impl; [exact El|]. simpl. lia. }
        by destruct fuel.
Qed.

Lemma PrevLevel_spec pre a post (level : Z) :
  ns = pre ++ a :: post →
  PrevLevel st (Some (aptr a)) level
  = Ok (if decide (0 ≤ level < Z.of_nat (alvl a))%Z
        then lastge (S (Z.to_nat level)) pre else None).
Proof.
  intros Hns.
  assert (a ∈ ns) as Ha by (rewrite Hns; apply elem_of_app; right; by left).
  destruct (wf_base _ _ Hwf a Ha) as (e & He & HL & _).
  pose proof (wf_lvl _ _ Hwf a Ha) as Hl.
  unfold PrevLevel, load. rewrite (deref_Some _ _ _ He). rsimpl. rewrite HL.
  destruct (decide (0 ≤ level < Z.of_nat (alvl a))%Z) as [Hin|Hout].
  2:{ by rewrite decide_True by lia. }
  rewrite decide_False by lia.
  assert (Forall (λ b, 1 ≤ alvl b) pre) as Hpre1.
  { apply Forall_forall. intros b Hb. apply (wf_lvl _ _ Hwf). rewrite Hns.
    apply elem_of_app. by left. }
  destruct (Z.eqb_spec level 0) as [->|Hn0].
  { rewrite (wf_prev _ _ Hwf pre a post e Hns He). f_equal. symmetry.
    by apply lastge_one. }
  destruct (Z.eqb_spec level (Z.of_nat (alvl a) - 1)) as [Htop|Hmid].
  { rewrite (wf_top _ _ Hwf pre a post e Hns He). do 2 f_equal. lia. }
  rewrite (wf_prev _ _ Hwf pre a post e Hns He).
  apply (PrevLevel_loop_spec _ _ pre (a :: post) Hns).
  pose proof (nodes_bounded st ns (wf_base _ _ Hwf) (wf_nodup _ _ Hwf)) as Hb.
  rewrite Hns, length_app in Hb. lia.
Qed.

End Walk.

(** * Removed elements *)

Section Removed.

Context {K V : Type}.
Implicit Types (st : @state K V) (e : @Element K V) (a b c d : @anode K).

(** What [RemoveElement] leaves of an element that it removes is what
    [reset] leaves. *)
Lemma RemoveElement_reset st x e st' :
  heap st !! x = Some e → list_ e = Some (this st) →
  RemoveElement (Some x) st = Ok st' →
  ∃ e0, heap st' !! x = Some (reset e0).
Proof.
  intros He0 Hl. unfold RemoveElement. intros H.
  apply bind_Ok in H as (e1 & He & H).
  rewrite (deref_Some _ _ _ He0) in He. injection He as <-.
  rewrite decide_False in H by (by intros ?).
  cbv zeta in H. apply bind_Ok in H as ([max pe] & _ & H).
  apply bind_Ok in H as (st1 & _ & H). apply bind_Ok in H as (st2 & _ & H).
  apply bind_Ok in H as (e2 & _ & H). apply bind_Ok in H as (st3 & _ & H).
  apply bind_Ok in H as (st4 & _ & H). apply bind_Ok in H as (e4 & _ & H).
  match type of H with update ?s _ _ = _ => set (stl := s) in * end.
  unfold update in H. apply bind_Ok in H as (el & Hel & H). injection H as <-.
  assert (heap stl !! x = Some el) as Hx.
  { unfold deref in Hel. by destruct (heap stl !! x); simplify_eq. }
  exists el. rewrite (lookup_update stl x reset el _ Hx). by rewrite decide_True.
Qed.

Lemma compare_Some st (k : K) x e :
  heap st !! x = Some e → compare st k (Some x) = Ok (comparable (sl st) k (key e)).
Proof. intros He. unfold compare, load. by rewrite (deref_Some _ _ _ He). Qed.

(** [findNext] from an element without levels whose key is below [k]
    looks at [Back] only. *)
Lemma findNext_detached st ns (k : K) x e :
  WF st ns → heap st !! x = Some e → Level e = 0 →
  findNext (Some x) k st
  = Ok (if (Len st =? 0)%Z then None
        else if (comparable (sl st) k (key e) <=? 0)%Z then Some x else None).
Proof.
  intros Hwf He HL. unfold findNext, Len.
  destruct (Z.eqb_spec (length_ (sl st)) 0) as [H0|H0]; [done|].
  rsimpl. rewrite (compare_Some st k x e He). rsimpl.
  destruct (Z.leb_spec (comparable (sl st) k (key e)) 0) as [Hle|Hgt]; [done|].
  pose proof (wf_len _ _ Hwf) as Hlen.
  destruct (last ns) as [b|] eqn:El.
  2:{ apply last_None in El. subst ns. simpl in Hlen. lia. }
  unfold Back. rewrite (wf_back _ _ Hwf), El.
  change (aptr <$> Some b) with (Some (aptr b)).
  assert (b ∈ ns) as Hb.
  { apply last_Some in El as [l ->]. apply elem_of_app. right. by left. }
  destruct (wf_base _ _ Hwf b Hb) as (eb & Heb & _).
  rewrite (compare_Some st k _ eb Heb). rsimpl.
  destruct (comparable (sl st) k (key eb) >? 0)%Z; [done|].
  cbn [header]. rewrite (deref_Some _ _ _ He). rsimpl.
  unfold Level in HL. apply length_zero_iff_nil in HL. by rewrite HL.
Qed.

End Removed.

(** * [Init], and [Set] on a list without elements *)

Section Cleared.

Context {K V : Type}.
Implicit Types (st : @state K V) (e : @Element K V) (a b c d : @anode K).

(** [Set] on a list whose [Len] is 0 takes the short path, whatever the
    arena holds. *)
Lemma Set_empty st (k : K) (value : V) :
  sizes_ok st → length_ (sl st) = 0%Z →
  ∃ level st',
    Set' k value st = Ok (length (heap st), st')
    ∧ 1 ≤ level ≤ maxLevel (sl st)
    ∧ heap st'
      = heap st ++ [mkElement (mkHeader (replicate level None) []) value k None None
                              (Some (this st))]
    ∧ levels (lhdr (sl st')) !! 0 = Some (Some (length (heap st)))
    ∧ length_ (sl st') = 1%Z ∧ back (sl st') = Some (length (heap st))
    ∧ comparable (sl st') = comparable (sl st).
Proof.
  intros (Hm & Hp & _) H0. unfold Set'. rewrite H0. simpl (0 =? 0)%Z. cbv iota.
  destruct (randLevel_spec st) as (level & -> & Hlevel); [lia|done|].
  rsimpl. cbn [newElement heap set_sl set_heap sl this].
  match goal with |- context [for_range 0 level _ ?s] => set (st2 := s) end.
  destruct (fast_loop (Some (length (heap st))) level 0 st2) as (lv & -> & Hlvlen & Hlv).
  { change (hlen st2) with (hlen st). lia. }
  rsimpl. exists level. eexists. split_and!; [reflexivity|lia|lia|reflexivity|..].
  - cbn [set_sl sl set_length set_back set_lhdr lhdr levels].
    rewrite Hlv. by rewrite decide_True by lia.
  - cbn [set_sl sl set_length set_back set_lhdr length_ set_randPos set_heap].
    change (length_ (sl st2)) with (length_ (sl st)). by rewrite H0.
  - reflexivity.
  - reflexivity.
Qed.

Lemma chain_single st x e :
  levels (lhdr (sl st)) !! 0 = Some (Some x) → heap st !! x = Some e →
  Next e = None → chain st = [x].
Proof.
  intros Hh He Hn. unfold chain. rewrite Hh. simpl.
  destruct (length (heap st)) as [|n] eqn:El.
  { apply lookup_lt_Some in He. lia. }
  simpl. rewrite He, Hn. by destruct n.
Qed.

Lemma Get_single st (k : K) x e :
  levels (lhdr (sl st)) !! 0 = Some (Some x) → heap st !! x = Some e →
  length_ (sl st) ≠ 0%Z → comparable (sl st) k (key e) = 0%Z →
  Get k st = Ok (Some x).
Proof.
  intros Hh He Hl Hk. unfold Get, findNext.
  destruct (Z.eqb_spec (length_ (sl st)) 0) as [|_]; [done|].
  unfold Front. rewrite (index_Some _ _ _ Hh). rsimpl.
  rewrite (compare_Some st k x e He). rsimpl. rewrite Hk. simpl. rsimpl.
  by rewrite (compare_Some st k x e He), Hk.
Qed.

End Cleared.

(** * What the operations leave alone in any state *)

Section Steady.

Context {K V : Type}.
Implicit Types (st : @state K V) (e : @Element K V).

Lemma steady_refl x st : steady x st st.
Proof. split; [done|]. intros p e _ He. by exists e. Qed.

Lemma steady_trans x st1 st2 st3 :
  steady x st1 st2 → steady x st2 st3 → steady x st1 st3.
Proof.
  intros [Hs1 Hd1] [Hs2 Hd2]. split; [congruence|]. intros p e Hx He.
  destruct (Hd1 p e Hx He) as (e2 & He2 & Hk2 & Hv2).
  destruct (Hd2 p e2 Hx He2) as (e3 & He3 & Hk3 & Hv3).
  exists e3. split_and!; [done|congruence..].
Qed.

Lemma steady_None x st st' : steady None st st' → steady x st st'.
Proof. intros [Hs Hd]. split; [done|]. intros p e _ He. by apply Hd. Qed.

Lemma frame_steady fl fp ft st st' : frame fl fp ft st st' → steady None st st'.
Proof.
  intros Hf. split.
  - destruct Hf as (_ & _ & lv & -> & _). done.
  - intros p e _ He.
    destruct (frame_lookup_l _ _ _ _ _ _ _ Hf He) as (e' & He' & (_ & Hk & _ & Hv & _)).
    by exists e'.
Qed.

Lemma steady_set_sl st l : lhdr l = lhdr (sl st) → steady None st (set_sl st l).
Proof. intros Hl. split; [simpl; by rewrite Hl|]. intros p e _ He. by exists e. Qed.

Lemma steady_alloc st level (k : K) (value : V) :
  steady None st (newElement st level k value).2.
Proof.
  split; [done|]. intros p e _ He. exists e. split_and!; [|done..].
  unfold newElement. cbn. apply lookup_app_l_Some. exact He.
Qed.

Lemma steady_reset st x e :
  heap st !! x = Some e → steady None st (set_heap st (<[x := reset e]> (heap st))).
Proof.
  intros He. split; [done|]. intros p e0 _ He0.
  rewrite (lookup_update st x reset e _ He).
  destruct (decide (p = x)) as [->|]; [|by exists e0].
  assert (e0 = e) as -> by congruence. by exists (reset e).
Qed.

Lemma steady_set_Value st x (v : V) st' :
  update st x (set_Value v) = Ok st' → steady (Some x) st st'.
Proof.
  unfold update, deref. destruct (heap st !! x) as [e|] eqn:E; [|done].
  simpl. intros [= <-]. split; [done|]. intros p e0 Hx He0.
  rewrite (lookup_update st x (set_Value v) e _ E).
  rewrite decide_False by congruence. by exists e0.
Qed.

(** [RemoveElement] in any state. *)
Lemma RemoveElement_steady st elem st' :
  RemoveElement elem st = Ok st' → steady None st st'.
Proof.
  unfold RemoveElement. destruct elem as [x|]; [|intros [= <-]; apply steady_refl].
  intros H. apply bind_Ok in H as (e & _ & H).
  destruct (decide _); [injection H as <-; apply steady_refl|].
  cbv zeta in H. apply bind_Ok in H as ([max pe] & _ & H).
  apply bind_Ok in H as (st1 & H1 & H). apply bind_Ok in H as (st2 & H2 & H).
  apply bind_Ok in H as (e2 & _ & H). apply bind_Ok in H as (st3 & H3 & H).
  apply bind_Ok in H as (st4 & H4 & H). apply bind_Ok in H as (e4 & _ & H).
  assert (frame no_level false false st st4) as Hfr.
  { eapply frame_trans.
    { eapply (frame_for_range _ _ _ _ max); [| |exact H1]; [|lia].
      intros i s s' _ Hs. eapply frame_weak. by eapply Remove_unlink_frame. }
    eapply frame_trans.
    { eapply (frame_for_range _ _ _ _ (max + (Level e - max))); [| |exact H2]; [|lia].
      intros i s s' _ Hs. eapply frame_weak. by eapply Remove_unlink_head_frame. }
    eapply frame_trans.
    { instantiate (1 := st3). destruct (Next e2) as [nx|].
      - eapply frame_weak. eapply frame_update; [done|].
        intros ?. apply keeps_set_prev.
      - injection H3 as <-. apply frame_refl. }
    eapply frame_weak. by eapply Remove_adjust_frame. }
  eapply steady_trans; [by eapply frame_steady|].
  match type of H with update ?s _ _ = _ => set (stl := s) in * end.
  assert (steady None st4 stl) as Hgl.
  { unfold stl. destruct (decide (back (sl st4) = Some x)).
    - eapply steady_trans; by apply steady_set_sl.
    - by apply steady_set_sl. }
  eapply steady_trans; [exact Hgl|].
  unfold update in H. apply bind_Ok in H as (el & Hel & H). injection H as <-.
  apply (steady_reset stl x el). unfold deref in Hel.
  destruct (heap stl !! x) as [?|]; by simplify_eq.
Qed.

(** [Set] in any state in which [randLevel] works. *)
Lemma Set_steady st (k : K) (value : V) p st' :
  1 ≤ maxLevel (sl st) → length (probTable (sl st)) = maxLevel (sl st) →
  Set' k value st = Ok (p, st') → steady (Some p) st st'.
Proof.
  intros Hm Hp. unfold Set'.
  destruct (randLevel_spec st Hm Hp) as (level & Hrl & Hlevel).
  set (st1 := set_sl st (set_randPos (S (randPos (sl st))) (sl st))) in *.
  assert (steady None st st1) as Hg1 by (by apply steady_set_sl).
  pose proof (steady_alloc st1 level k value) as Hg2.
  set (st2 := (newElement st1 level k value).2) in *.
  assert (∀ st7 stf, frame no_level false false st2 st7 →
            heap stf = heap st7 → lhdr (sl stf) = lhdr (sl st7) →
            steady (Some p) st stf) as Hfin.
  { intros st7 stf Hfr Hh Hl. apply steady_None.
    eapply steady_trans; [exact Hg1|]. eapply steady_trans; [exact Hg2|].
    eapply steady_trans; [by eapply frame_steady|].
    split; [by rewrite Hl|]. intros q e _ He. exists e. by rewrite Hh. }
  destruct (length_ (sl st) =? 0)%Z.
  - rewrite Hrl. rsimpl. unfold newElement. cbv zeta.
    fold (newElement st1 level k value).
    change (set_heap st1 _) with st2.
    intros H. apply bind_Ok in H as (st3 & H3 & H). injection H as <- <-.
    eapply (Hfin st3); try done.
    eapply (frame_for_range _ _ _ _ level); [| |exact H3]; [|lia].
    intros i s s' _ Hs. eapply frame_weak. eapply frame_set_levels_at. exact Hs.
  - intros H. apply bind_Ok in H as (r & _ & H). destruct r as [elem|prevs].
    + apply bind_Ok in H as (st3 & H3 & H). injection H as <- <-.
      by eapply steady_set_Value.
    + rewrite Hrl in H. rsimpl in H. unfold newElement in H. cbv zeta in H.
      fold (newElement st1 level k value) in H.
      change (set_heap st1 _) with st2 in H.
      change (length (heap st1)) with (length (heap st)) in H.
      apply bind_Ok in H as (p0 & _ & H). apply bind_Ok in H as (st3 & H3 & H).
      apply bind_Ok in H as (pt & _ & H). apply bind_Ok in H as (st4 & H4 & H).
      apply bind_Ok in H as (st5 & H5 & H). apply bind_Ok in H as (lg & _ & H).
      apply bind_Ok in H as (next & _ & H). apply bind_Ok in H as (st6 & H6 & H).
      apply bind_Ok in H as (st7 & H7 & H). apply bind_Ok in H as (e & _ & H).
      injection H as <- <-.
      assert (frame no_level false false st2 st7) as Hfr.
      { eapply frame_trans; [eapply (frame_cond_update _ _ _ _ _ _ _ H3)|].
        { intros ?. apply keeps_set_prev. }
        eapply frame_trans; [eapply (frame_cond_update _ _ _ _ _ _ _ H4)|].
        { intros ?. apply keeps_set_prevTopLevel. }
        eapply frame_trans.
        { eapply (frame_for_range _ _ _ _ level); [| |exact H5]; [|lia].
          intros i s s' _ Hs. eapply frame_weak. by eapply Set_splice_frame. }
        eapply frame_trans.
        { instantiate (1 := st6). destruct next as [nx|].
          - eapply frame_weak. eapply frame_update; [done|].
            intros ?. apply keeps_set_prev.
          - injection H6 as <-. apply frame_refl. }
        eapply frame_weak. by eapply Set_adjust_frame. }
      eapply Hfin; [exact Hfr|..]; by destruct (decide (Next e = None)).
Qed.

Lemma Remove_steady st (k : K) r st' : Remove k st = Ok (r, st') → steady None st st'.
Proof.
  unfold Remove. intros H. apply bind_Ok in H as (elem & _ & H).
  destruct elem as [p|]; [|injection H as _ <-; apply steady_refl].
  apply bind_Ok in H as (s & Hs & H). injection H as _ <-.
  by eapply RemoveElement_steady.
Qed.

Lemma RemoveFront_steady st r st' : RemoveFront st = Ok (r, st') → steady None st st'.
Proof.
  unfold RemoveFront. destruct (length_ (sl st) =? 0)%Z.
  { intros [= _ <-]. apply steady_refl. }
  intros H. apply bind_Ok in H as (front & _ & H).
  apply bind_Ok in H as (s & Hs & H). injection H as _ <-.
  by eapply RemoveElement_steady.
Qed.

Lemma RemoveBack_steady st r st' : RemoveBack st = Ok (r, st') → steady None st st'.
Proof.
  unfold RemoveBack. destruct (length_ (sl st) =? 0)%Z.
  { intros [= _ <-]. apply steady_refl. }
  cbv zeta. intros H.
  apply bind_Ok in H as (s & Hs & H). injection H as _ <-.
  by eapply RemoveElement_steady.
Qed.

End Steady.

(** * The list as an ordered map *)

Section Entries.

Context {K V : Type}.
Implicit Types (st : @state K V) (ns pre post l : list (@anode K)) (a b c d : @anode K).

Lemma entries_of_app st (l1 l2 : list nat) :
  entries_of st (l1 ++ l2) = entries_of st l1 ++ entries_of st l2.
Proof. apply omap_app. Qed.

(** The entries of nodes that two states hold with the same key and value. *)
Lemma entries_of_same st st' l :
  (∀ a, a ∈ l → entry st' (aptr a) = entry st (aptr a)) →
  entries_of st' (aptr <$> l) = entries_of st (aptr <$> l).
Proof.
  induction l as [|a l IH]; intros Hl; [done|].
  rewrite fmap_cons. unfold entries_of. cbn [omap list_omap].
  rewrite (Hl a) by (by left). fold (entries_of st' (aptr <$> l)).
  fold (entries_of st (aptr <$> l)). rewrite IH; [done|].
  intros b Hb. apply Hl. by right.
Qed.

Lemma steady_entry x st st' p e :
  steady x st st' → x ≠ Some p → heap st !! p = Some e →
  entry st' p = entry st p.
Proof.
  intros [_ Hd] Hx He. destruct (Hd p e Hx He) as (e' & He' & Hk & Hv).
  unfold entry. rewrite He, He'. simpl. by rewrite Hk, Hv.
Qed.

Lemma in_pre ns pre post a : ns = pre ++ post → a ∈ pre → a ∈ ns.
Proof. intros -> ?. apply elem_of_app. by left. Qed.

Lemma in_post ns pre post a : ns = pre ++ post → a ∈ post → a ∈ ns.
Proof. intros -> ?. apply elem_of_app. by right. Qed.

Section One.

Variables (st : @state K V) (ns : list (@anode K)).
Hypothesis Hwf : WF st ns.
Hypothesis Hcmp : Comparator (comparable (sl st)).
Local Abbreviation cmp := (comparable (sl st)).

Lemma entries_of_cons a l :
  a ∈ ns →
  ∃ e, heap st !! aptr a = Some e
       ∧ entries_of st (aptr <$> a :: l)
         = (akey a, Value e) :: entries_of st (aptr <$> l).
Proof.
  intros Ha. destruct (wf_base _ _ Hwf a Ha) as (e & He & _ & Hk & _).
  exists e. split; [done|]. rewrite fmap_cons. unfold entries_of.
  cbn [omap list_omap]. unfold entry at 1. rewrite He. simpl. by rewrite Hk.
Qed.

Lemma entries_of_length l :
  (∀ a, a ∈ l → a ∈ ns) → length (entries_of st (aptr <$> l)) = length l.
Proof.
  induction l as [|a l IH]; intros Hin; [done|].
  destruct (entries_of_cons a l) as (e & _ & ->); [apply Hin; by left|].
  simpl. f_equal. apply IH. intros b Hb. apply Hin. by right.
Qed.

Lemma entries_of_keys l :
  (∀ a, a ∈ l → a ∈ ns) → (entries_of st (aptr <$> l)).*1 = akey <$> l.
Proof.
  induction l as [|a l IH]; intros Hin; [done|].
  destruct (entries_of_cons a l) as (e & _ & ->); [apply Hin; by left|].
  rewrite !fmap_cons. simpl. f_equal. apply IH. intros b Hb. apply Hin. by right.
Qed.

Lemma entries_filter_all (Q : K * V → Prop) `{∀ x, Decision (Q x)} l :
  (∀ a, a ∈ l → a ∈ ns) → (∀ a v, a ∈ l → Q (akey a, v)) →
  filter Q (entries_of st (aptr <$> l)) = entries_of st (aptr <$> l).
Proof.
  induction l as [|a l IH]; intros Hin HP; [done|].
  destruct (entries_of_cons a l) as (e & _ & ->); [apply Hin; by left|].
  rewrite filter_cons, decide_True by (apply HP; by left). f_equal. apply IH.
  - intros b Hb. apply Hin. by right.
  - intros b v Hb. apply HP. by right.
Qed.

Lemma entries_filter_none (Q : K * V → Prop) `{∀ x, Decision (Q x)} l :
  (∀ a, a ∈ l → a ∈ ns) → (∀ a v, a ∈ l → ¬ Q (akey a, v)) →
  filter Q (entries_of st (aptr <$> l)) = [].
Proof.
  induction l as [|a l IH]; intros Hin HP; [done|].
  destruct (entries_of_cons a l) as (e & _ & ->); [apply Hin; by left|].
  rewrite filter_cons, decide_False by (apply HP; by left). apply IH.
  - intros b Hb. apply Hin. by right.
  - intros b v Hb. apply HP. by right.
Qed.

Lemma entries_existsb (f : K → bool) l :
  (∀ a, a ∈ l → a ∈ ns) →
  existsb (λ kv : K * V, f kv.1) (entries_of st (aptr <$> l)) = true
  ↔ ∃ a, a ∈ l ∧ f (akey a) = true.
Proof.
  induction l as [|a l IH]; intros Hin.
  - split; [done|]. intros (a & Ha & _). by apply elem_of_nil in Ha.
  - destruct (entries_of_cons a l) as (e & _ & ->); [apply Hin; by left|].
    simpl. rewrite orb_true_iff, IH by (intros b Hb; apply Hin; by right). split.
    + intros [Ha|(b & Hb & Hf)]; [exists a; split; [by left|done]|].
      exists b. split; [by right|done].
    + intros (b & Hb & Hf). apply elem_of_cons in Hb as [->|Hb]; [by left|].
      right. by exists b.
Qed.

Lemma entries_find_none (f : K → bool) l :
  (∀ a, a ∈ l → a ∈ ns) → Forall (λ a, f (akey a) = false) l →
  List.find (λ kv : K * V, f kv.1) (entries_of st (aptr <$> l)) = None.
Proof.
  induction l as [|a l IH]; intros Hin HP; [done|].
  apply Forall_cons in HP as [Ha Hl].
  destruct (entries_of_cons a l) as (e & _ & ->); [apply Hin; by left|].
  simpl. rewrite Ha. apply IH; [|done]. intros b Hb. apply Hin. by right.
Qed.

Lemma entries_map_id (f : K → bool) (g : K * V → K * V) l :
  (∀ a, a ∈ l → a ∈ ns) → Forall (λ a, f (akey a) = false) l →
  (λ kv : K * V, if f kv.1 then g kv else kv) <$> entries_of st (aptr <$> l)
  = entries_of st (aptr <$> l).
Proof.
  induction l as [|a l IH]; intros Hin HP; [done|].
  apply Forall_cons in HP as [Ha Hl].
  destruct (entries_of_cons a l) as (e & _ & ->); [apply Hin; by left|].
  rewrite fmap_cons. simpl. rewrite Ha. f_equal. apply IH; [|done].
  intros b Hb. apply Hin. by right.
Qed.

Lemma entries_spec : entries st = entries_of st (aptr <$> ns).
Proof. unfold entries. by rewrite (chain_spec st ns Hwf). Qed.

(** The nodes other than [d] hold keys that differ from a key of [d]. *)
Lemma others_differ k pre d post :
  ns = pre ++ d :: post → cmp k (akey d) = 0%Z →
  Forall (λ a, cmp k (akey a) ≠ 0%Z) pre ∧ Forall (λ a, cmp k (akey a) ≠ 0%Z) post.
Proof.
  intros Hns Hk.
  assert (d ∈ ns) as Hd by (rewrite Hns; apply elem_of_app; right; by left).
  assert (Forall (λ a, cmp k (akey a) ≠ 0%Z) (pre ++ post)) as Hall.
  { apply Forall_forall. intros a Ha Hka.
    apply (not_in_rest st ns Hwf pre d post a Hns Ha).
    apply (eq_key_unique st ns Hwf Hcmp k a d); try done.
    rewrite Hns. apply elem_of_app in Ha as [|]; apply elem_of_app; [by left|right; by right]. }
  by apply Forall_app in Hall.
Qed.

Lemma spec_remove_present k pre d post :
  ns = pre ++ d :: post → cmp k (akey d) = 0%Z →
  spec_remove cmp k (entries_of st (aptr <$> ns))
  = entries_of st (aptr <$> pre ++ post).
Proof.
  intros Hns Hk. destruct (others_differ k pre d post Hns Hk) as [Hp Hq].
  unfold spec_remove.
  assert (∀ a, a ∈ d :: post → a ∈ ns) as Hin by (intros a; apply (in_post ns pre _ a Hns)).
  rewrite Hns at 1. rewrite !fmap_app, !entries_of_app, filter_app.
  destruct (entries_of_cons d post) as (e & _ & ->); [apply Hin; by left|].
  rewrite filter_cons, decide_False by (simpl; by intros ?).
  rewrite Forall_forall in Hp. rewrite Forall_forall in Hq.
  rewrite (entries_filter_all (λ kv, cmp k kv.1 ≠ 0%Z) pre);
    [|intros a; apply (in_pre ns pre _ a Hns)|intros a v Ha; by apply Hp].
  rewrite (entries_filter_all (λ kv, cmp k kv.1 ≠ 0%Z) post); [done| |].
  - intros a Ha. apply Hin. by right.
  - intros a v Ha. by apply Hq.
Qed.

Lemma spec_remove_absent k :
  (∀ a, a ∈ ns → cmp k (akey a) ≠ 0%Z) →
  spec_remove cmp k (entries_of st (aptr <$> ns)) = entries_of st (aptr <$> ns).
Proof.
  intros Hno. apply (entries_filter_all (λ kv, cmp k kv.1 ≠ 0%Z)); [done|].
  intros a v Ha. by apply Hno.
Qed.

Lemma spec_get_spec k :
  spec_get cmp k (entries_of st (aptr <$> ns))
  = match List.find (λ a, (cmp k (akey a) =? 0)%Z) ns with
    | Some d => Value <$> heap st !! aptr d
    | None => None
    end.
Proof.
  unfold spec_get.
  assert (∀ a, a ∈ ns → a ∈ ns) as Hin by done. revert Hin.
  generalize ns at 1 3 4. intros l. induction l as [|a l IH]; intros Hin; [done|].
  destruct (entries_of_cons a l) as (e & He & ->); [apply Hin; by left|].
  simpl. destruct (cmp k (akey a) =? 0)%Z; [by rewrite He|].
  apply IH. intros b Hb. apply Hin. by right.
Qed.

(** A step that keeps the nodes of [l] keeps their entries. *)
Lemma steady_entries x st' l :
  steady x st st' → (∀ a, a ∈ l → a ∈ ns ∧ x ≠ Some (aptr a)) →
  entries_of st' (aptr <$> l) = entries_of st (aptr <$> l).
Proof.
  intros Hs Hl. apply entries_of_same. intros a Ha. destruct (Hl a Ha) as [Hn Hx].
  destruct (wf_base _ _ Hwf a Hn) as (e & He & _). by eapply steady_entry.
Qed.

End One.

End Entries.

Section MapStep.

Context {K V : Type}.
Implicit Types (pre post l : list (@anode K)) (a b c d : @anode K).
Variables (st : @state K V) (ns : list (@anode K)).
Hypothesis Hwf : WF st ns.
Hypothesis Hcmp : Comparator (comparable (sl st)).
Local Abbreviation cmp := (comparable (sl st)).

Lemma spec_put_present k (v : V) d e :
  d ∈ ns → heap st !! aptr d = Some e → cmp k (akey d) = 0%Z →
  spec_put cmp k v (entries_of st (aptr <$> ns))
  = entries_of (set_heap st (<[aptr d := set_Value v e]> (heap st))) (aptr <$> ns).
Proof.
  intros Hd He Hk. set (st' := set_heap st _).
  destruct (list_elem_of_split _ _ Hd) as (pre & post & Hns).
  destruct (others_differ st ns Hwf Hcmp k pre d post Hns Hk) as [Hp Hq].
  unfold spec_put.
  assert (existsb (λ kv : K * V, (cmp k kv.1 =? 0)%Z) (entries_of st (aptr <$> ns)) = true)
    as ->.
  { apply (entries_existsb st ns Hwf (λ k', (cmp k k' =? 0)%Z)); [done|].
    exists d. split; [done|]. by apply Z.eqb_eq. }
  assert (steady (Some (aptr d)) st st') as Hs.
  { apply (steady_set_Value st (aptr d) v). unfold update.
    by rewrite (deref_Some _ _ _ He). }
  pose proof (wf_nodup _ _ Hwf) as Hnd. rewrite Hns in Hnd.
  rewrite fmap_app, fmap_cons in Hnd. apply NoDup_app in Hnd as (_ & Hnd1 & Hnd2).
  apply NoDup_cons in Hnd2 as [Hnd2 _].
  assert (entries_of st' (aptr <$> pre) = entries_of st (aptr <$> pre)) as Epre.
  { apply (steady_entries st ns Hwf (Some (aptr d))); [done|]. intros a Ha. split.
    - by apply (in_pre ns pre (d :: post) a Hns).
    - intros [= Hx]. apply (Hnd1 (aptr a)); [by apply list_elem_of_fmap_2|].
      rewrite Hx. by left. }
  assert (entries_of st' (aptr <$> post) = entries_of st (aptr <$> post)) as Epost.
  { apply (steady_entries st ns Hwf (Some (aptr d))); [done|]. intros a Ha. split.
    - apply (in_post ns pre (d :: post) a Hns). by right.
    - intros [= Hx]. apply Hnd2. rewrite Hx. by apply list_elem_of_fmap_2. }
  destruct (entries_of_cons st ns Hwf d post Hd) as (e0 & He0 & Ed).
  assert (e0 = e) as -> by congruence.
  assert (entries_of st' (aptr <$> d :: post)
          = (akey d, v) :: entries_of st' (aptr <$> post)) as Ed'.
  { rewrite fmap_cons. unfold entries_of. cbn [omap list_omap]. unfold entry at 1.
    unfold st'. rewrite (lookup_update st (aptr d) (set_Value v) e _ He).
    rewrite decide_True by done. simpl.
    destruct (wf_base _ _ Hwf d Hd) as (e1 & He1 & _ & Hk1 & _).
    assert (e1 = e) as -> by congruence. by rewrite Hk1. }
  rewrite Hns. rewrite !fmap_app, !entries_of_app, Ed, Ed', Epre, Epost.
  rewrite fmap_app, fmap_cons. simpl. apply Z.eqb_eq in Hk as Hkb. rewrite Hkb.
  f_equal; [|f_equal].
  - apply (entries_map_id st ns Hwf (λ k', (cmp k k' =? 0)%Z) (λ kv, (kv.1, v)) pre).
    + intros a. apply (in_pre ns pre (d :: post) a Hns).
    + eapply Forall_impl; [exact Hp|]. intros a Ha. simpl. by apply Z.eqb_neq.
  - apply (entries_map_id st ns Hwf (λ k', (cmp k k' =? 0)%Z) (λ kv, (kv.1, v)) post).
    + intros a Ha. apply (in_post ns pre (d :: post) a Hns). by right.
    + eapply Forall_impl; [exact Hq|]. intros a Ha. simpl. by apply Z.eqb_neq.
Qed.

Lemma spec_put_absent k (v : V) pre post p lv st' e' :
  ns = pre ++ post → (∀ a, a ∈ ns → cmp k (akey a) ≠ 0%Z) →
  Forall (below st k) pre → Forall (λ a, (cmp k (akey a) < 0)%Z) post →
  p = length (heap st) → steady (Some p) st st' →
  heap st' !! p = Some e' → key e' = k → Value e' = v →
  spec_put cmp k v (entries_of st (aptr <$> ns))
  = entries_of st' (aptr <$> pre ++ mkA p lv k :: post).
Proof.
  intros Hns Hno Hpre Hpost Hp Hs He' Hk' Hv'. unfold spec_put.
  assert (existsb (λ kv : K * V, (cmp k kv.1 =? 0)%Z) (entries_of st (aptr <$> ns)) = false)
    as ->.
  { apply not_true_is_false. intros Hex.
    apply (entries_existsb st ns Hwf (λ k', (cmp k k' =? 0)%Z)) in Hex as (a & Ha & Hf);
      [|done].
    apply Z.eqb_eq in Hf. by apply (Hno a). }
  assert (∀ a, a ∈ ns → Some p ≠ Some (aptr a)) as Hfresh.
  { intros a Ha [= Hx]. destruct (wf_base _ _ Hwf a Ha) as (e & He & _).
    apply lookup_lt_Some in He. lia. }
  assert (entries_of st' (aptr <$> pre) = entries_of st (aptr <$> pre)) as Epre.
  { apply (steady_entries st ns Hwf (Some p)); [done|]. intros a Ha.
    pose proof (in_pre ns pre post a Hns Ha). split; [done|by apply Hfresh]. }
  assert (entries_of st' (aptr <$> post) = entries_of st (aptr <$> post)) as Epost.
  { apply (steady_entries st ns Hwf (Some p)); [done|]. intros a Ha.
    pose proof (in_post ns pre post a Hns Ha). split; [done|by apply Hfresh]. }
  rewrite fmap_app, fmap_cons, entries_of_app. unfold entries_of at 4.
  cbn [omap list_omap]. unfold entry at 1. cbn [aptr]. rewrite He'. simpl.
  fold (entries_of st' (aptr <$> post)). rewrite Epre, Epost, Hk', Hv'.
  rewrite Hns at 1 2. rewrite !fmap_app, !entries_of_app, !filter_app.
  rewrite Forall_forall in Hpre. rewrite Forall_forall in Hpost.
  rewrite (entries_filter_all st ns Hwf (λ kv, (0 < cmp k kv.1)%Z) pre);
    [|intros a; apply (in_pre ns pre post a Hns)|intros a w Ha; by apply Hpre].
  rewrite (entries_filter_none st ns Hwf (λ kv, (0 < cmp k kv.1)%Z) post);
    [|intros a; apply (in_post ns pre post a Hns)
     |intros a w Ha; specialize (Hpost a Ha); simpl in *; lia].
  rewrite (entries_filter_none st ns Hwf (λ kv, (cmp k kv.1 < 0)%Z) pre);
    [|intros a; apply (in_pre ns pre post a Hns)
     |intros a w Ha; specialize (Hpre a Ha); unfold below in Hpre; simpl; lia].
  rewrite (entries_filter_all st ns Hwf (λ kv, (cmp k kv.1 < 0)%Z) post);
    [|intros a; apply (in_post ns pre post a Hns)|intros a w Ha; by apply Hpost].
  by rewrite app_nil_r.
Qed.

(** The entries after a removal of the node [d]. *)
Lemma removed_entries pre d post st' :
  ns = pre ++ d :: post → steady None st st' →
  entries_of st' (aptr <$> pre ++ post)
  = spec_remove cmp (akey d) (entries_of st (aptr <$> ns)).
Proof.
  intros Hns Hs.
  rewrite (spec_remove_present st ns Hwf Hcmp (akey d) pre d post Hns (cmp_refl _ Hcmp _)).
  apply (steady_entries st ns Hwf None); [done|]. intros a Ha. split; [|done].
  rewrite Hns. apply elem_of_app in Ha as [|]; apply elem_of_app; [by left|right; by right].
Qed.

(** What an inserting or removing operation that returns does to the
    entries of a well-formed list is what it does to the map. *)
Lemma exec_entries (o : @op K V) st' :
  plain o = true → exec o st = Ok st' →
  ∃ ns', WF st' ns' ∧ comparable (sl st') = comparable (sl st)
         ∧ entries_of st' (aptr <$> ns')
           = spec_map_step cmp o st (entries_of st (aptr <$> ns)).
Proof.
  intros Hplain Hex. destruct o as [k v|k| | |elem|level]; [..|done]; simpl in Hex |- *.
  - apply fmap_Ok in Hex as ([p s] & HS & ->). simpl.
    destruct (Set_result st ns Hwf Hcmp k v p s HS) as (_ & _ & _ & _ & Hc & _).
    pose proof (Set_steady st k v p s (proj1 (wf_max _ _ Hwf)) (wf_prob _ _ Hwf) HS) as Hs.
    destruct (Set_spec st ns k v Hcmp Hwf)
      as (p0 & st0 & ns' & HS0 & Hwf' & (e' & He' & Hv' & _) & Hcase).
    rewrite HS in HS0. injection HS0 as <- <-.
    exists ns'. split_and!; [done..|].
    destruct Hcase as [(d & e & Hd & Hk & -> & -> & He & ->)
                      |(Hno & -> & pre & post & lv & Hns & -> & _ & Hpre & Hpost)].
    + symmetry. by apply spec_put_present.
    + symmetry. eapply (spec_put_absent k v pre post); try done.
      destruct (wf_base _ _ Hwf' (mkA (length (heap st)) lv k)) as (e1 & He1 & _ & Hk1 & _).
      { apply elem_of_app. right. by left. }
      simpl in He1, Hk1. congruence.
  - apply fmap_Ok in Hex as ([r s] & HR & ->). simpl.
    pose proof (Remove_steady st k r s HR) as Hs.
    destruct (key_found st ns Hwf Hcmp k) as [(d & Hd & Hk)|Hno].
    + destruct (Remove_hit st ns Hwf Hcmp k d Hd Hk) as (s' & pre & post & Hns & HR' & ? & ?).
      rewrite HR in HR'. injection HR' as _ <-.
      exists (pre ++ post). split_and!; [done..|].
      rewrite (spec_remove_present st ns Hwf Hcmp k pre d post Hns Hk).
      apply (steady_entries st ns Hwf None); [done|]. intros a Ha. split; [|done].
      rewrite Hns. apply elem_of_app in Ha as [|]; apply elem_of_app; [by left|right; by right].
    + rewrite (Remove_miss st ns Hwf Hcmp k Hno) in HR. injection HR as _ <-.
      exists ns. split_and!; [done..|]. symmetry. by apply spec_remove_absent.
  - apply fmap_Ok in Hex as ([r s] & HR & ->). simpl.
    pose proof (RemoveFront_steady st r s HR) as Hs.
    pose proof (RemoveFront_spec st ns Hwf) as H. destruct ns as [|a l] eqn:En.
    + rewrite H in HR. injection HR as _ <-. exists []. by split_and!.
    + destruct H as (s' & HR' & ? & ?). rewrite HR in HR'. injection HR' as _ <-.
      exists l. split_and!; [done..|]. rewrite <-En in Hwf.
      destruct (entries_of_cons st ns Hwf a l) as (e & _ & Ea); [rewrite En; by left|].
      rewrite Ea. simpl. apply (steady_entries st ns Hwf None); [done|].
      intros b Hb. split; [rewrite En; by right|done].
  - apply fmap_Ok in Hex as ([r s] & HR & ->). simpl.
    pose proof (RemoveBack_steady st r s HR) as Hs.
    pose proof (RemoveBack_spec st ns Hwf) as H. destruct (last ns) as [a|] eqn:El.
    + destruct H as (s' & l & Hns & HR' & ? & ?). rewrite HR in HR'. injection HR' as _ <-.
      exists l. split_and!; [done..|].
      assert (a ∈ ns) as Ha by (rewrite Hns; apply elem_of_app; right; by left).
      destruct (entries_of_cons st ns Hwf a [] Ha) as (e & _ & Ea).
      rewrite Hns at 1 2. rewrite !fmap_app, !entries_of_app, Ea, length_app. simpl.
      rewrite take_app_length'.
      2:{ rewrite (entries_of_length st ns Hwf); [lia|].
          intros b Hb. rewrite Hns. apply elem_of_app. by left. }
      apply (steady_entries st ns Hwf None); [done|]. intros b Hb. split; [|done].
      rewrite Hns. apply elem_of_app. by left.
    + rewrite H in HR. injection HR as _ <-. apply last_None in El.
      exists ns. split_and!; [done..|]. by rewrite El.
  - destruct elem as [p|]; [|injection Hex as <-; by exists ns].
    pose proof (RemoveElement_steady st (Some p) st' Hex) as Hs.
    assert (∃ e, heap st !! p = Some e) as [e He].
    { unfold RemoveElement in Hex. apply bind_Ok in Hex as (e & He & _).
      unfold deref in He. destruct (heap st !! p); [by eexists|done]. }
    rewrite He. destruct (decide (list_ e = Some (this st))) as [Ho|Ho].
    + destruct (node_of_ptr st ns Hwf p (wf_owned _ _ Hwf p e He Ho)) as (pre & xa & post & Hns & <-).
      pose proof Hwf as Hwf0. rewrite Hns in Hwf0.
      destruct (RemoveElement_spec st pre xa post Hwf0)
        as (s' & e0 & HR & Hwf' & He0 & _ & _ & Hc & _).
      rewrite Hex in HR. injection HR as <-.
      assert (xa ∈ ns) as Hx by (rewrite Hns; apply elem_of_app; right; by left).
      destruct (node_lookup st ns xa e Hwf Hx He) as (-> & _).
      exists (pre ++ post). split_and!; [done..|]. by apply removed_entries.
    + rewrite (dead_noop st (Some p)) in Hex by (by exists e).
      injection Hex as <-. by exists ns.
Qed.

(** [GetValue] is the lookup in the map. *)
Lemma GetValue_entries k :
  GetValue k st = Ok (spec_get cmp k (entries_of st (aptr <$> ns))).
Proof.
  unfold GetValue.
  destruct (key_found st ns Hwf Hcmp k) as [(d & Hd & Hk)|Hno].
  - rewrite (Get_hit st ns Hwf Hcmp k d Hd Hk). rsimpl.
    destruct (wf_base _ _ Hwf d Hd) as (e & He & _).
    rewrite (deref_Some _ _ _ He). rsimpl. f_equal.
    destruct (list_elem_of_split _ _ Hd) as (pre & post & Hns).
    destruct (others_differ st ns Hwf Hcmp k pre d post Hns Hk) as [Hp _].
    unfold spec_get. rewrite Hns, fmap_app, entries_of_app.
    destruct (entries_of_cons st ns Hwf d post Hd) as (e0 & He0 & ->).
    assert (e0 = e) as -> by congruence.
    assert (List.find (λ kv : K * V, (cmp k kv.1 =? 0)%Z) (entries_of st (aptr <$> pre))
            = None) as Hnone.
    { apply (entries_find_none st ns Hwf (λ k', (cmp k k' =? 0)%Z)).
      - intros a. apply (in_pre ns pre (d :: post) a Hns).
      - eapply Forall_impl; [exact Hp|]. intros a Ha. simpl. by apply Z.eqb_neq. }
    generalize dependent (entries_of st (aptr <$> pre)). intros m Hm.
    induction m as [|x m IH]; simpl in *.
    + apply Z.eqb_eq in Hk. by rewrite Hk.
    + destruct (cmp k x.1 =? 0)%Z; [done|]. by apply IH.
  - rewrite (Get_miss st ns Hwf Hcmp k Hno). rsimpl. f_equal. unfold spec_get.
    rewrite (entries_find_none st ns Hwf (λ k', (cmp k k' =? 0)%Z)); [done..|].
    apply Forall_forall. intros a Ha. apply Z.eqb_neq. by apply Hno.
Qed.

End MapStep.

Section MapRun.

Context {K V : Type}.

Lemma run_entries (os : list (@op K V)) : ∀ st ns st',
  Comparator (comparable (sl st)) → WF st ns → forallb plain os = true →
  run os st = Ok st' →
  ∃ ns', WF st' ns' ∧ comparable (sl st') = comparable (sl st)
         ∧ entries_of st' (aptr <$> ns')
           = spec_map (comparable (sl st)) os st (entries_of st (aptr <$> ns)).
Proof.
  induction os as [|o os IH]; intros st ns st' Hcmp Hwf Hpl H; simpl in H |- *.
  - injection H as <-. by exists ns.
  - apply andb_true_iff in Hpl as [Hpo Hpl].
    apply bind_Ok in H as (s & Ho & H). rewrite Ho.
    destruct (exec_entries st ns Hwf Hcmp o s Hpo Ho) as (ns1 & Hwf1 & Hc1 & Hk1).
    destruct (IH s ns1 st') as (ns' & Hwf' & Hc' & Hk'); [by rewrite Hc1|done..|].
    exists ns'. split_and!; [done|by rewrite Hc', Hc1|].
    by rewrite Hk', Hc1, Hk1.
Qed.

End MapRun.

(** * The comparators *)

Section Comparators.

Context {K V : Type}.
Implicit Types (st : @state K V).

(** The keys of a well-formed list ascend under its comparator. *)
Lemma keys_sorted st ns :
  WF st ns → StronglySorted (λ a b, (comparable (sl st) a b < 0)%Z) (keys st).
Proof.
  intros Hwf. rewrite (keys_spec st ns Hwf).
  eapply StronglySorted_fmap; [|apply (wf_sorted _ _ Hwf)]. by intros a b.
Qed.

Lemma keys_elem st ns k : WF st ns → k ∈ keys st ↔ ∃ a, a ∈ ns ∧ akey a = k.
Proof.
  intros Hwf. rewrite (keys_spec st ns Hwf). rewrite list_elem_of_fmap.
  split; intros (a & ? & ?); by exists a.
Qed.

Lemma int64_small z : (- 2 ^ 63 ≤ z < 2 ^ 63)%Z → int64 z = z.
Proof. intros Hz. unfold int64. rewrite Z.mod_small; lia. Qed.

Lemma Reverse_small (cmp : K → K → Z) a b :
  (- 2 ^ 63 < cmp a b < 2 ^ 63)%Z → Reverse cmp a b = (- cmp a b)%Z.
Proof. intros Hr. unfold Reverse. apply int64_small. lia. Qed.

Lemma Reverse_min (cmp : K → K → Z) a b :
  cmp a b = (- 2 ^ 63)%Z → Reverse cmp a b = (- 2 ^ 63)%Z.
Proof. intros Hr. unfold Reverse. rewrite Hr. reflexivity. Qed.

Lemma Reverse_laws (cmp : K → K → Z) :
  Comparator cmp → (∀ a b, (- 2 ^ 63 < cmp a b < 2 ^ 63)%Z) →
  Comparator (Reverse cmp).
Proof.
  intros Hcmp Hr. split.
  - intros a b. rewrite !Reverse_small by done.
    rewrite !Z.sgn_opp. f_equal. apply (cmp_anti _ Hcmp).
  - intros a b c. rewrite !Reverse_small by done. intros Hab Hbc.
    pose proof (cmp_anti _ Hcmp a b) as H1. pose proof (cmp_anti _ Hcmp b c) as H2.
    pose proof (cmp_anti _ Hcmp a c) as H3.
    pose proof (cmp_trans _ Hcmp c b a) as Ht. lia.
Qed.

End Comparators.

Lemma StronglySorted_weaken {A} (R1 R2 : A → A → Prop) l :
  (∀ x y, R1 x y → R2 x y) → StronglySorted R1 l → StronglySorted R2 l.
Proof.
  intros HR. induction 1 as [|x l Hs IH Hx]; constructor; [done|].
  eapply Forall_impl; [exact Hx|]. intros y. apply HR.
Qed.

Lemma NumberComparator_sgn a b : NumberComparator a b = Z.sgn (a - b).
Proof.
  unfold NumberComparator.
  destruct (Z.gtb_spec a b), (Z.ltb_spec a b); lia.
Qed.

(** * [resetLevels] *)

Section ResetLevels.

Lemma copy_at_cleared (rest : list (option nat)) bp :
  1 ≤ bp → rest ≠ [] →
  let levels := replicate bp None ++ rest in
  copy_at levels bp (take bp levels)
  = replicate (bp `min` length rest) None ++
    replicate bp None ++ drop bp rest.
Proof.
  intros Hbp Hrest levels. unfold copy_at, levels.
  rewrite !take_app_length' by (by rewrite length_replicate).
  rewrite !length_app, !length_replicate.
  replace (bp + length rest - bp) with (length rest) by lia.
  rewrite take_replicate, drop_app_ge by (rewrite length_replicate; lia).
  rewrite length_replicate. replace (bp + bp - bp) with bp by lia.
  rewrite Nat.min_comm.
  by rewrite !app_assoc, <-!replicate_add, (Nat.add_comm bp).
Qed.

Lemma resetLevels_loop_spec : ∀ fuel bp (rest : list (option nat)),
  1 ≤ bp → length rest ≤ fuel →
  resetLevels_loop fuel (replicate bp None ++ rest) bp
  = Ok (replicate (bp + length rest) None).
Proof.
  induction fuel as [|fuel IH]; intros bp rest Hbp Hfuel.
  - destruct rest; [|simpl in Hfuel; lia]. simpl.
    rewrite app_nil_r, length_replicate, Nat.ltb_irrefl. by rewrite Nat.add_0_r.
  - simpl. rewrite length_app, length_replicate.
    destruct (Nat.ltb_spec bp (bp + length rest)) as [Hlt|Hge].
    2:{ assert (rest = []) as -> by (apply length_zero_iff_nil; lia).
        by rewrite app_nil_r, Nat.add_0_r. }
    assert (rest ≠ []) as Hne by (intros ->; simpl in Hlt; lia).
    rewrite (copy_at_cleared rest bp Hbp Hne).
    rewrite app_assoc, <-replicate_add.
    destruct (Nat.le_ge_cases bp (length rest)) as [Hle|Hgt].
    + rewrite Nat.min_l by done. replace (bp + bp) with (bp * 2) by lia.
      rewrite IH; [|lia|rewrite length_drop; lia].
      f_equal. f_equal. rewrite length_drop. lia.
    + rewrite Nat.min_r by done. rewrite drop_ge by done. rewrite app_nil_r.
      assert (∀ f n m, m ≤ n → resetLevels_loop f (replicate m None) n
                                = Ok (replicate m (@None nat))) as Hdone.
      { intros f n m Hm. destruct f; simpl; rewrite length_replicate;
          by destruct (Nat.ltb_spec n m); [lia|]. }
      rewrite Hdone by lia. f_equal. f_equal. lia.
Qed.

Lemma resetLevels_spec (levels : list (option nat)) :
  resetLevels levels
  = if decide (levels = []) then Panic IndexOutOfRange
    else Ok (replicate (length levels) None).
Proof.
  unfold resetLevels, store_index. destruct levels as [|x rest]; [done|].
  rewrite decide_True by (simpl; lia). rewrite decide_False by done. rsimpl.
  cbn [length]. change (<[0:=None]> (x :: rest)) with (replicate 1 None ++ rest).
  change (length (replicate 1 None ++ rest)) with (S (length rest)).
  by rewrite (resetLevels_loop_spec (S (length rest)) 1 rest) by lia.
Qed.

End ResetLevels.

(** * [bytesScore] and [BytesComparator] *)

Section Bytes.

Implicit Types (data l a b : list byte) (x y : byte).

Lemma lor_shifted A B k :
  (0 ≤ k)%Z → (0 ≤ B < 2 ^ k)%Z → Z.lor (A * 2 ^ k) B = (A * 2 ^ k + B)%Z.
Proof.
  intros Hk HB. rewrite <-Z.add_lor_land.
  assert (Z.land (A * 2 ^ k) B = 0%Z) as ->; [|lia].
  apply Z.bits_inj'. intros n Hn. rewrite Z.land_spec, Z.bits_0.
  destruct (Z.lt_ge_cases n k).
  - by rewrite Z.mul_pow2_bits_low by lia.
  - rewrite <-(Z.mod_small B (2 ^ k)) by lia.
    rewrite Z.mod_pow2_bits_high by lia. apply andb_false_r.
Qed.

Lemma byte_range x : (0 ≤ Z.of_N (Byte.to_N x) < 256)%Z.
Proof. pose proof (Byte.to_N_bounded x). lia. Qed.

Lemma big_endian_bound l : (0 ≤ big_endian l < 256 ^ Z.of_nat (length l))%Z.
Proof.
  induction l as [|x l IH]; [simpl; lia|].
  cbn [big_endian length]. pose proof (byte_range x).
  rewrite (Nat2Z.inj_succ (length l)), Z.pow_succ_r by lia. nia.
Qed.

Lemma big_endian_snoc l x :
  big_endian (l ++ [x]) = (big_endian l * 256 + Z.of_N (Byte.to_N x))%Z.
Proof.
  induction l as [|y l IH]; [simpl; lia|].
  cbn [app big_endian]. rewrite IH, length_app. cbn [length].
  rewrite Nat.add_1_r, Nat2Z.inj_succ, Z.pow_succ_r by lia. lia.
Qed.

Lemma big_endian_zeros l n :
  big_endian (l ++ replicate n "000"%byte) = (big_endian l * 256 ^ Z.of_nat n)%Z.
Proof.
  induction n as [|n IH]; [rewrite app_nil_r; simpl; lia|].
  rewrite replicate_S_end, app_assoc, big_endian_snoc, IH.
  rewrite Nat2Z.inj_succ, Z.pow_succ_r by lia. simpl. lia.
Qed.

(** The loop of [bytesScore] after [i] bytes. *)
Lemma bytesScore_prefix data i :
  i ≤ 8 → i ≤ length data →
  fold_left
    (λ score i,
       let shift := uint64 (64 - 8 - Z.of_nat i * 8) in
       Z.lor score (shl64 (uint64 (Z.of_N (Byte.to_N (nth i data "000"%byte)))) shift))
    (seq 0 i) 0%Z
  = (big_endian (take i data) * 2 ^ (64 - 8 * Z.of_nat i))%Z.
Proof.
  induction i as [|i IH]; intros H8 Hlen; [done|].
  rewrite seq_S, fold_left_app, IH by lia. cbn [fold_left Nat.add].
  destruct (lookup_lt_is_Some_2 data i ltac:(lia)) as [x Hx].
  rewrite (take_S_r _ _ _ Hx), big_endian_snoc.
  rewrite nth_lookup, Hx. cbn [default from_option id].
  pose proof (byte_range x) as Hb. pose proof (big_endian_bound (take i data)) as Hbe.
  set (s := (64 - 8 - Z.of_nat i * 8)%Z).
  assert (0 ≤ s ≤ 56)%Z as Hs by (unfold s; lia).
  assert (uint64 s = s) as -> by (unfold uint64; apply Z.mod_small; lia).
  assert (uint64 (Z.of_N (Byte.to_N x)) = Z.of_N (Byte.to_N x)) as ->
    by (unfold uint64; apply Z.mod_small; lia).
  assert (Z.of_N (Byte.to_N x) * 2 ^ s < 2 ^ 64)%Z as Hsh.
  { replace 64%Z with (8 + 56)%Z by lia. rewrite Z.pow_add_r by lia.
    assert (2 ^ s ≤ 2 ^ 56)%Z by (apply Z.pow_le_mono_r; lia).
    assert (0 < 2 ^ s)%Z by (apply Z.pow_pos_nonneg; lia).
    change (2 ^ 8)%Z with 256%Z. nia. }
  assert (shl64 (Z.of_N (Byte.to_N x)) s = (Z.of_N (Byte.to_N x) * 2 ^ s)%Z) as ->.
  { unfold shl64. destruct (Z.ltb_spec s 64); [|lia].
    rewrite Z.shiftl_mul_pow2 by lia. unfold uint64. apply Z.mod_small.
    assert (0 < 2 ^ s)%Z by (apply Z.pow_pos_nonneg; lia). nia. }
  replace (64 - 8 * Z.of_nat i)%Z with (s + 8)%Z by (unfold s; lia).
  replace (64 - 8 * Z.of_nat (S i))%Z with s by (unfold s; lia).
  rewrite Z.pow_add_r by lia. change (2 ^ 8)%Z with 256%Z.
  replace (big_endian (take i data) * (2 ^ s * 256))%Z
    with (big_endian (take i data) * 256 * 2 ^ s)%Z by lia.
  assert (∀ A B, (0 ≤ B < 256)%Z → Z.lor (A * 256 * 2 ^ s) (B * 2 ^ s)
                                    = ((A * 256 + B) * 2 ^ s)%Z) as Hlor.
  { intros A B HB. rewrite <-(Z.shiftl_mul_pow2 (A * 256)), <-(Z.shiftl_mul_pow2 B),
      <-(Z.shiftl_mul_pow2 (A * 256 + B)) by lia.
    rewrite <-Z.shiftl_lor. f_equal. change 256%Z with (2 ^ 8)%Z.
    apply lor_shifted; [lia|]. change (2 ^ 8)%Z with 256%Z. lia. }
  by apply Hlor.
Qed.

Lemma pad8_take data :
  pad8 data
  = take (8 `min` length data) data ++ replicate (8 - length data) "000"%byte.
Proof.
  unfold pad8. destruct (Nat.le_ge_cases 8 (length data)) as [Hle|Hge].
  - rewrite take_app_le by done. rewrite Nat.min_l by done.
    replace (8 - length data) with 0 by lia. by rewrite app_nil_r.
  - rewrite take_app_ge by done. rewrite Nat.min_r by done.
    rewrite firstn_all. by rewrite take_replicate, Nat.min_l by lia.
Qed.

Lemma length_pad8 data : length (pad8 data) = 8.
Proof.
  unfold pad8. rewrite length_take, length_app, length_replicate. lia.
Qed.

(** [bytesScore] is the number that the first 8 bytes are. *)
Lemma bytesScore_spec data : bytesScore data = big_endian (pad8 data).
Proof.
  unfold bytesScore. cbv zeta.
  assert ((if 8 <? length data then 8 else length data) = 8 `min` length data) as ->.
  { destruct (Nat.ltb_spec 8 (length data)); lia. }
  rewrite bytesScore_prefix by lia. rewrite pad8_take, big_endian_zeros.
  f_equal. change 256%Z with (2 ^ 8)%Z. rewrite <-Z.pow_mul_r by lia. f_equal. lia.
Qed.

Lemma lex_compare_spec a b :
  length a = length b →
  lex_compare a b = NumberComparator (big_endian a) (big_endian b).
Proof.
  revert b. induction a as [|x a IH]; intros [|y b] Hl; try done.
  injection Hl as Hl. cbn [lex_compare big_endian]. rewrite <-Hl.
  pose proof (big_endian_bound a) as Ha. pose proof (big_endian_bound b) as Hb.
  rewrite <-Hl in Hb. pose proof (byte_range x). pose proof (byte_range y).
  set (M := (256 ^ Z.of_nat (length a))%Z) in *.
  rewrite !NumberComparator_sgn in *.
  destruct (N.ltb_spec (Byte.to_N x) (Byte.to_N y)) as [Hxy|Hxy]; [nia|].
  destruct (N.ltb_spec (Byte.to_N y) (Byte.to_N x)) as [Hyx|Hyx]; [nia|].
  assert (Byte.to_N x = Byte.to_N y) as -> by lia.
  rewrite (IH b Hl), NumberComparator_sgn. f_equal. lia.
Qed.

Lemma lex_compare_eq a b :
  length a = length b → lex_compare a b = 0%Z ↔ a = b.
Proof.
  revert b. induction a as [|x a IH]; intros [|y b] Hl; try done.
  injection Hl as Hl. cbn [lex_compare].
  destruct (N.ltb_spec (Byte.to_N x) (Byte.to_N y)) as [Hxy|Hxy].
  { split; [done|]. intros [= -> _]. lia. }
  destruct (N.ltb_spec (Byte.to_N y) (Byte.to_N x)) as [Hyx|Hyx].
  { split; [done|]. intros [= -> _]. lia. }
  assert (x = y) as ->.
  { assert (Byte.to_N x = Byte.to_N y) as He by lia.
    pose proof (Byte.of_to_N x) as H1. rewrite He, Byte.of_to_N in H1. by injection H1. }
  rewrite (IH b Hl). split; [by intros ->|]. by intros [= ->].
Qed.

Lemma BytesComparator_spec a b :
  BytesComparator a b = lex_compare (pad8 a) (pad8 b).
Proof.
  rewrite lex_compare_spec by (by rewrite !length_pad8).
  by rewrite <-!bytesScore_spec.
Qed.

Lemma BytesComparator_laws : Comparator BytesComparator.
Proof.
  split.
  - intros a b. apply (cmp_anti _ NumberComparator_laws).
  - intros a b c. apply (cmp_trans _ NumberComparator_laws).
Qed.

End Bytes.

Section BytesKeys.

Implicit Types (data l a b s : list byte).

Lemma pad8_prefix a s : length a = 8 → pad8 (a ++ s) = a.
Proof.
  intros Ha. unfold pad8. rewrite <-app_assoc.
  rewrite take_app_le by lia. apply take_ge. lia.
Qed.

Lemma pad8_zeros a n : pad8 (a ++ replicate n "000"%byte) = pad8 a.
Proof.
  unfold pad8. rewrite <-app_assoc, <-replicate_add.
  destruct (Nat.le_ge_cases 8 (length a)) as [Hle|Hge].
  - by rewrite !take_app_le by done.
  - rewrite !take_app_ge by done. f_equal. rewrite !take_replicate. f_equal. lia.
Qed.

Lemma BytesComparator_eq a b : BytesComparator a b = 0%Z ↔ pad8 a = pad8 b.
Proof.
  rewrite BytesComparator_spec. apply lex_compare_eq. by rewrite !length_pad8.
Qed.

End BytesKeys.

(** * Changes of the maximum level that cut no level in use *)

Section Resize.

Context {K V : Type}.
Implicit Types (st : @state K V) (ns : list (@anode K)).

(** A state that differs from a well-formed one in the header and in the
    maximum level only, the header holding the first nodes of its levels. *)
Lemma WF_header st st' ns :
  WF st ns → heap st' = heap st → this st' = this st →
  comparable (sl st') = comparable (sl st) → back (sl st') = back (sl st) →
  length_ (sl st') = length_ (sl st) →
  (∀ a, a ∈ ns → alvl a ≤ hlen st') →
  (∀ i, i < hlen st' → levels (lhdr (sl st')) !! i = Some (nxt i ns)) →
  1 ≤ maxLevel (sl st') ≤ hlen st' →
  length (probTable (sl st')) = maxLevel (sl st') →
  WF st' ns.
Proof.
  intros [Hnd Hso Hlv Hbase Hfwd Hprev Htop Hown Hbk Hlen Hmx Hpb]
    Hh Ht Hc Hb Hl Hlv' Hfwd' Hmx' Hpb'.
  split; try done.
  - eapply StronglySorted_weaken; [|exact Hso]. intros a b. unfold key_lt. by rewrite Hc.
  - intros a Ha. specialize (Hlv a Ha). specialize (Hlv' a Ha). lia.
  - intros a Ha. destruct (Hbase a Ha) as (e & He & ?). exists e. by rewrite Hh, Ht.
  - intros i. destruct (Hfwd i) as [_ Hn]. split; [by apply Hfwd'|].
    intros pre a post e Hns He. rewrite Hh in He. by apply (Hn pre a post e).
  - intros pre a post e Hns He. rewrite Hh in He. by apply (Hprev pre a post e).
  - intros pre a post e Hns He. rewrite Hh in He. by apply (Htop pre a post e).
  - intros q e He Hli. rewrite Hh in He. rewrite Ht in Hli. by apply (Hown q e).
  - by rewrite Hb.
  - by rewrite Hl.
Qed.

(** [SetMaxLevel] with a level that no node exceeds keeps the list
    well-formed, and the spare capacity of the header without pointers. *)
Lemma SetMaxLevel_safe st ns level :
  WF st ns → Forall (λ x, x = None) (spare (lhdr (sl st))) →
  (0 < level)%Z → (∀ a, a ∈ ns → alvl a ≤ Z.to_nat level) →
  ∃ st', SetMaxLevel level st = Ok (Z.of_nat (hlen st), st')
         ∧ WF st' ns ∧ Forall (λ x, x = None) (spare (lhdr (sl st')))
         ∧ comparable (sl st') = comparable (sl st)
         ∧ heap st' = heap st ∧ this st' = this st.
Proof.
  intros Hwf Hsp Hpos Hcov.
  pose proof (wf_max _ _ Hwf) as Hmax.
  assert (∀ i, i < hlen st → levels (lhdr (sl st)) !! i = Some (nxt i ns)) as Hhd.
  { intros i Hi. by destruct (wf_fwd _ _ Hwf i) as [Hh _]; apply Hh. }
  assert (∀ i m, (∀ a, a ∈ ns → alvl a ≤ m) → m ≤ i → nxt i ns = None) as Hnone.
  { intros i m Hm Hi. apply nxt_None, Forall_forall. intros a Ha.
    specialize (Hm a Ha). lia. }
  assert (∀ a, a ∈ ns → alvl a ≤ hlen st) as Hlv.
  { intros a Ha. by destruct (wf_lvl _ _ Hwf a Ha). }
  unfold SetMaxLevel. destruct (Z.leb_spec level 0) as [|_]; [lia|].
  cbv zeta. cbn [set_sl sl set_levelling lhdr]. fold (hlen st).
  set (n := Z.to_nat level) in *. assert (1 ≤ n) as Hn by lia.
  set (arr := levels (lhdr (sl st)) ++ spare (lhdr (sl st))).
  assert (∀ i, i < length arr → arr !! i = Some (nxt i ns)) as Harr.
  { intros i Hi. unfold arr in *. destruct (decide (i < hlen st)) as [Hlt|Hge].
    - rewrite lookup_app_l by done. by apply Hhd.
    - rewrite lookup_app_r by (unfold hlen in Hge; lia).
      rewrite (Hnone i (hlen st)) by (done || lia).
      rewrite length_app in Hi. fold (hlen st) in Hi.
      destruct (lookup_lt_is_Some_2 (spare (lhdr (sl st))) (i - hlen st)) as [x Hx];
        [unfold hlen in *; lia|].
      unfold hlen in Hx |- *. rewrite Hx. f_equal.
      by apply (Forall_lookup_1 _ _ _ _ Hsp Hx). }
  assert (∀ m, n ≤ m → Forall (λ x, x = None) (drop m arr)) as Hdrop.
  { intros m Hm. apply Forall_lookup. intros i x Hx. rewrite lookup_drop in Hx.
    rewrite Harr in Hx by (by eapply lookup_lt_Some).
    rewrite (Hnone (m + i) n) in Hx by (done || lia). by injection Hx. }
  destruct (Nat.eqb_spec n (hlen st)) as [Heq|Hne].
  { eexists. split; [reflexivity|]. split_and!; try done.
    apply (WF_header st _ ns Hwf);
      [reflexivity|reflexivity|reflexivity|reflexivity|reflexivity|..].
    - exact Hlv.
    - cbn. apply Hhd.
    - unfold hlen in *. cbn. lia.
    - cbn. apply length_probabilityTable. }
  destruct (Nat.ltb_spec n (hlen st)) as [Hlt|Hge].
  - destruct (SetMaxLevel_scan_spec (levels (lhdr (sl st))) n (hlen st))
      as (r & -> & Hr); [done|]. rsimpl.
    assert (r = n) as ->.
    { destruct Hr as [[-> _]|(Hr1 & [q Hq] & _)]; [done|exfalso].
      rewrite Hhd in Hq by lia. injection Hq as Hq.
      by rewrite (Hnone r n) in Hq by (done || lia). }
    unfold reslice. fold arr. rewrite decide_True.
    2:{ unfold arr. rewrite length_app. unfold hlen in Hlt. lia. }
    rsimpl. eexists. split; [reflexivity|].
    assert (length (take n arr) = n) as Hlen.
    { rewrite length_take. unfold arr. rewrite length_app. unfold hlen in Hlt. lia. }
    split_and!; try done; [|by apply Hdrop].
    apply (WF_header st _ ns Hwf);
      [reflexivity|reflexivity|reflexivity|reflexivity|reflexivity|..].
    + unfold hlen. cbn. rewrite Hlen. exact Hcov.
    + unfold hlen at 1. cbn. rewrite Hlen. intros i Hi.
      rewrite lookup_take_lt by done. apply Harr.
      unfold arr. rewrite length_app. unfold hlen in Hlt. lia.
    + unfold hlen. cbn. rewrite Hlen. lia.
    + cbn. apply length_probabilityTable.
  - fold arr. destruct (Nat.leb_spec n (length arr)) as [Hcap|Hcap].
    + unfold reslice. fold arr. rewrite decide_True by done. rsimpl.
      eexists. split; [reflexivity|].
      assert (length (take n arr) = n) as Hlen by (rewrite length_take; lia).
      split_and!; try done; [|by apply Hdrop].
      apply (WF_header st _ ns Hwf);
      [reflexivity|reflexivity|reflexivity|reflexivity|reflexivity|..].
      * unfold hlen. cbn. rewrite Hlen. exact Hcov.
      * unfold hlen at 1. cbn. rewrite Hlen. intros i Hi.
        rewrite lookup_take_lt by done. apply Harr. lia.
      * unfold hlen. cbn. rewrite Hlen. lia.
      * cbn. apply length_probabilityTable.
    + eexists. split; [reflexivity|].
      assert (length (levels (lhdr (sl st)) ++ replicate (n - hlen st) (@None nat)) = n)
        as Hlen.
      { rewrite length_app, length_replicate. unfold hlen in *. lia. }
      split_and!; try done.
      apply (WF_header st _ ns Hwf);
      [reflexivity|reflexivity|reflexivity|reflexivity|reflexivity|..].
      * unfold hlen. cbn. fold (hlen st). rewrite Hlen. exact Hcov.
      * unfold hlen at 1. cbn. fold (hlen st). rewrite Hlen. intros i Hi.
        destruct (decide (i < hlen st)) as [Hold|Hnew].
        -- rewrite lookup_app_l by done. by apply Hhd.
        -- rewrite lookup_app_r by (unfold hlen in Hnew; lia).
           rewrite lookup_replicate_2 by (unfold hlen in *; lia).
           by rewrite (Hnone i (hlen st)) by (done || lia).
      * unfold hlen. cbn. fold (hlen st). rewrite Hlen. lia.
      * cbn. apply length_probabilityTable.
Qed.

(** The operations that insert and remove keep the spare capacity of the
    header. *)
Lemma exec_spare (o : @op K V) st st' :
  1 ≤ maxLevel (sl st) → length (probTable (sl st)) = maxLevel (sl st) →
  plain o = true → exec o st = Ok st' →
  spare (lhdr (sl st')) = spare (lhdr (sl st)).
Proof.
  intros Hm Hp Hplain Hex. destruct o as [k v|k| | |elem|level]; [..|done]; simpl in Hex.
  - apply fmap_Ok in Hex as ([p s] & HS & ->).
    by destruct (Set_steady st k v p s Hm Hp HS).
  - apply fmap_Ok in Hex as ([r s] & HR & ->). by destruct (Remove_steady st k r s HR).
  - apply fmap_Ok in Hex as ([r s] & HR & ->). by destruct (RemoveFront_steady st r s HR).
  - apply fmap_Ok in Hex as ([r s] & HR & ->). by destruct (RemoveBack_steady st r s HR).
  - by destruct (RemoveElement_steady st elem st' Hex).
Qed.

Lemma resize_ok_nodes st ns level :
  WF st ns →
  forallb (λ p, (Z.of_nat (level_at st p) <=? level)%Z) (chain st) = true →
  ∀ a, a ∈ ns → alvl a ≤ Z.to_nat level.
Proof.
  intros Hwf Hall a Ha. rewrite forallb_forall in Hall.
  specialize (Hall (aptr a)). rewrite (level_at_node st ns Hwf a Ha) in Hall.
  assert ((Z.of_nat (alvl a) <=? level)%Z = true) as Hle.
  { apply Hall. apply list_elem_of_In. by eapply elem_chain. }
  apply Z.leb_le in Hle. lia.
Qed.

Lemma exec_safe (o : @op K V) st ns st' :
  Comparator (comparable (sl st)) → WF st ns →
  Forall (λ x, x = None) (spare (lhdr (sl st))) →
  resize_ok o st = true → exec o st = Ok st' →
  ∃ ns', WF st' ns' ∧ Forall (λ x, x = None) (spare (lhdr (sl st')))
         ∧ comparable (sl st') = comparable (sl st)
         ∧ entries_of st' (aptr <$> ns')
           = spec_map_step (comparable (sl st)) o st (entries_of st (aptr <$> ns)).
Proof.
  intros Hcmp Hwf Hsp Hg Hex.
  destruct (plain o) eqn:Hplain.
  - destruct (exec_entries st ns Hwf Hcmp o st' Hplain Hex) as (ns' & Hwf' & Hc & He).
    exists ns'. split_and!; [done| |done..].
    by rewrite (exec_spare o st st' (proj1 (wf_max _ _ Hwf)) (wf_prob _ _ Hwf) Hplain Hex).
  - destruct o as [| | | | |level]; try done. simpl in Hg, Hex.
    destruct (Z.leb_spec level 0) as [Hle|Hpos].
    { by rewrite SetMaxLevel_nonpos in Hex. }
    destruct (SetMaxLevel_safe st ns level Hwf Hsp Hpos (resize_ok_nodes st ns level Hwf Hg))
      as (s & HS & Hwf' & Hsp' & Hc & Hh & _).
    rewrite HS in Hex. injection Hex as <-.
    exists ns. split_and!; [done..|]. simpl.
    apply entries_of_same. intros a _. unfold entry. by rewrite Hh.
Qed.

Lemma run_safe (os : list (@op K V)) : ∀ st ns st',
  Comparator (comparable (sl st)) → WF st ns →
  Forall (λ x, x = None) (spare (lhdr (sl st))) →
  resizes_ok os st = true → run os st = Ok st' →
  ∃ ns', WF st' ns' ∧ Forall (λ x, x = None) (spare (lhdr (sl st')))
         ∧ comparable (sl st') = comparable (sl st)
         ∧ entries_of st' (aptr <$> ns')
           = spec_map (comparable (sl st)) os st (entries_of st (aptr <$> ns)).
Proof.
  induction os as [|o os IH]; intros st ns st' Hcmp Hwf Hsp Hg H; simpl in H, Hg |- *.
  - injection H as <-. by exists ns.
  - apply andb_true_iff in Hg as [Hgo Hg].
    apply bind_Ok in H as (s & Ho & H). rewrite Ho in Hg |- *.
    destruct (exec_safe o st ns s Hcmp Hwf Hsp Hgo Ho) as (ns1 & Hwf1 & Hsp1 & Hc1 & Hk1).
    destruct (IH s ns1 st') as (ns' & Hwf' & Hsp' & Hc' & Hk'); [by rewrite Hc1|done..|].
    exists ns'. split_and!; [done..|by rewrite Hc', Hc1|].
    by rewrite Hk', Hc1, Hk1.
Qed.

(** The states reached from a new list without a [SetMaxLevel] that cuts
    a level in use are well-formed. *)
Lemma safe_WF (cmp : K → K → Z) rnd (h : list (@Element K V)) id os st :
  Comparator cmp → foreign id h → resizes_ok os (fresh cmp rnd h id) = true →
  run os (fresh cmp rnd h id) = Ok st →
  ∃ ns, WF st ns ∧ comparable (sl st) = cmp
        ∧ entries st = spec_map cmp os (fresh cmp rnd h id) [].
Proof.
  intros Hcmp Hf Hg Hrun.
  destruct (run_safe os (fresh cmp rnd h id) [] st Hcmp (fresh_WF cmp rnd h id Hf)
              ltac:(constructor) Hg Hrun) as (ns & Hwf & _ & Hc & He).
  exists ns. split_and!; [done..|]. by rewrite (entries_spec st ns Hwf).
Qed.

(** Sequences without [SetMaxLevel] are among them. *)
Lemma plain_resizes_ok (os : list (@op K V)) : ∀ st,
  forallb plain os = true → resizes_ok os st = true.
Proof.
  induction os as [|o os IH]; intros st Hpl; [done|]. simpl in *.
  apply andb_true_iff in Hpl as [Hpo Hpl].
  assert (resize_ok o st = true) as -> by (by destruct o).
  simpl. destruct (exec o st); [by apply IH|done..].
Qed.

End Resize.

(** * The properties of the operations *)

Section Properties.

Context {K V : Type}.
Implicit Types (st : @state K V) (ns : list (@anode K)) (e : @Element K V).
Variables (cmp : K → K → Z) (rnd : nat → Z) (h : list (@Element K V)) (id : nat).

(** C3: in every state that a sequence of [Set], [Remove], [RemoveFront],
    [RemoveBack] and [RemoveElement] reaches from a new list, the
    [prevTopLevel] of every element [p] of the level-0 chain is the nearest
    element before [p] in the chain that has at least as many levels as [p],
    and nil when there is none. *)
Theorem prevTopLevel_nearest_higher os st l1 p l2 :
  Comparator cmp → foreign id h → forallb plain os = true →
  run os (fresh cmp rnd h id) = Ok st →
  chain st = l1 ++ p :: l2 →
  prevTopLevel <$> heap st !! p = Some (nearest_ge st (level_at st p) l1).
Proof.
  intros Hcmp Hf Hpl Hrun Hchain.
  destruct (reach_WF cmp rnd h id os st Hcmp Hf Hpl Hrun) as (ns & Hwf & _).
  destruct (chain_split st ns l1 p l2 Hwf Hchain) as (pre & a & post & Hns & <- & <- & _).
  assert (a ∈ ns) as Ha by (rewrite Hns; apply elem_of_app; right; by left).
  destruct (wf_base _ _ Hwf a Ha) as (e & He & HL & _).
  rewrite He. simpl. f_equal.
  rewrite (wf_top _ _ Hwf pre a post e Hns He).
  rewrite (level_at_node st ns Hwf a Ha).
  apply (lastge_nearest st ns Hwf). intros b Hb. rewrite Hns. apply elem_of_app. by left.
Qed.

(** C4: in every such state the level-0 chain is strictly ascending under
    the comparator, so no two of its elements have equal keys; [Len] is
    the number of its elements; [Back] is its last element, and is nil
    exactly when [Len] is 0.  The keys of the chain are the keys inserted
    and not removed, as [spec_keys] replays them, and [Len] is their
    number. *)
Theorem chain_sorted_Len_Back os st :
  Comparator cmp → foreign id h → forallb plain os = true →
  run os (fresh cmp rnd h id) = Ok st →
  StronglySorted (node_lt st) (chain st)
  ∧ NoDup (chain st)
  ∧ (∀ k p q, p ∈ chain st → q ∈ chain st → key_eq st k p → key_eq st k q → p = q)
  ∧ Len st = Z.of_nat (length (chain st))
  ∧ Back st = last (chain st)
  ∧ (Back st = None ↔ Len st = 0%Z)
  ∧ keys st = spec_keys cmp os (fresh cmp rnd h id) []
  ∧ Len st = Z.of_nat (length (spec_keys cmp os (fresh cmp rnd h id) [])).
Proof.
  intros Hcmp Hf Hpl Hrun.
  destruct (run_keys os (fresh cmp rnd h id) [] st Hcmp (fresh_WF cmp rnd h id Hf) Hpl Hrun)
    as (ns & Hwf & Hc & Hkeys).
  change (comparable (sl (fresh cmp rnd h id))) with cmp in Hc, Hkeys.
  change (akey <$> []) with (@nil K) in Hkeys.
  rewrite <-Hc in Hcmp.
  pose proof (chain_spec st ns Hwf) as Hchain.
  assert (Len st = Z.of_nat (length (chain st))) as Hlen.
  { unfold Len. by rewrite (wf_len _ _ Hwf), Hchain, length_fmap. }
  assert (Back st = last (chain st)) as Hback.
  { unfold Back. by rewrite (wf_back _ _ Hwf), Hchain, fmap_last. }
  split_and!; [by eapply node_lt_sorted| | |done|done| | |].
  - rewrite Hchain. apply (wf_nodup _ _ Hwf).
  - intros k p q Hp Hq Hkp Hkq.
    destruct (key_eq_node st ns Hwf k p Hp Hkp) as (a & Ha & <- & Hka).
    destruct (key_eq_node st ns Hwf k q Hq Hkq) as (b & Hb & <- & Hkb).
    by rewrite (eq_key_unique st ns Hwf Hcmp k a b).
  - rewrite Hback, Hlen. rewrite last_None. split.
    + by intros ->.
    + intros H0. apply length_zero_iff_nil. lia.
  - by rewrite (keys_spec st ns Hwf).
  - by rewrite Hlen, Hchain, <-Hkeys, !length_fmap.
Qed.

(** In every state that the operations reach from a new list without a
    [SetMaxLevel] below the levels in use ([resizes_ok]), [Set] on a key
    that the list holds replaces the value of the element that holds it and
    returns that element; no pointer, no level and no field of the list
    changes, so [Len] and the chain stay, and [Get] then finds the element,
    with the new value.  A second [Set] on the key of a first one returns
    the element that the first returned. *)
Theorem Set_existing_key_in_place os st k (v1 v2 : V) :
  Comparator cmp → foreign id h → resizes_ok os (fresh cmp rnd h id) = true →
  run os (fresh cmp rnd h id) = Ok st →
  (∀ p e, p ∈ chain st → heap st !! p = Some e → cmp k (key e) = 0%Z →
     Set' k v2 st = Ok (p, with_value st p v2)
     ∧ heap (with_value st p v2) = <[p := set_Value v2 e]> (heap st)
     ∧ sl (with_value st p v2) = sl st
     ∧ chain (with_value st p v2) = chain st
     ∧ Len (with_value st p v2) = Len st
     ∧ Get k (with_value st p v2) = Ok (Some p)
     ∧ MustGetValue k (with_value st p v2) = Ok v2)
  ∧ (∀ p1 st1, Set' k v1 st = Ok (p1, st1) →
     p1 ∈ chain st1
     ∧ Set' k v2 st1 = Ok (p1, with_value st1 p1 v2)
     ∧ sl (with_value st1 p1 v2) = sl st1
     ∧ chain (with_value st1 p1 v2) = chain st1
     ∧ Len (with_value st1 p1 v2) = Len st1
     ∧ Get k (with_value st1 p1 v2) = Ok (Some p1)
     ∧ MustGetValue k (with_value st1 p1 v2) = Ok v2).
Proof.
  intros Hcmp Hf Hpl Hrun.
  destruct (safe_WF cmp rnd h id os st Hcmp Hf Hpl Hrun) as (ns & Hwf & Hc & _).
  rewrite <-Hc in Hcmp |- *. split.
  - intros p e Hp He Hk.
    destruct (chain_elem st ns p Hwf Hp) as (d & Hd & <-).
    destruct (node_lookup st ns d e Hwf Hd He) as (Hkd & _). rewrite Hkd in Hk.
    destruct (Set_present st ns Hwf Hcmp k v2 d e Hd He Hk)
      as (? & _ & ? & ? & ? & ? & ? & ?).
    done.
  - intros p1 st1 HS.
    destruct (Set_result st ns Hwf Hcmp k v1 p1 st1 HS)
      as (ns1 & d & e1 & Hwf1 & Hc1 & Hd & <- & He1 & Hk).
    assert (Comparator (comparable (sl st1))) as Hcmp1 by (by rewrite Hc1).
    rewrite <-Hc1 in Hk.
    destruct (Set_present st1 ns1 Hwf1 Hcmp1 k v2 d e1 Hd He1 Hk)
      as (? & _ & ? & ? & ? & ? & HG & HM).
    split_and!; try done. by eapply elem_chain.
Qed.

(** In every state that the operations reach from a new list without a
    [SetMaxLevel] below the levels in use ([resizes_ok]), [Find] returns
    the element with the smallest key that is at least the key asked for,
    or nil when there is none; [FindNext] from an element of the list
    returns that element when its key is at least the key asked for, and
    else the first element after it whose key is, or nil; [Get] returns the
    element whose key compares equal, or nil. *)
Theorem Find_FindNext_Get_ceiling os st k :
  Comparator cmp → foreign id h → resizes_ok os (fresh cmp rnd h id) = true →
  run os (fresh cmp rnd h id) = Ok st →
  (∃ r, Find k st = Ok r ∧ ceiling st k (chain st) r)
  ∧ (∀ l1 s l2, chain st = l1 ++ s :: l2 →
       ∃ r, FindNext (Some s) k st = Ok r ∧ ceiling st k (s :: l2) r
            ∧ (key_le st k s → r = Some s)
            ∧ (key_gt st k s → Find k st = Ok r))
  ∧ (∃ r, Get k st = Ok r
          ∧ match r with
            | Some p => p ∈ chain st ∧ key_eq st k p
            | None => ∀ q, q ∈ chain st → ¬ key_eq st k q
            end).
Proof.
  intros Hcmp Hf Hpl Hrun.
  destruct (safe_WF cmp rnd h id os st Hcmp Hf Hpl Hrun) as (ns & Hwf & Hc & _).
  rewrite <-Hc in Hcmp. split_and!.
  - by apply (Find_ceiling st ns).
  - intros l1 s l2 Hchain.
    destruct (chain_split st ns l1 s l2 Hwf Hchain) as (pre & a & post & Hns & _ & <- & <-).
    assert (a ∈ ns) as Ha by (rewrite Hns; apply elem_of_app; right; by left).
    destruct (FindNext_ceiling st ns Hwf Hcmp k pre a post Hns) as (r & HF & Hceil & Hle & Hgt).
    exists r. split_and!; [done..| |].
    + intros Hk. apply Hle. by apply (key_le_node st ns Hwf k a Ha).
    + intros Hk. apply Hgt. by apply (key_gt_node st ns Hwf k a Ha).
  - by apply (Get_result st ns).
Qed.

(** C7: [RemoveElement] on nil, on an element of another list and on an
    element that was removed changes nothing and returns; and after any
    [RemoveElement] that returns, the element is no element of the list, so
    that a second [RemoveElement] on it changes nothing. *)
Theorem RemoveElement_noop_idempotent st elem :
  (dead st elem → RemoveElement elem st = Ok st)
  ∧ (∀ st', RemoveElement elem st = Ok st' →
       dead st' elem ∧ RemoveElement elem st' = Ok st').
Proof.
  split; [apply dead_noop|]. intros st' H.
  pose proof (RemoveElement_dead st elem st' H) as Hd.
  split; [done|]. by apply dead_noop.
Qed.

(** C8, amended: in every state that the operations reach from a new
    list without a [SetMaxLevel] below the levels in use ([resizes_ok]),
    for a key that the list does not hold, [Get] and [GetValue] return
    nothing and [Remove] returns nil and changes nothing; [Find] and
    [FindNext] return the ceiling of the key, which is nil only when every
    key of the list is below it; none of them panics.  On the empty list
    [RemoveFront] and [RemoveBack] return nil and change nothing. *)
Theorem absent_key_results os st k :
  Comparator cmp → foreign id h → resizes_ok os (fresh cmp rnd h id) = true →
  run os (fresh cmp rnd h id) = Ok st →
  (∀ q, q ∈ chain st → ¬ key_eq st k q) →
  Get k st = Ok None ∧ GetValue k st = Ok None ∧ Remove k st = Ok (None, st)
  ∧ (∃ r, Find k st = Ok r ∧ ceiling st k (chain st) r
          ∧ (r = None ↔ ∀ q, q ∈ chain st → key_gt st k q))
  ∧ (∀ l1 s l2, chain st = l1 ++ s :: l2 →
       ∃ r, FindNext (Some s) k st = Ok r ∧ ceiling st k (s :: l2) r)
  ∧ (Len st = 0%Z →
       RemoveFront st = Ok (None, st) ∧ RemoveBack st = Ok (None, st)
       ∧ Find k st = Ok None).
Proof.
  intros Hcmp Hf Hpl Hrun Hno.
  destruct (safe_WF cmp rnd h id os st Hcmp Hf Hpl Hrun) as (ns & Hwf & Hc & _).
  rewrite <-Hc in Hcmp.
  pose proof (no_key_eq st ns Hwf k Hno) as Hno'.
  pose proof (Get_miss st ns Hwf Hcmp k Hno') as HG.
  destruct (Find_ceiling st ns Hwf Hcmp k) as (r & HF & Hceil).
  assert (r = None ↔ ∀ q, q ∈ chain st → key_gt st k q) as Hnone.
  { split; [by intros ->|]. intros Hall. destruct r as [p|]; [exfalso|done].
    destruct Hceil as (Hp & (e & He & Hle) & _).
    destruct (Hall p Hp) as (e' & He' & Hgt). assert (e' = e) as -> by congruence. lia. }
  split_and!.
  - done.
  - unfold GetValue. by rewrite HG.
  - by apply (Remove_miss st ns Hwf Hcmp).
  - by exists r.
  - intros l1 s l2 Hchain.
    destruct (chain_split st ns l1 s l2 Hwf Hchain) as (pre & a & post & Hns & _ & <- & <-).
    destruct (FindNext_ceiling st ns Hwf Hcmp k pre a post Hns) as (r' & ? & ? & _).
    by exists r'.
  - intros H0. unfold RemoveFront, RemoveBack. unfold Len in H0. rewrite H0. simpl.
    split_and!; [done..|]. rewrite HF. f_equal. apply Hnone.
    rewrite (chain_spec st ns Hwf).
    assert (ns = []) as ->; [|by intros q Hq; apply elem_of_nil in Hq].
    apply length_zero_iff_nil. pose proof (wf_len _ _ Hwf). lia.
Qed.

(** In every state that the operations reach from a new list without a
    [SetMaxLevel] below the levels in use ([resizes_ok]), [MustGetValue]
    panics on a key that the list does not hold and returns the value of
    the element that holds the key otherwise; [SetMaxLevel] panics on a
    level that is not positive and returns on every positive level (in
    this model, in which memory never runs out). *)
Theorem MustGetValue_SetMaxLevel_panics os st k level :
  Comparator cmp → foreign id h → resizes_ok os (fresh cmp rnd h id) = true →
  run os (fresh cmp rnd h id) = Ok st →
  ((level ≤ 0)%Z → SetMaxLevel level st = Panic PanicLevel)
  ∧ ((0 < level)%Z → ∃ st', SetMaxLevel level st = Ok (Z.of_nat (hlen st), st'))
  ∧ ((∀ q, q ∈ chain st → ¬ key_eq st k q) →
       MustGetValue k st = Panic PanicKeyNotFound)
  ∧ (∀ p e, p ∈ chain st → heap st !! p = Some e → cmp k (key e) = 0%Z →
       MustGetValue k st = Ok (Value e)).
Proof.
  intros Hcmp Hf Hpl Hrun.
  destruct (safe_WF cmp rnd h id os st Hcmp Hf Hpl Hrun) as (ns & Hwf & Hc & _).
  rewrite <-Hc in Hcmp |- *. split_and!.
  - apply SetMaxLevel_nonpos.
  - intros Hpos. destruct (SetMaxLevel_total st level Hpos) as (st' & ? & _).
    by exists st'.
  - intros Hno. unfold MustGetValue.
    by rewrite (Get_miss st ns Hwf Hcmp k (no_key_eq st ns Hwf k Hno)).
  - intros p e Hp He Hk.
    destruct (chain_elem st ns p Hwf Hp) as (d & Hd & <-).
    destruct (node_lookup st ns d e Hwf Hd He) as (Hkd & _). rewrite Hkd in Hk.
    unfold MustGetValue. rewrite (Get_hit st ns Hwf Hcmp k d Hd Hk). rsimpl.
    by rewrite (deref_Some _ _ _ He).
Qed.

(** C10: in every state that a sequence of operations, [SetMaxLevel]
    among them, reaches from a new list, the header has at least [maxLevel]
    levels; [randLevel] returns a level between 1 and [maxLevel], so that
    every level below it is a level of the header, where a write returns;
    every element of the list has at least one level, and an element that
    [Set] adds has at most the [maxLevel] of the list it is added to. *)
Theorem header_covers_levels os st :
  foreign id h → run os (fresh cmp rnd h id) = Ok st →
  1 ≤ maxLevel (sl st) ≤ hlen st
  ∧ (∃ level,
       randLevel st
       = Ok (level, set_sl st (set_randPos (S (randPos (sl st))) (sl st)))
       ∧ 1 ≤ level ≤ maxLevel (sl st)
       ∧ ∀ i v, i < level →
           i < hlen st ∧ ∃ st2, set_levels_at st HList i v = Ok st2)
  ∧ (∀ p e, heap st !! p = Some e → list_ e = Some (this st) → 1 ≤ Level e)
  ∧ (∀ k (v : V) p st', Set' k v st = Ok (p, st') →
       (∃ e, heap st !! p = Some e)
       ∨ (p = length (heap st)
          ∧ ∃ e', heap st' !! p = Some e' ∧ 1 ≤ Level e' ≤ maxLevel (sl st)
                  ∧ list_ e' = Some (this st))).
Proof.
  intros Hf Hrun.
  pose proof (run_sizes os _ st (fresh_sizes cmp rnd h id Hf) Hrun) as (Hm & Hp & Ho).
  split_and!; [lia|lia| |done|].
  - destruct (randLevel_spec st ltac:(lia) Hp) as (level & Hrl & Hlevel).
    exists level. split_and!; [done|lia|lia|]. intros i v Hi.
    split; [lia|]. rewrite set_levels_at_list by lia. by eexists.
  - intros k v p st' HS.
    by destruct (Set_grows st k v p st' ltac:(lia) Hp HS) as [_ ?].
Qed.

(** C1, as the code has it: when an element of the list has more levels
    than the level asked for, [SetMaxLevel] cuts the header right below its
    highest level in use, and so drops a level that holds an element [q]:
    at that level [q] is the first element of the list and has no header
    before it. *)
Theorem SetMaxLevel_shrink_cuts_live_level os st level p :
  Comparator cmp → foreign id h → forallb plain os = true →
  run os (fresh cmp rnd h id) = Ok st →
  (0 < level)%Z → p ∈ chain st → Z.to_nat level < level_at st p →
  ∃ st' q, SetMaxLevel level st = Ok (Z.of_nat (hlen st), st')
           ∧ heap st' = heap st
           ∧ q ∈ chain st
           ∧ levels (lhdr (sl st)) !! hlen st' = Some (Some q)
           ∧ hlen st' < level_at st q
           ∧ hlen st' < hlen st.
Proof.
  intros Hcmp Hf Hpl Hrun Hpos Hp Hlv.
  destruct (reach_WF cmp rnd h id os st Hcmp Hf Hpl Hrun) as (ns & Hwf & Hc).
  destruct (chain_elem st ns p Hwf Hp) as (a & Ha & <-).
  rewrite (level_at_node st ns Hwf a Ha) in Hlv.
  pose proof (wf_lvl _ _ Hwf a Ha) as Hal.
  destruct (SetMaxLevel_shrink st level Hpos ltac:(lia))
    as (r & st' & Hscan & HS & _ & Hh & Hr & Hheap & _).
  destruct (SetMaxLevel_scan_spec (levels (lhdr (sl st))) (Z.to_nat level) (hlen st))
    as (r' & Hscan' & Hcase); [done|].
  rewrite Hscan in Hscan'. injection Hscan' as <-.
  assert (∀ i, i < hlen st → levels (lhdr (sl st)) !! i = Some (nxt i ns)) as Hlook.
  { intros i Hi. by destruct (wf_fwd _ _ Hwf i) as [Hhd _]; apply Hhd. }
  destruct Hcase as [[-> Hnone]|(Hr1 & [q Hq] & _)].
  - exfalso. specialize (Hnone (alvl a - 1) ltac:(lia)).
    rewrite Hlook in Hnone by lia. injection Hnone as Hnone.
    apply nxt_None in Hnone. rewrite Forall_forall in Hnone.
    specialize (Hnone a Ha). simpl in Hnone. lia.
  - rewrite Hlook in Hq by lia. injection Hq as Hq.
    destruct (nxt_Some _ _ _ Hq) as (l1 & b & l2 & Hns & <- & Hb & _).
    assert (b ∈ ns) as Hbn by (rewrite Hns; apply elem_of_app; right; by left).
    exists st', (aptr b). rewrite Hh. split_and!; [done..| | | |done].
    + by eapply elem_chain.
    + rewrite Hlook by lia. by rewrite Hq.
    + by rewrite (level_at_node st ns Hwf b Hbn).
Qed.

(** C2, as the code has it: when [SetMaxLevel] grows the header within its
    capacity, the levels that come into view hold what the spare capacity
    held, which a shrink that dropped a level in use left there. *)
Theorem SetMaxLevel_regrow_exposes_spare st level :
  hlen st < Z.to_nat level →
  Z.to_nat level ≤ length (levels (lhdr (sl st)) ++ spare (lhdr (sl st))) →
  ∃ st', SetMaxLevel level st = Ok (Z.of_nat (hlen st), st')
         ∧ levels (lhdr (sl st'))
           = levels (lhdr (sl st))
             ++ take (Z.to_nat level - hlen st) (spare (lhdr (sl st)))
         ∧ heap st' = heap st.
Proof. apply SetMaxLevel_regrow. Qed.

(** Every inserting or removing operation returns in every state that
    such operations reach: no panic, and the bounds on the loops of the
    model are never met. *)
Theorem operations_return os st (o : @op K V) :
  Comparator cmp → foreign id h → forallb plain os = true →
  run os (fresh cmp rnd h id) = Ok st →
  plain o = true → (∀ p, o = ORemoveElement (Some p) → p < length (heap st)) →
  ∃ st', exec o st = Ok st'.
Proof.
  intros Hcmp Hf Hpl Hrun Hpo Hp.
  destruct (reach_WF cmp rnd h id os st Hcmp Hf Hpl Hrun) as (ns & Hwf & Hc).
  rewrite <-Hc in Hcmp.
  destruct (exec_WF o st ns Hcmp Hwf Hpo Hp) as (st' & _ & ? & _). by exists st'.
Qed.

(** In every state that the operations reach from a new list without a
    [SetMaxLevel] below the levels in use ([resizes_ok]), [Set] on a key
    that the list does not hold adds an element at the place of the key in
    the chain, with the value given; [Len] grows by one and [Get] finds
    the element. *)
Theorem Set_absent_key_inserts os st k (v : V) :
  Comparator cmp → foreign id h → resizes_ok os (fresh cmp rnd h id) = true →
  run os (fresh cmp rnd h id) = Ok st →
  (∀ q, q ∈ chain st → ¬ key_eq st k q) →
  ∃ st' l1 l2,
    Set' k v st = Ok (length (heap st), st')
    ∧ chain st = l1 ++ l2 ∧ chain st' = l1 ++ length (heap st) :: l2
    ∧ (∀ q, q ∈ l1 → key_gt st k q) ∧ (∀ q, q ∈ l2 → key_le st k q)
    ∧ Len st' = (Len st + 1)%Z
    ∧ Get k st' = Ok (Some (length (heap st)))
    ∧ MustGetValue k st' = Ok v.
Proof.
  intros Hcmp Hf Hpl Hrun Hno.
  destruct (safe_WF cmp rnd h id os st Hcmp Hf Hpl Hrun) as (ns & Hwf & Hc & _).
  rewrite <-Hc in Hcmp.
  pose proof (no_key_eq st ns Hwf k Hno) as Hno'.
  destruct (Set_spec st ns k v Hcmp Hwf)
    as (p & st' & ns' & HS & Hwf' & (e & He & Hv & _) & Hcase).
  destruct Hcase as [(d & ? & Hd & Hk & _)|(_ & -> & pre & post & lv & Hns & -> & _ & Hpre & Hpost)].
  { by destruct (Hno' d Hd). }
  destruct (Set_result st ns Hwf Hcmp k v _ st' HS) as (_ & _ & _ & _ & Hc' & _).
  assert (Comparator (comparable (sl st'))) as Hcmp' by (by rewrite Hc').
  set (x := mkA (length (heap st)) lv k) in *.
  assert (x ∈ pre ++ x :: post) as Hx by (apply elem_of_app; right; by left).
  assert (Get k st' = Ok (Some (length (heap st)))) as HG.
  { apply (Get_hit st' _ Hwf' Hcmp' k x Hx). apply (cmp_refl _ Hcmp'). }
  exists st', (aptr <$> pre), (aptr <$> post). split_and!; [done|..].
  - by rewrite (chain_spec st ns Hwf), Hns, fmap_app.
  - by rewrite (chain_spec st' _ Hwf'), fmap_app, fmap_cons.
  - intros q (a & -> & Ha)%list_elem_of_fmap.
    apply (key_gt_node st ns Hwf k a); [rewrite Hns; apply elem_of_app; by left|].
    rewrite Forall_forall in Hpre. by apply Hpre.
  - intros q (a & -> & Ha)%list_elem_of_fmap.
    apply (key_le_node st ns Hwf k a); [rewrite Hns; apply elem_of_app; by right|].
    rewrite Forall_forall in Hpost. specialize (Hpost a Ha). simpl in Hpost. lia.
  - unfold Len. rewrite (wf_len _ _ Hwf'), (wf_len _ _ Hwf), Hns, !length_app.
    simpl. lia.
  - done.
  - unfold MustGetValue. rewrite HG. rsimpl. rewrite (deref_Some _ _ _ He). rsimpl.
    by rewrite Hv.
Qed.

(** In every state that the operations reach from a new list without a
    [SetMaxLevel] below the levels in use ([resizes_ok]), [Remove] on a key
    that the list holds takes the element that holds it out of the chain
    and returns it; [Len] shrinks by one, [Get] finds the key no more, and
    the element is no element of the list any more. *)
Theorem Remove_present_key os st k p :
  Comparator cmp → foreign id h → resizes_ok os (fresh cmp rnd h id) = true →
  run os (fresh cmp rnd h id) = Ok st →
  p ∈ chain st → key_eq st k p →
  ∃ st' l1 l2,
    Remove k st = Ok (Some p, st')
    ∧ chain st = l1 ++ p :: l2 ∧ chain st' = l1 ++ l2
    ∧ Len st' = (Len st - 1)%Z
    ∧ Get k st' = Ok None
    ∧ dead st' (Some p).
Proof.
  intros Hcmp Hf Hpl Hrun Hp Hk.
  destruct (safe_WF cmp rnd h id os st Hcmp Hf Hpl Hrun) as (ns & Hwf & Hc & _).
  rewrite <-Hc in Hcmp.
  destruct (key_eq_node st ns Hwf k p Hp Hk) as (d & Hd & <- & Hkd).
  destruct (Remove_hit st ns Hwf Hcmp k d Hd Hkd) as (st' & pre & post & Hns & HR & Hwf' & Hc').
  assert (Comparator (comparable (sl st'))) as Hcmp' by (by rewrite Hc').
  exists st', (aptr <$> pre), (aptr <$> post). split_and!; [done|..].
  - by rewrite (chain_spec st ns Hwf), Hns, fmap_app, fmap_cons.
  - by rewrite (chain_spec st' _ Hwf'), fmap_app.
  - unfold Len. rewrite (wf_len _ _ Hwf'), (wf_len _ _ Hwf), Hns, !length_app.
    simpl. lia.
  - apply (Get_miss st' _ Hwf' Hcmp'). intros a Ha Hka. rewrite Hc' in Hka.
    apply (not_in_rest st ns Hwf pre d post a Hns Ha).
    apply (eq_key_unique st ns Hwf Hcmp k a d); try done.
    rewrite Hns. apply elem_of_app in Ha as [|]; apply elem_of_app; [by left|right; by right].
  - unfold Remove in HR. rewrite (Get_hit st ns Hwf Hcmp k d Hd Hkd) in HR.
    rsimpl in HR. apply bind_Ok in HR as (s & HRE & [= <-]).
    by apply (RemoveElement_dead st (Some (aptr d)) s).
Qed.

(** In every state that the operations reach from a new list without a
    [SetMaxLevel] below the levels in use ([resizes_ok]), [RemoveFront]
    and [RemoveBack] take the first and the last element out of the chain
    and return it. *)
Theorem RemoveFront_RemoveBack_ends os st :
  Comparator cmp → foreign id h → resizes_ok os (fresh cmp rnd h id) = true →
  run os (fresh cmp rnd h id) = Ok st →
  (∀ p l, chain st = p :: l →
     ∃ st', RemoveFront st = Ok (Some p, st') ∧ chain st' = l
            ∧ Len st' = (Len st - 1)%Z)
  ∧ (∀ p l, chain st = l ++ [p] →
       ∃ st', RemoveBack st = Ok (Some p, st') ∧ chain st' = l
              ∧ Len st' = (Len st - 1)%Z).
Proof.
  intros Hcmp Hf Hpl Hrun.
  destruct (safe_WF cmp rnd h id os st Hcmp Hf Hpl Hrun) as (ns & Hwf & Hc & _).
  pose proof (chain_spec st ns Hwf) as Hchain. split.
  - intros p l Hch. rewrite Hchain in Hch.
    apply fmap_cons_inv in Hch as (a & l' & -> & -> & Hns).
    pose proof (RemoveFront_spec st ns Hwf) as H. rewrite Hns in H.
    destruct H as (st' & HR & Hwf' & _). exists st'. split_and!; [done|..].
    + by rewrite (chain_spec st' l' Hwf').
    + unfold Len. rewrite (wf_len _ _ Hwf'), (wf_len _ _ Hwf), Hns. simpl. lia.
  - intros p l Hch. rewrite Hchain in Hch.
    apply fmap_app_inv in Hch as (l' & r & -> & Hr & Hns).
    symmetry in Hr. apply fmap_cons_inv in Hr as (a & r' & -> & Hr' & ->).
    symmetry in Hr'. apply fmap_nil_inv in Hr' as ->.
    pose proof (RemoveBack_spec st ns Hwf) as H. rewrite Hns, last_snoc in H.
    destruct H as (st' & l0 & Hl0 & HR & Hwf' & _).
    apply app_inj_tail in Hl0 as [<- _].
    exists st'. split_and!; [done|..].
    + by rewrite (chain_spec st' l' Hwf').
    + unfold Len. rewrite (wf_len _ _ Hwf'), (wf_len _ _ Hwf), Hns, length_app.
      simpl. lia.
Qed.

(** [SetMaxLevel] with a positive level returns the number of levels that
    the header had and changes no element, nor [Len], [Back] or the level-0
    chain, in any state that operations reach, resizes among them. *)
Theorem SetMaxLevel_keeps_elements os st level :
  foreign id h → run os (fresh cmp rnd h id) = Ok st → (0 < level)%Z →
  ∃ st', SetMaxLevel level st = Ok (Z.of_nat (hlen st), st')
         ∧ heap st' = heap st ∧ Len st' = Len st ∧ Back st' = Back st
         ∧ chain st' = chain st ∧ MaxLevel st' = Z.to_nat level.
Proof.
  intros Hf Hrun Hpos.
  pose proof (run_sizes os _ st (fresh_sizes cmp rnd h id Hf) Hrun) as (Hm & _).
  destruct (SetMaxLevel_total st level Hpos)
    as (st' & HS & Hh & _ & Hml & _ & _ & _ & Hlen & Hbk & H0).
  exists st'. split_and!; try done.
  unfold chain. rewrite Hh, H0 by lia.
  generalize (default None (levels (lhdr (sl st)) !! 0)) as o.
  generalize (length (heap st)) as n.
  induction n as [|n IH]; intros o; [done|]. simpl.
  destruct o as [q|]; [|done]. rewrite Hh. f_equal.
  destruct (heap st !! q); [apply IH|done].
Qed.

End Properties.

Lemma prevTopLevel_nearest_higher_witness :
  prevTopLevel <$> heap (ex_after ex_mixed) !! 3
  = Some (nearest_ge (ex_after ex_mixed) (level_at (ex_after ex_mixed) 3) [1; 4]).
Proof.
  apply (prevTopLevel_nearest_higher NumberComparator ex_rnd [] 0 ex_mixed
           (ex_after ex_mixed) [1; 4] 3 [2]).
  - exact NumberComparator_laws.
  - apply foreign_nil.
  - reflexivity.
  - vm_compute. reflexivity.
  - vm_compute. reflexivity.
Defined.

Lemma chain_sorted_Len_Back_witness :
  StronglySorted (node_lt (ex_after ex_mixed)) (chain (ex_after ex_mixed))
  ∧ NoDup (chain (ex_after ex_mixed))
  ∧ (∀ k p q, p ∈ chain (ex_after ex_mixed) → q ∈ chain (ex_after ex_mixed) →
       key_eq (ex_after ex_mixed) k p → key_eq (ex_after ex_mixed) k q → p = q)
  ∧ Len (ex_after ex_mixed) = Z.of_nat (length (chain (ex_after ex_mixed)))
  ∧ Back (ex_after ex_mixed) = last (chain (ex_after ex_mixed))
  ∧ (Back (ex_after ex_mixed) = None ↔ Len (ex_after ex_mixed) = 0%Z)
  ∧ keys (ex_after ex_mixed) = spec_keys NumberComparator ex_mixed ex_fresh []
  ∧ Len (ex_after ex_mixed)
    = Z.of_nat (length (spec_keys NumberComparator ex_mixed ex_fresh [])).
Proof.
  apply (chain_sorted_Len_Back NumberComparator ex_rnd [] 0 ex_mixed).
  - exact NumberComparator_laws.
  - apply foreign_nil.
  - reflexivity.
  - vm_compute. reflexivity.
Defined.

(** ** The properties on example lists *)

Lemma ex_ops_run : run ex_ops ex_fresh = Ok (ex_after ex_ops).
Proof. vm_compute. reflexivity. Qed.

Lemma ex_ops_chain : chain (ex_after ex_ops) = [1; 0; 3; 2].
Proof. vm_compute. reflexivity. Qed.

(** The example list holds the keys 10, 20, 30 and 40, and not 25. *)
Lemma ex_no_25 : ∀ q, q ∈ chain (ex_after ex_ops) → ¬ key_eq (ex_after ex_ops) 25%Z q.
Proof.
  intros q Hq Hk. apply key_eq_lookup in Hk. rewrite ex_ops_chain in Hq.
  apply list_elem_of_In in Hq. simpl in Hq.
  destruct Hq as [<-|[<-|[<-|[<-|[]]]]]; revert Hk; vm_compute; discriminate.
Qed.

Lemma ex_resized_ok_chain : chain (ex_after ex_resized_ok) = [1; 0; 3; 2].
Proof. vm_compute. reflexivity. Qed.

(** The resized example list holds the keys 10, 20, 30 and 40, and not 25. *)
Lemma ex_resized_ok_no_25 :
  ∀ q, q ∈ chain (ex_after ex_resized_ok) → ¬ key_eq (ex_after ex_resized_ok) 25%Z q.
Proof.
  intros q Hq Hk. apply key_eq_lookup in Hk. rewrite ex_resized_ok_chain in Hq.
  apply list_elem_of_In in Hq. simpl in Hq.
  destruct Hq as [<-|[<-|[<-|[<-|[]]]]]; revert Hk; vm_compute; discriminate.
Qed.

Lemma Set_existing_key_in_place_witness :
  Set' 20%Z 2%Z (ex_after ex_resized_ok) = Ok (0, with_value (ex_after ex_resized_ok) 0 2%Z)
  ∧ Len (with_value (ex_after ex_resized_ok) 0 2%Z) = Len (ex_after ex_resized_ok)
  ∧ Get 20%Z (with_value (ex_after ex_resized_ok) 0 2%Z) = Ok (Some 0)
  ∧ MustGetValue 20%Z (with_value (ex_after ex_resized_ok) 0 2%Z) = Ok 2%Z.
Proof.
  destruct (Set_existing_key_in_place NumberComparator ex_rnd [] 0 ex_resized_ok
              (ex_after ex_resized_ok) 20%Z 1%Z 2%Z) as [Hin _].
  - exact NumberComparator_laws.
  - apply foreign_nil.
  - vm_compute. reflexivity.
  - vm_compute. reflexivity.
  - edestruct (Hin 0) as (H1 & _ & _ & _ & H5 & H6 & H7).
    + apply list_elem_of_In. vm_compute. right. left. reflexivity.
    + vm_compute. reflexivity.
    + vm_compute. reflexivity.
    + exact (conj H1 (conj H5 (conj H6 H7))).
Defined.

Lemma Find_FindNext_Get_ceiling_witness :
  (∃ r, Find 25%Z (ex_after ex_resized_ok) = Ok r
        ∧ ceiling (ex_after ex_resized_ok) 25%Z (chain (ex_after ex_resized_ok)) r)
  ∧ (∀ l1 s l2, chain (ex_after ex_resized_ok) = l1 ++ s :: l2 →
       ∃ r, FindNext (Some s) 25%Z (ex_after ex_resized_ok) = Ok r
            ∧ ceiling (ex_after ex_resized_ok) 25%Z (s :: l2) r
            ∧ (key_le (ex_after ex_resized_ok) 25%Z s → r = Some s)
            ∧ (key_gt (ex_after ex_resized_ok) 25%Z s → Find 25%Z (ex_after ex_resized_ok) = Ok r))
  ∧ (∃ r, Get 25%Z (ex_after ex_resized_ok) = Ok r
          ∧ match r with
            | Some p => p ∈ chain (ex_after ex_resized_ok) ∧ key_eq (ex_after ex_resized_ok) 25%Z p
            | None => ∀ q, q ∈ chain (ex_after ex_resized_ok) → ¬ key_eq (ex_after ex_resized_ok) 25%Z q
            end).
Proof.
  apply (Find_FindNext_Get_ceiling NumberComparator ex_rnd [] 0 ex_resized_ok).
  - exact NumberComparator_laws.
  - apply foreign_nil.
  - vm_compute. reflexivity.
  - vm_compute. reflexivity.
Defined.

Lemma absent_key_results_witness :
  Get 25%Z (ex_after ex_resized_ok) = Ok None
  ∧ GetValue 25%Z (ex_after ex_resized_ok) = Ok None
  ∧ Remove 25%Z (ex_after ex_resized_ok) = Ok (None, ex_after ex_resized_ok)
  ∧ (∃ r, Find 25%Z (ex_after ex_resized_ok) = Ok r
          ∧ ceiling (ex_after ex_resized_ok) 25%Z (chain (ex_after ex_resized_ok)) r
          ∧ (r = None ↔ ∀ q, q ∈ chain (ex_after ex_resized_ok) → key_gt (ex_after ex_resized_ok) 25%Z q))
  ∧ (∀ l1 s l2, chain (ex_after ex_resized_ok) = l1 ++ s :: l2 →
       ∃ r, FindNext (Some s) 25%Z (ex_after ex_resized_ok) = Ok r
            ∧ ceiling (ex_after ex_resized_ok) 25%Z (s :: l2) r)
  ∧ (Len (ex_after ex_resized_ok) = 0%Z →
       RemoveFront (ex_after ex_resized_ok) = Ok (None, ex_after ex_resized_ok)
       ∧ RemoveBack (ex_after ex_resized_ok) = Ok (None, ex_after ex_resized_ok)
       ∧ Find 25%Z (ex_after ex_resized_ok) = Ok None).
Proof.
  apply (absent_key_results NumberComparator ex_rnd [] 0 ex_resized_ok).
  - exact NumberComparator_laws.
  - apply foreign_nil.
  - vm_compute. reflexivity.
  - vm_compute. reflexivity.
  - exact ex_resized_ok_no_25.
Defined.

(** [Find] on a key that the list does not hold returns the element with
    the next key, not nil: the list holds the key 10 only, and is asked
    for 5. *)
Lemma Find_absent_key_returns_ceiling :
  run [OSet 10%Z 100%Z] ex_fresh = Ok (ex_after [OSet 10%Z 100%Z])
  ∧ chain (ex_after [OSet 10%Z 100%Z]) = [0]
  ∧ Get 5%Z (ex_after [OSet 10%Z 100%Z]) = Ok None
  ∧ Find 5%Z (ex_after [OSet 10%Z 100%Z]) = Ok (Some 0)
  ∧ FindNext (Some 0) 5%Z (ex_after [OSet 10%Z 100%Z]) = Ok (Some 0).
Proof. vm_compute. repeat split. Qed.

Lemma MustGetValue_SetMaxLevel_panics_witness :
  SetMaxLevel 0%Z (ex_after ex_resized_ok) = Panic PanicLevel
  ∧ (∃ st', SetMaxLevel 20%Z (ex_after ex_resized_ok)
            = Ok (Z.of_nat (hlen (ex_after ex_resized_ok)), st'))
  ∧ MustGetValue 25%Z (ex_after ex_resized_ok) = Panic PanicKeyNotFound
  ∧ MustGetValue 20%Z (ex_after ex_resized_ok) = Ok 200%Z.
Proof.
  destruct (MustGetValue_SetMaxLevel_panics NumberComparator ex_rnd [] 0 ex_resized_ok
              (ex_after ex_resized_ok) 25%Z 0%Z) as (H1 & _ & H3 & _).
  { exact NumberComparator_laws. } { apply foreign_nil. } { vm_compute. reflexivity. }
  { vm_compute. reflexivity. }
  destruct (MustGetValue_SetMaxLevel_panics NumberComparator ex_rnd [] 0 ex_resized_ok
              (ex_after ex_resized_ok) 20%Z 20%Z) as (_ & H2 & _ & H4).
  { exact NumberComparator_laws. } { apply foreign_nil. } { vm_compute. reflexivity. }
  { vm_compute. reflexivity. }
  split_and!.
  - apply H1. lia.
  - apply H2. lia.
  - apply H3. exact ex_resized_ok_no_25.
  - assert (∃ e, heap (ex_after ex_resized_ok) !! 0 = Some e
                 ∧ NumberComparator 20 (key e) = 0%Z ∧ Value e = 200%Z)
      as (e & He & Hk & <-).
    { eexists. split_and!; vm_compute; reflexivity. }
    apply (H4 0 e); [|exact He|exact Hk].
    apply list_elem_of_In. vm_compute. right. left. reflexivity.
Defined.

Lemma header_covers_levels_witness :
  1 ≤ maxLevel (sl (ex_after ex_resized)) ≤ hlen (ex_after ex_resized)
  ∧ (∃ level,
       randLevel (ex_after ex_resized)
       = Ok (level, set_sl (ex_after ex_resized)
                      (set_randPos (S (randPos (sl (ex_after ex_resized))))
                                   (sl (ex_after ex_resized))))
       ∧ 1 ≤ level ≤ maxLevel (sl (ex_after ex_resized))
       ∧ ∀ i v, i < level →
           i < hlen (ex_after ex_resized)
           ∧ ∃ st2, set_levels_at (ex_after ex_resized) HList i v = Ok st2)
  ∧ (∀ p e, heap (ex_after ex_resized) !! p = Some e →
       list_ e = Some (this (ex_after ex_resized)) → 1 ≤ Level e)
  ∧ (∀ k (v : Z) p st', Set' k v (ex_after ex_resized) = Ok (p, st') →
       (∃ e, heap (ex_after ex_resized) !! p = Some e)
       ∨ (p = length (heap (ex_after ex_resized))
          ∧ ∃ e', heap st' !! p = Some e'
                  ∧ 1 ≤ Level e' ≤ maxLevel (sl (ex_after ex_resized))
                  ∧ list_ e' = Some (this (ex_after ex_resized)))).
Proof.
  apply (header_covers_levels NumberComparator ex_rnd [] 0 ex_resized).
  - apply foreign_nil.
  - vm_compute. reflexivity.
Defined.

Lemma SetMaxLevel_shrink_cuts_live_level_witness :
  ∃ st' q, SetMaxLevel 1%Z (ex_after [OSet 20%Z 200%Z])
           = Ok (Z.of_nat (hlen (ex_after [OSet 20%Z 200%Z])), st')
           ∧ heap st' = heap (ex_after [OSet 20%Z 200%Z])
           ∧ q ∈ chain (ex_after [OSet 20%Z 200%Z])
           ∧ levels (lhdr (sl (ex_after [OSet 20%Z 200%Z]))) !! hlen st' = Some (Some q)
           ∧ hlen st' < level_at (ex_after [OSet 20%Z 200%Z]) q
           ∧ hlen st' < hlen (ex_after [OSet 20%Z 200%Z]).
Proof.
  apply (SetMaxLevel_shrink_cuts_live_level NumberComparator ex_rnd [] 0
           [OSet 20%Z 200%Z] (ex_after [OSet 20%Z 200%Z]) 1%Z 0).
  - exact NumberComparator_laws.
  - apply foreign_nil.
  - reflexivity.
  - vm_compute. reflexivity.
  - lia.
  - apply list_elem_of_In. vm_compute. left. reflexivity.
  - vm_compute. lia.
Defined.

(** The failing input of C1: an element of three levels, [SetMaxLevel(1)];
    the header is left with two levels, and [RemoveFront] then writes
    beyond it. *)
Lemma SetMaxLevel_shrink_then_RemoveFront_panics :
  run [OSet 20%Z 200%Z; OSetMaxLevel 1%Z] ex_fresh
  = Ok (ex_after [OSet 20%Z 200%Z; OSetMaxLevel 1%Z])
  ∧ level_at (ex_after [OSet 20%Z 200%Z]) 0 = 3
  ∧ levels (lhdr (sl (ex_after [OSet 20%Z 200%Z]))) !! 2 = Some (Some 0)
  ∧ hlen (ex_after [OSet 20%Z 200%Z; OSetMaxLevel 1%Z]) = 2
  ∧ fst <$> RemoveFront (ex_after [OSet 20%Z 200%Z; OSetMaxLevel 1%Z])
    = Panic IndexOutOfRange.
Proof. vm_compute. repeat split. Qed.

Lemma SetMaxLevel_regrow_exposes_spare_witness :
  ∃ st', SetMaxLevel 3%Z (ex_after [OSet 20%Z 200%Z; OSetMaxLevel 1%Z])
         = Ok (Z.of_nat (hlen (ex_after [OSet 20%Z 200%Z; OSetMaxLevel 1%Z])), st')
         ∧ levels (lhdr (sl st'))
           = levels (lhdr (sl (ex_after [OSet 20%Z 200%Z; OSetMaxLevel 1%Z])))
             ++ take (Z.to_nat 3 - hlen (ex_after [OSet 20%Z 200%Z; OSetMaxLevel 1%Z]))
                     (spare (lhdr (sl (ex_after [OSet 20%Z 200%Z; OSetMaxLevel 1%Z]))))
         ∧ heap st' = heap (ex_after [OSet 20%Z 200%Z; OSetMaxLevel 1%Z]).
Proof.
  apply (SetMaxLevel_regrow_exposes_spare
           (ex_after [OSet 20%Z 200%Z; OSetMaxLevel 1%Z]) 3%Z).
  - vm_compute. lia.
  - vm_compute. lia.
Defined.

(** The failing input of C2: after the shrink above, [SetMaxLevel(3)]
    brings the level 2 of the header back into view with the pointer that
    the shrink left in it. *)
Lemma SetMaxLevel_regrow_exposes_stale_pointer :
  hlen (ex_after [OSet 20%Z 200%Z; OSetMaxLevel 1%Z]) = 2
  ∧ (λ r, (r.1, levels (lhdr (sl r.2))))
      <$> SetMaxLevel 3%Z (ex_after [OSet 20%Z 200%Z; OSetMaxLevel 1%Z])
    = Ok (2%Z, [Some 0; Some 0; Some 0]).
Proof. vm_compute. repeat split. Qed.

Lemma operations_return_witness :
  ∃ st', exec (ORemoveElement (Some 2)) (ex_after ex_mixed) = Ok st'.
Proof.
  apply (operations_return NumberComparator ex_rnd [] 0 ex_mixed).
  - exact NumberComparator_laws.
  - apply foreign_nil.
  - reflexivity.
  - vm_compute. reflexivity.
  - reflexivity.
  - intros p [= <-]. vm_compute. lia.
Defined.

Lemma Set_absent_key_inserts_witness :
  ∃ st' l1 l2,
    Set' 25%Z 250%Z (ex_after ex_resized_ok) = Ok (length (heap (ex_after ex_resized_ok)), st')
    ∧ chain (ex_after ex_resized_ok) = l1 ++ l2
    ∧ chain st' = l1 ++ length (heap (ex_after ex_resized_ok)) :: l2
    ∧ (∀ q, q ∈ l1 → key_gt (ex_after ex_resized_ok) 25%Z q)
    ∧ (∀ q, q ∈ l2 → key_le (ex_after ex_resized_ok) 25%Z q)
    ∧ Len st' = (Len (ex_after ex_resized_ok) + 1)%Z
    ∧ Get 25%Z st' = Ok (Some (length (heap (ex_after ex_resized_ok))))
    ∧ MustGetValue 25%Z st' = Ok 250%Z.
Proof.
  apply (Set_absent_key_inserts NumberComparator ex_rnd [] 0 ex_resized_ok).
  - exact NumberComparator_laws.
  - apply foreign_nil.
  - vm_compute. reflexivity.
  - vm_compute. reflexivity.
  - exact ex_resized_ok_no_25.
Defined.

Lemma Remove_present_key_witness :
  ∃ st' l1 l2,
    Remove 20%Z (ex_after ex_resized_ok) = Ok (Some 0, st')
    ∧ chain (ex_after ex_resized_ok) = l1 ++ 0 :: l2 ∧ chain st' = l1 ++ l2
    ∧ Len st' = (Len (ex_after ex_resized_ok) - 1)%Z
    ∧ Get 20%Z st' = Ok None
    ∧ dead st' (Some 0).
Proof.
  apply (Remove_present_key NumberComparator ex_rnd [] 0 ex_resized_ok).
  - exact NumberComparator_laws.
  - apply foreign_nil.
  - vm_compute. reflexivity.
  - vm_compute. reflexivity.
  - apply list_elem_of_In. vm_compute. right. left. reflexivity.
  - apply key_eq_lookup. vm_compute. reflexivity.
Defined.

Lemma RemoveFront_RemoveBack_ends_witness :
  (∀ p l, chain (ex_after ex_resized_ok) = p :: l →
     ∃ st', RemoveFront (ex_after ex_resized_ok) = Ok (Some p, st') ∧ chain st' = l
            ∧ Len st' = (Len (ex_after ex_resized_ok) - 1)%Z)
  ∧ (∀ p l, chain (ex_after ex_resized_ok) = l ++ [p] →
       ∃ st', RemoveBack (ex_after ex_resized_ok) = Ok (Some p, st') ∧ chain st' = l
              ∧ Len st' = (Len (ex_after ex_resized_ok) - 1)%Z).
Proof.
  apply (RemoveFront_RemoveBack_ends NumberComparator ex_rnd [] 0 ex_resized_ok).
  - exact NumberComparator_laws.
  - apply foreign_nil.
  - vm_compute. reflexivity.
  - vm_compute. reflexivity.
Defined.

Lemma SetMaxLevel_keeps_elements_witness :
  ∃ st', SetMaxLevel 128%Z (ex_after [OSet 20%Z 200%Z; OSetMaxLevel 1%Z])
         = Ok (Z.of_nat (hlen (ex_after [OSet 20%Z 200%Z; OSetMaxLevel 1%Z])), st')
         ∧ heap st' = heap (ex_after [OSet 20%Z 200%Z; OSetMaxLevel 1%Z])
         ∧ Len st' = Len (ex_after [OSet 20%Z 200%Z; OSetMaxLevel 1%Z])
         ∧ Back st' = Back (ex_after [OSet 20%Z 200%Z; OSetMaxLevel 1%Z])
         ∧ chain st' = chain (ex_after [OSet 20%Z 200%Z; OSetMaxLevel 1%Z])
         ∧ MaxLevel st' = Z.to_nat 128.
Proof.
  apply (SetMaxLevel_keeps_elements NumberComparator ex_rnd [] 0
           [OSet 20%Z 200%Z; OSetMaxLevel 1%Z]).
  - apply foreign_nil.
  - vm_compute. reflexivity.
  - lia.
Defined.

(** [RemoveElement] on an element of another list, and on an element that
    [Remove] took out before. *)
Lemma RemoveElement_noop_idempotent_witness :
  RemoveElement (Some 0) ex_fresh_other = Ok ex_fresh_other
  ∧ RemoveElement (Some 0) (ex_after (ex_ops ++ [ORemove 20%Z]))
    = Ok (ex_after (ex_ops ++ [ORemove 20%Z])).
Proof.
  split.
  - apply (proj1 (RemoveElement_noop_idempotent ex_fresh_other (Some 0))).
    exists ex_other. split; [reflexivity|discriminate].
  - apply (proj1 (RemoveElement_noop_idempotent
                    (ex_after (ex_ops ++ [ORemove 20%Z])) (Some 0))).
    eexists. split; [vm_compute; reflexivity|vm_compute; discriminate].
Defined.


(** ** The operations after a [SetMaxLevel] that cut a level in use *)

Lemma ex_cut_run :
  run ex_cut (fresh NumberComparator ex_rnd3 [] 0) = Ok ex_cut_state.
Proof.
  assert (returned (run ex_cut (fresh NumberComparator ex_rnd3 [] 0)) = true)
    as H by (vm_compute; reflexivity).
  revert H. unfold ex_cut_state.
  by destruct (run ex_cut (fresh NumberComparator ex_rnd3 [] 0)).
Qed.

(** C5, as the code has it: the failing input.  The key 20 has 3 levels
    when [SetMaxLevel(1)] cuts the header to 2, which is the defect of C1;
    after [SetMaxLevel(128)] the key 30, with 3 levels again, is linked
    from the header at level 2 and removed, and the header keeps pointing
    to it there.  The list holds the keys 20 and 40, and [Set] on the key
    40 runs into the removed element and panics on its empty levels. *)
Lemma Set_existing_key_panics_after_cut :
  run ex_cut (fresh NumberComparator ex_rnd3 [] 0) = Ok ex_cut_state
  ∧ keys ex_cut_state = [20; 40]%Z
  ∧ Get 40%Z ex_cut_state = Panic IndexOutOfRange
  ∧ Set' 40%Z 999%Z ex_cut_state = Panic IndexOutOfRange.
Proof. split; [exact ex_cut_run|]. split_and!; vm_compute; reflexivity. Qed.

(** C6, as the code has it: on the same list, which holds the keys 20 and
    40 in the elements 0 and 2, [Find] and [Get] on the key 30 return the
    element 1, which was removed and is no element of the chain. *)
Lemma Find_returns_removed_after_cut :
  run ex_cut (fresh NumberComparator ex_rnd3 [] 0) = Ok ex_cut_state
  ∧ chain ex_cut_state = [0; 2] ∧ keys ex_cut_state = [20; 40]%Z
  ∧ Find 30%Z ex_cut_state = Ok (Some 1)
  ∧ Get 30%Z ex_cut_state = Ok (Some 1)
  ∧ list_ <$> heap ex_cut_state !! 1 = Some None.
Proof. split; [exact ex_cut_run|]. split_and!; vm_compute; reflexivity. Qed.

(** C9, as the code has it: on the same list [MustGetValue] on the key 30,
    which the list does not hold, returns the value of the removed element
    and does not panic, and on the key 40, which the list holds, it panics
    with an index out of range. *)
Lemma MustGetValue_wrong_after_cut :
  run ex_cut (fresh NumberComparator ex_rnd3 [] 0) = Ok ex_cut_state
  ∧ keys ex_cut_state = [20; 40]%Z
  ∧ MustGetValue 30%Z ex_cut_state = Ok 300%Z
  ∧ MustGetValue 40%Z ex_cut_state = Panic IndexOutOfRange.
Proof. split; [exact ex_cut_run|]. split_and!; vm_compute; reflexivity. Qed.

(** * Further properties of the operations *)

Section Further.

Context {K V : Type}.
Implicit Types (st : @state K V) (ns : list (@anode K)) (e : @Element K V).
Variables (cmp : K → K → Z) (rnd : nat → Z) (h : list (@Element K V)) (id : nat).

(** [Front] is the first element of the level-0 chain; [Next] of an
    element of the chain is the element after it and [Prev] the element
    before it, nil at the ends; walking from [Back] by [Prev] visits the
    elements of the chain in reverse. *)
Theorem Front_Next_Prev_walk os st :
  Comparator cmp → foreign id h → forallb plain os = true →
  run os (fresh cmp rnd h id) = Ok st →
  Front st = Ok (head (chain st))
  ∧ (∀ l1 p l2, chain st = l1 ++ p :: l2 →
       ∃ e, heap st !! p = Some e ∧ Next e = head l2 ∧ Prev e = last l1)
  ∧ rchain st = reverse (chain st).
Proof.
  intros Hcmp Hf Hpl Hrun.
  destruct (reach_WF cmp rnd h id os st Hcmp Hf Hpl Hrun) as (ns & Hwf & Hc).
  rewrite <-Hc in Hcmp. split_and!.
  - rewrite (Front_spec st ns Hwf), (chain_spec st ns Hwf). f_equal.
    by destruct ns.
  - intros l1 p l2 Hchain.
    destruct (chain_split st ns l1 p l2 Hwf Hchain) as (pre & a & post & Hns & <- & <- & <-).
    assert (a ∈ ns) as Ha by (rewrite Hns; apply elem_of_app; right; by left).
    destruct (wf_base _ _ Hwf a Ha) as (e & He & _).
    exists e. split_and!; [done| |].
    + rewrite (Next_spec st ns Hwf pre a post e Hns He). by destruct post.
    + rewrite (Prev_spec st ns Hwf pre a post e Hns He). by rewrite fmap_last.
  - by apply (rchain_spec st ns).
Qed.

(** In every state that the operations reach from a new list without a
    [SetMaxLevel] below the levels in use ([resizes_ok]),
    [NextLevel(level)] of an element of the chain is the first element
    after it that has more than [level] levels, and nil when there is none
    or when [level] is negative or not below the level of the element;
    [NextLevel(0)] is [Next]. *)
Theorem NextLevel_first_above os st l1 p l2 e level :
  Comparator cmp → foreign id h → resizes_ok os (fresh cmp rnd h id) = true →
  run os (fresh cmp rnd h id) = Ok st →
  chain st = l1 ++ p :: l2 → heap st !! p = Some e →
  NextLevel e level
  = (if decide (0 ≤ level < Z.of_nat (Level e))%Z
     then first_above st (Z.to_nat level) l2 else None)
  ∧ NextLevel e 0 = Next e.
Proof.
  intros Hcmp Hf Hpl Hrun Hchain He.
  destruct (safe_WF cmp rnd h id os st Hcmp Hf Hpl Hrun) as (ns & Hwf & Hc & _).
  destruct (chain_split st ns l1 p l2 Hwf Hchain) as (pre & a & post & Hns & <- & <- & <-).
  assert (a ∈ ns) as Ha by (rewrite Hns; apply elem_of_app; right; by left).
  destruct (node_lookup st ns a e Hwf Ha He) as (_ & HL & _).
  split.
  - rewrite HL. by apply (NextLevel_spec st ns Hwf pre a post e).
  - unfold NextLevel, Next, Level. by destruct (levels (ehdr e)) as [|n l].
Qed.

(** In every state that the operations reach from a new list without a
    [SetMaxLevel] below the levels in use ([resizes_ok]),
    [PrevLevel(level)] of an element of the chain is the nearest element
    before it that has more than [level] levels, which is the element whose
    [NextLevel(level)] it is; it is nil when there is none, or when [level]
    is negative or not below the level of the element. *)
Theorem PrevLevel_nearest_above os st l1 p l2 level :
  Comparator cmp → foreign id h → resizes_ok os (fresh cmp rnd h id) = true →
  run os (fresh cmp rnd h id) = Ok st →
  chain st = l1 ++ p :: l2 →
  PrevLevel st (Some p) level
  = Ok (if decide (0 ≤ level < Z.of_nat (level_at st p))%Z
        then nearest_ge st (S (Z.to_nat level)) l1 else None)
  ∧ (∀ q, PrevLevel st (Some p) level = Ok (Some q) →
       ∃ e, heap st !! q = Some e ∧ NextLevel e level = Some p).
Proof.
  intros Hcmp Hf Hpl Hrun Hchain.
  destruct (safe_WF cmp rnd h id os st Hcmp Hf Hpl Hrun) as (ns & Hwf & Hc & _).
  destruct (chain_split st ns l1 p l2 Hwf Hchain) as (pre & a & post & Hns & <- & <- & <-).
  assert (a ∈ ns) as Ha by (rewrite Hns; apply elem_of_app; right; by left).
  rewrite (level_at_node st ns Hwf a Ha).
  rewrite (PrevLevel_spec st ns Hwf pre a post level Hns).
  split.
  - f_equal. destruct (decide _); [|done].
    apply (lastge_nearest st ns Hwf). intros b Hb. rewrite Hns. apply elem_of_app. by left.
  - intros q [= Hq]. destruct (decide _) as [Hin|]; [|done].
    destruct (lastge_Some _ _ _ Hq) as (m1 & b & m2 & Hpre & <- & Hb & Hm2).
    assert (ns = m1 ++ b :: (m2 ++ a :: post)) as Hns'.
    { rewrite Hns, Hpre, <-app_assoc. done. }
    assert (b ∈ ns) as Hbn by (rewrite Hns'; apply elem_of_app; right; by left).
    destruct (wf_base _ _ Hwf b Hbn) as (e & He & HL & _).
    exists e. split; [done|].
    rewrite (NextLevel_spec st ns Hwf m1 b (m2 ++ a :: post) e level Hns' He).
    rewrite decide_True by lia.
    rewrite <-(nxt_first_above st ns Hwf).
    2:{ intros c Hc'. rewrite Hns'. apply elem_of_app. right. by right. }
    apply nxt_first; [|lia].
    eapply Forall_impl; [exact Hm2|]. simpl. lia.
Qed.

(** In every state that the operations reach from a new list without a
    [SetMaxLevel] below the levels in use ([resizes_ok]), [RemoveElement]
    on an element of the chain returns, and the element keeps its key and
    its value and loses its levels and its neighbours: [Level] is 0 and
    [Next], [Prev], [NextLevel] and [PrevLevel] return nil.  [FindNext]
    does not check that its start is an element of the list: from the
    removed element it returns nil when the list has no element left, and
    else that element for every key that is not above its key, and nil for
    the others. *)
Theorem removed_element_detached os st p e :
  Comparator cmp → foreign id h → resizes_ok os (fresh cmp rnd h id) = true →
  run os (fresh cmp rnd h id) = Ok st →
  p ∈ chain st → heap st !! p = Some e →
  ∃ st' e', RemoveElement (Some p) st = Ok st'
    ∧ heap st' !! p = Some e'
    ∧ key e' = key e ∧ Value e' = Value e
    ∧ Level e' = 0 ∧ Next e' = None ∧ Prev e' = None
    ∧ (∀ level, NextLevel e' level = None ∧ PrevLevel st' (Some p) level = Ok None)
    ∧ (p ∉ chain st')
    ∧ (∀ k, FindNext (Some p) k st'
            = Ok (if (Len st' =? 0)%Z then None
                  else if (cmp k (key e) <=? 0)%Z then Some p else None)).
Proof.
  intros Hcmp Hf Hpl Hrun Hp He.
  destruct (safe_WF cmp rnd h id os st Hcmp Hf Hpl Hrun) as (ns & Hwf & Hc & _).
  destruct (chain_elem st ns p Hwf Hp) as (a & Ha & <-).
  destruct (list_elem_of_split _ _ Ha) as (pre & post & Hns).
  pose proof Hwf as Hwf0. rewrite Hns in Hwf0.
  destruct (RemoveElement_spec st pre a post Hwf0)
    as (st' & e0 & HR & Hwf' & He0 & (e' & He' & _ & Hv & Hk) & _ & Hc' & _).
  assert (e0 = e) as -> by congruence.
  destruct (node_lookup st ns a e Hwf Ha He) as (_ & _ & Hl).
  destruct (RemoveElement_reset st (aptr a) e st' He Hl HR) as (e1 & He1).
  assert (e' = reset e1) as He'r by congruence.
  assert (Level e' = 0) as HL by (by rewrite He'r).
  exists st', e'. split_and!; try done.
  - by rewrite He'r.
  - by rewrite He'r.
  - intros level. split.
    + unfold NextLevel. rewrite HL. by rewrite decide_True by lia.
    + unfold PrevLevel, load. rewrite (deref_Some _ _ _ He'). rsimpl.
      rewrite HL. by rewrite decide_True by lia.
  - rewrite (chain_spec st' _ Hwf').
    pose proof (wf_nodup _ _ Hwf) as Hnd. rewrite Hns in Hnd.
    rewrite fmap_app, fmap_cons in Hnd. apply NoDup_app in Hnd as (_ & Hnd1 & Hnd2).
    apply NoDup_cons in Hnd2 as [Hnd2 _]. rewrite fmap_app.
    intros [Hin|Hin]%elem_of_app; [|done]. apply (Hnd1 _ Hin). by left.
  - intros k. unfold FindNext.
    rewrite (findNext_detached st' _ k (aptr a) e' Hwf' He' HL).
    by rewrite Hc', Hc, Hk.
Qed.


(** [Init] leaves a list without elements: [Len] is 0, [Front] and [Back]
    are nil, the searches return nil and the removals do nothing, and the
    header keeps its length.  [Set] then adds the first element as it
    does on a new list.  [Init] writes to no element: the elements that
    were in the list keep the list as their owner. *)
Theorem Init_empties os st :
  Comparator cmp → foreign id h → forallb plain os = true →
  run os (fresh cmp rnd h id) = Ok st →
  Len (Init st) = 0%Z ∧ Front (Init st) = Ok None ∧ Back (Init st) = None
  ∧ chain (Init st) = [] ∧ hlen (Init st) = hlen st
  ∧ MaxLevel (Init st) = MaxLevel st
  ∧ (∀ k, Find k (Init st) = Ok None ∧ Get k (Init st) = Ok None
          ∧ GetValue k (Init st) = Ok None
          ∧ Remove k (Init st) = Ok (None, Init st))
  ∧ RemoveFront (Init st) = Ok (None, Init st)
  ∧ RemoveBack (Init st) = Ok (None, Init st)
  ∧ (∀ k (v : V), ∃ st',
       Set' k v (Init st) = Ok (length (heap st), st')
       ∧ chain st' = [length (heap st)] ∧ Len st' = 1%Z
       ∧ Get k st' = Ok (Some (length (heap st)))
       ∧ MustGetValue k st' = Ok v)
  ∧ (∀ p, p ∈ chain st →
       ∃ e, heap st !! p = Some e ∧ heap (Init st) !! p = Some e
            ∧ list_ e = Some (this (Init st))).
Proof.
  intros Hcmp Hf Hpl Hrun.
  destruct (reach_WF cmp rnd h id os st Hcmp Hf Hpl Hrun) as (ns & Hwf & Hc).
  pose proof (run_sizes os _ st (fresh_sizes cmp rnd h id Hf) Hrun) as Hsz.
  assert (hlen (Init st) = hlen st) as Hhl.
  { unfold hlen, Init. cbn [sl set_sl set_lhdr lhdr levels]. apply length_replicate. }
  assert (sizes_ok (Init st)) as Hsz'.
  { destruct Hsz as (Hm & Hpt & Hlv). split; [|split; [exact Hpt|exact Hlv]].
    rewrite Hhl. exact Hm. }
  assert (0 < hlen st) as Hh by (destruct Hsz as (? & _); lia).
  assert (∀ k, Get k (Init st) = Ok None) as HG by done.
  split_and!; try done.
  - unfold Front, Init. cbn [sl set_sl set_lhdr lhdr levels].
    apply index_Some. apply lookup_replicate_2. exact Hh.
  - unfold chain, Init. cbn [sl set_sl set_lhdr lhdr levels heap].
    rewrite lookup_replicate_2 by exact Hh. simpl. by destruct (length (heap st)).
  - intros k v.
    destruct (Set_empty (Init st) k v Hsz' eq_refl)
      as (level & st' & HS & Hlevel & Hheap & Hfront & Hlen & Hback & Hc').
    change (heap (Init st)) with (heap st) in *.
    set (x := length (heap st)) in *.
    assert (∃ e, heap st' !! x = Some e ∧ key e = k ∧ Value e = v ∧ Next e = None)
      as (e & He & Hk & Hv & Hn).
    { eexists. split; [rewrite Hheap; apply list_lookup_middle; done|].
      split_and!; try done. unfold Next. simpl. by destruct level; [lia|]. }
    assert (Get k st' = Ok (Some x)) as HG'.
    { apply (Get_single st' k x e Hfront He); [lia|]. rewrite Hk, Hc'.
      change (comparable (sl (Init st))) with (comparable (sl st)). rewrite Hc.
      apply (cmp_refl _ Hcmp). }
    exists st'. split_and!; [done| |done|done|].
    + by apply (chain_single st' x e).
    + unfold MustGetValue. rewrite HG'. rsimpl. rewrite (deref_Some _ _ _ He). rsimpl.
      by rewrite Hv.
  - intros p Hp. destruct (chain_elem st ns p Hwf Hp) as (a & Ha & <-).
    destruct (wf_base _ _ Hwf a Ha) as (e & He & _ & _ & Hl). by exists e.
Qed.


(** The list is an ordered map: the keys and values of the level-0 chain
    are the bindings of the map that [spec_map] builds from the
    operations, in which [Set] on a key that is there replaces the value
    and keeps the key; [GetValue] is the lookup in that map, and [Len] the
    number of its bindings. *)
Theorem entries_refine_map os st :
  Comparator cmp → foreign id h → forallb plain os = true →
  run os (fresh cmp rnd h id) = Ok st →
  entries st = spec_map cmp os (fresh cmp rnd h id) []
  ∧ (entries st).*1 = keys st
  ∧ Len st = Z.of_nat (length (entries st))
  ∧ ∀ k, GetValue k st = Ok (spec_get cmp k (entries st)).
Proof.
  intros Hcmp Hf Hpl Hrun.
  destruct (run_entries os (fresh cmp rnd h id) [] st Hcmp (fresh_WF cmp rnd h id Hf) Hpl Hrun)
    as (ns & Hwf & Hc & He).
  change (comparable (sl (fresh cmp rnd h id))) with cmp in Hc, He.
  change (entries_of (fresh cmp rnd h id) (aptr <$> [])) with (@nil (K * V)) in He.
  rewrite <-Hc in Hcmp.
  rewrite (entries_spec st ns Hwf). split_and!.
  - done.
  - by rewrite (keys_spec st ns Hwf), (entries_of_keys st ns Hwf).
  - by rewrite (entries_of_length st ns Hwf), (Len_spec st ns Hwf).
  - intros k. rewrite <-Hc. apply (GetValue_entries st ns Hwf Hcmp).
Qed.


(** [Reverse] negates in Go's [int]: the result is the negation unless
    the comparator returns the least [int], which it maps to itself.  For
    a comparator that never returns the least [int], [Reverse] is a
    comparator again, and a list made with it holds its keys in descending
    order of the comparator. *)
Theorem Reverse_keys_descending os st :
  Comparator cmp → (∀ a b, (- 2 ^ 63 ≤ cmp a b < 2 ^ 63)%Z) →
  foreign id h → forallb plain os = true →
  run os (fresh (Reverse cmp) rnd h id) = Ok st →
  (∀ a b, Reverse cmp a b
          = if decide (cmp a b = - 2 ^ 63)%Z then (- 2 ^ 63)%Z else (- cmp a b)%Z)
  ∧ ((∀ a b, cmp a b ≠ (- 2 ^ 63)%Z) →
       Comparator (Reverse cmp)
       ∧ StronglySorted (λ a b, (cmp b a < 0)%Z) (keys st)).
Proof.
  intros Hcmp Hr Hf Hpl Hrun. split.
  - intros a b. destruct (decide _) as [Hm|Hm]; [by apply Reverse_min|].
    apply Reverse_small. specialize (Hr a b). lia.
  - intros Hm.
    assert (∀ a b, (- 2 ^ 63 < cmp a b < 2 ^ 63)%Z) as Hr'.
    { intros a b. specialize (Hr a b). specialize (Hm a b). lia. }
    pose proof (Reverse_laws cmp Hcmp Hr') as Hrev. split; [done|].
    destruct (reach_WF (Reverse cmp) rnd h id os st Hrev Hf Hpl Hrun) as (ns & Hwf & Hc).
    eapply StronglySorted_weaken; [|apply (keys_sorted st ns Hwf)].
    intros a b. rewrite Hc, Reverse_small by done. intros Hab.
    apply (cmp_lt_gt _ Hcmp). lia.
Qed.


(** A [SetMaxLevel] that is not below the levels in use does no harm: in
    every state that [Set], [Remove], [RemoveFront], [RemoveBack],
    [RemoveElement] and such [SetMaxLevel] reach from a new list
    ([resizes_ok]), the level-0 chain is strictly ascending and without
    repetition, [Len] is its length and [Back] its last element, every
    [prevTopLevel] is the nearest element before that is at least as
    high, the keys and values are the bindings of the map that [spec_map]
    builds from the operations, [GetValue] is the lookup in it, and every
    inserting or removing operation returns. *)
Theorem resizes_ok_list_intact os st :
  Comparator cmp → foreign id h → resizes_ok os (fresh cmp rnd h id) = true →
  run os (fresh cmp rnd h id) = Ok st →
  StronglySorted (node_lt st) (chain st) ∧ NoDup (chain st)
  ∧ Len st = Z.of_nat (length (chain st)) ∧ Back st = last (chain st)
  ∧ (∀ l1 p l2, chain st = l1 ++ p :: l2 →
       prevTopLevel <$> heap st !! p = Some (nearest_ge st (level_at st p) l1))
  ∧ entries st = spec_map cmp os (fresh cmp rnd h id) []
  ∧ (∀ k, GetValue k st = Ok (spec_get cmp k (entries st)))
  ∧ (∀ o : @op K V, plain o = true →
       (∀ p, o = ORemoveElement (Some p) → p < length (heap st)) →
       ∃ st', exec o st = Ok st').
Proof.
  intros Hcmp Hf Hg Hrun.
  destruct (safe_WF cmp rnd h id os st Hcmp Hf Hg Hrun) as (ns & Hwf & Hc & He).
  rewrite <-Hc in Hcmp.
  pose proof (chain_spec st ns Hwf) as Hchain.
  split_and!.
  - by eapply node_lt_sorted.
  - rewrite Hchain. apply (wf_nodup _ _ Hwf).
  - unfold Len. by rewrite (wf_len _ _ Hwf), Hchain, length_fmap.
  - unfold Back. by rewrite (wf_back _ _ Hwf), Hchain, fmap_last.
  - intros l1 p l2 Hl.
    destruct (chain_split st ns l1 p l2 Hwf Hl) as (pre & a & post & Hns & <- & <- & _).
    assert (a ∈ ns) as Ha by (rewrite Hns; apply elem_of_app; right; by left).
    destruct (wf_base _ _ Hwf a Ha) as (e & He' & HL & _).
    rewrite He'. simpl. f_equal.
    rewrite (wf_top _ _ Hwf pre a post e Hns He').
    rewrite (level_at_node st ns Hwf a Ha).
    apply (lastge_nearest st ns Hwf). intros b Hb. rewrite Hns. apply elem_of_app. by left.
  - done.
  - intros k. rewrite (entries_spec st ns Hwf), <-Hc.
    apply (GetValue_entries st ns Hwf Hcmp).
  - intros o Hpo Hp.
    destruct (exec_WF o st ns Hcmp Hwf Hpo Hp) as (st' & _ & ? & _). by exists st'.
Qed.


End Further.

Lemma Front_Next_Prev_walk_witness :
  Front (ex_after ex_tall) = Ok (head (chain (ex_after ex_tall)))
  ∧ (∀ l1 p l2, chain (ex_after ex_tall) = l1 ++ p :: l2 →
       ∃ e, heap (ex_after ex_tall) !! p = Some e ∧ Next e = head l2 ∧ Prev e = last l1)
  ∧ rchain (ex_after ex_tall) = reverse (chain (ex_after ex_tall)).
Proof.
  apply (Front_Next_Prev_walk NumberComparator ex_rnd [] 0 ex_tall).
  - exact NumberComparator_laws.
  - apply foreign_nil.
  - reflexivity.
  - vm_compute. reflexivity.
Defined.

Lemma NextLevel_first_above_witness :
  ∃ e, heap (ex_after ex_tall_ok) !! 2 = Some e
       ∧ NextLevel e 1
         = (if decide (0 ≤ 1 < Z.of_nat (Level e))%Z
            then first_above (ex_after ex_tall_ok) (Z.to_nat 1) [3; 0] else None)
       ∧ NextLevel e 0 = Next e.
Proof.
  eexists. split; [vm_compute; reflexivity|].
  apply (NextLevel_first_above NumberComparator ex_rnd [] 0 ex_tall_ok
           (ex_after ex_tall_ok) [1] 2 [3; 0]).
  - exact NumberComparator_laws.
  - apply foreign_nil.
  - vm_compute. reflexivity.
  - vm_compute. reflexivity.
  - vm_compute. reflexivity.
  - vm_compute. reflexivity.
Defined.

Lemma PrevLevel_nearest_above_witness :
  PrevLevel (ex_after ex_tall_ok) (Some 0) 1
  = Ok (if decide (0 ≤ 1 < Z.of_nat (level_at (ex_after ex_tall_ok) 0))%Z
        then nearest_ge (ex_after ex_tall_ok) (S (Z.to_nat 1)) [1; 2; 3] else None)
  ∧ (∀ q, PrevLevel (ex_after ex_tall_ok) (Some 0) 1 = Ok (Some q) →
       ∃ e, heap (ex_after ex_tall_ok) !! q = Some e ∧ NextLevel e 1 = Some 0).
Proof.
  apply (PrevLevel_nearest_above NumberComparator ex_rnd [] 0 ex_tall_ok
           (ex_after ex_tall_ok) [1; 2; 3] 0 []).
  - exact NumberComparator_laws.
  - apply foreign_nil.
  - vm_compute. reflexivity.
  - vm_compute. reflexivity.
  - vm_compute. reflexivity.
Defined.

Lemma removed_element_detached_witness :
  ∃ e, heap (ex_after ex_tall_ok) !! 2 = Some e
  ∧ ∃ st' e', RemoveElement (Some 2) (ex_after ex_tall_ok) = Ok st'
    ∧ heap st' !! 2 = Some e'
    ∧ key e' = key e ∧ Value e' = Value e
    ∧ Level e' = 0 ∧ Next e' = None ∧ Prev e' = None
    ∧ (∀ level, NextLevel e' level = None ∧ PrevLevel st' (Some 2) level = Ok None)
    ∧ (2 ∉ chain st')
    ∧ (∀ k, FindNext (Some 2) k st'
            = Ok (if (Len st' =? 0)%Z then None
                  else if (NumberComparator k (key e) <=? 0)%Z then Some 2 else None)).
Proof.
  eexists. split; [vm_compute; reflexivity|].
  apply (removed_element_detached NumberComparator ex_rnd [] 0 ex_tall_ok).
  - exact NumberComparator_laws.
  - apply foreign_nil.
  - vm_compute. reflexivity.
  - vm_compute. reflexivity.
  - vm_compute. apply list_elem_of_In. simpl. tauto.
  - vm_compute. reflexivity.
Defined.

Lemma Init_empties_witness :
  Len (Init (ex_after ex_tall)) = 0%Z ∧ Front (Init (ex_after ex_tall)) = Ok None
  ∧ Back (Init (ex_after ex_tall)) = None
  ∧ chain (Init (ex_after ex_tall)) = []
  ∧ hlen (Init (ex_after ex_tall)) = hlen (ex_after ex_tall)
  ∧ MaxLevel (Init (ex_after ex_tall)) = MaxLevel (ex_after ex_tall)
  ∧ (∀ k, Find k (Init (ex_after ex_tall)) = Ok None
          ∧ Get k (Init (ex_after ex_tall)) = Ok None
          ∧ GetValue k (Init (ex_after ex_tall)) = Ok None
          ∧ Remove k (Init (ex_after ex_tall)) = Ok (None, Init (ex_after ex_tall)))
  ∧ RemoveFront (Init (ex_after ex_tall)) = Ok (None, Init (ex_after ex_tall))
  ∧ RemoveBack (Init (ex_after ex_tall)) = Ok (None, Init (ex_after ex_tall))
  ∧ (∀ k (v : Z), ∃ st',
       Set' k v (Init (ex_after ex_tall)) = Ok (length (heap (ex_after ex_tall)), st')
       ∧ chain st' = [length (heap (ex_after ex_tall))] ∧ Len st' = 1%Z
       ∧ Get k st' = Ok (Some (length (heap (ex_after ex_tall))))
       ∧ MustGetValue k st' = Ok v)
  ∧ (∀ p, p ∈ chain (ex_after ex_tall) →
       ∃ e, heap (ex_after ex_tall) !! p = Some e
            ∧ heap (Init (ex_after ex_tall)) !! p = Some e
            ∧ list_ e = Some (this (Init (ex_after ex_tall)))).
Proof.
  apply (Init_empties NumberComparator ex_rnd [] 0 ex_tall).
  - exact NumberComparator_laws.
  - apply foreign_nil.
  - reflexivity.
  - vm_compute. reflexivity.
Defined.

Lemma entries_refine_map_witness :
  entries (ex_after ex_mixed) = spec_map NumberComparator ex_mixed ex_fresh []
  ∧ (entries (ex_after ex_mixed)).*1 = keys (ex_after ex_mixed)
  ∧ Len (ex_after ex_mixed) = Z.of_nat (length (entries (ex_after ex_mixed)))
  ∧ ∀ k, GetValue k (ex_after ex_mixed)
         = Ok (spec_get NumberComparator k (entries (ex_after ex_mixed))).
Proof.
  apply (entries_refine_map NumberComparator ex_rnd [] 0 ex_mixed).
  - exact NumberComparator_laws.
  - apply foreign_nil.
  - reflexivity.
  - vm_compute. reflexivity.
Defined.

Section Integers.

Context {V : Type}.
Variables (rnd : nat → Z) (h : list (@Element Z V)) (id : nat).

(** [NumberComparator] on integers is the sign of the difference, so in
    every state that the operations reach from a new list made with it,
    without a [SetMaxLevel] below the levels in use ([resizes_ok]), the
    keys are in ascending order, each once, and [Get] finds a key exactly
    when the list holds that key. *)
Theorem NumberComparator_keys_ascending os st :
  foreign id h → resizes_ok os (fresh NumberComparator rnd h id) = true →
  run os (fresh NumberComparator rnd h id) = Ok st →
  (∀ a b, NumberComparator a b = Z.sgn (a - b))
  ∧ StronglySorted Z.lt (keys st)
  ∧ ∀ k, k ∈ keys st ↔ ∃ p, Get k st = Ok (Some p).
Proof.
  intros Hf Hpl Hrun.
  destruct (safe_WF NumberComparator rnd h id os st NumberComparator_laws Hf Hpl Hrun)
    as (ns & Hwf & Hc & _).
  pose proof NumberComparator_laws as Hcmp. rewrite <-Hc in Hcmp.
  split_and!.
  - apply NumberComparator_sgn.
  - eapply StronglySorted_weaken; [|apply (keys_sorted st ns Hwf)].
    intros a b. rewrite Hc, NumberComparator_sgn. lia.
  - intros k. rewrite (keys_elem st ns k Hwf). split.
    + intros (a & Ha & <-). exists (aptr a).
      apply (Get_hit st ns Hwf Hcmp (akey a) a Ha). apply (cmp_refl _ Hcmp).
    + intros (p & HG).
      destruct (key_found st ns Hwf Hcmp k) as [(d & Hd & Hk)|Hno].
      * exists d. split; [done|]. rewrite Hc, NumberComparator_sgn in Hk. lia.
      * by rewrite (Get_miss st ns Hwf Hcmp k Hno) in HG.
Qed.

End Integers.

Lemma NumberComparator_keys_ascending_witness :
  (∀ a b, NumberComparator a b = Z.sgn (a - b))
  ∧ StronglySorted Z.lt (keys (ex_after ex_resized_ok))
  ∧ ∀ k, k ∈ keys (ex_after ex_resized_ok) ↔ ∃ p, Get k (ex_after ex_resized_ok) = Ok (Some p).
Proof.
  apply (NumberComparator_keys_ascending ex_rnd [] 0 ex_resized_ok).
  - apply foreign_nil.
  - vm_compute. reflexivity.
  - vm_compute. reflexivity.
Defined.

Lemma NumberComparator_range a b : (- 2 ^ 63 ≤ NumberComparator a b < 2 ^ 63)%Z.
Proof. rewrite NumberComparator_sgn. lia. Qed.

Lemma ex_reversed_run :
  run ex_ops (fresh (Reverse NumberComparator) ex_rnd [] 0) = Ok ex_reversed.
Proof.
  assert (returned (run ex_ops (fresh (Reverse NumberComparator) ex_rnd [] 0)) = true)
    as H by (vm_compute; reflexivity).
  revert H. unfold ex_reversed.
  by destruct (run ex_ops (fresh (Reverse NumberComparator) ex_rnd [] 0)).
Qed.

Lemma Reverse_keys_descending_witness :
  (∀ a b, Reverse NumberComparator a b
          = if decide (NumberComparator a b = - 2 ^ 63)%Z
            then (- 2 ^ 63)%Z else (- NumberComparator a b)%Z)
  ∧ Comparator (Reverse NumberComparator)
  ∧ StronglySorted (λ a b, (NumberComparator b a < 0)%Z) (keys ex_reversed).
Proof.
  destruct (Reverse_keys_descending NumberComparator ex_rnd [] 0 ex_ops ex_reversed)
    as [H1 H2].
  - exact NumberComparator_laws.
  - exact NumberComparator_range.
  - apply foreign_nil.
  - reflexivity.
  - exact ex_reversed_run.
  - split; [exact H1|]. apply H2.
    intros a b. rewrite NumberComparator_sgn. lia.
Defined.

(** [BytesComparator] compares the first 8 bytes of the keys, a shorter
    key counting as one with zero bytes after it, byte by byte from the
    first: it is a comparator, keys that agree on their first 8 bytes are
    equal keys to it, and so are a key and that key with zero bytes after
    it. *)
Theorem BytesComparator_first_8_bytes a b :
  BytesComparator a b = lex_compare (pad8 a) (pad8 b)
  ∧ bytesScore a = big_endian (pad8 a)
  ∧ (BytesComparator a b = 0%Z ↔ pad8 a = pad8 b)
  ∧ (∀ s1 s2, length a = 8 → BytesComparator (a ++ s1) (a ++ s2) = 0%Z)
  ∧ (∀ n, BytesComparator a (a ++ replicate n "000"%byte) = 0%Z)
  ∧ Comparator BytesComparator.
Proof.
  split_and!.
  - apply BytesComparator_spec.
  - apply bytesScore_spec.
  - apply BytesComparator_eq.
  - intros s1 s2 Ha. apply BytesComparator_eq. by rewrite !pad8_prefix.
  - intros n. apply BytesComparator_eq. by rewrite pad8_zeros.
  - apply BytesComparator_laws.
Qed.

(** [resetLevels] sets every entry of a slice to nil, whatever its length,
    and panics on the empty slice, whose entry 0 it writes first. *)
Theorem resetLevels_clears (levels : list (option nat)) :
  resetLevels levels
  = if decide (levels = []) then Panic IndexOutOfRange
    else Ok (replicate (length levels) None).
Proof. apply resetLevels_spec. Qed.

Lemma resizes_ok_list_intact_witness :
  StronglySorted (node_lt (ex_after ex_resized_ok)) (chain (ex_after ex_resized_ok))
  ∧ NoDup (chain (ex_after ex_resized_ok))
  ∧ Len (ex_after ex_resized_ok) = Z.of_nat (length (chain (ex_after ex_resized_ok)))
  ∧ Back (ex_after ex_resized_ok) = last (chain (ex_after ex_resized_ok))
  ∧ (∀ l1 p l2, chain (ex_after ex_resized_ok) = l1 ++ p :: l2 →
       prevTopLevel <$> heap (ex_after ex_resized_ok) !! p
       = Some (nearest_ge (ex_after ex_resized_ok)
                 (level_at (ex_after ex_resized_ok) p) l1))
  ∧ entries (ex_after ex_resized_ok)
    = spec_map NumberComparator ex_resized_ok ex_fresh []
  ∧ (∀ k, GetValue k (ex_after ex_resized_ok)
          = Ok (spec_get NumberComparator k (entries (ex_after ex_resized_ok))))
  ∧ (∀ o : @op Z Z, plain o = true →
       (∀ p, o = ORemoveElement (Some p) → p < length (heap (ex_after ex_resized_ok))) →
       ∃ st', exec o (ex_after ex_resized_ok) = Ok st').
Proof.
  apply (resizes_ok_list_intact NumberComparator ex_rnd [] 0 ex_resized_ok).
  - exact NumberComparator_laws.
  - apply foreign_nil.
  - vm_compute. reflexivity.
  - vm_compute. reflexivity.
Defined.
